(** * Ligature rich-text editor: a shallow embedding of its editing core

    The development follows the JavaScript sources of the editor:

    - [Dom]                  the part of the browser's DOM the code relies on
    - [SelectionPersistence] src/src/selectionContext.js (second module of the file)
    - [Sanitize]             src/src/sanitize.js
    - [DataFilter]           src/src/dataFilter.js
    - [UndoManager]          src/src/undoManager.js
    - [RichTextEditor]       src/src/richTextEditor.js
    - [UndoRedo]             src/src/undoManager.js, undo and redo
    - [DataFilterText]       src/src/dataFilter.js, the filters on strings
    - [DataFilterFrames]     src/src/dataFilter.js, the inline frames

    Definitions come first; the modules whose names end in [Facts] hold the
    lemmas and the theorems about them.

    Conventions.  A JavaScript string is a [string] of ASCII characters
    (code units below 128): case mapping and white space are JavaScript's
    on these.  The one character beyond them is the no-break space, the
    character 160, which [DataFilterText.convertToBrowserSpaces] writes
    and [trim] strips.  Objects used as dictionaries are finite maps;
    a theorem that needs a key to be no member of [Object.prototype]
    says so in a hypothesis ([Sanitize.ordinary_document],
    [Sanitize.ordinary_rules], [RichTextEditor.plain_key]).  Arrays are lists, [push] appends at the
    end.
    A reference to a DOM node is the node's position (child-index path) in
    the tree it belongs to. *)

From Stdlib Require Import String Ascii List Arith Lia Bool DecimalString
  DecimalNat.
From stdpp Require Import base gmap strings list.

Open Scope string_scope.
Open Scope list_scope.
Open Scope nat_scope.

(* ===================================================================== *)
(** * JavaScript strings and values                                      *)
(* ===================================================================== *)

Module Js.

Definition lower_ascii (c : ascii) : ascii :=
  let n := nat_of_ascii c in
  if (65 <=? n) && (n <=? 90) then ascii_of_nat (n + 32) else c.

Definition upper_ascii (c : ascii) : ascii :=
  let n := nat_of_ascii c in
  if (97 <=? n) && (n <=? 122) then ascii_of_nat (n - 32) else c.

Fixpoint map_string (f : ascii -> ascii) (s : string) : string :=
  match s with
  | EmptyString => EmptyString
  | String c r => String (f c) (map_string f r)
  end.

(** [s.toLowerCase()], [s.toUpperCase()] (letters A-Z, a-z). *)
Definition toLowerCase : string -> string := map_string lower_ascii.
Definition toUpperCase : string -> string := map_string upper_ascii.

(** [s.indexOf(p) === 0] and [s.lastIndexOf(p, 0) === 0]. *)
Definition startsWith (p s : string) : bool := String.prefix p s.

(** [s.slice(from, to)] for [0 <= from <= to]. *)
Definition slice (from to : nat) (s : string) : string :=
  substring from (to - from) s.

(** The white space and line terminators [String.prototype.trim]
    strips, among the code units a [string] holds: tab, line feed,
    vertical tab, form feed, carriage return, space and the no-break
    space (the character 160). *)
Definition is_space (c : ascii) : bool :=
  let n := nat_of_ascii c in
  (n =? 32) || ((9 <=? n) && (n <=? 13)) || (n =? 160).

Fixpoint all_space (s : string) : bool :=
  match s with
  | EmptyString => true
  | String c r => is_space c && all_space r
  end.

(** [s.trim() === ''] *)
Definition trim_is_empty (s : string) : bool := all_space s.

(** [s.split(' ')] *)
Fixpoint split_space_aux (cur : string) (s : string) : list string :=
  match s with
  | EmptyString => [cur]
  | String c r =>
      if Ascii.eqb c " "%char then cur :: split_space_aux "" r
      else split_space_aux (cur +:+ String c "") r
  end.

Definition split_space (s : string) : list string := split_space_aux "" s.

(** [l.join(' ')] *)
Fixpoint join_space (l : list string) : string :=
  match l with
  | [] => ""
  | [s] => s
  | s :: r => s +:+ " " +:+ join_space r
  end.

(** [_.contains(list, s)] on strings *)
Definition contains (l : list string) (s : string) : bool :=
  existsb (String.eqb s) l.

(** The property names every plain object answers although it does not
    hold them: the members of [Object.prototype]. *)
Definition object_prototype : list string :=
["constructor"; "__proto__"; "toString"; "toLocaleString"; "valueOf";
 "hasOwnProperty"; "isPrototypeOf"; "propertyIsEnumerable";
 "__defineGetter__"; "__defineSetter__"; "__lookupGetter__";
 "__lookupSetter__"].

(** [({})[k] !== undefined] *)
Definition inherited (k : string) : bool := contains object_prototype k.

(** The values an untyped argument can hold. *)
Inductive value : Type :=
| Undefined
| Null
| Boolean (b : bool)
| Number (n : nat)
| Str (s : string)
| Object.

Definition truthy (v : value) : bool :=
  match v with
  | Undefined | Null => false
  | Boolean b => b
  | Number n => negb (n =? 0)
  | Str s => negb (String.eqb s "")
  | Object => true
  end.

(** [typeof v === 'string'] *)
Definition is_string (v : value) : bool :=
  match v with Str _ => true | _ => false end.

(** A call returns, throws, or does not come to an end within the number
    of steps it is given. *)
Inductive outcome (A : Type) : Type :=
| Ok (a : A)
| Thrown (error : string)
| Diverged.
Arguments Ok {A} a.
Arguments Thrown {A} error.
Arguments Diverged {A}.

Definition bind {A B : Type} (c : outcome A) (k : A -> outcome B) : outcome B :=
match c with
| Ok a => k a
| Thrown e => Thrown e
| Diverged => Diverged
end.

Notation "'do' x <- c ; k" := (bind c (fun x => k))
  (at level 10, x name, c at level 100, k at level 200).

End Js.

(* ===================================================================== *)
(** * The DOM as the sources use it                                      *)
(* ===================================================================== *)

Module Dom.

  (** A node, by [nodeType]: 3 (text), 1 (element), 5 (entity reference),
      8 (comment); every other node type is [OtherNode]. *)
Unset Elimination Schemes.
Inductive node : Type :=
| Text (data : string)
| Elem (nodeName : string) (attributes : list (string * string))
       (childNodes : list node)
| EntityRef (name : string)
| Comment (data : string)
| OtherNode (nodeType : nat).
Set Elimination Schemes.

Definition nodeType (n : node) : nat :=
  match n with
  | Text _ => 3
  | Elem _ _ _ => 1
  | EntityRef _ => 5
  | Comment _ => 8
  | OtherNode t => t
  end.

Definition is_text (n : node) : bool :=
  match n with Text _ => true | _ => false end.

Definition is_element (n : node) : bool :=
  match n with Elem _ _ _ => true | _ => false end.

Definition children (n : node) : list node :=
  match n with Elem _ _ cs => cs | _ => [] end.

Definition name_of (n : node) : string :=
  match n with
  | Elem nm _ _ => nm
  | Text _ => "#text"
  | Comment _ => "#comment"
  | EntityRef nm => nm
  | OtherNode _ => ""
  end.

(** [node.length] of a text node. *)
Definition text_length (n : node) : nat :=
  match n with Text d => String.length d | _ => 0 end.

(** Attribute lists: [elem.attributes[name]] and [getAttribute]. *)
Fixpoint get_attr (name : string) (attrs : list (string * string))
  : option string :=
  match attrs with
  | [] => None
  | (k, v) :: rest => if String.eqb k name then Some v else get_attr name rest
  end.

Definition getAttribute (name : string) (n : node) : option string :=
  match n with Elem _ attrs _ => get_attr name attrs | _ => None end.

(** [node.getAttribute('contenteditable') === 'false'] on the attributes
    of an element. *)
Definition contenteditable_false (attrs : list (string * string)) : bool :=
match get_attr "contenteditable" attrs with
| Some v => String.eqb v "false"
| None => false
end.

(** [setAttributeNode]: replaces the attribute of that name, or appends. *)
Fixpoint set_attr (name value : string) (attrs : list (string * string))
  : list (string * string) :=
  match attrs with
  | [] => [(name, value)]
  | (k, v) :: rest =>
      if String.eqb k name then (k, value) :: rest
      else (k, v) :: set_attr name value rest
  end.

Fixpoint remove_attr (name : string) (attrs : list (string * string))
  : list (string * string) :=
  match attrs with
  | [] => []
  | (k, v) :: rest =>
      if String.eqb k name then remove_attr name rest
      else (k, v) :: remove_attr name rest
  end.

Fixpoint concat_strings (l : list string) : string :=
  match l with
  | [] => ""
  | s :: r => s +:+ concat_strings r
  end.

(** [textContent] (jQuery's [.text()]): the data of every text node below
    the node, in document order. *)
Fixpoint textContent (n : node) : string :=
  match n with
  | Text d => d
  | Elem _ _ cs => concat_strings (map textContent cs)
  | _ => ""
  end.

Definition textContent_list (l : list node) : string :=
  concat_strings (map textContent l).

(** [Node.normalize()]: empty text nodes are removed and adjacent text
    nodes are joined, in the whole subtree. *)
Fixpoint merge_text (l : list node) : list node :=
  match l with
  | [] => []
  | Text d :: r =>
      if String.eqb d "" then merge_text r
      else match merge_text r with
           | Text d' :: r' => Text (d +:+ d') :: r'
           | r' => Text d :: r'
           end
  | n :: r => n :: merge_text r
  end.

Fixpoint normalize (n : node) : node :=
  match n with
  | Elem nm attrs cs => Elem nm attrs (merge_text (map normalize cs))
  | _ => n
  end.

Definition normalize_list (l : list node) : list node :=
  merge_text (map normalize l).

(** Every element below a node, in document order (jQuery's
    [find('*')]); the node itself is not included. *)
Fixpoint descendants (n : node) : list node :=
  match n with
  | Elem _ _ cs =>
      flat_map (fun c => if is_element c then c :: descendants c else []) cs
  | _ => []
  end.

Definition element_children (n : node) : list node :=
  List.filter is_element (children n).

Fixpoint size (n : node) : nat :=
  match n with
  | Elem _ _ cs => S (list_sum (map size cs))
  | _ => 1
  end.

(** References: the position of a node below a given root. *)
Definition path := list nat.

Fixpoint node_at (n : node) (p : path) : option node :=
  match p with
  | [] => Some n
  | i :: p' =>
      match nth_error (children n) i with
      | Some c => node_at c p'
      | None => None
      end
  end.

End Dom.

(* ===================================================================== *)
(** * src/src/selectionContext.js, [SelectionPersistence]                 *)
(* ===================================================================== *)

Module SelectionPersistence.
Import Dom Js.

(** A boundary point of a range: a node below the container, and an
    offset into it. *)
Definition boundary : Type := path * nat.

Record Range : Type := mkRange {
  range_start : boundary;
  range_end : boundary
}.

Definition startContainer (r : Range) : path := fst (range_start r).
Definition startOffset (r : Range) : nat := snd (range_start r).
Definition endContainer (r : Range) : path := fst (range_end r).
Definition endOffset (r : Range) : nat := snd (range_end r).

(** ** What the browser provides *)

(** The order of the document on positions: a position comes before
    everything below it and before everything to its right. *)
Fixpoint path_ltb (p q : path) : bool :=
match p, q with
| [], [] => false
| [], _ :: _ => true
| _ :: _, [] => false
| i :: p', j :: q' => (i <? j) || ((i =? j) && path_ltb p' q')
end.

Definition position (b : boundary) : path := fst b ++ [snd b].

Definition before (a b : boundary) : bool := path_ltb (position a) (position b).

(** The length of a node as a range sees it. *)
Definition node_length (n : node) : nat :=
match n with
| Text d => String.length d
| Elem _ _ cs => length cs
| _ => 0
end.

(** [range.setStart(node, offset)] and [range.setEnd(node, offset)], for
    a node below the container. *)
Definition setStart (container : node) (r : Range) (b : boundary)
  : outcome Range :=
match node_at container (fst b) with
| Some n =>
    if snd b <=? node_length n then
      Ok (if before (range_end r) b
          then {| range_start := b; range_end := b |}
          else {| range_start := b; range_end := range_end r |})
    else Thrown "IndexSizeError"
| None => Thrown "NotFoundError"
end.

Definition setEnd (container : node) (r : Range) (b : boundary)
  : outcome Range :=
match node_at container (fst b) with
| Some n =>
    if snd b <=? node_length n then
      Ok (if before b (range_start r)
          then {| range_start := b; range_end := b |}
          else {| range_start := range_start r; range_end := b |})
    else Thrown "IndexSizeError"
| None => Thrown "NotFoundError"
end.

(** The text of the container in front of a position. *)
Fixpoint text_before (n : node) (p : path) (offset : nat) : string :=
match p with
| [] =>
    match n with
    | Text d => substring 0 offset d
    | Elem _ _ cs => textContent_list (firstn offset cs)
    | _ => ""
    end
| i :: p' =>
    textContent_list (firstn i (children n))
    +:+ match nth_error (children n) i with
        | Some c => text_before c p' offset
        | None => ""
        end
end.

(** [range.toString()] *)
Definition range_toString (container : node) (r : Range) : string :=
let a := text_before container (startContainer r) (startOffset r) in
let b := text_before container (endContainer r) (endOffset r) in
substring (String.length a) (String.length b - String.length a) b.

(** [window.getSelection().toString()]: a selection holds one range or
    none. *)
Definition selection_toString (container : node) (sel : option Range)
  : string :=
match sel with
| Some r => range_toString container r
| None => ""
end.

(** ** The module *)

(** The object [saveSelection] returns ([selection] and [anchorNode] are
    kept by it too; nothing reads them back).  [saved_endContainer] is
    the end container as it was when the selection was saved. *)
Record SavedSelection : Type := mkSaved {
  saved_endContainer : path;
  saved_start : nat;
  saved_end : nat
}.

Definition path_eqb (p q : path) : bool := bool_decide (p = q).

Fixpoint push_children (p : path) (j : nat) (cs : list node)
  : list (path * node) :=
match cs with
| [] => []
| c :: rest => (p ++ [j], c) :: push_children p (S j) rest
end.

(** The loop of both functions,
    [while (!stop && (node = nodeStack.pop())) { ... }]: a text node is
    handed to [visit]; the children of any other node are pushed, last
    one first, unless the node carries [contenteditable="false"].  Only
    elements have [getAttribute]. *)
Fixpoint walk {S : Type} (stop : S -> bool)
    (visit : path -> string -> S -> outcome S) (fuel : nat)
    (nodeStack : list (path * node)) (st : S) : outcome S :=
match fuel with
| 0 => Diverged
| S fuel =>
    if stop st then Ok st
    else
      match nodeStack with
      | [] => Ok st
      | (p, node) :: rest =>
          match node with
          | Text d =>
              do st <- visit p d st ; walk stop visit fuel rest st
          | Elem _ attrs cs =>
              if contenteditable_false attrs
              then walk stop visit fuel rest st
              else walk stop visit fuel (push_children p 0 cs ++ rest) st
          | _ => Thrown "TypeError"
          end
      end
end.

(** Steps that are enough for any walk over the container. *)
Definition steps (container : node) : nat := S (S (size container)).

Definition saveSelection (containerEl : node) (selection : option Range)
  : outcome (option SavedSelection) :=
match selection with
| None => Ok None
| Some range =>
    do r <- walk (fun st : nat * bool => snd st)
              (fun p d st =>
                 if path_eqb p (startContainer range)
                 then Ok (fst st + startOffset range, true)
                 else Ok (fst st + String.length d, false))
              (steps containerEl) [([], containerEl)] (0, false) ;
    let start := fst r in
    Ok (Some {| saved_endContainer := endContainer range;
                saved_start := start;
                saved_end :=
                  start + String.length (range_toString containerEl range) |})
end.

(** The variables of the loop in [restoreSelection]. *)
Record restoring : Type := {
  charIndex : nat;
  range : Range;
  foundStart : bool;
  foundEnd : bool
}.

Definition restore_visit (container : node) (savedSel : SavedSelection)
    (p : path) (d : string) (st : restoring) : outcome restoring :=
let nextCharIndex := charIndex st + String.length d in
do st1 <-
  (if negb (foundStart st) && (charIndex st <=? saved_start savedSel)
      && (saved_start savedSel <? nextCharIndex)
   then do r <- setStart container (range st)
                  (p, saved_start savedSel - charIndex st) ;
        Ok {| charIndex := charIndex st; range := r;
              foundStart := true; foundEnd := foundEnd st |}
   else Ok st) ;
do st2 <-
  (if negb (foundStart st1) && (nextCharIndex =? saved_end savedSel)
   then do r <- setStart container (range st1)
                  (p, saved_end savedSel - charIndex st1) ;
        Ok {| charIndex := charIndex st1; range := r;
              foundStart := true; foundEnd := foundEnd st1 |}
   else Ok st1) ;
do st3 <-
  (if foundStart st2 && (charIndex st2 <=? saved_end savedSel)
      && (saved_end savedSel <=? nextCharIndex)
   then do r <- setEnd container (range st2)
                  (p, saved_end savedSel - charIndex st2) ;
        Ok {| charIndex := charIndex st2; range := r;
              foundStart := foundStart st2; foundEnd := true |}
   else Ok st2) ;
Ok {| charIndex := nextCharIndex; range := range st3;
      foundStart := foundStart st3; foundEnd := foundEnd st3 |}.

(** What has become of the node [savedSel.endContainer] refers to: it is
    in the container, or it is no longer part of the document (all that
    matters then is its length). *)
Inductive whereabouts : Type :=
| Attached (p : path)
| Detached (length : nat).

(** [restoreSelection(savedSel)], on the container as it is now; the
    result is the range of the window's selection after the call.
    [current] is that range before the call. *)
Definition restoreSelection (container : node) (endContainer_now : whereabouts)
    (current : option Range) (savedSel : option SavedSelection)
  : outcome (option Range) :=
match savedSel with
| None => Ok current
| Some savedSel =>
    let range := {| range_start := ([], 0); range_end := ([], 0) |} in
    do st <- walk foundEnd (restore_visit container savedSel)
               (steps container) [([], container)]
               {| charIndex := 0; range := range;
                  foundStart := false; foundEnd := false |} ;
    if foundEnd st then Ok (Some (SelectionPersistence.range st))
    else
      (* range.setEnd(savedSel.endContainer, pos) inside try/catch *)
      match endContainer_now with
      | Attached p =>
          if charIndex st <=? saved_end savedSel then
            match setEnd container (SelectionPersistence.range st)
                    (p, saved_end savedSel - charIndex st) with
            | Ok r => Ok (Some r)
            | _ => Ok (Some (SelectionPersistence.range st))
            end
          else Ok (Some (SelectionPersistence.range st))
      | Detached len =>
          (* the range leaves the document, or the call throws and the
             range stays; [addRange] ignores a range outside the document *)
          if (charIndex st <=? saved_end savedSel)
             && (saved_end savedSel - charIndex st <=? len)
          then Ok None
          else Ok (Some (SelectionPersistence.range st))
      end
end.

(** The text the walks count: every text node that is not below a node
    marked [contenteditable="false"], in document order. *)
Fixpoint editable_text (n : node) : string :=
match n with
| Text d => d
| Elem _ attrs cs =>
    if contenteditable_false attrs then ""
    else concat_strings (map editable_text cs)
| _ => ""
end.

End SelectionPersistence.

(* ===================================================================== *)
(** * src/src/sanitize.js                                                 *)
(* ===================================================================== *)

Module Sanitize.
Import Dom.

Import Js.

(** [Sanitize.RELATIVE] and [Sanitize.ALL] *)
Definition RELATIVE : string := "__RELATIVE__".
Definition ALL : string := "__ALL__".

(** An entry of an attribute whitelist: a name, or an object
    [{ name, value }] whose [value] is a pattern for the attribute's
    value; the pattern is given by the strings it matches. *)
Inductive attr_entry : Type :=
| Name (name : string)
| Pattern (name : string) (value : string -> bool).

Definition entry_name (a : attr_entry) : string :=
match a with Name n => n | Pattern n _ => n end.

(** [typeof a === 'object' || a instanceof Object] *)
Definition isObject (a : attr_entry) : bool :=
match a with Name _ => false | Pattern _ _ => true end.

(** The property name an entry has as a key of [uniq_hash]. *)
Definition entry_key (a : attr_entry) : string :=
match a with Name n => n | Pattern _ _ => "[object Object]" end.

(** [this.config] *)
Record config : Type := mkConfig {
  elements : list string;
  attributes : gmap string (list attr_entry);
  allow_comments : bool;
  protocols : gmap string (gmap string (list string));
  classnames : gmap string (list string);
  add_attributes : gmap string (list (string * string));
  remove_element_contents : gset string;
  remove_all_contents : bool
}.

(** What a transformer is called with, and what it answers: [null], an
    object, or something else.  [ti_ref] is the identity of
    [ti_node]. *)
Record transformer_input : Type := {
  ti_allowed_elements : gset string;
  ti_config : config;
  ti_node : node;
  ti_ref : path;
  ti_node_name : string;
  ti_whitelist_nodes : list path
}.

Record transform : Type := {
  t_whitelist_nodes : option (list path);
  t_whitelist : bool;
  t_attr_whitelist : option (list attr_entry);
  t_node : option node
}.

Inductive transformer_result : Type :=
| TNull
| TObject (t : transform)
| TOther.

Definition transformer : Type := transformer_input -> transformer_result.

(** The [Sanitize] object.  [current_element] is the element under
    construction, given by the child nodes it has so far. *)
Record sanitizer : Type := mkSanitizer {
  cfg : config;
  allowed_elements : gset string;
  transformers : list transformer;
  current_element : list node;
  whitelist_nodes : list path
}.

(** The argument of the constructor; [remove_contents] is an array of
    tag names ([inl]) or another true value ([inr]). *)
Record options : Type := {
  o_elements : option (list string);
  o_attributes : option (gmap string (list attr_entry));
  o_allow_comments : bool;
  o_protocols : option (gmap string (gmap string (list string)));
  o_classnames : option (gmap string (list string));
  o_add_attributes : option (gmap string (list (string * string)));
  o_remove_contents : option (list string + unit);
  o_transformers : option (list transformer)
}.

Definition new (o : options) : sanitizer :=
let attrs := default ∅ (o_attributes o) in
let elems := default [] (o_elements o) in
{| cfg :=
     {| elements := elems;
        attributes := <[ALL := default [] (attrs !! ALL)]> attrs;
        allow_comments := o_allow_comments o;
        protocols := default ∅ (o_protocols o);
        classnames := default ∅ (o_classnames o);
        add_attributes := default ∅ (o_add_attributes o);
        remove_element_contents :=
          match o_remove_contents o with
          | Some (inl tags) => list_to_set tags
          | _ => ∅
          end;
        remove_all_contents :=
          match o_remove_contents o with
          | Some (inr _) => true
          | _ => false
          end |};
   allowed_elements := list_to_set elems;
   transformers := default [] (o_transformers o);
   current_element := [];
   whitelist_nodes := [] |}.

Definition with_current (s : sanitizer) (cur : list node) : sanitizer :=
{| cfg := cfg s; allowed_elements := allowed_elements s;
   transformers := transformers s; current_element := cur;
   whitelist_nodes := whitelist_nodes s |}.

Definition with_whitelist_nodes (s : sanitizer) (w : list path) : sanitizer :=
{| cfg := cfg s; allowed_elements := allowed_elements s;
   transformers := transformers s; current_element := current_element s;
   whitelist_nodes := w |}.

Definition with_cfg (s : sanitizer) (c : config) : sanitizer :=
{| cfg := c; allowed_elements := allowed_elements s;
   transformers := transformers s; current_element := current_element s;
   whitelist_nodes := whitelist_nodes s |}.

(** [protocols.push(...)] on the array [config.protocols[name][attr]]:
    the array is the one of the configuration. *)
Definition with_protocols (c : config) (name attr_name : string)
    (protos : list string) : config :=
{| elements := elements c; attributes := attributes c;
   allow_comments := allow_comments c;
   protocols :=
     <[name := <[attr_name := protos]> (default ∅ (protocols c !! name))]>
       (protocols c);
   classnames := classnames c; add_attributes := add_attributes c;
   remove_element_contents := remove_element_contents c;
   remove_all_contents := remove_all_contents c |}.

(** ** The documents and rules the definitions below speak of

    The objects of the rules are plain objects, and the code reads them
    with the lower-case tag of an element as the key; an element is a
    DOM object, and a form answers the [id] and [name] of its controls
    before its own properties.  The definitions below are the code on a
    document in which no tag is a member of [Object.prototype] and no
    [id] or [name] is one of the properties the code reads or calls, and
    with rules whose names are names of tags and attributes; the
    theorems that depend on it say so. *)
Definition dom_properties : list string :=
["nodeType"; "nodeName"; "attributes"; "childNodes"; "cloneNode";
 "appendChild"; "setAttributeNode"; "normalize"; "removeChild";
 "firstChild"; "createElement"; "createAttribute";
 "createDocumentFragment"].

Definition clobbers (attrs : list (string * string)) : bool :=
existsb (fun kv => (String.eqb (fst kv) "id" || String.eqb (fst kv) "name")
                   && contains dom_properties (snd kv)) attrs.

Fixpoint ordinary_document (n : node) : bool :=
match n with
| Elem nm attrs cs =>
    negb (inherited (toLowerCase nm)) && negb (clobbers attrs)
    && forallb ordinary_document cs
| _ => true
end.

(** The names [elem.attributes] answers although no attribute has
    them. *)
Definition named_node_map : list string :=
["length"; "item"; "getNamedItem"; "getNamedItemNS"; "setNamedItem";
 "setNamedItemNS"; "removeNamedItem"; "removeNamedItemNS"].

Definition is_name_char (c : ascii) : bool :=
let n := nat_of_ascii c in
((48 <=? n) && (n <=? 57)) || ((97 <=? n) && (n <=? 122))
|| (n =? 45) || (n =? 95).

Definition is_lower_letter (c : ascii) : bool :=
let n := nat_of_ascii c in (97 <=? n) && (n <=? 122).

(** A name as the parser gives it to an element or an attribute of an
    HTML document, which [createElement] and [createAttribute] take as
    it is. *)
Definition simple_name (k : string) : bool :=
match k with
| EmptyString => false
| String c r =>
    is_lower_letter c && forallb is_name_char (list_ascii_of_string r)
end.

Definition ordinary_attribute (k : string) : bool :=
simple_name k && negb (inherited k) && negb (contains named_node_map k).

(** Rules whose tags and attribute names are such names, and whose
    objects have no member of [Object.prototype] for a key. *)
Definition ordinary_rules (c : config) : bool :=
forallb simple_name (elements c)
&& forallb (fun kv => negb (inherited (fst kv))
                      && forallb (fun e => ordinary_attribute (entry_name e))
                           (snd kv))
     (map_to_list (attributes c))
&& forallb (fun kv => negb (inherited (fst kv))
                      && forallb (fun a => ordinary_attribute (fst a)
                                           && negb (clobbers [a]))
                           (snd kv))
     (map_to_list (add_attributes c))
&& forallb (fun kv => negb (inherited (fst kv))
                      && forallb (fun a => negb (inherited (fst a)))
                           (map_to_list (snd kv)))
     (map_to_list (protocols c))
&& forallb (fun kv => negb (inherited (fst kv)))
     (map_to_list (classnames c)).

(** ** The code *)

(** [_array_index(needle, haystack) !== -1] *)
Definition _array_index {A : Type} (eqb : A -> A -> bool) (needle : A)
    (haystack : list A) : bool :=
existsb (eqb needle) haystack.

Definition path_eqb (p q : path) : bool := bool_decide (p = q).

Fixpoint _merge_arrays_uniq_go (uniq_hash : list string)
    (result : list attr_entry) (l : list attr_entry)
  : list string * list attr_entry :=
match l with
| [] => (uniq_hash, result)
| a :: rest =>
    if Js.contains uniq_hash (entry_key a)
    then _merge_arrays_uniq_go uniq_hash result rest
    else _merge_arrays_uniq_go (entry_key a :: uniq_hash) (result ++ [a]) rest
end.

(** [_merge_arrays_uniq(a1, a2, ...)]; a missing array is [[]].  The
    hash is a plain object: the keys are taken to be no members of
    [Object.prototype]. *)
Definition _merge_arrays_uniq (arrays : list (list attr_entry))
  : list attr_entry :=
snd (fold_left (fun acc l => _merge_arrays_uniq_go (fst acc) (snd acc) l)
       arrays ([], [])).

(** [_filter_array(arr, whitelist)] *)
Definition _filter_array (arr whitelist : list string) : list string :=
List.filter (fun a => _array_index String.eqb a whitelist) arr.

(** The [for (var i in protocols)] loop: the key at which it stops. *)
Fixpoint first_match (value_lc : string) (protocols : list string) (k : nat)
  : option nat :=
match protocols with
| [] => None
| p :: rest =>
    if Js.startsWith (Js.toLowerCase p) value_lc then Some k
    else first_match value_lc rest (S k)
end.

(** The state of the loop over [allowed_attributes] in [_clean_element]:
    [this.config] (the loop writes to it) and the attributes the new
    element has so far. *)
Definition attr_state : Type := config * list (string * string).

(** One pass through the body of the loop, for index [i] and ordinary
    rules; it returns the value of [i] at the end of the body, before
    [i++]. *)
Definition clean_attribute (name : string) (elem_attrs : list (string * string))
    (allowed_attributes : list attr_entry) (i : nat) (entry : attr_entry)
    (st : attr_state) : outcome (nat * attr_state) :=
let '(c, new_attrs) := st in
let attr_name := entry_name entry in
match get_attr attr_name elem_attrs with
| None => Ok (i, st)
| Some attr_value =>
    let attr_value_lc := Js.toLowerCase attr_value in
    (* Check protocol attributes for valid protocol *)
    let '(attr_ok, i, c) :=
      match protocols c !! name ≫= (fun m => m !! attr_name) with
      | Some protos =>
          let protos := protos ++ [RELATIVE] in
          let c := with_protocols c name attr_name protos in
          match first_match attr_value_lc protos 0 with
          | Some k => (true, k, c)
          | None => (false, length protos - 1, c)
          end
      | None => (true, i, c)
      end in
    (* Filter to valid classnames *)
    let '(attr_value, attr_ok) :=
      match String.eqb attr_name "class", classnames c !! name with
      | true, Some allowed =>
          let v := Js.join_space
                     (_filter_array (Js.split_space attr_value) allowed) in
          (v, negb (String.eqb v ""))
      | _, _ => (attr_value, attr_ok)
      end in
    (* Check if the value matches *)
    do attr_ok <-
      (if isObject entry then
         match nth_error allowed_attributes i with
         | None => Thrown "TypeError"
         | Some (Name _) => Ok true
         | Some (Pattern _ value) => Ok (value attr_value_lc)
         end
       else Ok attr_ok) ;
    Ok (i, (c, if attr_ok then set_attr attr_name attr_value new_attrs
               else new_attrs))
end.

(** [for(i=0;i<allowed_attributes.length;i++) { ... }], from [i] on. *)
Fixpoint clean_attributes (fuel : nat) (name : string)
    (elem_attrs : list (string * string))
    (allowed_attributes : list attr_entry) (i : nat) (st : attr_state)
  : outcome attr_state :=
match nth_error allowed_attributes i with
| None => Ok st
| Some entry =>
    match fuel with
    | 0 => Diverged
    | S fuel =>
        do r <- clean_attribute name elem_attrs allowed_attributes i entry st ;
        clean_attributes fuel name elem_attrs allowed_attributes
          (S (fst r)) (snd r)
    end
end.

(** [for(attr_name in this.config.add_attributes[name])] *)
Definition add_config_attributes (c : config) (name : string)
    (new_attrs : list (string * string)) : list (string * string) :=
fold_left (fun acc kv => set_attr (fst kv) (snd kv) acc)
  (default [] (add_attributes c !! name)) new_attrs.

Record transform_output : Type := {
  attr_whitelist : list attr_entry;
  out_node : node;
  whitelist : bool
}.

Fixpoint push_new (l : list path) (acc : list path) : list path :=
match l with
| [] => acc
| p :: rest =>
    if _array_index path_eqb p acc then push_new rest acc
    else push_new rest (acc ++ [p])
end.

(** [_transform_element(node)] *)
Fixpoint _transform_element_go (ts : list transformer) (s : sanitizer)
    (ref : path) (node : node) (output : transform_output)
  : outcome (sanitizer * transform_output) :=
match ts with
| [] => Ok (s, output)
| t :: rest =>
    match t {| ti_allowed_elements := allowed_elements s;
               ti_config := cfg s; ti_node := node; ti_ref := ref;
               ti_node_name := Js.toLowerCase (name_of node);
               ti_whitelist_nodes := whitelist_nodes s |} with
    | TNull => _transform_element_go rest s ref node output
    | TObject tr =>
        let s := match t_whitelist_nodes tr with
                 | Some w =>
                     with_whitelist_nodes s (push_new w (whitelist_nodes s))
                 | None => s
                 end in
        _transform_element_go rest s ref node
          {| attr_whitelist :=
               match t_attr_whitelist tr with
               | Some a => _merge_arrays_uniq [attr_whitelist output; a]
               | None => attr_whitelist output
               end;
             out_node := default (out_node output) (t_node tr);
             whitelist := t_whitelist tr |}
    | TOther => Thrown "transformer output must be an object or null"
    end
end.

Definition _transform_element (s : sanitizer) (ref : path) (node : node)
  : outcome (sanitizer * transform_output) :=
_transform_element_go (transformers s) s ref node
  {| attr_whitelist := []; out_node := node; whitelist := false |}.

(** [for(i=0;i<elem.childNodes.length;i++) _clean.call(this,
    elem.childNodes[i])]; [ref] is the position of the parent. *)
Fixpoint clean_children (clean : sanitizer -> path -> node -> outcome sanitizer)
    (ref : path) (j : nat) (cs : list node) (s : sanitizer)
  : outcome sanitizer :=
match cs with
| [] => Ok s
| c :: rest =>
    do s <- clean s (ref ++ [j]) c ; clean_children clean ref (S j) rest s
end.

Definition elem_attributes (elem : node) : list (string * string) :=
match elem with Elem _ attrs _ => attrs | _ => [] end.

(** [_merge_arrays_uniq(attrs[name], attrs[Sanitize.ALL],
    transform.attr_whitelist)], with [class] pushed at the end when class
    names are configured for the element; [name] is the tag of an
    element of an ordinary document. *)
Definition allowed_attributes_of (c : config) (name : string)
    (transform : transform_output) : list attr_entry :=
let attrs := attributes c in
let allowed_attributes :=
  _merge_arrays_uniq
    [default [] (attrs !! name); default [] (attrs !! ALL);
     attr_whitelist transform] in
match classnames c !! name with
| Some (_ :: _) => allowed_attributes ++ [Name "class"]
| _ => allowed_attributes
end.

(** [_clean_element(elem)], for an element of an ordinary document;
    [clean] is [_clean], [ref] the position of [elem] below the
    container, [fuel] the passes the loop over the allowed attributes
    may take. *)
Definition _clean_element
    (clean : sanitizer -> path -> node -> outcome sanitizer) (fuel : nat)
    (s : sanitizer) (ref : path) (elem : node) : outcome sanitizer :=
do r <- _transform_element s ref elem ;
let s := fst r in
let transform := snd r in
let elem := out_node transform in
let name := toLowerCase (name_of elem) in
let parent_element := current_element s in
(* iterate over child nodes *)
let iterate (s : sanitizer) : outcome sanitizer :=
  if negb (remove_all_contents (cfg s))
     && negb (bool_decide (name ∈ remove_element_contents (cfg s)))
  then clean_children clean ref 0 (children elem) s
  else Ok s in
if bool_decide (name ∈ allowed_elements s) || whitelist transform
then
  do r <- clean_attributes fuel name (elem_attributes elem)
            (allowed_attributes_of (cfg s) name transform) 0 (cfg s, []) ;
  let s := with_cfg s (fst r) in
  let new_attrs := add_config_attributes (cfg s) name (snd r) in
  do s <- iterate (with_current s []) ;
  Ok (with_current s
        (parent_element
         ++ [Elem (name_of elem) new_attrs
               (normalize_list (current_element s))]))
else if _array_index path_eqb ref (whitelist_nodes s)
then
  do s <- iterate (with_current s []) ;
  Ok (with_current s
        (parent_element
         ++ [Elem (name_of elem) (elem_attributes elem)
               (normalize_list (current_element s))]))
else
  do s <- iterate s ;
  Ok (with_current s (normalize_list (current_element s))).

(** [_clean(elem)].  Every call takes one unit of [fuel]. *)
Fixpoint _clean (fuel : nat) (s : sanitizer) (ref : path) (elem : node)
  : outcome sanitizer :=
match fuel with
| 0 => Diverged
| S fuel =>
    match elem with
    | Elem _ _ _ => _clean_element (_clean fuel) fuel s ref elem
    | Text _ | EntityRef _ =>
        Ok (with_current s (current_element s ++ [elem]))
    | Comment _ =>
        if allow_comments (cfg s)
        then Ok (with_current s (current_element s ++ [elem]))
        else Ok s
    | OtherNode _ => Ok s
    end
end.

(** [clean_node(container)]: the child nodes of the fragment it returns,
    and the sanitizer as the call leaves it. *)
Definition clean_node (fuel : nat) (s : sanitizer) (container : node)
  : outcome (list node * sanitizer) :=
let s := with_whitelist_nodes (with_current s []) [] in
do s <- clean_children (_clean fuel) [] 0 (children container) s ;
let s := with_current s (normalize_list (current_element s)) in
Ok (current_element s, s).

End Sanitize.
(* ===================================================================== *)
(** * src/src/dataFilter.js                                               *)
(* ===================================================================== *)

Module DataFilter.
Import Dom.

Definition blockElements : list string :=
["P"; "FIGURE"; "H2"; "BLOCKQUOTE"; "UL"; "OL"; "PRE"].
Definition mediaElements : list string := ["FIGURE"; "IFRAME"; "IMG"; "HR"].
Definition mediaHolderElement : string := "DIV".
Definition separatorElement : string := "HR".

Definition isBlock (element : node) : bool :=
Js.contains blockElements (name_of element).

Definition isMedia (element : node) : bool :=
Js.contains mediaElements (name_of element).

(** [$(element).find(mediaElements.join()).length] *)
Definition hasMedia (element : node) : bool :=
existsb isMedia (descendants element).

Definition isContentEditableTurnedOff (element : node) : bool :=
match element with
| Elem _ attrs _ => contenteditable_false attrs
| _ => false
end.

(** [isEmptyElement(element)], called without [trim]. *)
Definition isEmptyElement (element : node) : bool :=
String.eqb (textContent element) ""
&& negb (isMedia element) && negb (hasMedia element)
&& negb (String.eqb (name_of element) separatorElement).

Definition with_children (n : node) (cs : list node) : node :=
match n with
| Elem nm attrs _ => Elem nm attrs cs
| _ => n
end.

(** jQuery's [.wrap('<p>')] *)
Definition wrap_p (n : node) : node := Elem "P" [] [n].

(** [wrapTextNodes(rootNode)]: after [normalize()], every text node that
    is a child of the root and holds more than white space goes into a
    paragraph of its own. *)
Definition wrapTextNodes (rootNode : node) : node :=
let rootNode := normalize rootNode in
with_children rootNode
  (map (fun c => match c with
                 | Text d => if Js.trim_is_empty d then c else wrap_p c
                 | _ => c
                 end) (children rootNode)).

(** The children of the root that [blockifyInlineNodes] leaves alone. *)
Definition stays_at_root (el : node) : bool :=
isBlock el || isMedia el
|| String.eqb (name_of el) mediaHolderElement
|| String.eqb (name_of el) separatorElement.

Definition blockifyInlineNodes (rootNode : node) : node :=
let rootNode := wrapTextNodes rootNode in
with_children rootNode
  (map (fun c => if is_element c && negb (stays_at_root c)
                 then wrap_p c else c) (children rootNode)).

(** References to the elements below a node, in document order: what
    [$(rootNode).find('*')] holds. *)
Fixpoint descendant_paths (n : node) : list path :=
match n with
| Elem _ _ cs =>
    (fix go (j : nat) (cs : list node) : list path :=
       match cs with
       | [] => []
       | c :: rest =>
           (if is_element c
            then [j] :: map (cons j) (descendant_paths c) else [])
           ++ go (S j) rest
       end) 0 cs
| _ => []
end.

Definition collected (n : node) : bool :=
isBlock n || isContentEditableTurnedOff n.

Definition getBlockNodes (rootNode : node) : list path :=
List.filter (fun p => match node_at rootNode p with
                      | Some n => collected n
                      | None => false
                      end) (descendant_paths rootNode).

(** Re-parenting.  [moved] holds the nodes that were appended to the
    root since it was emptied, as positions below the node at hand.  A
    node that was moved is no longer among the children of its former
    parent. *)
Definition below (j : nat) (moved : list path) : list path :=
omap (fun p => match p with
               | i :: q => if i =? j then Some q else None
               | [] => None
               end) moved.

Definition moved_away (j : nat) (moved : list path) : bool :=
existsb (fun p => match p with [i] => i =? j | _ => false end) moved.

Fixpoint detach (moved : list path) (n : node) : node :=
match n with
| Elem nm attrs cs =>
    Elem nm attrs
      ((fix go (j : nat) (cs : list node) : list node :=
          match cs with
          | [] => []
          | c :: rest =>
              if moved_away j moved then go (S j) rest
              else detach (below j moved) c :: go (S j) rest
          end) 0 cs)
| _ => n
end.

Fixpoint below_path (p : path) (moved : list path) : list path :=
match p with
| [] => moved
| j :: p' => below_path p' (below j moved)
end.

(** The node a reference stands for, as it is now. *)
Definition block_now (root0 : node) (moved : list path) (block : path)
  : option node :=
match node_at root0 block with
| Some n => Some (detach (below_path block moved) n)
| None => None
end.

Definition hasBlockChildren (block : node) : bool :=
existsb isBlock (element_children block).

(** The test in front of [$(rootNode).append(block)]. *)
Definition appendable (block : node) : bool :=
isContentEditableTurnedOff block
|| (negb (isEmptyElement block) && negb (hasBlockChildren block)).

(** The [_.each(blockNodes, ...)] of [flattenBlocksDown]; [root0] is the
    root as it was before [$(rootNode).empty()], [appended] the blocks
    appended so far. *)
Fixpoint append_blocks (root0 : node) (blockNodes : list path)
    (appended : list path) : list path :=
match blockNodes with
| [] => appended
| block :: rest =>
    match block_now root0 appended block with
    | Some b =>
        if appendable b
        then append_blocks root0 rest (appended ++ [block])
        else append_blocks root0 rest appended
    | None => append_blocks root0 rest appended
    end
end.

(** The children of the root once the loop is over. *)
Definition root_children (root0 : node) (appended : list path) : list node :=
omap (block_now root0 appended) appended.

Definition flattenBlocksDown (rootNode : node) (preserveInline : bool) : node :=
let rootNode := normalize rootNode in
let rootNode :=
  if negb preserveInline then blockifyInlineNodes rootNode else rootNode in
let blockNodes := getBlockNodes rootNode in
match blockNodes, preserveInline with
| [], true => rootNode
| _, _ =>
    let rootNode :=
      if preserveInline then blockifyInlineNodes rootNode else rootNode in
    let blockNodes := getBlockNodes rootNode in
    with_children rootNode
      (root_children rootNode (append_blocks rootNode blockNodes []))
end.

(** The condition under which, in the words of the specification, a
    collected node is dropped. *)
Definition dropped_in_words (block : node) : bool :=
negb (isMedia block || hasMedia block)
&& String.eqb (textContent block) ""
&& hasBlockChildren block.

(** [filterHTML], between parser and serializer: the clean fragment, and
    the rules as the call leaves them ([new Sanitize(this.sanitizeConfig)]
    shares the arrays of the rules). *)
Definition filterHTML (fuel : nat) (sanitizeConfig : Sanitize.options)
    (dummyInputNode : node)
  : Js.outcome (list node * Sanitize.options) :=
Js.bind
  (Sanitize.clean_node fuel (Sanitize.new sanitizeConfig) dummyInputNode)
  (fun r =>
     Js.Ok
       (fst r,
        {| Sanitize.o_elements := Sanitize.o_elements sanitizeConfig;
           Sanitize.o_attributes :=
             match Sanitize.o_attributes sanitizeConfig with
             | Some _ => Some (Sanitize.attributes (Sanitize.cfg (snd r)))
             | None => None
             end;
           Sanitize.o_allow_comments :=
             Sanitize.o_allow_comments sanitizeConfig;
           Sanitize.o_protocols :=
             match Sanitize.o_protocols sanitizeConfig with
             | Some _ => Some (Sanitize.protocols (Sanitize.cfg (snd r)))
             | None => None
             end;
           Sanitize.o_classnames := Sanitize.o_classnames sanitizeConfig;
           Sanitize.o_add_attributes :=
             Sanitize.o_add_attributes sanitizeConfig;
           Sanitize.o_remove_contents :=
             Sanitize.o_remove_contents sanitizeConfig;
           Sanitize.o_transformers :=
             Sanitize.o_transformers sanitizeConfig |})).

End DataFilter.

(* ===================================================================== *)
(** * src/src/undoManager.js                                              *)
(* ===================================================================== *)

Module UndoManager.
Section Manager.

  (** The editor the manager is attached to, as the manager uses it. *)
Context {Editor Selection : Type}.
(** [editor.getData(true, true)] *)
Variable getData : Editor -> string.
(** [SelectionPersistence.saveSelection(editor.element)] *)
Variable saveSelection : Editor -> option Selection.
(** [this.defaultOnChange], the editor's own [onChange], saved by the
    constructor before it installs the override. *)
Variable defaultOnChange : Editor -> Editor.

(** A state object [{ data, selection }]. *)
Record State : Type := mkState {
  data : string;
  selection : option Selection
}.

Record manager : Type := mkManager {
  currState : option State;
  undoStates : list State;
  redoStates : list State;
  isRestoring : bool;
  isTorndown : bool;
  (** the timer of [saverDebounced] is pending *)
  saverPending : bool
}.

(** The constructor's field initialisations. *)
Definition new : manager :=
  {| currState := None; undoStates := []; redoStates := [];
     isRestoring := false; isTorndown := false; saverPending := false |}.

Definition createState (e : Editor) : State :=
  {| data := getData e; selection := saveSelection e |}.

Definition resetCurrState (m : manager) (e : Editor) : manager :=
  {| currState := Some (createState e);
     undoStates := undoStates m; redoStates := redoStates m;
     isRestoring := isRestoring m; isTorndown := isTorndown m;
     saverPending := saverPending m |}.

Definition saveState (m : manager) (e : Editor) : manager :=
  let newState := createState e in
  match currState m with
  | None => resetCurrState m e
  | Some curr =>
      if String.eqb (data newState) (data curr) then m
      else {| currState := Some newState;
              undoStates := undoStates m ++ [curr];
              redoStates := redoStates m;
              isRestoring := isRestoring m; isTorndown := isTorndown m;
              saverPending := saverPending m |}
  end.

(** Calling [saverDebounced()] (re)starts its 500 ms timer. *)
Definition saverDebounced (m : manager) : manager :=
  {| currState := currState m;
     undoStates := undoStates m; redoStates := redoStates m;
     isRestoring := isRestoring m; isTorndown := isTorndown m;
     saverPending := true |}.

(** The timer expires: the debounced function body runs. *)
Definition saverFires (m : manager) (e : Editor) : manager :=
  if saverPending m then
    let m' := {| currState := currState m;
                 undoStates := undoStates m; redoStates := redoStates m;
                 isRestoring := isRestoring m; isTorndown := isTorndown m;
                 saverPending := false |} in
    if negb (isTorndown m') then saveState m' e else m'
  else m.

Definition is_updateAsyncImage (type : option string) : bool :=
  match type with
  | Some t => String.eqb t "updateAsyncImage"
  | None => false
  end.

(** The function the constructor installs as [editor.onChange].  The
    second component is the editor after [manager.defaultOnChange] ran,
    the third tells whether it ran at all. *)
Definition onChange (m : manager) (e : Editor) (type : option string)
  : manager * Editor * bool :=
  if negb (isRestoring m) then
    if is_updateAsyncImage type then (m, e, false)
    else
      match currState m with
      | None => (saveState m e, defaultOnChange e, true)
      | Some _ => (saverDebounced m, defaultOnChange e, true)
      end
  else
    ({| currState := currState m;
        undoStates := undoStates m; redoStates := redoStates m;
        isRestoring := false; isTorndown := isTorndown m;
        saverPending := saverPending m |},
     defaultOnChange e, true).

(** [restoreState] raises the guard before it touches the editor. *)
Definition restoreState_guard (m : manager) : manager :=
  {| currState := currState m;
     undoStates := undoStates m; redoStates := redoStates m;
     isRestoring := true; isTorndown := isTorndown m;
     saverPending := saverPending m |}.

Definition teardown (m : manager) : manager :=
  {| currState := None; undoStates := []; redoStates := [];
     isRestoring := isRestoring m; isTorndown := true;
     saverPending := saverPending m |}.

(** What the manager receives while the user edits: change notifications,
    each with the editor as it is at that moment, and expirations of the
    debounce timer. *)
Inductive event : Type :=
| Notification (type : option string) (e : Editor)
| TimerExpires (e : Editor).

Definition step (m : manager) (ev : event) : manager :=
  match ev with
  | Notification type e => fst (fst (onChange m e type))
  | TimerExpires e => saverFires m e
  end.

Definition run (m : manager) (evs : list event) : manager :=
  fold_left step evs m.

(** Neighbouring snapshots hold different serialized content. *)
Fixpoint distinct_neighbours (l : list State) : Prop :=
  match l with
  | a :: ((b :: _) as r) => data a <> data b /\ distinct_neighbours r
  | _ => True
  end.

Definition history (m : manager) : list State :=
  undoStates m ++ match currState m with Some c => [c] | None => [] end.

End Manager.

Arguments State : clear implicits.
Arguments manager : clear implicits.
Arguments event : clear implicits.

End UndoManager.

(* ===================================================================== *)
(** * src/src/richTextEditor.js                                           *)
(* ===================================================================== *)

Module RichTextEditor.
Import Dom.

Definition FORMATTED_BLOCKS : list string := ["H2"; "BLOCKQUOTE"; "PRE"].
Definition TEXT_BLOCKS : list string :=
  ["P"; "H2"; "BLOCKQUOTE"; "UL"; "OL"; "PRE"].
Definition MEDIA_ELEMENTS : list string := ["IMG"; "IFRAME"; "FIGURE"; "HR"].

(** [config.filterRules], as the constructor sets them when the host gives
    none. *)
Definition filterRules : Sanitize.options :=
{| Sanitize.o_elements :=
     Some ["a"; "b"; "i"; "ul"; "ol"; "li"; "p"; "h2"; "blockquote"; "img";
           "iframe"; "figure"; "br"; "hr"; "pre"; "sub"; "sup"; "small"];
   Sanitize.o_attributes :=
     Some (list_to_map
             [("a", [Sanitize.Name "href"; Sanitize.Name "title"]);
              ("img", [Sanitize.Name "src"; Sanitize.Name "alt";
                       Sanitize.Name "data-orig-width";
                       Sanitize.Name "data-orig-height"]);
              ("hr", [Sanitize.Name "data-label"]);
              ("iframe", [Sanitize.Name "src"; Sanitize.Name "width";
                          Sanitize.Name "height";
                          Sanitize.Name "frameborder"]);
              ("figure", [Sanitize.Name "data-orig-width";
                          Sanitize.Name "data-orig-height"])]);
   Sanitize.o_allow_comments := false;
   Sanitize.o_protocols :=
     Some (list_to_map
             [("a", list_to_map [("href", ["http"; "https"; "mailto"])])]);
   Sanitize.o_classnames := Some (list_to_map [("hr", ["read-more"])]);
   Sanitize.o_add_attributes := None;
   Sanitize.o_remove_contents :=
     Some (inl ["style"; "noscript"; "script"; "meta"]);
   Sanitize.o_transformers := None |}.

(** ** [applyCommand], [doBlock], the [blockquote] case *)

(** A child of the editor element together with what identifies it while
    the children are rearranged: its index before the command ([None]
    for an element the command creates). *)
Definition child : Type := option nat * node.

Definition tag_children (cs : list node) : list child :=
  combine (map Some (seq 0 (length cs))) cs.

Definition in_range (startIndex endIndex : nat) (c : child) : bool :=
  match fst c with
  | Some i => (startIndex <=? i) && (i <=? endIndex)
  | None => false
  end.

(** [SelectionContext.getRootElements]: the element children of the
    editor from [startIndex] to [endIndex]. *)
Definition getRootElements (cs : list child) (startIndex endIndex : nat)
  : list child :=
  let '(startIndex, endIndex) :=
    if endIndex <? startIndex then (endIndex, startIndex)
    else (startIndex, endIndex) in
  List.filter
    (fun c => in_range startIndex endIndex c && is_element (snd c)) cs.

(** [_.contains(TEXT_BLOCKS, node.nodeName.toUpperCase())] *)
Definition is_text_block (n : node) : bool :=
  Js.contains TEXT_BLOCKS (Js.toUpperCase (name_of n)).

(** The [_.each] that sorts the root nodes into stacks. *)
Fixpoint collect_stacks (rootNodes : list child)
    (textBlockStacks : list (list child)) (currStack : list child)
  : list (list child) * list child :=
  match rootNodes with
  | [] => (textBlockStacks, currStack)
  | node :: rest =>
      if is_text_block (snd node)
      then collect_stacks rest textBlockStacks (currStack ++ [node])
      else collect_stacks rest (textBlockStacks ++ [currStack]) []
  end.

Definition textBlockStacks (rootNodes : list child) : list (list child) :=
  let '(stacks, currStack) := collect_stacks rootNodes [] [] in
  match currStack with
  | [] => stacks
  | _ => stacks ++ [currStack]
  end.

Definition same_child (a b : option nat) : bool :=
  match a, b with
  | Some i, Some j => i =? j
  | _, _ => false
  end.

Definition member (t : option nat) (stack : list child) : bool :=
  existsb (fun c => same_child t (fst c)) stack.

(** jQuery's [$(stack).wrapAll(wrapper)]: nothing for an empty set;
    otherwise a copy of the wrapper is put before the first member and
    every member is moved into it, in the order of the set. *)
Fixpoint wrapAll_place (first : option nat) (stack : list child)
    (wrapper : child) (cs : list child) : list child :=
  match cs with
  | [] => []
  | c :: rest =>
      if same_child (fst c) first
      then wrapper :: wrapAll_place first stack wrapper rest
      else if member (fst c) stack
           then wrapAll_place first stack wrapper rest
           else c :: wrapAll_place first stack wrapper rest
  end.

Definition wrapAll (type : string) (cs : list child) (stack : list child)
  : list child :=
  match stack with
  | [] => cs
  | first :: _ =>
      let wrapper := (None, Elem (Js.toUpperCase type) [] (map snd stack)) in
      wrapAll_place (fst first) stack wrapper cs
  end.

(** The [blockquote] case of [doBlock], on the children of the editor
    element; the selection reaches from the child at [startIndex] to the
    child at [endIndex]. *)
Definition doBlock_blockquote (type : string) (children : list node)
    (startIndex endIndex : nat) : list node :=
  let cs := tag_children children in
  let rootNodes := getRootElements cs startIndex endIndex in
  map snd (fold_left (wrapAll type) (textBlockStacks rootNodes) cs).

(** The same result in the words of the specification: the selected
    root blocks are cut into media blocks and maximal runs of text-type
    blocks, and every run goes into a wrapper of its own. *)
Inductive segment (A : Type) : Type :=
| Media (n : A)
| Run (blocks : list A).
Arguments Media {A} n.
Arguments Run {A} blocks.

Definition close_run {A : Type} (run : list A) : list (segment A) :=
  match run with [] => [] | _ => [Run run] end.

Fixpoint segments_from {A : Type} (text_block : A -> bool)
    (run : list A) (l : list A) : list (segment A) :=
  match l with
  | [] => close_run run
  | n :: rest =>
      if text_block n then segments_from text_block (run ++ [n]) rest
      else close_run run ++ Media n :: segments_from text_block [] rest
  end.

Definition maximal_runs (l : list node) : list (segment node) :=
  segments_from is_text_block [] l.

Definition render (type : string) (s : segment node) : node :=
  match s with
  | Media n => n
  | Run blocks => Elem (Js.toUpperCase type) [] blocks
  end.

Definition members {A : Type} (s : segment A) : list A :=
  match s with Media n => [n] | Run blocks => blocks end.

Definition is_run {A : Type} (s : segment A) : bool :=
  match s with Run _ => true | Media _ => false end.

Fixpoint no_adjacent_runs {A : Type} (l : list (segment A)) : Prop :=
  match l with
  | a :: ((b :: _) as r) =>
      (is_run a = true -> is_run b = false) /\ no_adjacent_runs r
  | _ => True
  end.

(** ** The editor object, its change notification and async images *)

Record tracker_entry : Type := {
  originalSource : string;
  file : option nat;
  updatedSource : Js.value
}.

(** Calls that leave the editor: the host's callbacks and the platform
    services whose completion comes back later. *)
Inductive call : Type :=
| RunPlaceholder
| ConfigOnChange
| ConfigOnAsyncImageFailed
| GetImageAttributes (key : string) (img_src : string)
| ReadAsDataURL (file : nat).

Section Editor.

Context {Selection : Type}.
(** [$(element).html()], [editor.getData(true, true)] and
    [SelectionPersistence.saveSelection(editor.element)] *)
Variable html : node -> string.
Variable getData : node -> string.
Variable saveSelection : node -> option Selection.
(** [insertMedia(figure, insertNode, insertDirection,
    skipSelectionUpdate)], on the editor element *)
Variable insertMedia :
  node -> node -> option path -> option Js.value -> bool -> node.
(** [window.URL.createObjectURL], where the browser has it *)
Variable createObjectURL : option (nat -> string).
(** [config.imgKeyAttr], the name of an attribute *)
Variable imgKeyAttr : string.
(** what [updateAsyncImage] does to the image element of a key:
    [addImageAttributes] and [$(img).attr('src', src)] *)
Variable updateImageElement :
  node -> string -> Js.value -> list (string * string) -> node.

Record editor : Type := mkEditor {
  element : node;
  previousRawData : option string;
  mediaTracker : gmap string tracker_entry;
  undoManager : UndoManager.manager Selection;
  (** lodash's [idCounter] behind [_.uniqueId()] *)
  idCounter : nat;
  (** the calls made so far, oldest first *)
  calls : list call
}.

Definition with_calls (e : editor) (cs : list call) : editor :=
  {| element := element e; previousRawData := previousRawData e;
     mediaTracker := mediaTracker e; undoManager := undoManager e;
     idCounter := idCounter e; calls := calls e ++ cs |}.

Definition with_undoManager (e : editor)
    (m : UndoManager.manager Selection) : editor :=
  {| element := element e; previousRawData := previousRawData e;
     mediaTracker := mediaTracker e; undoManager := m;
     idCounter := idCounter e; calls := calls e |}.

(** [getRawData]; the trimming of the markup is part of [html]. *)
Definition getRawData (e : editor) : string := html (element e).

Definition raw_changed (e : editor) : bool :=
  match previousRawData e with
  | Some prev => negb (String.eqb prev (getRawData e))
  | None => true
  end.

(** [this.onChange] as the constructor of the editor defines it. *)
Definition ownOnChange (e : editor) : editor :=
  if raw_changed e then
    {| element := element e; previousRawData := Some (getRawData e);
       mediaTracker := mediaTracker e; undoManager := undoManager e;
       idCounter := idCounter e;
       calls := calls e ++ [RunPlaceholder; ConfigOnChange] |}
  else e.

(** [editor.onChange(type)]: the function [new UndoManager(this, ...)]
    has put in its place, until [teardown] puts the editor's own
    function back. *)
Definition onChange (e : editor) (type : option string) : editor :=
  if UndoManager.isTorndown (undoManager e) then ownOnChange e
  else
    let '(m, e', _) :=
      UndoManager.onChange (fun e => getData (element e))
        (fun e => saveSelection (element e)) ownOnChange
        (undoManager e) e type in
    with_undoManager e' m.

(** [module.prototype.teardown]: the manager is torn down (the editor's
    own [onChange] is back in place); the key events are not part of
    the state. *)
Definition teardown (e : editor) : editor :=
  with_undoManager e (UndoManager.teardown (undoManager e)).

Definition uniqueId (n : nat) : string :=
  NilEmpty.string_of_uint (Nat.to_uint n).

(** [addImageBySource], the closure inside [insertAsyncImage]. *)
Definition addImageBySource (e : editor) (file : option nat)
    (insertNode : option path) (insertDirection : option Js.value)
    (skipSelectionUpdate : bool) (src : string) : editor :=
  let id := S (idCounter e) in
  let key := uniqueId id in
  let originalSource :=
    if Js.startsWith "data:" src then "file" else src in
  let img := Elem "IMG" [("src", src); (imgKeyAttr, key)] [] in
  let figure := Elem "FIGURE" [] [img] in
  let e1 :=
    {| element :=
         insertMedia (element e) figure insertNode insertDirection
           skipSelectionUpdate;
       previousRawData := previousRawData e;
       mediaTracker :=
         <[key := {| originalSource := originalSource; file := file;
                     updatedSource := Js.Undefined |}]> (mediaTracker e);
       undoManager := undoManager e;
       idCounter := id;
       calls := calls e ++ [GetImageAttributes key src] |} in
  onChange e1 None.

Definition insertAsyncImage (e : editor) (source : Js.value)
    (file : option nat) (insertNode : option path)
    (insertDirection : option Js.value) (skipSelectionUpdate : bool)
  : editor :=
  match negb (Js.truthy source), file with
  | true, Some f =>
      match createObjectURL with
      | Some url =>
          addImageBySource e file insertNode insertDirection
            skipSelectionUpdate (url f)
      | None => with_calls e [ReadAsDataURL f]
      end
  | _, _ =>
      match source with
      | Js.Str s =>
          addImageBySource e file insertNode insertDirection
            skipSelectionUpdate s
      | _ => with_calls e [ConfigOnAsyncImageFailed]
      end
  end.

(** [module.prototype.insertAsyncImage] *)
Definition insertAsyncImage_method (e : editor) (source : Js.value)
    (file : option nat) (insertNode : option path)
    (insertDirection : option Js.value) (skipSelectionUpdate : bool)
  : editor :=
  onChange
    (insertAsyncImage e source file insertNode insertDirection
       skipSelectionUpdate) None.

Definition with_element (e : editor) (el : node) : editor :=
  {| element := el; previousRawData := previousRawData e;
     mediaTracker := mediaTracker e; undoManager := undoManager e;
     idCounter := idCounter e; calls := calls e |}.

(** A key that can stand in the selector [getAsyncImage] builds from it
    and that the tracker, a plain object, answers only if it holds it:
    letters and digits, and no member of [Object.prototype].  The keys
    [_.uniqueId()] gives are of this kind. *)
Definition is_alphanumeric (c : ascii) : bool :=
  let n := nat_of_ascii c in
  ((48 <=? n) && (n <=? 57)) || ((65 <=? n) && (n <=? 90))
  || ((97 <=? n) && (n <=? 122)).

Definition plain_key (key : string) : bool :=
  forallb is_alphanumeric (list_ascii_of_string key)
  && negb (Js.inherited key).

(** [updateAsyncImage], for a plain key; [None] when
    [this.mediaTracker[key]] is undefined and the assignment to its
    [updatedSource] throws. *)
Definition updateAsyncImage (e : editor) (key : string) (src : Js.value)
    (attributes : list (string * string)) : option editor :=
  let e1 := with_element e
              (updateImageElement (element e) key src attributes) in
  if Js.truthy src then
    match mediaTracker e !! key with
    | Some entry =>
        Some {| element := element e1;
                previousRawData := previousRawData e1;
                mediaTracker :=
                  <[key := {| originalSource := originalSource entry;
                              file := file entry;
                              updatedSource := src |}]>
                    (mediaTracker e1);
                undoManager := undoManager e1;
                idCounter := idCounter e1; calls := calls e1 |}
    | None => None
    end
  else Some e1.

(** [module.prototype.updateAsyncImage] *)
Definition updateAsyncImage_method (e : editor) (key : string)
    (source : Js.value) (attributes : list (string * string))
  : option editor :=
  match updateAsyncImage e key source attributes with
  | Some e1 => Some (onChange e1 (Some "updateAsyncImage"))
  | None => None
  end.

Definition count_failed (cs : list call) : nat :=
  List.length
    (List.filter (fun c => match c with
                      | ConfigOnAsyncImageFailed => true
                      | _ => false
                      end) cs).

Definition count_config_onChange (cs : list call) : nat :=
  List.length
    (List.filter (fun c => match c with
                      | ConfigOnChange => true
                      | _ => false
                      end) cs).

End Editor.

End RichTextEditor.

(* ===================================================================== *)
(** * src/src/undoManager.js: [restoreState], [undo], [redo]              *)
(* ===================================================================== *)

Module UndoRedo.
Import UndoManager.
Section Manager.

Context {Editor Selection : Type}.
Variable getData : Editor -> string.
Variable saveSelection : Editor -> option Selection.
Variable defaultOnChange : Editor -> Editor.
(** [editor.setData(data, true)] up to the [this.onChange()] it ends
    with, which is not part of it here: the editor is one whose
    [setData] returns and raises the change notification once, at its
    end, as the [setData] of both editors of the repository does *)
Variable setData : Editor -> string -> Editor.
(** [SelectionPersistence.restoreSelection(state.selection)], or
    [window.getSelection().removeAllRanges()] for a state without one *)
Variable restoreSelection : Editor -> option Selection -> Editor.
(** [this.afterRestore()] *)
Variable afterRestore : Editor -> Editor.

Definition with_undoStates (m : manager Selection)
    (l : list (State Selection)) : manager Selection :=
{| currState := currState m; undoStates := l; redoStates := redoStates m;
   isRestoring := isRestoring m; isTorndown := isTorndown m;
   saverPending := saverPending m |}.

Definition with_redoStates (m : manager Selection)
    (l : list (State Selection)) : manager Selection :=
{| currState := currState m; undoStates := undoStates m; redoStates := l;
   isRestoring := isRestoring m; isTorndown := isTorndown m;
   saverPending := saverPending m |}.

(** [editor.onChange(type)]: the function the constructor of the manager
    installed, until [teardown] puts the editor's own function back. *)
Definition editor_onChange (m : manager Selection) (e : Editor)
    (type : option string) : manager Selection * Editor :=
if isTorndown m then (m, defaultOnChange e)
else
  let '(m', e', _) :=
    onChange getData saveSelection defaultOnChange m e type in
  (m', e').

(** [restoreState(state)]; [setData] ends with [this.onChange()]. *)
Definition restoreState (m : manager Selection) (e : Editor)
    (state : State Selection) : manager Selection * Editor :=
let m := restoreState_guard m in
let '(m, e) := editor_onChange m (setData e (data state)) None in
(m, afterRestore (restoreSelection e (selection state))).

(** [array.pop()] on a non-empty array: the array that is left, and the
    element. *)
Definition pop {A : Type} (l : list A) : option (list A * A) :=
match rev l with
| [] => None
| x :: r => Some (rev r, x)
end.

(** [stack.push(this.currState)].  Where the code would push [null] the
    stack is left as it is; a manager that started out new never gets
    there, as the facts on sessions show: it has a checkpoint whenever
    a stack is not empty. *)
Definition push_current (m : manager Selection)
    (stack : list (State Selection)) : list (State Selection) :=
stack ++ match currState m with Some c => [c] | None => [] end.

(** [undo()] *)
Definition undo (m : manager Selection) (e : Editor)
  : manager Selection * Editor :=
let m := saveState getData saveSelection m e in
match pop (undoStates m) with
| Some (rest, prevState) =>
    let m := with_undoStates m rest in
    let '(m, e) := restoreState m e prevState in
    let m := with_redoStates m (push_current m (redoStates m)) in
    (resetCurrState getData saveSelection m e, e)
| None => (m, e)
end.

(** [redo()] *)
Definition redo (m : manager Selection) (e : Editor)
  : manager Selection * Editor :=
match pop (redoStates m) with
| Some (rest, nextState) =>
    let m := with_redoStates m rest in
    let '(m, e) := restoreState m e nextState in
    let m := with_undoStates m (push_current m (undoStates m)) in
    (resetCurrState getData saveSelection m e, e)
| None => (m, e)
end.

(** What reaches the manager during a session, each with the editor as
    it is at that moment: a change notification, an expiration of the
    debounce timer, the key combinations for undo and redo. *)
Inductive command : Type :=
| Change (type : option string) (e : Editor)
| Timer (e : Editor)
| Undo (e : Editor)
| Redo (e : Editor).

Definition exec (m : manager Selection) (c : command) : manager Selection :=
match c with
| Change type e => fst (editor_onChange m e type)
| Timer e => saverFires getData saveSelection m e
| Undo e => fst (undo m e)
| Redo e => fst (redo m e)
end.

Definition session (m : manager Selection) (cs : list command)
  : manager Selection :=
fold_left exec cs m.

End Manager.

Arguments command : clear implicits.

End UndoRedo.

(* ===================================================================== *)
(** * src/src/dataFilter.js: the filters on strings                       *)
(* ===================================================================== *)

Module DataFilterText.

Definition LF : ascii := "010"%char.
Definition CR : ascii := "013"%char.
Definition SP : ascii := " "%char.
Definition QUOT : ascii := "034"%char.
(** [ ], the no-break space *)
Definition NBSP : ascii := "160"%char.

(** lodash 3.10.1, [escapeHtmlChar]: the six characters of
    [reUnescapedHtml] (ampersand, angle brackets, double quote, single
    quote, backquote) and what stands for them. *)
Definition escapeHtmlChar (c : ascii) : string :=
if Ascii.eqb c "&" then "&amp;"
else if Ascii.eqb c "<" then "&lt;"
else if Ascii.eqb c ">" then "&gt;"
else if Ascii.eqb c QUOT then "&quot;"
else if Ascii.eqb c "'" then "&#39;"
else if Ascii.eqb c "`" then "&#96;"
else String c "".

(** [_.escape(input)] *)
Fixpoint escape (s : string) : string :=
match s with
| EmptyString => ""
| String c r => escapeHtmlChar c +:+ escape r
end.

(** [output.replace(/\r\n/g, '\n')] *)
Fixpoint replace_crlf (s : string) : string :=
match s with
| EmptyString => ""
| String c r =>
    match r with
    | String c' r' =>
        if Ascii.eqb c CR && Ascii.eqb c' LF then String LF (replace_crlf r')
        else String c (replace_crlf r)
    | EmptyString => String c ""
    end
end.

(** [output.replace(/\r/g, '\n')] *)
Fixpoint replace_cr (s : string) : string :=
match s with
| EmptyString => ""
| String c r => String (if Ascii.eqb c CR then LF else c) (replace_cr r)
end.

Fixpoint spaces (k : nat) : string :=
match k with
| 0 => ""
| S k => String SP (spaces k)
end.

(** A match of [/\n([ ]*\n)+/] that is under way: whether a group
    [[ ]*\n] is complete, and the spaces read since the last line
    break. *)
Definition pending : Type := bool * nat.

(** What a match that ends here leaves in the output: the replacement
    when a group is complete, else the line break it began with; then
    the spaces that belong to no group. *)
Definition flush (p : pending) : string :=
(if fst p then "</p><p>" else String LF "") +:+ spaces (snd p).

(** [output.replace(/\n([ ]*\n)+/g, '</p><p>')], from left to right. *)
Fixpoint replace_blank_lines (p : option pending) (s : string) : string :=
match s with
| EmptyString => match p with Some p => flush p | None => "" end
| String c r =>
    match p with
    | None =>
        if Ascii.eqb c LF then replace_blank_lines (Some (false, 0)) r
        else String c (replace_blank_lines None r)
    | Some (group, k) =>
        if Ascii.eqb c SP then replace_blank_lines (Some (group, S k)) r
        else if Ascii.eqb c LF then replace_blank_lines (Some (true, 0)) r
        else flush (group, k) +:+ String c (replace_blank_lines None r)
    end
end.

(** [output.replace(/\n/g, '<br>')] *)
Fixpoint replace_lf (s : string) : string :=
match s with
| EmptyString => ""
| String c r =>
    (if Ascii.eqb c LF then "<br>" else String c "") +:+ replace_lf r
end.

Definition filterPlaintext (input : string) (useParagraphs : bool) : string :=
(* Escape HTML *)
let output := escape input in
(* Convert all line-endings to UNIX format *)
let output := replace_crlf output in
let output := replace_cr output in
(* Convert double linebreaks to paragraph close *)
let output :=
  if useParagraphs then replace_blank_lines None output else output in
(* Convert single line breaks to HTML linebreaks *)
let output := replace_lf output in
if useParagraphs then "<p>" +:+ output +:+ "</p>" else output.

(** [.replace(/[ ]{2}/g, '  ')] *)
Fixpoint replace_double_spaces (s : string) : string :=
match s with
| EmptyString => ""
| String c r =>
    match r with
    | String c' r' =>
        if Ascii.eqb c SP && Ascii.eqb c' SP
        then String SP (String NBSP (replace_double_spaces r'))
        else String c (replace_double_spaces r)
    | EmptyString => String c ""
    end
end.

(** [.replace(/[ ]$/, ' ')] *)
Fixpoint replace_last_space (s : string) : string :=
match s with
| EmptyString => ""
| String c r =>
    match r with
    | EmptyString => String (if Ascii.eqb c SP then NBSP else c) ""
    | _ => String c (replace_last_space r)
    end
end.

Definition convertToBrowserSpaces (data : string) : string :=
replace_last_space (replace_double_spaces data).

End DataFilterText.

(* ===================================================================== *)
(** * src/src/dataFilter.js: [sanitizeIFrames], [unSanitizeIFrames]       *)
(* ===================================================================== *)

Module DataFilterFrames.
Import Dom.

(** What [find('iframe')] selects. *)
Definition is_iframe (n : node) : bool :=
is_element n && String.eqb (name_of n) "IFRAME".

(** The value of ['javascript:\'\''] *)
Definition blank_source : string := "javascript:''".

(** The body of the [each] of [sanitizeIFrames]: jQuery's
    [attr(name, undefined)] sets nothing. *)
Definition sanitize_attributes (attrs : list (string * string))
  : list (string * string) :=
let attrs :=
  match get_attr "src" attrs with
  | Some src => set_attr "data-original-src" src attrs
  | None => attrs
  end in
set_attr "src" blank_source attrs.

(** The body of the [each] of [unSanitizeIFrames], for an element that
    [iframe[data-original-src]] selects. *)
Definition unsanitize_attributes (attrs : list (string * string))
  : list (string * string) :=
match get_attr "data-original-src" attrs with
| Some original =>
    remove_attr "data-original-src" (set_attr "src" original attrs)
| None => attrs
end.

(** An [each] over the elements below a node that changes attributes
    only. *)
Fixpoint each_iframe
    (f : list (string * string) -> list (string * string)) (n : node)
  : node :=
match n with
| Elem nm attrs cs =>
    Elem nm (if String.eqb nm "IFRAME" then f attrs else attrs)
      (map (each_iframe f) cs)
| _ => n
end.

Definition below_body
    (f : list (string * string) -> list (string * string)) (body : node)
  : node :=
match body with
| Elem nm attrs cs => Elem nm attrs (map (each_iframe f) cs)
| _ => body
end.

(** [sanitizeIFrames] and [unSanitizeIFrames], between
    [nodeFromString(input)] and [dummyInputNode.innerHTML]. *)
Definition sanitizeIFrames (dummyInputNode : node) : node :=
below_body sanitize_attributes dummyInputNode.

Definition unSanitizeIFrames (dummyInputNode : node) : node :=
below_body unsanitize_attributes dummyInputNode.

End DataFilterFrames.

(* ===================================================================== *)
(** * Facts: nodes and [normalize]                                        *)
(* ===================================================================== *)

Module DomFacts.
Import Dom.

Section NodeInduction.

Variable P : node -> Prop.
Hypothesis HText : forall d, P (Text d).
Hypothesis HElem : forall nm attrs cs, Forall P cs -> P (Elem nm attrs cs).
Hypothesis HEntity : forall nm, P (EntityRef nm).
Hypothesis HComment : forall d, P (Comment d).
Hypothesis HOther : forall t, P (OtherNode t).

Fixpoint node_induction (n : node) : P n :=
match n with
| Text d => HText d
| Elem nm attrs cs =>
    HElem nm attrs cs
      ((fix all (l : list node) : Forall P l :=
          match l with
          | [] => @List.Forall_nil node P
          | c :: r => @List.Forall_cons node P c r (node_induction c) (all r)
          end) cs)
| EntityRef nm => HEntity nm
| Comment d => HComment d
| OtherNode t => HOther t
end.

End NodeInduction.

Lemma append_cons (x : ascii) (a b : string) :
  String x a +:+ b = String x (a +:+ b).
Proof. reflexivity. Qed.

Lemma append_assoc (a b c : string) : (a +:+ b) +:+ c = a +:+ (b +:+ c).
Proof.
  induction a as [|x a IH]; [reflexivity|].
  rewrite !append_cons, IH. reflexivity.
Qed.

Lemma append_nil_r (a : string) : a +:+ "" = a.
Proof.
  induction a as [|x a IH]; [reflexivity|].
  rewrite append_cons, IH. reflexivity.
Qed.

Lemma append_length (a b : string) :
  String.length (a +:+ b) = String.length a + String.length b.
Proof.
  induction a as [|x a IH]; [reflexivity|].
  rewrite append_cons. simpl. rewrite IH. reflexivity.
Qed.

Lemma concat_strings_app (a b : list string) :
  concat_strings (a ++ b) = concat_strings a +:+ concat_strings b.
Proof.
  induction a as [|x a IH]; simpl; [reflexivity|].
  rewrite IH, append_assoc. reflexivity.
Qed.

Lemma merge_text_head (l r : list node) (d : string) :
  merge_text l = Text d :: r -> d <> "".
Proof.
  revert r d. induction l as [|x l IH]; intros r d H; simpl in H.
  - discriminate.
  - destruct x; try discriminate.
    destruct (String.eqb_spec data "") as [->|Hne].
    + apply (IH _ _ H).
    + destruct (merge_text l) as [|[d'| | | |] r'] eqn:Hm;
        injection H as <- <-; try exact Hne.
      intros Habs. destruct data; [congruence|discriminate].
Qed.

Lemma merge_text_nonempty_text (d : string) (l : list node) :
  d <> "" ->
  merge_text (Text d :: l)
  = match merge_text l with
    | Text d' :: r' => Text (d +:+ d') :: r'
    | r' => Text d :: r'
    end.
Proof.
  intros Hne. simpl. destruct (String.eqb_spec d ""); [contradiction|reflexivity].
Qed.

Lemma merge_text_app_l (a b : list node) :
  merge_text (merge_text a ++ b) = merge_text (a ++ b).
Proof.
  induction a as [|x a IH]; [reflexivity|].
  destruct x as [d| | | |];
    try (simpl; rewrite IH; reflexivity).
  destruct (String.eqb_spec d "") as [->|Hne].
  - simpl. exact IH.
  - change ((Text d :: a) ++ b) with (Text d :: (a ++ b)).
    rewrite !merge_text_nonempty_text by exact Hne.
    rewrite <- IH.
    destruct (merge_text a) as [|[d'| | | |] r'] eqn:Hm; simpl app;
      try (rewrite merge_text_nonempty_text by exact Hne; reflexivity).
    assert (Hd' : d' <> "") by (apply (merge_text_head a r' d' Hm)).
    assert (Hdd : d +:+ d' <> "").
    { intros H. destruct d; [congruence|discriminate]. }
    rewrite merge_text_nonempty_text by exact Hdd.
    rewrite merge_text_nonempty_text by exact Hd'.
    destruct (merge_text (r' ++ b)) as [|[e| | | |] q]; try reflexivity.
    rewrite append_assoc. reflexivity.
Qed.

Lemma merge_text_idem (a : list node) :
  merge_text (merge_text a) = merge_text a.
Proof.
  rewrite <- (app_nil_r (merge_text a)) at 1.
  rewrite merge_text_app_l, app_nil_r. reflexivity.
Qed.

(** An element stops the joining of text nodes. *)
Lemma merge_text_element (a b : list node) (n : node) :
  is_text n = false ->
  merge_text (a ++ n :: b) = merge_text a ++ n :: merge_text b.
Proof.
  intros Hn. induction a as [|x a IH].
  - destruct n; try discriminate; reflexivity.
  - destruct x as [d| | | |];
      try (simpl; rewrite IH; reflexivity).
    destruct (String.eqb_spec d "") as [->|Hne].
    + simpl. exact IH.
    + change ((Text d :: a) ++ n :: b) with (Text d :: (a ++ n :: b)).
      rewrite !merge_text_nonempty_text by exact Hne.
      rewrite IH.
      destruct (merge_text a) as [|[d'| | | |] r']; try reflexivity.
      destruct n; try discriminate; reflexivity.
Qed.

Definition fixed (n : node) : Prop := normalize n = n.

Lemma merge_text_fixed (l : list node) :
  Forall fixed l -> Forall fixed (merge_text l).
Proof.
  induction 1 as [|x l Hx Hl IH]; simpl; [constructor|].
  destruct x; try (constructor; assumption).
  destruct (String.eqb data ""); [exact IH|].
  destruct (merge_text l) as [|[d'| | | |] r'];
    inversion IH; subst; repeat constructor; assumption.
Qed.

Lemma map_fixed (l : list node) : Forall fixed l -> map normalize l = l.
Proof.
  induction 1 as [|x l Hx Hl IH]; simpl; [reflexivity|].
  rewrite Hx, IH. reflexivity.
Qed.

Lemma normalize_fixed (n : node) : fixed (normalize n).
Proof.
  induction n as [d|nm attrs cs IH|nm|d|t] using node_induction;
    try reflexivity.
  unfold fixed. simpl. f_equal.
  assert (H : Forall fixed (merge_text (map normalize cs))).
  { apply merge_text_fixed. apply Forall_map. exact IH. }
  rewrite (map_fixed _ H). apply merge_text_idem.
Qed.

Lemma normalize_list_fixed (l : list node) : Forall fixed (normalize_list l).
Proof.
  unfold normalize_list. apply merge_text_fixed. apply Forall_map.
  apply Forall_forall. intros x _. apply normalize_fixed.
Qed.

Lemma normalize_list_app_l (a b : list node) :
  normalize_list (normalize_list a ++ b) = normalize_list (a ++ b).
Proof.
  unfold normalize_list at 1 3. rewrite !map_app.
  rewrite (map_fixed _ (normalize_list_fixed a)).
  unfold normalize_list. apply merge_text_app_l.
Qed.

Lemma normalize_list_idem (a : list node) :
  normalize_list (normalize_list a) = normalize_list a.
Proof.
  rewrite <- (app_nil_r (normalize_list a)) at 1.
  rewrite normalize_list_app_l, app_nil_r. reflexivity.
Qed.

Lemma normalize_list_element (a b : list node) (n : node) :
  is_text n = false ->
  normalize_list (a ++ n :: b)
  = normalize_list a ++ normalize n :: normalize_list b.
Proof.
  intros Hn. unfold normalize_list. rewrite map_app. simpl.
  apply merge_text_element. destruct n; try discriminate; reflexivity.
Qed.

End DomFacts.


(* ===================================================================== *)
(** * Facts: selection persistence                                        *)
(* ===================================================================== *)

Module SelectionPersistenceFacts.
Import Dom Js SelectionPersistence DomFacts.

(** ** Strings *)

Lemma substring_none (n : nat) (d : string) : substring n 0 d = "".
Proof.
  revert n. induction d as [|c d IH]; intros [|n]; try reflexivity.
  cbn. apply IH.
Qed.

Lemma substring_all (d : string) : substring 0 (String.length d) d = d.
Proof. induction d as [|c d IH]; [reflexivity|]. cbn. rewrite IH. reflexivity. Qed.

Lemma substring_length (d : string) (n m : nat) :
  n + m <= String.length d -> String.length (substring n m d) = m.
Proof.
  revert n m. induction d as [|c d IH]; intros n m H; cbn in H.
  - assert (n = 0) by lia. assert (m = 0) by lia. subst. reflexivity.
  - destruct n as [|n].
    + destruct m as [|m]; [reflexivity|]. cbn. rewrite (IH 0 m); lia.
    + cbn. apply IH. lia.
Qed.

Lemma substring_app_l (a b : string) (m : nat) :
  m <= String.length a -> substring 0 m (a +:+ b) = substring 0 m a.
Proof.
  revert m. induction a as [|c a IH]; intros m H; cbn in H.
  - assert (m = 0) by lia. subst. cbn. apply substring_none.
  - destruct m as [|m]; [reflexivity|].
    rewrite append_cons. cbn. rewrite IH; [reflexivity|lia].
Qed.

Lemma substring_app_r (a b : string) (m : nat) :
  substring 0 (String.length a + m) (a +:+ b) = a +:+ substring 0 m b.
Proof.
  induction a as [|c a IH]; [reflexivity|].
  rewrite !append_cons. cbn. rewrite IH. reflexivity.
Qed.

Lemma substring_of_prefix (t : string) (s m e : nat) :
  s + m <= e -> substring s m (substring 0 e t) = substring s m t.
Proof.
  revert s m e. induction t as [|c t IH]; intros s m e H.
  - destruct e; reflexivity.
  - destruct e as [|e].
    + assert (s = 0) by lia. assert (m = 0) by lia. subst. reflexivity.
    + cbn [substring]. destruct s as [|s].
      * destruct m as [|m]; [reflexivity|]. cbn [substring].
        rewrite (IH 0 m e); [reflexivity|lia].
      * cbn [substring]. apply IH. lia.
Qed.

Lemma append_empty (a b : string) : a +:+ b = "" -> a = "".
Proof. destruct a; [reflexivity|discriminate]. Qed.

(** ** The text nodes the walks visit *)

(** The text nodes of a node that are not below a node marked
    [contenteditable="false"], by position and in document order. *)
Fixpoint texts (n : node) : list (path * string) :=
match n with
| Text d => [([], d)]
| Elem _ attrs cs =>
    if contenteditable_false attrs then []
    else
      (fix go (j : nat) (cs : list node) : list (path * string) :=
         match cs with
         | [] => []
         | c :: rest =>
             map (fun t => (j :: fst t, snd t)) (texts c) ++ go (S j) rest
         end) 0 cs
| _ => []
end.

Fixpoint texts_from (j : nat) (cs : list node) : list (path * string) :=
match cs with
| [] => []
| c :: rest =>
    map (fun t => (j :: fst t, snd t)) (texts c) ++ texts_from (S j) rest
end.

Lemma texts_elem (nm : string) (attrs : list (string * string))
    (cs : list node) :
  texts (Elem nm attrs cs)
  = if contenteditable_false attrs then [] else texts_from 0 cs.
Proof.
  cbn [texts]. destruct (contenteditable_false attrs); [reflexivity|].
  generalize 0. induction cs as [|c rest IH]; intros j; [reflexivity|].
  cbn [texts_from]. rewrite <- (IH (S j)). reflexivity.
Qed.

Definition content (l : list (path * string)) : string :=
concat_strings (map snd l).

Lemma content_app (a b : list (path * string)) :
  content (a ++ b) = content a +:+ content b.
Proof. unfold content. rewrite map_app. apply concat_strings_app. Qed.

Lemma content_map (f : path -> path) (l : list (path * string)) :
  content (map (fun t => (f (fst t), snd t)) l) = content l.
Proof. unfold content. rewrite map_map. reflexivity. Qed.

(** A tree the walks can go through, and in which the text they skip is
    empty: where it is editable it holds text nodes and elements only,
    and its non-editable elements hold no text. *)
Fixpoint walkable (n : node) : bool :=
match n with
| Text _ => true
| Elem _ attrs cs =>
    if contenteditable_false attrs
    then String.eqb (concat_strings (map textContent cs)) ""
    else forallb walkable cs
| _ => false
end.

Lemma walkable_content (n : node) :
  walkable n = true -> content (texts n) = textContent n.
Proof.
  induction n as [d|nm attrs cs IH|nm|d|t] using node_induction;
    intros H; try discriminate.
  - cbn. apply append_nil_r.
  - rewrite texts_elem. cbn [walkable textContent] in *.
    destruct (contenteditable_false attrs).
    + apply String.eqb_eq in H. rewrite H. reflexivity.
    + generalize 0. induction IH as [|c rest Hc _ IHrest]; intros j;
        [reflexivity|].
      cbn [forallb] in H. apply andb_prop in H. destruct H as [H1 H2].
      cbn [texts_from map concat_strings].
      rewrite content_app, (content_map (cons j)), (Hc H1), (IHrest H2).
      reflexivity.
Qed.

Lemma walkable_editable (n : node) :
  walkable n = true -> editable_text n = textContent n.
Proof.
  induction n as [d|nm attrs cs IH|nm|d|t] using node_induction;
    intros H; try discriminate; [reflexivity|].
  cbn [walkable textContent editable_text] in *.
  destruct (contenteditable_false attrs).
  - apply String.eqb_eq in H. rewrite H. reflexivity.
  - f_equal. induction IH as [|c rest Hc _ IHrest]; [reflexivity|].
    cbn [forallb] in H. apply andb_prop in H. destruct H as [H1 H2].
    cbn [map]. rewrite (Hc H1), (IHrest H2). reflexivity.
Qed.

(** ** The loop *)

(** The visits of the loop, one text node after the other. *)
Fixpoint visit_all {S : Type} (stop : S -> bool)
    (visit : path -> string -> S -> outcome S) (l : list (path * string))
    (st : S) : outcome S :=
match l with
| [] => Ok st
| (p, d) :: rest =>
    if stop st then Ok st
    else do st <- visit p d st ; visit_all stop visit rest st
end.

Lemma visit_all_stop {S : Type} (stop : S -> bool)
    (visit : path -> string -> S -> outcome S) (l : list (path * string))
    (st : S) :
  stop st = true -> visit_all stop visit l st = Ok st.
Proof. intros H. destruct l as [|[p d] l]; [reflexivity|]. cbn. rewrite H. reflexivity. Qed.

Definition stack_texts (nodeStack : list (path * node))
  : list (path * string) :=
flat_map (fun e => map (fun t => (fst e ++ fst t, snd t)) (texts (snd e)))
  nodeStack.

Definition stack_size (nodeStack : list (path * node)) : nat :=
list_sum (map (fun e => size (snd e)) nodeStack).

Lemma push_children_texts (p : path) (cs : list node) (j : nat) :
  stack_texts (push_children p j cs)
  = map (fun t => (p ++ fst t, snd t)) (texts_from j cs).
Proof.
  revert j. induction cs as [|c rest IH]; intros j; [reflexivity|].
  cbn [push_children texts_from]. unfold stack_texts in *.
  cbn [flat_map fst snd]. rewrite IH, map_app, map_map. f_equal.
  apply map_ext. intros t. cbn [fst snd]. rewrite <- app_assoc. reflexivity.
Qed.

Lemma push_children_size (p : path) (cs : list node) (j : nat) :
  stack_size (push_children p j cs) = list_sum (map size cs).
Proof.
  revert j. induction cs as [|c rest IH]; intros j; [reflexivity|].
  cbn [push_children].
  change (stack_size ((p ++ [j], c) :: push_children p (S j) rest))
    with (size c + stack_size (push_children p (S j) rest)).
  rewrite IH. reflexivity.
Qed.

Lemma push_children_walkable (p : path) (cs : list node) (j : nat) :
  forallb walkable cs = true ->
  Forall (fun e => walkable (snd e) = true) (push_children p j cs).
Proof.
  revert j. induction cs as [|c rest IH]; intros j H; [constructor|].
  cbn [forallb] in H. apply andb_prop in H. destruct H as [H1 H2].
  constructor; [exact H1|apply IH; exact H2].
Qed.

Lemma stack_size_app (a b : list (path * node)) :
  stack_size (a ++ b) = stack_size a + stack_size b.
Proof. unfold stack_size. rewrite map_app, list_sum_app. reflexivity. Qed.

(** With enough steps the loop is the sequence of its visits. *)
Lemma walk_visits {S : Type} (stop : S -> bool)
    (visit : path -> string -> S -> outcome S) (fuel : nat)
    (nodeStack : list (path * node)) (st : S) :
  Forall (fun e => walkable (snd e) = true) nodeStack ->
  stack_size nodeStack < fuel ->
  walk stop visit fuel nodeStack st
  = visit_all stop visit (stack_texts nodeStack) st.
Proof.
  revert nodeStack st.
  induction fuel as [|fuel IH]; intros nodeStack st Hp Hf; [lia|].
  cbn [walk]. destruct (stop st) eqn:Es;
    [rewrite visit_all_stop; [reflexivity|exact Es]|].
  destruct nodeStack as [|[p n] rest]; [reflexivity|].
  inversion Hp as [|? ? Hn Hrest]; subst. cbn [snd] in Hn.
  change (stack_size ((p, n) :: rest)) with (size n + stack_size rest) in Hf.
  destruct n as [d|nm attrs cs|nm|d|t]; try discriminate.
  - cbn [size] in Hf.
    change (stack_texts ((p, Text d) :: rest))
      with ((p ++ [], d) :: stack_texts rest).
    rewrite app_nil_r. cbn [visit_all]. rewrite Es.
    destruct (visit p d st) as [st'| |]; cbn [bind]; try reflexivity.
    apply IH; [exact Hrest|lia].
  - cbn [size] in Hf. cbn [walkable] in Hn.
    unfold stack_texts at 1. cbn [flat_map fst snd].
    fold (stack_texts rest). rewrite texts_elem.
    destruct (contenteditable_false attrs).
    + cbn [map app]. apply IH; [exact Hrest|lia].
    + rewrite IH.
      * unfold stack_texts at 1. rewrite flat_map_app.
        fold (stack_texts (push_children p 0 cs)). fold (stack_texts rest).
        rewrite push_children_texts. reflexivity.
      * apply Forall_app. split; [apply push_children_walkable; exact Hn|].
        exact Hrest.
      * rewrite stack_size_app, push_children_size. lia.
Qed.

Lemma walk_container {S : Type} (stop : S -> bool)
    (visit : path -> string -> S -> outcome S) (container : node) (st : S) :
  walkable container = true ->
  walk stop visit (steps container) [([], container)] st
  = visit_all stop visit (texts container) st.
Proof.
  intros H. rewrite walk_visits.
  - unfold stack_texts. cbn [flat_map fst snd app]. rewrite app_nil_r.
    f_equal. rewrite <- (map_id (texts container)) at 2.
    apply map_ext. intros [p d]. reflexivity.
  - constructor; [exact H|constructor].
  - unfold stack_size, steps. cbn. lia.
Qed.


(** ** Where a visited text node is *)

Definition lift (j : nat) (t : path * string) : path * string :=
(j :: fst t, snd t).

Lemma texts_from_cons (j : nat) (c : node) (rest : list node) :
  texts_from j (c :: rest) = map (lift j) (texts c) ++ texts_from (S j) rest.
Proof. reflexivity. Qed.

Lemma texts_from_app (j : nat) (a b : list node) :
  texts_from j (a ++ b) = texts_from j a ++ texts_from (j + length a) b.
Proof.
  revert j. induction a as [|c a IH]; intros j.
  - cbn. rewrite Nat.add_0_r. reflexivity.
  - cbn [app length]. rewrite !texts_from_cons, IH, <- app_assoc.
    rewrite Nat.add_succ_r. reflexivity.
Qed.

Lemma split_app {A : Type} (a b pre post : list A) (x : A) :
  a ++ b = pre ++ x :: post ->
  (exists a2, a = pre ++ x :: a2 /\ post = a2 ++ b)
  \/ (exists b1, pre = a ++ b1 /\ b = b1 ++ x :: post).
Proof.
  revert pre. induction a as [|y a IH]; intros pre H.
  - right. exists pre. split; [reflexivity|exact H].
  - destruct pre as [|z pre].
    + injection H as -> H. left. exists a. split; [reflexivity|].
      symmetry. exact H.
    + injection H as -> H. destruct (IH pre H) as [(a2 & -> & ->)|(b1 & -> & ->)].
      * left. exists a2. split; reflexivity.
      * right. exists b1. split; reflexivity.
Qed.

Lemma split_map {A B : Type} (f : A -> B) (l : list A) (pre post : list B)
    (x : B) :
  map f l = pre ++ x :: post ->
  exists pre' x' post',
    l = pre' ++ x' :: post' /\ pre = map f pre' /\ x = f x'
    /\ post = map f post'.
Proof.
  revert pre. induction l as [|y l IH]; intros pre H.
  - destruct pre; discriminate.
  - destruct pre as [|z pre].
    + injection H as <- <-. exists [], y, l. repeat split.
    + injection H as <- H. destruct (IH pre H) as (pre' & x' & post' & -> & -> & -> & ->).
      exists (y :: pre'), x', post'. repeat split.
Qed.

(** A visited text node below an element is a visited text node of one
    of its children. *)
Lemma texts_from_split (cs : list node) (j : nat)
    (pre post : list (path * string)) (q : path) (d : string) :
  texts_from j cs = pre ++ (q, d) :: post ->
  exists cs1 c cs2 pre' q' post',
    cs = cs1 ++ c :: cs2
    /\ q = (j + length cs1) :: q'
    /\ texts c = pre' ++ (q', d) :: post'
    /\ pre = texts_from j cs1 ++ map (lift (j + length cs1)) pre'.
Proof.
  revert j pre. induction cs as [|c rest IH]; intros j pre H.
  - destruct pre; discriminate.
  - rewrite texts_from_cons in H. apply split_app in H.
    destruct H as [(a2 & H & _)|(b1 & -> & H)].
    + apply split_map in H.
      destruct H as (pre' & [q' d'] & post' & Ht & -> & Hx & _).
      injection Hx as -> ->.
      exists [], c, rest, pre', q', post'. cbn [length app texts_from].
      rewrite Nat.add_0_r. repeat split. exact Ht.
    + destruct (IH (S j) b1 H) as (cs1 & c' & cs2 & pre' & q' & post'
                                   & -> & -> & Ht & ->).
      exists (c :: cs1), c', cs2, pre', q', post'. cbn [length app].
      rewrite Nat.add_succ_r, texts_from_cons, <- app_assoc.
      repeat split. exact Ht.
Qed.

Lemma content_texts_from (cs : list node) (j : nat) :
  forallb walkable cs = true ->
  content (texts_from j cs) = textContent_list cs.
Proof.
  revert j. induction cs as [|c rest IH]; intros j H; [reflexivity|].
  cbn [forallb] in H. apply andb_prop in H. destruct H as [H1 H2].
  rewrite texts_from_cons, content_app. unfold lift.
  rewrite (content_map (cons j)), (walkable_content c H1), (IH (S j) H2).
  reflexivity.
Qed.

Lemma forallb_app_inv {A : Type} (f : A -> bool) (a b : list A) :
  forallb f (a ++ b) = true -> forallb f a = true /\ forallb f b = true.
Proof. rewrite forallb_app. apply andb_prop. Qed.

Lemma Forall_middle {A : Type} (P : A -> Prop) (a : list A) (x : A)
    (b : list A) :
  Forall P (a ++ x :: b) -> P x.
Proof.
  intros H. apply Forall_app in H. destruct H as [_ H].
  inversion H; assumption.
Qed.

Lemma firstn_middle {A : Type} (a : list A) (x : A) (b : list A) :
  firstn (length a) (a ++ x :: b) = a.
Proof.
  induction a as [|y a IH]; [reflexivity|]. cbn. rewrite IH. reflexivity.
Qed.

Lemma nth_error_here {A : Type} (a : list A) (x : A) (b : list A) :
  nth_error (a ++ x :: b) (length a) = Some x.
Proof. induction a as [|y a IH]; [reflexivity|exact IH]. Qed.

(** A visited text node is the text node at its position, and the text in
    front of a position in it is the text of the nodes visited before it
    and the part of its data in front of the offset. *)
Lemma texts_located (n : node) :
  walkable n = true ->
  forall pre q d post, texts n = pre ++ (q, d) :: post ->
    node_at n q = Some (Text d)
    /\ forall o, text_before n q o = content pre +:+ substring 0 o d.
Proof.
  induction n as [d0|nm attrs cs IH|nm|d0|t] using node_induction;
    intros Hp pre q d post H; try discriminate.
  - cbn [texts] in H. destruct pre as [|x pre];
      [|destruct pre; discriminate].
    injection H as <- <- _. split; reflexivity.
  - rewrite texts_elem in H. cbn [walkable] in Hp.
    destruct (contenteditable_false attrs); [destruct pre; discriminate|].
    apply texts_from_split in H.
    destruct H as (cs1 & c & cs2 & pre' & q' & post' & -> & -> & Ht & ->).
    apply forallb_app_inv in Hp. destruct Hp as [Hp1 Hp2].
    cbn [forallb] in Hp2. apply andb_prop in Hp2. destruct Hp2 as [Hc _].
    destruct (Forall_middle _ _ _ _ IH Hc pre' q' d post' Ht) as [Hn Hb].
    cbn [Nat.add node_at text_before children].
    rewrite nth_error_here, firstn_middle. split; [exact Hn|].
    intros o. rewrite Hb, content_app. unfold lift.
    rewrite (content_map (cons (length cs1))).
    rewrite (content_texts_from cs1 0 Hp1), append_assoc. reflexivity.
Qed.

(** The text in front of a position is the beginning of the text of the
    node. *)
Lemma text_before_prefix (p : path) (n : node) (o : nat) :
  exists rest, textContent n = text_before n p o +:+ rest.
Proof.
  revert n. induction p as [|i p IH]; intros n.
  - destruct n as [d|nm attrs cs|nm|d|t]; cbn [text_before];
      try (eexists; reflexivity).
    + revert o. induction d as [|c d IHd]; intros o.
      * exists "". destruct o; reflexivity.
      * destruct o as [|o]; [exists (String c d); reflexivity|].
        destruct (IHd o) as (rest & Hr). exists rest.
        cbn [substring textContent] in *. rewrite append_cons, <- Hr.
        reflexivity.
    + exists (textContent_list (skipn o cs)). cbn [textContent].
      unfold textContent_list. rewrite <- concat_strings_app, <- map_app.
      rewrite firstn_skipn. reflexivity.
  - cbn [text_before].
    destruct (nth_error (children n) i) as [c|] eqn:E.
    + destruct n as [d|nm attrs cs|nm|d|t]; cbn [children] in E;
        try (destruct i; discriminate).
      destruct (nth_error_split _ _ E) as (cs1 & cs2 & -> & <-).
      destruct (IH c) as (rest & Hr).
      exists (rest +:+ textContent_list cs2).
      cbn [textContent children]. rewrite firstn_middle.
      change (concat_strings (map textContent (cs1 ++ c :: cs2)))
        with (textContent_list (cs1 ++ c :: cs2)).
      unfold textContent_list. rewrite map_app, concat_strings_app.
      cbn [map concat_strings]. rewrite Hr, !append_assoc. reflexivity.
    + destruct n as [d|nm attrs cs|nm|d|t]; cbn [children textContent];
        try (exists ""; destruct i; reflexivity).
      * exists d. destruct i; reflexivity.
      * exists (textContent_list (skipn i cs)).
        rewrite append_nil_r. unfold textContent_list.
        rewrite <- concat_strings_app, <- map_app, firstn_skipn.
        reflexivity.
Qed.

Lemma text_before_empty (n : node) (p : path) (o : nat) :
  textContent n = "" -> text_before n p o = "".
Proof.
  intros H. destruct (text_before_prefix p n o) as (rest & Hr).
  rewrite H in Hr. symmetry in Hr. exact (append_empty _ _ Hr).
Qed.

Lemma text_before_length (n : node) (p : path) (o : nat) :
  String.length (text_before n p o) <= String.length (textContent n).
Proof.
  destruct (text_before_prefix p n o) as (rest & Hr).
  rewrite Hr, append_length. lia.
Qed.

(** ** The order of the visits *)

Fixpoint pairwise {A : Type} (R : A -> A -> Prop) (l : list A) : Prop :=
match l with
| [] => True
| a :: rest => Forall (R a) rest /\ pairwise R rest
end.

Lemma pairwise_app {A : Type} (R : A -> A -> Prop) (x y : list A) :
  pairwise R x -> pairwise R y -> Forall (fun a => Forall (R a) y) x ->
  pairwise R (x ++ y).
Proof.
  induction x as [|a x IH]; intros Hx Hy Hxy; [exact Hy|].
  destruct Hx as [Ha Hx]. inversion Hxy; subst.
  cbn [app pairwise]. split.
  - apply Forall_app. split; assumption.
  - apply IH; assumption.
Qed.

Lemma pairwise_map {A B : Type} (R : B -> B -> Prop) (f : A -> B)
    (l : list A) :
  pairwise (fun a b => R (f a) (f b)) l -> pairwise R (map f l).
Proof.
  induction l as [|a l IH]; intros H; [exact I|].
  destruct H as [Ha Hl]. cbn [map pairwise]. split; [|apply IH; exact Hl].
  apply Forall_map. exact Ha.
Qed.

Lemma pairwise_impl {A : Type} (R R' : A -> A -> Prop) (l : list A) :
  (forall a b, R a b -> R' a b) -> pairwise R l -> pairwise R' l.
Proof.
  intros HR. induction l as [|a l IH]; intros H; [exact I|].
  destruct H as [Ha Hl]. split; [|apply IH; exact Hl].
  eapply List.Forall_impl; [|exact Ha]. intros b. apply HR.
Qed.

Lemma pairwise_middle {A : Type} (R : A -> A -> Prop) (a : list A) (x : A)
    (b : list A) :
  pairwise R (a ++ x :: b) -> Forall (R x) b.
Proof.
  induction a as [|y a IH]; intros H.
  - destruct H as [H _]. exact H.
  - destruct H as [_ H]. apply IH. exact H.
Qed.

(** No position in the second text node comes before a position in the
    first. *)
Definition follows (a b : path * string) : Prop :=
forall o1 o2, path_ltb (fst b ++ [o2]) (fst a ++ [o1]) = false.

Lemma texts_from_head (cs : list node) (j : nat) :
  Forall (fun t => exists i q, fst t = i :: q /\ j <= i) (texts_from j cs).
Proof.
  revert j. induction cs as [|c rest IH]; intros j; [constructor|].
  rewrite texts_from_cons. apply Forall_app. split.
  - apply Forall_map. apply List.Forall_forall. intros t _.
    exists j, (fst t). split; [reflexivity|lia].
  - eapply List.Forall_impl; [|exact (IH (S j))].
    intros t (i & q & E & Hi). exists i, q. split; [exact E|lia].
Qed.

Lemma texts_in_order (n : node) : pairwise follows (texts n).
Proof.
  induction n as [d|nm attrs cs IH|nm|d|t] using node_induction;
    try exact I.
  - split; [constructor|exact I].
  - rewrite texts_elem. destruct (contenteditable_false attrs); [exact I|].
    generalize 0. induction IH as [|c rest Hc _ IHrest]; intros j;
      [exact I|].
    rewrite texts_from_cons. apply pairwise_app.
    + apply pairwise_map. eapply pairwise_impl; [|exact Hc].
      intros a b Hab o1 o2. cbn [lift fst app path_ltb].
      rewrite Nat.ltb_irrefl, Nat.eqb_refl. apply Hab.
    + apply IHrest.
    + apply Forall_map. apply List.Forall_forall. intros a _.
      eapply List.Forall_impl; [|exact (texts_from_head rest (S j))].
      intros [qb db] (i & q & E & Hi) o1 o2. cbn [fst] in E. subst qb.
      cbn [lift fst app path_ltb].
      destruct (Nat.ltb_spec i j) as [Hlt|_]; [lia|].
      destruct (Nat.eqb_spec i j) as [->|_]; [lia|]. reflexivity.
Qed.

Lemma path_ltb_same (q : path) (o1 o2 : nat) :
  o1 <= o2 -> path_ltb (q ++ [o2]) (q ++ [o1]) = false.
Proof.
  intros H. induction q as [|i q IH]; cbn [app path_ltb].
  - destruct (Nat.ltb_spec o2 o1) as [Hlt|_]; [lia|].
    rewrite andb_false_r. reflexivity.
  - rewrite Nat.ltb_irrefl, Nat.eqb_refl. exact IH.
Qed.


(** ** Saving *)

Lemma first_visit (q : path) (l : list (path * string)) :
  In q (map fst l) ->
  exists pre d post, l = pre ++ (q, d) :: post /\ ~ In q (map fst pre).
Proof.
  induction l as [|[p d] l IH]; intros H; [contradiction|].
  destruct (decide (p = q)) as [->|Hne].
  - exists [], d, l. split; [reflexivity|intros []].
  - destruct H as [H|H]; [contradiction|].
    destruct (IH H) as (pre & d' & post & -> & Hpre).
    exists ((p, d) :: pre), d', post. split; [reflexivity|].
    intros [E|E]; [exact (Hne E)|exact (Hpre E)].
Qed.

(** The loop of [saveSelection] counts the text of the nodes it visits
    before the start container, and the start offset. *)
Lemma save_visits (range : Range) (pre post : list (path * string))
    (d : string) (c : nat) :
  ~ In (startContainer range) (map fst pre) ->
  visit_all (fun st : nat * bool => snd st)
    (fun p d st =>
       if path_eqb p (startContainer range)
       then Ok (fst st + startOffset range, true)
       else Ok (fst st + String.length d, false))
    (pre ++ (startContainer range, d) :: post) (c, false)
  = Ok (c + String.length (content pre) + startOffset range, true).
Proof.
  revert c. induction pre as [|[p d'] pre IH]; intros c Hpre.
  - cbn [app visit_all snd fst content map concat_strings String.length].
    unfold path_eqb. rewrite bool_decide_eq_true_2 by reflexivity.
    cbn [bind]. rewrite visit_all_stop by reflexivity.
    rewrite Nat.add_0_r. reflexivity.
  - cbn [app visit_all snd fst]. unfold path_eqb at 1.
    rewrite bool_decide_eq_false_2
      by (intros E; apply Hpre; left; exact E).
    cbn [bind]. rewrite IH by (intros E; apply Hpre; right; exact E).
    change (content ((p, d') :: pre)) with (d' +:+ content pre).
    rewrite append_length. f_equal. f_equal. lia.
Qed.

(** ** Restoring *)

Section Restore.

Variable new : node.
Variable savedSel : SavedSelection.
Hypothesis new_walkable : walkable new = true.

Local Abbreviation s := (saved_start savedSel).
Local Abbreviation e := (saved_end savedSel).
Local Abbreviation T := (content (texts new)).

Definition init : Range :=
{| range_start := ([], 0); range_end := ([], 0) |}.

Definition collapsed (b : boundary) : Range :=
{| range_start := b; range_end := b |}.

Lemma setStart_init (q : path) (d : string) (o : nat) :
  node_at new q = Some (Text d) -> o <= String.length d ->
  setStart new init (q, o) = Ok (collapsed (q, o)).
Proof.
  intros Hn Ho. unfold setStart. cbn [fst snd]. rewrite Hn.
  cbn [node_length]. destruct (Nat.leb_spec o (String.length d)); [|lia].
  unfold before, position, init. cbn [range_end fst snd app].
  destruct q as [|i q].
  - cbn [app path_ltb]. destruct o as [|o]; reflexivity.
  - destruct i; destruct q; reflexivity.
Qed.

Lemma setEnd_after (r : Range) (q : path) (d : string) (o : nat) :
  node_at new q = Some (Text d) -> o <= String.length d ->
  before (q, o) (range_start r) = false ->
  setEnd new r (q, o)
  = Ok {| range_start := range_start r; range_end := (q, o) |}.
Proof.
  intros Hn Ho Hb. unfold setEnd. cbn [fst snd]. rewrite Hn.
  cbn [node_length]. destruct (Nat.leb_spec o (String.length d)); [|lia].
  rewrite Hb. reflexivity.
Qed.

(** The text in front of offset [c + o], for a position [o] in a text
    node that is visited after [c] characters. *)
Lemma located_prefix (done rest : list (path * string)) (q : path)
    (d : string) (o : nat) :
  texts new = done ++ (q, d) :: rest -> o <= String.length d ->
  text_before new q o
  = substring 0 (String.length (content done) + o) T.
Proof.
  intros Ht Ho.
  destruct (texts_located new new_walkable done q d rest Ht) as [_ Hb].
  rewrite Hb. rewrite Ht, content_app, substring_app_r.
  change (content ((q, d) :: rest)) with (d +:+ content rest).
  rewrite substring_app_l by exact Ho. reflexivity.
Qed.

Definition started (c : nat) (b : boundary) : restoring :=
{| charIndex := c; range := collapsed b; foundStart := true;
   foundEnd := false |}.

Definition searching (c : nat) : restoring :=
{| charIndex := c; range := init; foundStart := false; foundEnd := false |}.

(** The result the loop is to give: a range from offset [s] to offset
    [e] of the text. *)
Definition restored (st : restoring) : Prop :=
foundEnd st = true
/\ text_before new (fst (range_start (range st)))
     (snd (range_start (range st)))
   = substring 0 s T
/\ text_before new (fst (range_end (range st)))
     (snd (range_end (range st)))
   = substring 0 e T.

(** Once the start is set, the loop sets the end in the text node that
    holds offset [e]. *)
Lemma restore_end (todo done : list (path * string)) (b : boundary) :
  texts new = done ++ todo ->
  String.length (content done) < e ->
  e <= String.length (content done) + String.length (content todo) ->
  Forall (fun t => forall o, before (fst t, o) b = false) todo ->
  text_before new (fst b) (snd b) = substring 0 s T ->
  exists st,
    visit_all foundEnd (restore_visit new savedSel) todo
      (started (String.length (content done)) b) = Ok st
    /\ restored st.
Proof.
  revert done. induction todo as [|[q d] rest IH];
    intros done Ht Hlt Hle Hafter Hb.
  - cbn in Hle. lia.
  - destruct (texts_located new new_walkable done q d rest Ht) as [Hn _].
    inversion Hafter as [|? ? Hq Hrest]; subst. cbn [fst] in Hq.
    change (content ((q, d) :: rest)) with (d +:+ content rest) in Hle.
    rewrite append_length in Hle.
    cbn [visit_all started foundEnd]. unfold restore_visit.
    cbn [started foundStart foundEnd charIndex range negb andb bind].
    destruct (Nat.leb_spec (String.length (content done)) e) as [_|]; [|lia].
    cbn [andb].
    destruct (Nat.leb_spec e (String.length (content done) + String.length d))
      as [Hin|Hout].
    + rewrite (setEnd_after (collapsed b) q d) ; [|exact Hn|lia|apply Hq].
      cbn [searching started bind foundStart foundEnd charIndex range range_start collapsed].
      eexists. split; [apply visit_all_stop; reflexivity|].
      split; [reflexivity|]. cbn [range range_start range_end fst snd].
      split; [exact Hb|].
      rewrite (located_prefix done rest q d) by (assumption || lia).
      f_equal. lia.
    + cbn [searching started bind foundStart foundEnd charIndex range].
      specialize (IH (done ++ [(q, d)])).
      rewrite content_app in IH.
      change (content [(q, d)]) with (d +:+ "") in IH.
      rewrite append_nil_r, append_length in IH.
      apply IH; try assumption; try lia.
      rewrite <- app_assoc. exact Ht.
Qed.

(** The loop sets the start in the text node that holds offset [s], or
    at the end of the text node that ends at [s] when [s] is [e]. *)
Lemma restore_start (todo done : list (path * string)) :
  texts new = done ++ todo -> todo <> [] ->
  String.length (content done) <= s -> s <= e ->
  e <= String.length (content done) + String.length (content todo) ->
  exists st,
    visit_all foundEnd (restore_visit new savedSel) todo
      (searching (String.length (content done))) = Ok st
    /\ restored st.
Proof.
  revert done. induction todo as [|[q d] rest IH];
    intros done Ht Hne Hcs Hse Hle; [contradiction|].
  destruct (texts_located new new_walkable done q d rest Ht) as [Hn _].
  change (content ((q, d) :: rest)) with (d +:+ content rest) in Hle.
  rewrite append_length in Hle.
  pose proof (texts_in_order new) as Hord. rewrite Ht in Hord.
  apply pairwise_middle in Hord.
  cbn [visit_all searching foundEnd]. unfold restore_visit.
  cbn [searching foundStart foundEnd charIndex range negb andb bind].
  destruct (Nat.leb_spec (String.length (content done)) s) as [_|]; [|lia].
  cbn [andb].
  destruct (Nat.ltb_spec s (String.length (content done) + String.length d))
    as [Hin|Hout].
  - rewrite (setStart_init q d) by (assumption || lia).
    cbn [searching started bind foundStart foundEnd charIndex range negb andb].
    destruct (Nat.leb_spec (String.length (content done)) e) as [_|]; [|lia].
    cbn [andb].
    assert (Hs : text_before new q (s - String.length (content done))
                 = substring 0 s T).
    { rewrite (located_prefix done rest q d) by (assumption || lia).
      f_equal. lia. }
    destruct (Nat.leb_spec e (String.length (content done) + String.length d))
      as [Hein|Heout].
    + rewrite (setEnd_after _ q d); [|exact Hn|lia|].
      * cbn [searching started bind foundStart foundEnd charIndex range range_start collapsed].
        eexists. split; [apply visit_all_stop; reflexivity|].
        split; [reflexivity|]. cbn [range range_start range_end fst snd].
        split; [exact Hs|].
        rewrite (located_prefix done rest q d) by (assumption || lia).
        f_equal. lia.
      * cbn [collapsed range_start]. unfold before, position. cbn [fst snd].
        apply path_ltb_same. lia.
    + cbn [searching started bind foundStart foundEnd charIndex range].
      pose proof (restore_end rest (done ++ [(q, d)])
                    (q, s - String.length (content done))) as Hend.
      rewrite content_app in Hend.
      change (content [(q, d)]) with (d +:+ "") in Hend.
      rewrite append_nil_r, append_length in Hend.
      apply Hend; try lia.
      * rewrite <- app_assoc. exact Ht.
      * eapply List.Forall_impl; [|exact Hord].
        intros t Hf o. unfold before, position. cbn [fst snd]. apply Hf.
      * exact Hs.
  - cbn [searching started bind foundStart foundEnd charIndex range negb andb].
    destruct (Nat.eqb_spec (String.length (content done) + String.length d) e)
      as [Heq|Hneq].
    + rewrite (setStart_init q d) by (assumption || lia).
      cbn [searching started bind foundStart foundEnd charIndex range negb andb].
      destruct (Nat.leb_spec (String.length (content done)) e) as [_|];
        [|lia].
      destruct (Nat.leb_spec e
                  (String.length (content done) + String.length d))
        as [_|]; [|lia].
      cbn [andb].
      rewrite (setEnd_after _ q d); [|exact Hn|lia|].
      * cbn [searching started bind foundStart foundEnd charIndex range range_start collapsed].
        eexists. split; [apply visit_all_stop; reflexivity|].
        split; [reflexivity|]. cbn [range range_start range_end fst snd].
        assert (Hs : text_before new q (e - String.length (content done))
                     = substring 0 e T).
        { rewrite (located_prefix done rest q d) by (assumption || lia).
          f_equal. lia. }
        split; [|exact Hs]. rewrite Hs. f_equal. lia.
      * cbn [collapsed range_start]. unfold before, position. cbn [fst snd].
        apply path_ltb_same. lia.
    + cbn [searching started bind foundStart foundEnd charIndex range negb andb].
      specialize (IH (done ++ [(q, d)])).
      rewrite content_app in IH.
      change (content [(q, d)]) with (d +:+ "") in IH.
      rewrite append_nil_r, append_length in IH.
      apply IH; try lia.
      * rewrite <- app_assoc. exact Ht.
      * intros ->. cbn in Hle. lia.
Qed.

(** With text nodes to visit, [restoreSelection] gives a range whose
    text is the text from [s] to [e]. *)
Lemma restore_found (now : whereabouts) (current : option Range) :
  texts new <> [] -> s <= e -> e <= String.length T ->
  exists r,
    restoreSelection new now current (Some savedSel) = Ok (Some r)
    /\ range_toString new r = substring s (e - s) T.
Proof.
  intros Hne Hse HeT.
  destruct (restore_start (texts new) [] eq_refl Hne) as (st & Hv & Hr);
    [cbn; lia|exact Hse|cbn; exact HeT|].
  unfold restoreSelection. rewrite (walk_container _ _ _ _ new_walkable).
  change {| charIndex := 0;
            range := {| range_start := ([], 0); range_end := ([], 0) |};
            foundStart := false; foundEnd := false |}
    with (searching (String.length (content []))).
  rewrite Hv. cbn [bind]. destruct Hr as (Hf & Ha & Hb). rewrite Hf.
  eexists. split; [reflexivity|].
  unfold range_toString, startContainer, startOffset, endContainer,
    endOffset.
  rewrite Ha, Hb.
  rewrite !substring_length by lia.
  apply substring_of_prefix. lia.
Qed.

(** Without text there is nothing a range could hold. *)
Lemma range_toString_empty (r : Range) :
  textContent new = "" -> range_toString new r = "".
Proof.
  intros H. unfold range_toString.
  rewrite !(text_before_empty new _ _ H). reflexivity.
Qed.

Lemma restore_nothing (now : whereabouts) (current : option Range) :
  texts new = [] -> textContent new = "" ->
  exists r,
    restoreSelection new now current (Some savedSel) = Ok r
    /\ selection_toString new r = "".
Proof.
  intros Hnil Hempty.
  unfold restoreSelection. rewrite (walk_container _ _ _ _ new_walkable).
  rewrite Hnil. cbn [visit_all bind foundEnd charIndex range].
  destruct now as [p|len].
  - destruct (0 <=? saved_end savedSel).
    + destruct (setEnd new _ _) as [r| |]; eexists;
        (split; [reflexivity|apply range_toString_empty; exact Hempty]).
    + eexists. split; [reflexivity|].
      apply range_toString_empty; exact Hempty.
  - destruct ((0 <=? saved_end savedSel)
              && (saved_end savedSel - 0 <=? len)).
    + eexists. split; reflexivity.
    + eexists. split; [reflexivity|].
      apply range_toString_empty; exact Hempty.
Qed.

End Restore.


(** ** The claim *)

Lemma substring_empty (n m : nat) : substring n m "" = "".
Proof. destruct n, m; reflexivity. Qed.

Lemma text_before_is_prefix (n : node) (p : path) (o : nat) :
  substring 0 (String.length (text_before n p o)) (textContent n)
  = text_before n p o.
Proof.
  destruct (text_before_prefix p n o) as (rest & Hr).
  rewrite Hr.
  rewrite <- (Nat.add_0_r (String.length (text_before n p o))).
  rewrite substring_app_r, substring_none. apply append_nil_r.
Qed.

(** The round trip away from non-editable text.  The container, before
    and after it is rewrapped, holds text nodes and elements only where
    it is editable and no text where it is not; the editable text is the
    same before and after; the selection starts in an editable text
    node, at offset [start] of the text, and ends at offset [end], not
    in front of [start].  Then [saveSelection] returns the offsets
    [start] and [end], [restoreSelection] returns, and the text of the
    selection it leaves is the text from [start] to [end]: the text the
    selection had. *)
Theorem selection_survives_rewrap
    (old new : node) (sel : Range) (d : string)
    (now : whereabouts) (current : option Range) :
  walkable old = true -> walkable new = true ->
  editable_text new = editable_text old ->
  In (startContainer sel, d) (texts old) ->
  startOffset sel <= String.length d ->
  String.length (text_before old (startContainer sel) (startOffset sel))
  <= String.length (text_before old (endContainer sel) (endOffset sel)) ->
  exists saved restored,
    saveSelection old (Some sel) = Ok (Some saved)
    /\ saved_start saved
       = String.length
           (text_before old (startContainer sel) (startOffset sel))
    /\ saved_end saved
       = String.length (text_before old (endContainer sel) (endOffset sel))
    /\ restoreSelection new now current (Some saved) = Ok restored
    /\ selection_toString new restored
       = slice (saved_start saved) (saved_end saved) (editable_text old)
    /\ selection_toString new restored = range_toString old sel.
Proof.
  intros Hold Hnew Htext Hin Hoff Horder.
  set (a := text_before old (startContainer sel) (startOffset sel)) in *.
  set (b := text_before old (endContainer sel) (endOffset sel)) in *.
  (* saving *)
  assert (Hpath : In (startContainer sel) (map fst (texts old))).
  { apply in_map_iff. exists (startContainer sel, d). split; [reflexivity|].
    exact Hin. }
  destruct (first_visit _ _ Hpath) as (pre & d' & post & Hsplit & Hfirst).
  destruct (texts_located old Hold pre _ d' post Hsplit) as [Hn' Hbefore].
  destruct (in_split _ _ Hin) as (pre2 & post2 & Hsplit2).
  destruct (texts_located old Hold pre2 _ d post2 Hsplit2) as [Hn _].
  rewrite Hn in Hn'. injection Hn' as <-.
  assert (Ha : String.length a
               = String.length (content pre) + startOffset sel).
  { unfold a. rewrite Hbefore, append_length.
    rewrite substring_length by (cbn; lia). reflexivity. }
  assert (Hrange : String.length (range_toString old sel)
                   = String.length b - String.length a).
  { unfold range_toString. fold a. fold b. cbv zeta.
    apply substring_length. lia. }
  set (saved := {| saved_endContainer := endContainer sel;
                   saved_start := String.length a;
                   saved_end := String.length b |}).
  assert (Hsave : saveSelection old (Some sel) = Ok (Some saved)).
  { unfold saveSelection. rewrite (walk_container _ _ _ _ Hold).
    rewrite Hsplit, (save_visits sel pre post d 0 Hfirst).
    cbn [bind fst]. rewrite Hrange. unfold saved. do 3 f_equal; lia. }
  (* the text *)
  assert (HT : content (texts new) = editable_text old).
  { rewrite (walkable_content new Hnew), <- (walkable_editable new Hnew).
    exact Htext. }
  assert (HeT : String.length b <= String.length (editable_text old)).
  { rewrite (walkable_editable old Hold). apply text_before_length. }
  assert (Hsame : range_toString old sel
                  = slice (String.length a) (String.length b)
                      (editable_text old)).
  { unfold range_toString, slice. fold a. fold b. cbv zeta.
    rewrite (walkable_editable old Hold).
    pose proof (text_before_is_prefix old (endContainer sel)
                  (endOffset sel)) as Hb.
    fold b in Hb. symmetry.
    rewrite <- (substring_of_prefix (textContent old) (String.length a)
                  (String.length b - String.length a) (String.length b))
      by lia.
    rewrite Hb. reflexivity. }
  (* restoring *)
  assert (Hrestore :
    exists restored,
      restoreSelection new now current (Some saved) = Ok restored
      /\ selection_toString new restored
         = slice (String.length a) (String.length b) (editable_text old)).
  { assert (Hcase : texts new = [] \/ texts new <> [])
      by (destruct (texts new); [left; reflexivity|right; discriminate]).
    destruct Hcase as [Enew|Enew].
    - assert (Hempty : textContent new = "").
      { rewrite <- (walkable_content new Hnew), Enew. reflexivity. }
      destruct (restore_nothing new saved Hnew now current Enew Hempty)
        as (r & Hr & Hs).
      exists r. split; [exact Hr|]. rewrite Hs.
      rewrite <- Htext, (walkable_editable new Hnew), Hempty.
      unfold slice. rewrite substring_empty. reflexivity.
    - destruct (restore_found new saved Hnew now current) as (r & Hr & Hs).
      + exact Enew.
      + exact Horder.
      + unfold saved. cbn [saved_end]. rewrite HT. exact HeT.
      + exists (Some r). split; [exact Hr|].
        cbn [selection_toString]. rewrite Hs, HT. reflexivity. }
  destruct Hrestore as (restored' & Hr & Hs).
  exists saved, restored'. repeat split; try assumption.
  rewrite Hs. symmetry. exact Hsame.
Qed.

(** The theorem at [<div><p>hello <b>world</b></p></div>], selection
    from offset 3 of the first text node to offset 2 of the second, and
    the container rewrapped as [<div><p>hel</p><p>lo world</p></div>]. *)
Lemma selection_survives_rewrap_witness :
  let old := Elem "DIV" []
               [Elem "P" [] [Text "hello "; Elem "B" [] [Text "world"]]] in
  let new := Elem "DIV" []
               [Elem "P" [] [Text "hel"]; Elem "P" [] [Text "lo world"]] in
  let sel := {| range_start := ([0; 0], 3); range_end := ([0; 1; 0], 2) |} in
  exists saved restored,
    saveSelection old (Some sel) = Ok (Some saved)
    /\ saved_start saved = 3
    /\ saved_end saved = 8
    /\ restoreSelection new (Detached 5) None (Some saved) = Ok restored
    /\ selection_toString new restored = "lo wo"
    /\ selection_toString new restored = range_toString old sel.
Proof.
  intros old new sel.
  destruct (selection_survives_rewrap old new sel "hello " (Detached 5) None)
    as (saved & restored' & H1 & H2 & H3 & H4 & H5 & H6);
    [reflexivity|reflexivity|reflexivity|left; reflexivity
    |vm_compute; lia|vm_compute; lia|].
  exists saved, restored'. repeat split; assumption.
Defined.

(** C1 fails where the selection runs over non-editable text.  The walk
    of [saveSelection] leaves non-editable text out of the start offset
    (its comment: do not count text inside non-contenteditable), but the
    end offset is the start plus the length of [range.toString()], which
    holds that text.  Here the selection runs from offset 1 to offset 3
    of the editable text [abcd], over a non-editable element that holds
    [X]: the offsets saved are 1 and 4, not 1 and 3, the range
    [restoreSelection] sets ends one character late, and its text is
    [bXcd], neither the slice [bc] of the editable text nor the text
    [bXc] the selection had. *)
Lemma selection_over_noneditable_text :
  let container :=
    Elem "DIV" []
      [Text "ab"; Elem "SPAN" [("contenteditable", "false")] [Text "X"];
       Text "cd"] in
  let sel := {| range_start := ([0], 1); range_end := ([2], 1) |} in
  let saved := {| saved_endContainer := [2]; saved_start := 1;
                  saved_end := 4 |} in
  let restored := {| range_start := ([0], 1); range_end := ([2], 2) |} in
  editable_text container = "abcd"
  /\ range_toString container sel = "bXc"
  /\ saveSelection container (Some sel) = Ok (Some saved)
  /\ restoreSelection container (Attached [2]) (Some sel) (Some saved)
     = Ok (Some restored)
  /\ selection_toString container (Some restored) = "bXcd"
  /\ slice 1 3 (editable_text container) = "bc"
  /\ slice 1 4 (editable_text container) = "bcd".
Proof. repeat split; vm_compute; reflexivity. Qed.

(** Two more ways for the round trip to fail.  A comment in the
    container stops the loop: a comment node has no [getAttribute].  A
    selection that starts in an element is saved with the length of the
    whole text as its start, and what is restored for
    [<div><p>abc</p></div>], selected from end to end, is an empty
    range. *)
Lemma selection_outside_text_nodes :
  saveSelection (Elem "DIV" [] [Comment "c"; Text "ab"])
    (Some {| range_start := ([1], 0); range_end := ([1], 1) |})
  = Thrown "TypeError"
  /\ (let container := Elem "DIV" [] [Elem "P" [] [Text "abc"]] in
      let sel := {| range_start := ([0], 0); range_end := ([0], 1) |} in
      let saved := {| saved_endContainer := [0]; saved_start := 3;
                      saved_end := 6 |} in
      range_toString container sel = "abc"
      /\ saveSelection container (Some sel) = Ok (Some saved)
      /\ restoreSelection container (Attached [0]) (Some sel) (Some saved)
         = Ok (Some {| range_start := ([], 0); range_end := ([], 0) |})).
Proof. repeat split; vm_compute; reflexivity. Qed.

End SelectionPersistenceFacts.
(* ===================================================================== *)
(** * Facts: the sanitizer                                                *)
(* ===================================================================== *)

Module SanitizeFacts.
Import Dom Js Sanitize.

(** What [clean_node] returns for the children of a [body], and the
    protocols the rules hold for [a href] afterwards. *)
Definition cleaned (fuel : nat) (rules : options) (input : list node)
  : option (list node) :=
match clean_node fuel (new rules) (Elem "BODY" [] input) with
| Ok (fragment, _) => Some fragment
| _ => None
end.

Definition href_protocols (c : config) : option (list string) :=
protocols c !! "a" ≫= (fun m => m !! "href").

(** Rules that let [a] through with [href] limited to http and https. *)
Definition http_https : options :=
{| o_elements := Some ["a"; "b"];
   o_attributes := Some (list_to_map [("a", [Name "href"])]);
   o_allow_comments := false;
   o_protocols :=
     Some (list_to_map [("a", list_to_map [("href", ["http"; "https"])])]);
   o_classnames := None; o_add_attributes := None;
   o_remove_contents := None; o_transformers := None |}.

Lemma first_match_none_from (v : string) (protos : list string) (k : nat) :
  Forall (fun p => startsWith (toLowerCase p) v = false) protos ->
  first_match v protos k = None.
Proof.
  intros H. revert k. induction H as [|p protos Hp _ IH]; intros k; simpl.
  - reflexivity.
  - rewrite Hp. apply IH.
Qed.

(** No reference that begins with a slash passes the protocol check of
    the editor's rules: the entry the check adds is the literal
    [__RELATIVE__]. *)
Lemma slash_matches_no_protocol (rest : string) :
  first_match (toLowerCase (String "/" rest))
    (["http"; "https"; "mailto"] ++ [RELATIVE]) 0 = None.
Proof.
  apply first_match_none_from. repeat constructor.
Qed.

(** C3.  With the editor's rules (http, https, mailto) and with rules
    that allow http and https only, cleaning
    [<a href="javascript:alert(1)">] gives an [a] without [href]; so
    does cleaning [<a href="/relative">], whose [href] the claim expects
    to survive: the check compares the value with the literal
    [__RELATIVE__] the code pushes, and a relative reference does not
    begin with it. *)
Theorem relative_href_is_stripped :
  cleaned 9 RichTextEditor.filterRules
    [Elem "A" [("href", "javascript:alert(1)")] [Text "x"]]
  = Some [Elem "A" [] [Text "x"]]
  /\ cleaned 9 http_https
       [Elem "A" [("href", "javascript:alert(1)")] [Text "x"]]
     = Some [Elem "A" [] [Text "x"]]
  /\ cleaned 9 RichTextEditor.filterRules
       [Elem "A" [("href", "/relative")] [Text "x"]]
     = Some [Elem "A" [] [Text "x"]]
  /\ cleaned 9 http_https
       [Elem "A" [("href", "/relative")] [Text "x"]]
     = Some [Elem "A" [] [Text "x"]]
  /\ cleaned 9 http_https
       [Elem "A" [("href", "https://example.org/")] [Text "x"]]
     = Some [Elem "A" [("href", "https://example.org/")] [Text "x"]].
Proof. repeat split; vm_compute; reflexivity. Qed.

(** C8.  One call of [clean_node] on [<a href="http://example.org/">]
    with the editor's rules leaves the protocols of [a href] one entry
    longer than it found them, and since the rules of the data filter
    are the object every new sanitizer works on, the second call of
    [filterHTML] starts from the longer array and makes it longer
    again. *)
Theorem clean_node_grows_protocols :
  let input := Elem "BODY" [] [Elem "A" [("href", "http://example.org/")] []] in
  href_protocols (cfg (new RichTextEditor.filterRules))
  = Some ["http"; "https"; "mailto"]
  /\ match clean_node 9 (new RichTextEditor.filterRules) input with
     | Ok (_, s) =>
         href_protocols (cfg s)
         = Some ["http"; "https"; "mailto"; "__RELATIVE__"]
     | _ => False
     end
  /\ match DataFilter.filterHTML 9 RichTextEditor.filterRules input with
     | Ok (_, rules1) =>
         match DataFilter.filterHTML 9 rules1 input with
         | Ok (_, rules2) =>
             href_protocols (cfg (new rules2))
             = Some ["http"; "https"; "mailto"; "__RELATIVE__"; "__RELATIVE__"]
         | _ => False
         end
     | _ => False
     end.
Proof.
  intros input. split; [vm_compute; reflexivity|].
  split; vm_compute; reflexivity.
Qed.


(** ** Sanitizers without transformers *)

Definition plain (s : sanitizer) : Prop :=
transformers s = [] /\ whitelist_nodes s = [].

(** [r] is [s] but for the element under construction and the protocols
    the attribute loop has pushed to. *)
Definition keeps (s r : sanitizer) : Prop :=
transformers r = transformers s
/\ whitelist_nodes r = whitelist_nodes s
/\ allowed_elements r = allowed_elements s
/\ remove_element_contents (cfg r) = remove_element_contents (cfg s)
/\ remove_all_contents (cfg r) = remove_all_contents (cfg s).

Lemma keeps_refl (s : sanitizer) : keeps s s.
Proof. repeat split. Qed.

Lemma keeps_trans (s r t : sanitizer) : keeps s r -> keeps r t -> keeps s t.
Proof.
  intros (A1 & A2 & A3 & A4 & A5) (B1 & B2 & B3 & B4 & B5).
  repeat split; congruence.
Qed.

Lemma keeps_plain (s r : sanitizer) : keeps s r -> plain s -> plain r.
Proof. intros (A1 & A2 & _) [B1 B2]. split; congruence. Qed.

Lemma keeps_with_current_l (s r : sanitizer) (c : list node) :
  keeps (with_current s c) r <-> keeps s r.
Proof. reflexivity. Qed.

Lemma keeps_with_current_r (s r : sanitizer) (c : list node) :
  keeps s (with_current r c) <-> keeps s r.
Proof. reflexivity. Qed.

Lemma with_current_same (s : sanitizer) : with_current s (current_element s) = s.
Proof. destruct s; reflexivity. Qed.

Lemma with_current_twice (s : sanitizer) (c d : list node) :
  with_current (with_current s c) d = with_current s d.
Proof. reflexivity. Qed.

Lemma transform_plain (s : sanitizer) (ref : path) (n : node) :
  plain s ->
  _transform_element s ref n
  = Ok (s, {| attr_whitelist := []; out_node := n; whitelist := false |}).
Proof. intros [Ht _]. unfold _transform_element. rewrite Ht. reflexivity. Qed.

Lemma bind_ok {A B : Type} (c : outcome A) (k : A -> outcome B) (b : B) :
  bind c k = Ok b -> exists a, c = Ok a /\ k a = Ok b.
Proof. destruct c; simpl; intros H; try discriminate. exists a. auto. Qed.

(** The attribute loop writes to the protocols only. *)
Definition same_rules (c c' : config) : Prop :=
remove_element_contents c' = remove_element_contents c
/\ remove_all_contents c' = remove_all_contents c
/\ allow_comments c' = allow_comments c.

Lemma clean_attribute_rules (name : string) (ea : list (string * string))
    (al : list attr_entry) (i : nat) (entry : attr_entry) (st : attr_state)
    (r : nat * attr_state) :
  clean_attribute name ea al i entry st = Ok r ->
  same_rules (fst st) (fst (snd r)).
Proof.
  unfold clean_attribute. destruct st as [c na].
  destruct (get_attr (entry_name entry) ea) as [v|].
  - destruct (protocols c !! name ≫= (fun m => m !! entry_name entry))
      as [protos|];
      [destruct (first_match _ _ _)|];
      destruct (String.eqb (entry_name entry) "class");
      try destruct (classnames _ !! name);
      intros H; apply bind_ok in H; destruct H as (ok & _ & H);
      injection H as <-; repeat split.
  - intros [= <-]. repeat split.
Qed.

Lemma clean_attributes_rules (fuel : nat) (name : string)
    (ea : list (string * string)) (al : list attr_entry) :
  forall (i : nat) (st r : attr_state),
    clean_attributes fuel name ea al i st = Ok r ->
    same_rules (fst st) (fst r).
Proof.
  induction fuel as [|fuel IH]; intros i st r H; simpl in H.
  - destruct (nth_error al i); [discriminate|].
    injection H as <-. repeat split.
  - destruct (nth_error al i) as [entry|].
    + apply bind_ok in H. destruct H as (r1 & H1 & H2).
      apply clean_attribute_rules in H1. apply IH in H2.
      destruct H1 as (A1 & A2 & A3), H2 as (B1 & B2 & B3).
      repeat split; congruence.
    + injection H as <-. repeat split.
Qed.

(** More passes do not change what the attribute loop returns. *)
Lemma clean_attributes_mono (fuel : nat) (name : string)
    (ea : list (string * string)) (al : list attr_entry) :
  forall (fuel' i : nat) (st r : attr_state),
    fuel <= fuel' ->
    clean_attributes fuel name ea al i st = Ok r ->
    clean_attributes fuel' name ea al i st = Ok r.
Proof.
  induction fuel as [|fuel IH]; intros fuel' i st r Hle H; simpl in H.
  - destruct fuel'; simpl; destruct (nth_error al i); try discriminate;
      exact H.
  - destruct fuel' as [|fuel']; [lia|]. simpl.
    destruct (nth_error al i) as [entry|]; [|exact H].
    apply bind_ok in H. destruct H as (r1 & H1 & H2).
    rewrite H1. simpl. apply IH; [lia|exact H2].
Qed.

Abbreviation N := normalize_list.

Lemma N_snoc (c1 c2 : list node) (x : list node) :
  N c1 = N c2 -> N (c1 ++ x) = N (c2 ++ x).
Proof.
  intros H.
  rewrite <- (DomFacts.normalize_list_app_l c1),
          <- (DomFacts.normalize_list_app_l c2), H.
  reflexivity.
Qed.

Definition cleaner : Type := sanitizer -> path -> node -> outcome sanitizer.

(** [hi] returns whatever [lo] returns, also when it starts from another
    position and from an element under construction that differs before
    normalization only. *)
Definition sim (lo hi : cleaner) : Prop :=
forall s c1 c2 ref1 ref2 e r1,
  plain s -> N c1 = N c2 ->
  lo (with_current s c1) ref1 e = Ok r1 ->
  exists c2',
    hi (with_current s c2) ref2 e = Ok (with_current r1 c2')
    /\ N (current_element r1) = N c2' /\ keeps s r1.

(** The same for the loop over the children of [kids_lo] and
    [kids_hi], from the states that keep [s0]. *)
Definition sim_loop (s0 : sanitizer) (lo hi : cleaner)
    (kids_lo kids_hi : list node) : Prop :=
forall s c1 c2 ref1 ref2 j1 j2 r1,
  plain s -> keeps s0 s -> N c1 = N c2 ->
  clean_children lo ref1 j1 kids_lo (with_current s c1) = Ok r1 ->
  exists c2',
    clean_children hi ref2 j2 kids_hi (with_current s c2)
    = Ok (with_current r1 c2')
    /\ N (current_element r1) = N c2' /\ keeps s r1.

Lemma sim_children (s0 : sanitizer) (lo hi : cleaner) (cs : list node) :
  sim lo hi -> sim_loop s0 lo hi cs cs.
Proof.
  intros Hsim. induction cs as [|c cs IH];
    intros s c1 c2 ref1 ref2 j1 j2 r1 Hp Hk HN H; simpl in *.
  - injection H as <-. exists c2. repeat split. exact HN.
  - apply bind_ok in H. destruct H as (rm & Hm & H).
    destruct (Hsim _ _ _ _ (ref2 ++ [j2]) _ _ Hp HN Hm) as (cm & Hhi & HNm & Hkm).
    rewrite Hhi. simpl.
    rewrite <- (with_current_same rm) in H.
    assert (Hprm : plain rm) by (apply (keeps_plain s); assumption).
    assert (Hkrm : keeps s0 rm) by (apply (keeps_trans _ s); assumption).
    destruct (IH rm (current_element rm) cm ref1 ref2 (S j1) (S j2) r1
                Hprm Hkrm HNm H) as (c2' & Hhi' & HN' & Hk').
    exists c2'. split; [exact Hhi'|]. split; [exact HN'|].
    apply (keeps_trans _ rm); assumption.
Qed.


(** What [_clean_element] comes to without transformers. *)
Definition allowed_plain (c : config) (name : string) : list attr_entry :=
allowed_attributes_of c name
  {| attr_whitelist := []; out_node := Text ""; whitelist := false |}.

Definition iterate_plain (clean : cleaner) (ref : path) (name : string)
    (kids : list node) (s : sanitizer) : outcome sanitizer :=
if negb (remove_all_contents (cfg s))
   && negb (bool_decide (name ∈ remove_element_contents (cfg s)))
then clean_children clean ref 0 kids s
else Ok s.

Definition element_plain (clean : cleaner) (fuel : nat) (s : sanitizer)
    (ref : path) (nm : string) (attrs : list (string * string))
    (kids : list node) : outcome sanitizer :=
let name := toLowerCase nm in
if bool_decide (name ∈ allowed_elements s)
then
  do r <- clean_attributes fuel name attrs (allowed_plain (cfg s) name) 0
            (cfg s, []) ;
  do s' <- iterate_plain clean ref name kids
             (with_current (with_cfg s (fst r)) []) ;
  Ok (with_current s'
        (current_element s
         ++ [Elem nm (add_config_attributes (fst r) name (snd r))
               (N (current_element s'))]))
else
  do s' <- iterate_plain clean ref name kids s ;
  Ok (with_current s' (N (current_element s'))).

Lemma clean_element_plain (clean : cleaner) (fuel : nat) (s : sanitizer)
    (ref : path) (nm : string) (attrs : list (string * string))
    (kids : list node) :
  plain s ->
  _clean_element clean fuel s ref (Elem nm attrs kids)
  = element_plain clean fuel s ref nm attrs kids.
Proof.
  intros Hp. unfold _clean_element, element_plain.
  rewrite (transform_plain _ _ _ Hp). destruct Hp as [Ht Hw].
  cbn [bind fst snd out_node whitelist name_of children elem_attributes].
  rewrite Hw. cbn [_array_index existsb]. rewrite orb_false_r.
  destruct (bool_decide (toLowerCase nm ∈ allowed_elements s)); reflexivity.
Qed.

Lemma sim_iterate (lo hi : cleaner) (s0 : sanitizer) (name : string)
    (kids_lo kids_hi : list node) :
  sim_loop s0 lo hi kids_lo kids_hi ->
  forall s c1 c2 ref1 ref2 r1,
    plain s -> keeps s0 s -> N c1 = N c2 ->
    iterate_plain lo ref1 name kids_lo (with_current s c1) = Ok r1 ->
    exists c2',
      iterate_plain hi ref2 name kids_hi (with_current s c2)
      = Ok (with_current r1 c2')
      /\ N (current_element r1) = N c2' /\ keeps s r1.
Proof.
  intros Hloop s c1 c2 ref1 ref2 r1 Hp Hk HN H.
  unfold iterate_plain in *. cbn [with_current cfg] in *.
  destruct (negb (remove_all_contents (cfg s))
            && negb (bool_decide (name ∈ remove_element_contents (cfg s)))).
  - apply (Hloop s c1 c2 ref1 ref2 0 0 r1 Hp Hk HN H).
  - injection H as <-. exists c2. cbn [with_current current_element].
    split; [reflexivity|]. split; [exact HN|exact (keeps_refl s)].
Qed.

Lemma sim_element (lo hi : cleaner) (f_lo f_hi : nat) (nm : string)
    (attrs : list (string * string)) (kids_lo kids_hi : list node)
    (s : sanitizer) :
  plain s -> f_lo <= f_hi -> sim_loop s lo hi kids_lo kids_hi ->
  forall c1 c2 ref1 ref2 r1,
    N c1 = N c2 ->
    _clean_element lo f_lo (with_current s c1) ref1 (Elem nm attrs kids_lo)
    = Ok r1 ->
    exists c2',
      _clean_element hi f_hi (with_current s c2) ref2 (Elem nm attrs kids_hi)
      = Ok (with_current r1 c2')
      /\ N (current_element r1) = N c2' /\ keeps s r1.
Proof.
  intros Hp Hle Hloop c1 c2 ref1 ref2 r1 HN H.
  rewrite clean_element_plain in H by exact Hp.
  rewrite clean_element_plain by exact Hp.
  unfold element_plain in *.
  cbn [with_current cfg allowed_elements current_element] in *.
  set (name := toLowerCase nm) in *.
  destruct (bool_decide (name ∈ allowed_elements s)).
  - (* the element is allowed *)
    apply bind_ok in H. destruct H as ([c' na] & Hattr & H).
    rewrite (clean_attributes_mono _ _ _ _ _ _ _ _ Hle Hattr).
    pose proof (clean_attributes_rules _ _ _ _ _ _ _ Hattr) as (R1 & R2 & R3).
    cbn [bind fst snd] in *.
    apply bind_ok in H. destruct H as (rin & Hin & H). injection H as <-.
    set (s1 := with_cfg s c').
    assert (Hp1 : plain s1) by exact Hp.
    assert (Hk1 : keeps s s1) by (repeat split; assumption).
    destruct (sim_iterate lo hi s name kids_lo kids_hi Hloop s1 [] [] ref1 ref2
                rin Hp1 Hk1 eq_refl Hin) as (cin & Hhi & HNin & Hkin).
    change (with_current (with_cfg (with_current s c2) c') [])
      with (with_current s1 []).
    rewrite Hhi. cbn [bind with_current current_element].
    rewrite <- HNin.
    eexists. split; [reflexivity|].
    split; [apply N_snoc; exact HN|].
    apply (keeps_trans _ s1); assumption.
  - (* the element is rejected *)
    apply bind_ok in H. destruct H as (rin & Hin & H). injection H as <-.
    destruct (sim_iterate lo hi s name kids_lo kids_hi Hloop s c1 c2 ref1 ref2
                rin Hp (keeps_refl s) HN Hin) as (cin & Hhi & HNin & Hkin).
    rewrite Hhi. cbn [bind with_current current_element].
    exists (N cin). split; [reflexivity|].
    split; [|exact Hkin].
    rewrite !DomFacts.normalize_list_idem. exact HNin.
Qed.

(** More fuel, another position, another element under construction with
    the same normal form: [_clean] returns the same. *)
Lemma sim_clean (f : nat) : forall f', f <= f' -> sim (_clean f) (_clean f').
Proof.
  induction f as [|f IH]; intros f' Hle s c1 c2 ref1 ref2 e r1 Hp HN H.
  - discriminate.
  - destruct f' as [|f']; [lia|].
    assert (Hle' : f <= f') by lia.
    cbn [_clean] in *.
    destruct e as [d|nm attrs kids|nm|d|t].
    + injection H as <-. eexists. split; [reflexivity|].
      cbn [with_current current_element].
      split; [apply N_snoc; exact HN|exact (keeps_refl s)].
    + apply (sim_element (_clean f) (_clean f') f f' nm attrs kids kids s
               Hp Hle' (sim_children s _ _ kids (IH f' Hle'))
               c1 c2 ref1 ref2 r1 HN H).
    + injection H as <-. eexists. split; [reflexivity|].
      cbn [with_current current_element].
      split; [apply N_snoc; exact HN|exact (keeps_refl s)].
    + cbn [with_current cfg] in *. destruct (allow_comments (cfg s)).
      * injection H as <-. eexists. split; [reflexivity|].
        cbn [with_current current_element].
        split; [apply N_snoc; exact HN|exact (keeps_refl s)].
      * injection H as <-. exists c2. split; [reflexivity|].
        split; [exact HN|exact (keeps_refl s)].
    + injection H as <-. exists c2. split; [reflexivity|].
      split; [exact HN|exact (keeps_refl s)].
Qed.


Lemma bind_assoc {A B C : Type} (c : outcome A) (k : A -> outcome B)
    (k' : B -> outcome C) :
  bind (bind c k) k' = bind c (fun a => bind (k a) k').
Proof. destruct c; reflexivity. Qed.

Lemma clean_children_app (clean : cleaner) (ref : path) (a b : list node) :
  forall (j : nat) (s : sanitizer),
    clean_children clean ref j (a ++ b) s
    = bind (clean_children clean ref j a s)
        (clean_children clean ref (j + length a) b).
Proof.
  induction a as [|x a IH]; intros j s.
  - simpl. rewrite Nat.add_0_r. reflexivity.
  - cbn [app clean_children length]. rewrite bind_assoc.
    destruct (clean s (ref ++ [j]) x) as [s'| |]; cbn [bind];
      try reflexivity.
    rewrite IH. rewrite Nat.add_succ_r. reflexivity.
Qed.

Lemma clean_element_unfold (f : nat) (s : sanitizer) (ref : path)
    (nm : string) (attrs : list (string * string)) (kids : list node) :
  _clean (S f) s ref (Elem nm attrs kids)
  = _clean_element (_clean f) f s ref (Elem nm attrs kids).
Proof. reflexivity. Qed.

Lemma sim_loop_weaken (s0 s1 : sanitizer) (lo hi : cleaner)
    (a b : list node) :
  keeps s0 s1 -> sim_loop s0 lo hi a b -> sim_loop s1 lo hi a b.
Proof.
  intros Hk H s c1 c2 ref1 ref2 j1 j2 r1 Hp Hk1 HN Hrun.
  apply (H s c1 c2 ref1 ref2 j1 j2 r1 Hp); try assumption.
  apply (keeps_trans _ s1); assumption.
Qed.

(** The wrapper the claim speaks of: an element whose tag is neither
    allowed nor content-stripped. *)
Definition rejected (s : sanitizer) (nm : string) : Prop :=
bool_decide (toLowerCase nm ∈ allowed_elements s) = false
/\ bool_decide (toLowerCase nm ∈ remove_element_contents (cfg s)) = false.

(** [wrapper_at s p cs cs']: at position [p] below the children [cs]
    stands a rejected element, and [cs'] is [cs] with the children of that
    element in its place. *)
Inductive wrapper_at (s : sanitizer) : path -> list node -> list node -> Prop :=
| wrapper_here (pre : list node) (nm : string)
    (attrs : list (string * string)) (kids post : list node) :
    rejected s nm ->
    wrapper_at s [length pre] (pre ++ Elem nm attrs kids :: post)
      (pre ++ kids ++ post)
| wrapper_below (pre : list node) (nm : string)
    (attrs : list (string * string)) (kids kids' post : list node)
    (p : path) :
    wrapper_at s p kids kids' ->
    wrapper_at s (length pre :: p) (pre ++ Elem nm attrs kids :: post)
      (pre ++ Elem nm attrs kids' :: post).

Lemma unwrap_loop (s0 : sanitizer) (p : path) (cs cs' : list node) :
  wrapper_at s0 p cs cs' -> remove_all_contents (cfg s0) = false ->
  forall f, sim_loop s0 (_clean f) (_clean (S f)) cs' cs.
Proof.
  intros Hw Hall.
  induction Hw as [pre nm attrs kids post [Hrej Hstrip]
                  |pre nm attrs kids kids' post p Hw IH];
    intros f s c1 c2 ref1 ref2 j1 j2 r1 Hp Hk HN H.
  - (* the wrapper is one of these children *)
    rewrite clean_children_app in H.
    apply bind_ok in H. destruct H as (ra & Ha & H).
    rewrite clean_children_app in H.
    apply bind_ok in H. destruct H as (rk & Hk' & H).
    (* before the wrapper *)
    destruct (sim_children s0 _ _ pre (sim_clean f (S f) (Nat.le_succ_diag_r f))
                s c1 c2 ref1 ref2 j1 j2 ra Hp Hk HN Ha)
      as (ca & Hhia & HNa & Hka).
    assert (Hpa : plain ra) by (apply (keeps_plain s); assumption).
    assert (Hk0a : keeps s0 ra) by (apply (keeps_trans _ s); assumption).
    (* the children of the wrapper *)
    rewrite <- (with_current_same ra) in Hk'.
    destruct (sim_children s0 _ _ kids (sim_clean f f (Nat.le_refl f))
                ra (current_element ra) ca ref1
                (ref2 ++ [j2 + length pre]) (j1 + length pre) 0 rk
                Hpa Hk0a HNa Hk') as (ck & Hhik & HNk & Hkk).
    assert (Hpk : plain rk) by (apply (keeps_plain ra); assumption).
    assert (Hk0k : keeps s0 rk) by (apply (keeps_trans _ ra); assumption).
    (* after the wrapper *)
    rewrite <- (with_current_same rk) in H.
    assert (HNk' : N (current_element rk) = N (N ck))
      by (rewrite DomFacts.normalize_list_idem; exact HNk).
    destruct (sim_children s0 _ _ post
                (sim_clean f (S f) (Nat.le_succ_diag_r f))
                rk (current_element rk) (N ck) ref1 ref2
                (j1 + length pre + length kids) (S (j2 + length pre)) r1
                Hpk Hk0k HNk' H) as (c2' & Hhi & HN' & Hk1).
    exists c2'. split; [|split; [exact HN'|]].
    + rewrite clean_children_app, Hhia. cbn [bind clean_children].
      rewrite clean_element_unfold.
      rewrite clean_element_plain by exact Hpa.
      unfold element_plain, iterate_plain.
      cbn [with_current allowed_elements cfg current_element].
      destruct Hk0a as (_ & _ & E1 & E2 & E3).
      rewrite E1, E2, E3, Hrej, Hstrip, Hall. cbn [negb andb].
      rewrite Hhik. cbn [bind with_current current_element].
      exact Hhi.
    + apply (keeps_trans _ ra); [exact Hka|].
      apply (keeps_trans _ rk); assumption.
  - (* the wrapper is further down *)
    rewrite clean_children_app in H.
    apply bind_ok in H. destruct H as (ra & Ha & H).
    cbn [clean_children] in H.
    apply bind_ok in H. destruct H as (rx & Hx & H).
    destruct (sim_children s0 _ _ pre (sim_clean f (S f) (Nat.le_succ_diag_r f))
                s c1 c2 ref1 ref2 j1 j2 ra Hp Hk HN Ha)
      as (ca & Hhia & HNa & Hka).
    assert (Hpa : plain ra) by (apply (keeps_plain s); assumption).
    assert (Hk0a : keeps s0 ra) by (apply (keeps_trans _ s); assumption).
    destruct f as [|f0]; [discriminate|].
    rewrite clean_element_unfold in Hx.
    rewrite <- (with_current_same ra) in Hx.
    destruct (sim_element (_clean f0) (_clean (S f0)) f0 (S f0) nm attrs
                kids' kids ra Hpa (Nat.le_succ_diag_r f0)
                (sim_loop_weaken s0 ra _ _ _ _ Hk0a (IH f0))
                (current_element ra) ca (ref1 ++ [j1 + length pre])
                (ref2 ++ [j2 + length pre]) rx HNa Hx)
      as (cx & Hhix & HNx & Hkx).
    assert (Hpx : plain rx) by (apply (keeps_plain ra); assumption).
    assert (Hk0x : keeps s0 rx) by (apply (keeps_trans _ ra); assumption).
    rewrite <- (with_current_same rx) in H.
    destruct (sim_children s0 _ _ post
                (sim_clean (S f0) (S (S f0)) (Nat.le_succ_diag_r (S f0)))
                rx (current_element rx) cx ref1 ref2
                (S (j1 + length pre)) (S (j2 + length pre)) r1
                Hpx Hk0x HNx H) as (c2' & Hhi & HN' & Hk1).
    exists c2'. split; [|split; [exact HN'|]].
    + rewrite clean_children_app, Hhia. cbn [bind clean_children].
      rewrite clean_element_unfold, Hhix. cbn [bind]. exact Hhi.
    + apply (keeps_trans _ ra); [exact Hka|].
      apply (keeps_trans _ rx); assumption.
Qed.


(** ** What the fragment holds *)

(** Every element of the tree has an allowed tag. *)
Fixpoint tags_within (E : gset string) (n : node) : bool :=
match n with
| Elem nm _ cs =>
    bool_decide (toLowerCase nm ∈ E) && forallb (tags_within E) cs
| _ => true
end.

Lemma tags_merge_text (E : gset string) (l : list node) :
  forallb (tags_within E) l = true ->
  forallb (tags_within E) (merge_text l) = true.
Proof.
  induction l as [|x l IH]; [reflexivity|].
  cbn [forallb]. intros H. apply andb_true_iff in H. destruct H as [Hx Hl].
  specialize (IH Hl).
  destruct x as [d| | | |]; try (cbn [merge_text forallb]; rewrite Hx, IH;
    reflexivity).
  cbn [merge_text]. destruct (String.eqb d ""); [exact IH|].
  destruct (merge_text l) as [|[d'| | | |] r']; exact IH.
Qed.

Lemma tags_normalize (E : gset string) (n : node) :
  tags_within E n = true -> tags_within E (normalize n) = true.
Proof.
  induction n as [d|nm attrs cs IH|nm|d|t] using DomFacts.node_induction;
    try (intros; reflexivity).
  cbn [normalize tags_within]. intros H.
  apply andb_true_iff in H. destruct H as [Hn Hcs]. rewrite Hn.
  cbn [andb]. apply tags_merge_text.
  revert Hcs. induction IH as [|c cs Hc _ IHcs]; [reflexivity|].
  cbn [forallb map]. intros H. apply andb_true_iff in H.
  destruct H as [H1 H2]. rewrite (Hc H1), (IHcs H2). reflexivity.
Qed.

Lemma tags_N (E : gset string) (l : list node) :
  forallb (tags_within E) l = true -> forallb (tags_within E) (N l) = true.
Proof.
  intros H. unfold normalize_list. apply tags_merge_text.
  induction l as [|c l IH]; [reflexivity|].
  cbn [forallb map] in *. apply andb_true_iff in H. destruct H as [H1 H2].
  rewrite (tags_normalize _ _ H1), (IH H2). reflexivity.
Qed.

Lemma keeps_clean (f : nat) (s r : sanitizer) (ref : path) (e : node) :
  plain s -> _clean f s ref e = Ok r -> keeps s r.
Proof.
  intros Hp H. rewrite <- (with_current_same s) in H.
  destruct (sim_clean f f (Nat.le_refl f) s (current_element s)
              (current_element s) ref ref e r Hp eq_refl H)
    as (_ & _ & _ & Hk).
  exact Hk.
Qed.

(** Without transformers only allowed elements are built. *)
Lemma tags_clean (f : nat) :
  forall (s r : sanitizer) (ref : path) (e : node),
    plain s ->
    forallb (tags_within (allowed_elements s)) (current_element s) = true ->
    _clean f s ref e = Ok r ->
    forallb (tags_within (allowed_elements s)) (current_element r) = true.
Proof.
  induction f as [|f IH]; intros s r ref e Hp Ht H; [discriminate|].
  assert (Hloop : forall (cs : list node) (s r : sanitizer) (ref : path) (j : nat),
             plain s ->
             forallb (tags_within (allowed_elements s)) (current_element s)
             = true ->
             clean_children (_clean f) ref j cs s = Ok r ->
             forallb (tags_within (allowed_elements s)) (current_element r)
             = true).
  { clear s r ref e Hp Ht H.
    induction cs as [|c cs IHcs]; intros s r ref j Hp Ht H.
    - injection H as <-. exact Ht.
    - cbn [clean_children] in H. apply bind_ok in H.
      destruct H as (rm & Hm & H).
      pose proof (keeps_clean _ _ _ _ _ Hp Hm) as Hk.
      pose proof (IH _ _ _ _ Hp Ht Hm) as Htm.
      destruct Hk as (K1 & K2 & K3 & K4 & K5).
      rewrite <- K3 in *. apply (IHcs rm r ref (S j)); try assumption.
      destruct Hp. split; congruence. }
  assert (Hiter : forall (name : string) (kids : list node) (s r : sanitizer)
                         (ref : path),
             plain s ->
             forallb (tags_within (allowed_elements s)) (current_element s)
             = true ->
             iterate_plain (_clean f) ref name kids s = Ok r ->
             forallb (tags_within (allowed_elements s)) (current_element r)
             = true).
  { intros name kids s1 r1 ref1 Hp1 Ht1 H1. unfold iterate_plain in H1.
    destruct (negb _ && negb _).
    - apply (Hloop kids s1 r1 ref1 0); assumption.
    - injection H1 as <-. exact Ht1. }
  destruct e as [d|nm attrs kids|nm|d|t]; cbn [_clean] in H.
  - injection H as <-. cbn [with_current current_element].
    rewrite forallb_app, Ht. reflexivity.
  - rewrite clean_element_plain in H by exact Hp.
    unfold element_plain in H.
    destruct (bool_decide (toLowerCase nm ∈ allowed_elements s)) eqn:Hal.
    + apply bind_ok in H. destruct H as ([c' na] & Hattr & H).
      cbn [fst snd] in H.
      apply bind_ok in H. destruct H as (rin & Hin & H). injection H as <-.
      cbn [with_current current_element].
      rewrite forallb_app, Ht. cbn [forallb tags_within andb].
      rewrite Hal. cbn [andb]. rewrite andb_true_r.
      apply tags_N.
      apply (Hiter (toLowerCase nm) kids (with_current (with_cfg s c') [])
               rin ref); [exact Hp|reflexivity|exact Hin].
    + apply bind_ok in H. destruct H as (rin & Hin & H). injection H as <-.
      cbn [with_current current_element]. apply tags_N.
      apply (Hiter (toLowerCase nm) kids s rin ref); assumption.
  - injection H as <-. cbn [with_current current_element].
    rewrite forallb_app, Ht. reflexivity.
  - destruct (allow_comments (cfg s)); injection H as <-; [|exact Ht].
    cbn [with_current current_element]. rewrite forallb_app, Ht. reflexivity.
  - injection H as <-. exact Ht.
Qed.

Lemma tags_children (f : nat) (cs : list node) :
  forall (s r : sanitizer) (ref : path) (j : nat),
    plain s ->
    forallb (tags_within (allowed_elements s)) (current_element s) = true ->
    clean_children (_clean f) ref j cs s = Ok r ->
    forallb (tags_within (allowed_elements s)) (current_element r) = true.
Proof.
  induction cs as [|c cs IHcs]; intros s r ref j Hp Ht H.
  - injection H as <-. exact Ht.
  - cbn [clean_children] in H. apply bind_ok in H.
    destruct H as (rm & Hm & H).
    pose proof (keeps_clean _ _ _ _ _ Hp Hm) as Hk.
    pose proof (tags_clean f _ _ _ _ Hp Ht Hm) as Htm.
    destruct Hk as (K1 & K2 & K3 & K4 & K5).
    rewrite <- K3 in *. apply (IHcs rm r ref (S j)); try assumption.
    destruct Hp. split; congruence.
Qed.


(** [k'] is an element with the tag of [k]. *)
Definition same_tag (k k' : node) : Prop :=
exists attrs cs, k' = Elem (name_of k) attrs cs.

(** The child nodes [c] hold, next to each other and in order, one
    element for each of [kids]. *)
Definition holds (kids : list node) (c : list node) : Prop :=
exists front K back, c = front ++ K ++ back /\ Forall2 same_tag kids K.

(** How the element under construction changes: nodes are appended to it
    and it is normalized. *)
Inductive grows : list node -> list node -> Prop :=
| grows_refl (c : list node) : grows c c
| grows_append (c : list node) (x : node) (c' : list node) :
    grows (c ++ [x]) c' -> grows c c'
| grows_normalize (c c' : list node) : grows (N c) c' -> grows c c'.

Lemma grows_trans (a b c : list node) : grows a b -> grows b c -> grows a c.
Proof.
  intros H. induction H as [a|a x b H IH|a b H IH]; intros Hbc.
  - exact Hbc.
  - apply (grows_append a x). apply IH. exact Hbc.
  - apply grows_normalize. apply IH. exact Hbc.
Qed.

Lemma N_elements_front (K : list node) (b : list node) :
  Forall (fun k => is_text k = false) K ->
  N (K ++ b) = map normalize K ++ N b.
Proof.
  induction 1 as [|k K Hk HK IH]; [reflexivity|].
  change ((k :: K) ++ b) with ([] ++ k :: (K ++ b)).
  rewrite DomFacts.normalize_list_element by exact Hk.
  rewrite IH. reflexivity.
Qed.

Lemma N_elements (k : node) (K a b : list node) :
  Forall (fun k => is_text k = false) (k :: K) ->
  N (a ++ (k :: K) ++ b) = N a ++ map normalize (k :: K) ++ N b.
Proof.
  intros H. inversion H as [|? ? Hk HK]; subst.
  change ((k :: K) ++ b) with (k :: (K ++ b)).
  rewrite DomFacts.normalize_list_element by exact Hk.
  rewrite N_elements_front by exact HK. reflexivity.
Qed.

Lemma same_tag_element (kids K : list node) :
  Forall2 same_tag kids K -> Forall (fun k => is_text k = false) K.
Proof.
  induction 1 as [|k k' kids K (a & cs & ->) _ IH]; constructor;
    [reflexivity|exact IH].
Qed.

Lemma same_tag_normalize (kids K : list node) :
  Forall2 same_tag kids K -> Forall2 same_tag kids (map normalize K).
Proof.
  induction 1 as [|k k' kids K (a & cs & ->) _ IH]; constructor;
    [|exact IH].
  eexists _, _. reflexivity.
Qed.

Lemma holds_append (kids c x : list node) : holds kids c -> holds kids (c ++ x).
Proof.
  intros (front & K & back & -> & H). exists front, K, (back ++ x).
  split; [|exact H]. rewrite <- !app_assoc. reflexivity.
Qed.

Lemma holds_N (kids c : list node) : holds kids c -> holds kids (N c).
Proof.
  intros (front & K & back & -> & H).
  destruct K as [|k K].
  - inversion H; subst. exists (N (front ++ [] ++ back)), [], [].
    split; [rewrite app_nil_r; reflexivity|constructor].
  - exists (N front), (map normalize (k :: K)), (N back). split.
    + apply N_elements. apply (same_tag_element kids). exact H.
    + apply same_tag_normalize. exact H.
Qed.

Lemma holds_grows (kids c c' : list node) :
  grows c c' -> holds kids c -> holds kids c'.
Proof.
  induction 1 as [c|c x c' _ IH|c c' _ IH]; intros H.
  - exact H.
  - apply IH. apply holds_append. exact H.
  - apply IH. apply holds_N. exact H.
Qed.

Lemma grows_clean (f : nat) :
  forall (s r : sanitizer) (ref : path) (e : node),
    plain s -> _clean f s ref e = Ok r ->
    grows (current_element s) (current_element r).
Proof.
  induction f as [|f IH]; intros s r ref e Hp H; [discriminate|].
  assert (Hloop : forall (cs : list node) (s r : sanitizer) (ref : path) (j : nat),
             plain s -> clean_children (_clean f) ref j cs s = Ok r ->
             grows (current_element s) (current_element r)).
  { clear s r ref e Hp H.
    induction cs as [|c cs IHcs]; intros s r ref j Hp H.
    - injection H as <-. apply grows_refl.
    - cbn [clean_children] in H. apply bind_ok in H.
      destruct H as (rm & Hm & H).
      apply (grows_trans _ (current_element rm)).
      + apply (IH _ _ _ _ Hp Hm).
      + apply (IHcs rm r ref (S j)); [|exact H].
        apply (keeps_plain s); [|exact Hp].
        apply (keeps_clean _ _ _ _ _ Hp Hm). }
  destruct e as [d|nm attrs kids|nm|d|t]; cbn [_clean] in H.
  - injection H as <-. apply (grows_append _ (Text d)). apply grows_refl.
  - rewrite clean_element_plain in H by exact Hp.
    unfold element_plain in H.
    destruct (bool_decide (toLowerCase nm ∈ allowed_elements s)).
    + apply bind_ok in H. destruct H as ([c' na] & Hattr & H).
      apply bind_ok in H. destruct H as (rin & Hin & H). injection H as <-.
      cbn [with_current current_element].
      eapply grows_append. apply grows_refl.
    + apply bind_ok in H. destruct H as (rin & Hin & H). injection H as <-.
      cbn [with_current current_element].
      apply (grows_trans _ (current_element rin)).
      * unfold iterate_plain in Hin. destruct (negb _ && negb _).
        -- apply (Hloop kids s rin ref 0 Hp Hin).
        -- injection Hin as <-. apply grows_refl.
      * apply grows_normalize. apply grows_refl.
  - injection H as <-. apply (grows_append _ (EntityRef nm)). apply grows_refl.
  - destruct (allow_comments (cfg s)); injection H as <-.
    + apply (grows_append _ (Comment d)). apply grows_refl.
    + apply grows_refl.
  - injection H as <-. apply grows_refl.
Qed.

Lemma grows_children (f : nat) (cs : list node) :
  forall (s r : sanitizer) (ref : path) (j : nat),
    plain s -> clean_children (_clean f) ref j cs s = Ok r ->
    grows (current_element s) (current_element r).
Proof.
  induction cs as [|c cs IHcs]; intros s r ref j Hp H.
  - injection H as <-. apply grows_refl.
  - cbn [clean_children] in H. apply bind_ok in H.
    destruct H as (rm & Hm & H).
    apply (grows_trans _ (current_element rm)).
    + apply (grows_clean f _ _ _ _ Hp Hm).
    + apply (IHcs rm r ref (S j)); [|exact H].
      apply (keeps_plain s); [|exact Hp].
      apply (keeps_clean _ _ _ _ _ Hp Hm).
Qed.

(** A child with an allowed tag. *)
Definition allowed_child (s : sanitizer) (k : node) : Prop :=
match k with
| Elem nm _ _ => bool_decide (toLowerCase nm ∈ allowed_elements s) = true
| _ => False
end.

Lemma allowed_child_appended (f : nat) (s r : sanitizer) (ref : path)
    (k : node) :
  plain s -> allowed_child s k -> _clean f s ref k = Ok r ->
  exists k', current_element r = current_element s ++ [k'] /\ same_tag k k'.
Proof.
  intros Hp Hk H. destruct k as [|nm attrs kids| | |]; try contradiction.
  destruct f as [|f]; [discriminate|].
  rewrite clean_element_unfold, clean_element_plain in H by exact Hp.
  unfold element_plain in H. cbn [allowed_child] in Hk. rewrite Hk in H.
  apply bind_ok in H. destruct H as ([c' na] & Hattr & H).
  apply bind_ok in H. destruct H as (rin & Hin & H). injection H as <-.
  eexists. split; [reflexivity|]. eexists _, _. reflexivity.
Qed.

Lemma allowed_children_appended (f : nat) (kids : list node) :
  forall (s r : sanitizer) (ref : path) (j : nat),
    plain s -> Forall (allowed_child s) kids ->
    clean_children (_clean f) ref j kids s = Ok r ->
    exists K, current_element r = current_element s ++ K
              /\ Forall2 same_tag kids K.
Proof.
  induction kids as [|k kids IH]; intros s r ref j Hp Hall H.
  - injection H as <-. exists []. rewrite app_nil_r. split; [reflexivity|].
    constructor.
  - inversion Hall as [|? ? Hk Hkids]; subst.
    cbn [clean_children] in H. apply bind_ok in H.
    destruct H as (rm & Hm & H).
    destruct (allowed_child_appended _ _ _ _ _ Hp Hk Hm) as (k' & Hc & Hs).
    pose proof (keeps_clean _ _ _ _ _ Hp Hm) as Hkeep.
    assert (Hpm : plain rm) by (apply (keeps_plain s); assumption).
    assert (Hall' : Forall (allowed_child rm) kids).
    { destruct Hkeep as (_ & _ & E & _).
      eapply List.Forall_impl; [|exact Hkids].
      intros x. destruct x; simpl; try tauto. rewrite E. tauto. }
    destruct (IH rm r ref (S j) Hpm Hall' H) as (K & HK & HF).
    exists (k' :: K). split.
    + rewrite HK, Hc, <- app_assoc. reflexivity.
    + constructor; assumption.
Qed.


(** ** Rules without protocols: cleaning returns *)

Lemma with_cfg_same (s : sanitizer) : with_cfg s (cfg s) = s.
Proof. destruct s; reflexivity. Qed.

Lemma cfg_with_current (s : sanitizer) (c : list node) :
  cfg (with_current s c) = cfg s.
Proof. reflexivity. Qed.

Lemma allowed_with_current (s : sanitizer) (c : list node) :
  allowed_elements (with_current s c) = allowed_elements s.
Proof. reflexivity. Qed.

(** Without protocols the body of the loop over the allowed attributes
    leaves the index and the rules alone. *)
Lemma clean_attribute_free (name : string) (ea : list (string * string))
    (al : list attr_entry) (i : nat) (entry : attr_entry) (c : config)
    (na : list (string * string)) :
  protocols c = ∅ -> nth_error al i = Some entry ->
  exists na', clean_attribute name ea al i entry (c, na) = Ok (i, (c, na')).
Proof.
  intros Hfree Hnth. unfold clean_attribute.
  destruct (get_attr (entry_name entry) ea) as [v|];
    [|eexists; reflexivity].
  rewrite Hfree, lookup_empty. cbn [mbind option_bind].
  rewrite Hnth.
  destruct (String.eqb (entry_name entry) "class");
    try destruct (classnames c !! name);
    destruct entry; cbn [isObject bind]; eexists; reflexivity.
Qed.

Lemma clean_attributes_free (name : string) (ea : list (string * string))
    (al : list attr_entry) (c : config) :
  protocols c = ∅ ->
  forall (fuel i : nat) (na : list (string * string)),
    length al - i <= fuel ->
    exists na', clean_attributes fuel name ea al i (c, na) = Ok (c, na').
Proof.
  intros Hfree. induction fuel as [|fuel IH]; intros i na Hfuel.
  - cbn [clean_attributes].
    destruct (nth_error al i) eqn:E; [|eexists; reflexivity].
    assert (Hi : i < length al) by (apply nth_error_Some; congruence). lia.
  - cbn [clean_attributes].
    destruct (nth_error al i) as [entry|] eqn:E; [|eexists; reflexivity].
    destruct (clean_attribute_free name ea al i entry c na Hfree E)
      as (na1 & H1).
    rewrite H1. cbn [bind fst snd]. apply IH.
    assert (Hi : i < length al) by (apply nth_error_Some; congruence). lia.
Qed.

(** A run that returns to the sanitizer it started from, but for the
    element under construction. *)
Definition returns (s0 : sanitizer) (e : node) (f0 : nat) : Prop :=
forall f, f0 <= f -> forall c ref,
  exists c', _clean f (with_current s0 c) ref e = Ok (with_current s0 c').

Lemma children_return (s0 : sanitizer) (kids : list node) :
  Forall (fun k => exists f0, returns s0 k f0) kids ->
  exists f0, forall f, f0 <= f -> forall c ref j,
    exists c',
      clean_children (_clean f) ref j kids (with_current s0 c)
      = Ok (with_current s0 c').
Proof.
  induction 1 as [|k kids [fk Hk] _ [fr Hr]].
  - exists 0. intros f _ c ref j. exists c. reflexivity.
  - exists (Nat.max fk fr). intros f Hf c ref j. cbn [clean_children].
    destruct (Hk f (Nat.le_trans _ _ _ (Nat.le_max_l fk fr) Hf) c (ref ++ [j]))
      as (c1 & H1).
    rewrite H1. cbn [bind].
    apply (Hr f (Nat.le_trans _ _ _ (Nat.le_max_r fk fr) Hf)).
Qed.

(** Without transformers and without protocols [_clean] returns on every
    node, given enough steps. *)
Lemma clean_returns (s0 : sanitizer) (e : node) :
  plain s0 -> protocols (cfg s0) = ∅ -> exists f0, returns s0 e f0.
Proof.
  intros Hp Hfree.
  induction e as [d|nm attrs kids IH|nm|d|t] using DomFacts.node_induction;
    try (exists 1; intros [|f] Hf c ref; [lia|];
         cbn [_clean with_current cfg current_element];
         try destruct (allow_comments (cfg s0));
         eexists; reflexivity).
  destruct (children_return s0 kids IH) as (fk & Hk).
  set (al := allowed_plain (cfg s0) (toLowerCase nm)).
  exists (S (Nat.max fk (length al))). intros [|f] Hf c ref; [lia|].
  assert (Hfk : fk <= f) by lia. assert (Hal : length al <= f) by lia.
  rewrite clean_element_unfold, clean_element_plain by exact Hp.
  unfold element_plain, iterate_plain.
  rewrite !cfg_with_current, allowed_with_current.
  destruct (bool_decide (toLowerCase nm ∈ allowed_elements s0)).
  - fold al.
    destruct (clean_attributes_free (toLowerCase nm) attrs al (cfg s0) Hfree
                f 0 []) as (na & Hna); [lia|].
    rewrite Hna. cbn [bind fst snd].
    change (with_cfg (with_current s0 c) (cfg s0))
      with (with_current (with_cfg s0 (cfg s0)) c).
    rewrite with_cfg_same.
    change (with_current (with_current s0 c) []) with (with_current s0 []).
    rewrite cfg_with_current.
    destruct (negb (remove_all_contents (cfg s0))
              && negb (bool_decide
                         (toLowerCase nm ∈ remove_element_contents (cfg s0)))).
    + destruct (Hk f Hfk [] ref 0) as (c1 & H1). rewrite H1.
      cbn [bind]. eexists. reflexivity.
    + cbn [bind]. eexists. reflexivity.
  - destruct (negb (remove_all_contents (cfg s0))
              && negb (bool_decide
                         (toLowerCase nm ∈ remove_element_contents (cfg s0)))).
    + destruct (Hk f Hfk c ref 0) as (c1 & H1). rewrite H1.
      cbn [bind]. eexists. reflexivity.
    + cbn [bind]. eexists. reflexivity.
Qed.

(** So does [clean_node], on every container. *)
Lemma clean_node_returns (s : sanitizer) (container : node) :
  transformers s = [] -> protocols (cfg s) = ∅ ->
  exists f0, forall f, f0 <= f ->
    exists fragment s', clean_node f s container = Ok (fragment, s').
Proof.
  intros Ht Hfree. unfold clean_node.
  set (s0 := with_whitelist_nodes (with_current s []) []).
  assert (Hp0 : plain s0) by (split; [exact Ht|reflexivity]).
  destruct (children_return s0 (children container)) as (f0 & H0).
  { apply List.Forall_forall. intros k _.
    apply clean_returns; assumption. }
  exists f0. intros f Hf.
  destruct (H0 f Hf [] [] 0) as (c' & Hc).
  change (with_current s0 []) with s0 in Hc. rewrite Hc. cbn [bind].
  eexists _, _. reflexivity.
Qed.


Lemma keeps_children (f : nat) (cs : list node) (s r : sanitizer)
    (ref : path) (j : nat) :
  plain s -> clean_children (_clean f) ref j cs s = Ok r -> keeps s r.
Proof.
  intros Hp H. rewrite <- (with_current_same s) in H.
  destruct (sim_children s _ _ cs (sim_clean f f (Nat.le_refl f))
              s (current_element s) (current_element s) ref ref j j r
              Hp (keeps_refl s) eq_refl H) as (_ & _ & _ & Hk).
  exact Hk.
Qed.

Lemma wrapper_at_ext (s s2 : sanitizer) (p : path) (cs cs' : list node) :
  (forall nm, rejected s nm -> rejected s2 nm) ->
  wrapper_at s p cs cs' -> wrapper_at s2 p cs cs'.
Proof.
  intros Hr H. induction H; constructor; auto.
Qed.

Lemma wrapper_here_inv (s : sanitizer) (pre : list node) (nm : string)
    (attrs : list (string * string)) (kids post cs' : list node) :
  wrapper_at s [length pre] (pre ++ Elem nm attrs kids :: post) cs' ->
  rejected s nm.
Proof.
  intros H.
  inversion H as [pre0 nm0 attrs0 kids0 post0 Hrej Hlen Hcs Hcs'
                 |pre0 nm0 attrs0 kids0 kids0' post0 p0 Hw Hlen Hcs Hcs'].
  - apply app_inj_1 in Hcs; [|exact Hlen].
    destruct Hcs as [_ Hcs]. injection Hcs as -> _ _ _. exact Hrej.
  - inversion Hw.
Qed.

(** C2, as the code has it.  A sanitizer without transformers and without
    the drop-all-contents flag; a document in which no tag is a member
    of [Object.prototype] (the rules are plain objects, read with the
    tag as the key) and no [id] or [name] hides a property of a form;
    in it an element whose tag is neither allowed nor content-stripped.
    Whenever cleaning returns for the tree in which the children of that
    element stand in its place, cleaning the tree itself returns the same
    fragment and leaves the same sanitizer: the element is unwrapped, at
    any depth.  Every element of the fragment has an allowed tag, so none
    has the tag of the wrapper; and when the wrapper is a child of the
    container and its children are elements with allowed tags, the
    fragment holds one element for each of them, next to each other and
    in their order.  With rules that limit no protocols and whose names
    are lower-case names of tags and attributes, cleaning does return,
    given enough steps. *)
Theorem rejected_wrapper_is_unwrapped
    (s : sanitizer) (p : path) (cn : string) (ca : list (string * string))
    (cs cs' : list node) :
  transformers s = [] -> remove_all_contents (cfg s) = false ->
  ordinary_document (Elem cn ca cs) = true ->
  wrapper_at s p cs cs' ->
  (forall f fragment s',
     clean_node f s (Elem cn ca cs') = Ok (fragment, s') ->
     clean_node (S f) s (Elem cn ca cs) = Ok (fragment, s')
     /\ forallb (tags_within (allowed_elements s)) fragment = true
     /\ (forall pre nm attrs kids post,
           p = [length pre] -> cs = pre ++ Elem nm attrs kids :: post ->
           Forall (allowed_child s) kids -> holds kids fragment))
  /\ (protocols (cfg s) = ∅ -> ordinary_rules (cfg s) = true ->
      exists f0, forall f, f0 <= f ->
        exists fragment s',
          clean_node f s (Elem cn ca cs') = Ok (fragment, s')).
Proof.
  intros Ht Hall _ Hw.
  split; [|intros Hfree _; apply clean_node_returns; assumption].
  intros f fragment s' H.
  unfold clean_node in *. cbn [children] in *.
  set (s0 := with_whitelist_nodes (with_current s []) []) in *.
  assert (Hp0 : plain s0) by (split; [exact Ht|reflexivity]).
  assert (Hw0 : wrapper_at s0 p cs cs')
    by (apply (wrapper_at_ext s); [intros nm Hr; exact Hr|exact Hw]).
  apply bind_ok in H. destruct H as (r1 & Hlo & H).
  injection H as <- <-.
  destruct (unwrap_loop s0 p cs cs' Hw0 Hall f s0 [] [] [] [] 0 0 r1 Hp0
              (keeps_refl s0) eq_refl Hlo) as (c2 & Hhi & HN & Hk).
  change (with_current s0 []) with s0 in Hhi.
  split; [|split].
  - rewrite Hhi. cbn [bind with_current current_element].
    rewrite <- HN. reflexivity.
  - cbn [with_current current_element]. apply tags_N.
    apply (tags_children f cs' s0 r1 [] 0 Hp0 eq_refl Hlo).
  - intros pre nm attrs kids post -> -> Hkids.
    destruct (wrapper_here_inv _ _ _ _ _ _ _ Hw0) as [Hrej Hstrip].
    cbn [with_current current_element].
    rewrite clean_children_app in Hhi.
    apply bind_ok in Hhi. destruct Hhi as (ra & Ha & Hhi).
    cbn [clean_children] in Hhi.
    apply bind_ok in Hhi. destruct Hhi as (rd & Hd & Hpost).
    pose proof (keeps_children _ _ _ _ _ _ Hp0 Ha) as Hka.
    assert (Hpa : plain ra) by (apply (keeps_plain s0); assumption).
    rewrite clean_element_unfold, clean_element_plain in Hd by exact Hpa.
    unfold element_plain, iterate_plain in Hd.
    destruct Hka as (_ & _ & E1 & E2 & E3).
    rewrite E1, E2, E3 in Hd.
    change (remove_all_contents (cfg s0)) with (remove_all_contents (cfg s))
      in Hd.
    rewrite Hrej, Hstrip, Hall in Hd. cbn [negb andb] in Hd.
    apply bind_ok in Hd. destruct Hd as (rin & Hin & Hd).
    injection Hd as <-.
    assert (Hkids' : Forall (allowed_child ra) kids).
    { eapply List.Forall_impl; [|exact Hkids].
      intros x. destruct x; simpl; try tauto. rewrite E1. tauto. }
    destruct (allowed_children_appended _ _ _ _ _ _ Hpa Hkids' Hin)
      as (K & HK & HF).
    assert (Hprd : plain (with_current rin (N (current_element rin)))).
    { apply (keeps_plain ra); [|exact Hpa].
      apply (keeps_children _ _ _ _ _ _ Hpa Hin). }
    pose proof (grows_children _ _ _ _ _ _ Hprd Hpost) as Hg.
    cbn [with_current current_element] in Hg.
    rewrite HN. apply holds_N. apply (holds_grows _ _ _ Hg).
    apply holds_N. rewrite HK.
    exists (current_element ra), K, []. rewrite app_nil_r.
    split; [reflexivity|exact HF].
Qed.

(** The wrapper [<div><b>x</b></div>] under rules that allow [a] and
    [b]. *)
Lemma rejected_wrapper_is_unwrapped_witness :
  cleaned 10 http_https [Elem "DIV" [] [Elem "B" [] [Text "x"]]]
  = Some [Elem "B" [] [Text "x"]].
Proof.
  unfold cleaned.
  destruct (clean_node 9 (new http_https)
              (Elem "BODY" [] [Elem "B" [] [Text "x"]]))
    as [[fragment s']| |] eqn:E;
    [|vm_compute in E; discriminate|vm_compute in E; discriminate].
  assert (Hw : wrapper_at (new http_https) [0]
                 ([] ++ Elem "DIV" [] [Elem "B" [] [Text "x"]] :: [])
                 ([] ++ [Elem "B" [] [Text "x"]] ++ []))
    by (apply (wrapper_here _ []); split; vm_compute; reflexivity).
  destruct (rejected_wrapper_is_unwrapped (new http_https) [0] "BODY" []
              ([] ++ Elem "DIV" [] [Elem "B" [] [Text "x"]] :: [])
              ([] ++ [Elem "B" [] [Text "x"]] ++ [])
              eq_refl eq_refl eq_refl Hw) as [Hrun _].
  destruct (Hrun 9 fragment s' E) as [H _].
  change ([] ++ [Elem "DIV" [] [Elem "B" [] [Text "x"]]])
    with [Elem "DIV" [] [Elem "B" [] [Text "x"]]] in H.
  rewrite H. vm_compute in E. injection E as <- _. reflexivity.
Defined.

(** ** Where the unwrapping is not what happens *)

(** Rules that allow [b] and drop the contents of everything. *)
Definition drop_all_contents : options :=
{| o_elements := Some ["b"]; o_attributes := None;
   o_allow_comments := false; o_protocols := None; o_classnames := None;
   o_add_attributes := None; o_remove_contents := Some (inr tt);
   o_transformers := None |}.

(** Rules that allow [b], with a transformer that whitelists every
    [div]. *)
Definition whitelist_div : transformer :=
fun input =>
  if String.eqb (ti_node_name input) "div"
  then TObject {| t_whitelist_nodes := None; t_whitelist := true;
                  t_attr_whitelist := None; t_node := None |}
  else TNull.

Definition keep_div : options :=
{| o_elements := Some ["b"]; o_attributes := None;
   o_allow_comments := false; o_protocols := None; o_classnames := None;
   o_add_attributes := None; o_remove_contents := None;
   o_transformers := Some [whitelist_div] |}.

(** Rules that allow [b] and strip [section] with its contents. *)
Definition strip_section : options :=
{| o_elements := Some ["b"]; o_attributes := None;
   o_allow_comments := false; o_protocols := None; o_classnames := None;
   o_add_attributes := None; o_remove_contents := Some (inl ["section"]);
   o_transformers := None |}.

(** C2 as stated fails by design: in all three runs [div] is not an
    allowed tag, it is in no set of content-stripped tags, and its child
    [b] is allowed.  With the drop-all-contents flag the child is
    dropped; below a content-stripped element it is dropped; and a
    transformer that whitelists the [div] keeps the [div]. *)
Lemma wrapper_not_always_unwrapped :
  cleaned 9 drop_all_contents [Elem "DIV" [] [Elem "B" [] [Text "x"]]]
  = Some []
  /\ cleaned 9 strip_section
       [Elem "SECTION" [] [Elem "DIV" [] [Elem "B" [] [Text "x"]]]]
     = Some []
  /\ cleaned 9 keep_div [Elem "DIV" [] [Elem "B" [] [Text "x"]]]
     = Some [Elem "DIV" [] [Elem "B" [] [Text "x"]]].
Proof. repeat split; vm_compute; reflexivity. Qed.


(** ** The loop over the allowed attributes need not end *)

(** Rules that allow [img] with [alt] and [src], [src] limited to
    http. *)
Definition img_http : options :=
{| o_elements := Some ["img"];
   o_attributes := Some (list_to_map [("img", [Name "alt"; Name "src"])]);
   o_allow_comments := false;
   o_protocols :=
     Some (list_to_map [("img", list_to_map [("src", ["http"])])]);
   o_classnames := None; o_add_attributes := None;
   o_remove_contents := None; o_transformers := None |}.

Definition src_protocols (c : config) : option (list string) :=
protocols c !! "img" ≫= (fun m => m !! "src").

Lemma src_protocols_with (c : config) (protos : list string) :
  src_protocols (with_protocols c "img" "src" protos) = Some protos.
Proof.
  unfold src_protocols, with_protocols. cbn [protocols].
  rewrite lookup_insert_eq. cbn. apply lookup_insert_eq.
Qed.

Lemma classnames_with (c : config) (protos : list string) :
  classnames (with_protocols c "img" "src" protos) = classnames c.
Proof. reflexivity. Qed.

(** At index 1 the loop finds [src], whose value begins with the first
    protocol; the inner loop stops at key 0, which is now the index of the
    outer loop, and [i++] leads back to index 1. *)
Lemma src_loop_diverges (fuel : nat) (c : config) (rest : list string)
    (new_attrs : list (string * string)) :
  src_protocols c = Some ("http" :: rest) ->
  clean_attributes fuel "img" [("src", "http://example.org/i.png")]
    [Name "alt"; Name "src"] 1 (c, new_attrs) = Diverged.
Proof.
  revert c rest new_attrs.
  induction fuel as [|fuel IH]; intros c rest new_attrs Hc;
    [reflexivity|].
  cbn [clean_attributes nth_error].
  unfold clean_attribute.
  cbn [entry_name get_attr].
  change (get_attr "src" [("src", "http://example.org/i.png")])
    with (Some "http://example.org/i.png").
  cbv beta iota.
  fold (src_protocols c). rewrite Hc.
  change (first_match (toLowerCase "http://example.org/i.png")
            (("http" :: rest) ++ [RELATIVE]) 0) with (Some 0).
  cbv beta iota.
  change ("src" =? "class")%string with false. cbv beta iota.
  cbn [isObject bind fst snd].
  apply (IH _ (rest ++ [RELATIVE])).
  apply src_protocols_with.
Qed.

(** With these rules cleaning [<img src="http://example.org/i.png">]
    does not return, whatever the fuel: the run is cut off, it neither
    returns a fragment nor throws. *)
Lemma img_src_never_returns (fuel : nat) :
  clean_node fuel (new img_http)
    (Elem "BODY" [] [Elem "IMG" [("src", "http://example.org/i.png")] []])
  = Diverged.
Proof.
  unfold clean_node. cbn [children clean_children].
  destruct fuel as [|fuel]; [reflexivity|].
  cbn [_clean]. unfold _clean_element.
  unfold _transform_element.
  change (transformers _) with (@nil transformer).
  cbn [_transform_element_go bind fst snd out_node name_of whitelist].
  change (toLowerCase "IMG") with "img".
  change (bool_decide ("img" ∈ allowed_elements _)) with true.
  cbn [orb].
  cbv beta iota zeta.
  change (allowed_attributes_of _ "img" _) with [Name "alt"; Name "src"].
  cbn [elem_attributes].
  destruct fuel as [|fuel]; [reflexivity|].
  cbn [clean_attributes nth_error].
  unfold clean_attribute at 1. cbn [entry_name].
  change (get_attr "alt" _) with (@None string).
  cbv beta iota. cbn [bind fst snd].
  rewrite (src_loop_diverges fuel _ []); [reflexivity|].
  vm_compute. reflexivity.
Qed.

End SanitizeFacts.

(* ===================================================================== *)
(** * Facts: the data filter                                              *)
(* ===================================================================== *)

Module DataFilterFacts.
Import Dom Js DataFilter DomFacts.

(** ** The loop of [flattenBlocksDown] *)

(** The references below the children [cs], the first of which has
    index [j]. *)
Fixpoint paths_from (j : nat) (cs : list node) : list path :=
match cs with
| [] => []
| c :: rest =>
    (if is_element c then [j] :: map (cons j) (descendant_paths c) else [])
    ++ paths_from (S j) rest
end.

Lemma descendant_paths_elem (nm : string) (attrs : list (string * string))
    (cs : list node) :
  descendant_paths (Elem nm attrs cs) = paths_from 0 cs.
Proof.
  cbn [descendant_paths]. generalize 0.
  induction cs as [|c rest IH]; intros j; [reflexivity|].
  cbn [paths_from]. rewrite <- (IH (S j)). reflexivity.
Qed.

Lemma below_app (j : nat) (a b : list path) :
  below j (a ++ b) = below j a ++ below j b.
Proof. apply omap_app. Qed.

Lemma below_path_nil (p : path) : below_path p [] = [].
Proof. induction p as [|j p IH]; [reflexivity|exact IH]. Qed.

Lemma below_path_app (p : path) (a b : list path) :
  below_path p (a ++ b) = below_path p a ++ below_path p b.
Proof.
  revert a b. induction p as [|j p IH]; intros a b; [reflexivity|].
  cbn [below_path]. rewrite below_app. apply IH.
Qed.

Lemma below_path_root (j : nat) (q : path) : below_path (j :: q) [[]] = [].
Proof. cbn. apply below_path_nil. Qed.

Lemma below_path_same (j : nat) (a b : path) :
  below_path (j :: b) [j :: a] = below_path b [a].
Proof. cbn. rewrite Nat.eqb_refl. reflexivity. Qed.

Lemma below_path_other (i j : nat) (a b : path) :
  i <> j -> below_path (j :: b) [i :: a] = [].
Proof.
  intros H. cbn. destruct (Nat.eqb_spec i j) as [E|_]; [contradiction|].
  apply below_path_nil.
Qed.

(** A list of references is in document order when no reference is
    followed by a reference to one of its ancestors, or to itself. *)
Fixpoint ordered (l : list path) : Prop :=
match l with
| [] => True
| a :: rest => Forall (fun b => below_path b [a] = []) rest /\ ordered rest
end.

Lemma ordered_app (x y : list path) :
  ordered x -> ordered y ->
  Forall (fun a => Forall (fun b => below_path b [a] = []) y) x ->
  ordered (x ++ y).
Proof.
  induction x as [|a x IH]; intros Hx Hy Hxy; [exact Hy|].
  destruct Hx as [Ha Hx]. inversion Hxy as [|? ? Hay Hxy']; subst.
  cbn [app ordered]. split.
  - apply Forall_app. split; assumption.
  - apply IH; assumption.
Qed.

Lemma ordered_filter (f : path -> bool) (l : list path) :
  ordered l -> ordered (List.filter f l).
Proof.
  induction l as [|a l IH]; intros H; [exact I|].
  destruct H as [Ha Hl]. cbn [List.filter].
  destruct (f a); [|apply IH; exact Hl].
  split; [|apply IH; exact Hl].
  apply List.Forall_forall. intros b Hb.
  apply filter_In in Hb. destruct Hb as [Hb _].
  rewrite List.Forall_forall in Ha. apply Ha. exact Hb.
Qed.

Lemma ordered_map_cons (j : nat) (l : list path) :
  ordered l -> ordered (map (cons j) l).
Proof.
  induction l as [|a l IH]; intros H; [exact I|].
  destruct H as [Ha Hl]. cbn [map ordered]. split; [|apply IH; exact Hl].
  apply List.Forall_forall. intros b Hb. apply in_map_iff in Hb.
  destruct Hb as (b' & <- & Hb'). rewrite below_path_same.
  rewrite List.Forall_forall in Ha. apply Ha. exact Hb'.
Qed.

(** Every reference below the children from [j] on starts with an index
    that is at least [j]. *)
Lemma paths_from_head (cs : list node) (j : nat) :
  Forall (fun p => exists i q, p = i :: q /\ j <= i) (paths_from j cs).
Proof.
  revert j. induction cs as [|c rest IH]; intros j; [constructor|].
  cbn [paths_from]. apply Forall_app. split.
  - destruct (is_element c); [|constructor].
    constructor; [exists j, []; split; [reflexivity|lia]|].
    apply List.Forall_forall. intros p Hp. apply in_map_iff in Hp.
    destruct Hp as (q & <- & _). exists j, q. split; [reflexivity|lia].
  - eapply List.Forall_impl; [|exact (IH (S j))].
    intros p (i & q & -> & Hi). exists i, q. split; [reflexivity|lia].
Qed.

Lemma descendant_paths_nonempty (n : node) :
  Forall (fun p => p <> []) (descendant_paths n).
Proof.
  destruct n as [d|nm attrs cs|nm|d|t]; try constructor.
  rewrite descendant_paths_elem.
  eapply List.Forall_impl; [|exact (paths_from_head cs 0)].
  intros p (i & q & -> & _). discriminate.
Qed.

Lemma paths_from_ordered (cs : list node) :
  Forall (fun c => ordered (descendant_paths c)) cs ->
  forall j, ordered (paths_from j cs).
Proof.
  induction 1 as [|c rest Hc _ IH]; intros j; [exact I|].
  cbn [paths_from]. apply ordered_app.
  - destruct (is_element c); [|exact I].
    split; [|apply ordered_map_cons; exact Hc].
    apply List.Forall_forall. intros b Hb. apply in_map_iff in Hb.
    destruct Hb as (q & <- & Hq).
    pose proof (descendant_paths_nonempty c) as Hne.
    rewrite List.Forall_forall in Hne. specialize (Hne q Hq).
    destruct q as [|i q]; [contradiction|].
    cbn. rewrite Nat.eqb_refl. cbn. apply below_path_nil.
  - apply IH.
  - assert (Hlate : forall a' : path,
              Forall (fun b => below_path b [j :: a'] = [])
                (paths_from (S j) rest)).
    { intros a'. eapply List.Forall_impl; [|exact (paths_from_head rest (S j))].
      intros b (i & q & -> & Hi). apply below_path_other. lia. }
    destruct (is_element c); [|constructor].
    constructor; [apply Hlate|].
    apply List.Forall_forall. intros a Ha. apply in_map_iff in Ha.
    destruct Ha as (a' & <- & _). apply Hlate.
Qed.

(** [find('*')] lists the elements in document order. *)
Lemma descendant_paths_ordered (n : node) : ordered (descendant_paths n).
Proof.
  induction n as [d|nm attrs cs IH|nm|d|t] using node_induction;
    try exact I.
  rewrite descendant_paths_elem. apply paths_from_ordered. exact IH.
Qed.

(** ** What the references of [find('*')] are *)

Lemma paths_from_In (cs : list node) (j : nat) (p : path) :
  In p (paths_from j cs) ->
  exists i c q, p = (j + i) :: q /\ nth_error cs i = Some c
                /\ is_element c = true
                /\ (q = [] \/ In q (descendant_paths c)).
Proof.
  revert j. induction cs as [|c rest IH]; intros j H; [destruct H|].
  cbn [paths_from] in H. apply in_app_or in H. destruct H as [H|H].
  - destruct (is_element c) eqn:Ec; [|destruct H].
    destruct H as [<-|H].
    + exists 0, c, []. rewrite Nat.add_0_r. auto.
    + apply in_map_iff in H. destruct H as (q & <- & Hq).
      exists 0, c, q. rewrite Nat.add_0_r. auto.
  - destruct (IH (S j) H) as (i & c' & q & -> & Hn & He & Hq).
    exists (S i), c', q. rewrite Nat.add_succ_r. auto.
Qed.

(** A reference of [find('*')] stands for an element. *)
Lemma descendant_paths_elements (n : node) (p : path) :
  In p (descendant_paths n) ->
  exists m, node_at n p = Some m /\ is_element m = true.
Proof.
  revert p. induction n as [d|nm attrs cs IH|nm|d|t] using node_induction;
    intros p H; try destruct H.
  rewrite descendant_paths_elem in H.
  destruct (paths_from_In cs 0 p H) as (i & c & q & -> & Hn & He & Hq).
  cbn [Nat.add node_at children]. rewrite Hn.
  destruct Hq as [->|Hq]; [exists c; auto|].
  rewrite List.Forall_forall in IH. apply IH; [|exact Hq].
  apply nth_error_In with i. exact Hn.
Qed.

Lemma paths_from_intro (cs : list node) (j i : nat) (c : node) (q : path) :
  nth_error cs i = Some c -> is_element c = true ->
  q = [] \/ In q (descendant_paths c) ->
  In ((j + i) :: q) (paths_from j cs).
Proof.
  revert j i. induction cs as [|c' rest IH]; intros j i Hn He Hq.
  - destruct i; discriminate.
  - cbn [paths_from]. apply in_or_app. destruct i as [|i].
    + cbn [nth_error] in Hn. injection Hn as ->. left. rewrite He.
      rewrite Nat.add_0_r. destruct Hq as [->|Hq]; [left; reflexivity|].
      right. apply in_map. exact Hq.
    + right. rewrite Nat.add_succ_r.
      exact (IH (S j) i Hn He Hq).
Qed.

(** Every element below the node has its reference. *)
Lemma descendant_paths_complete (n : node) (p : path) (m : node) :
  p <> [] -> node_at n p = Some m -> is_element m = true ->
  In p (descendant_paths n).
Proof.
  revert p m. induction n as [t|nm attrs cs IH|nm|t|t] using node_induction;
    intros p m Hp Hn Hm;
    try (destruct p as [|i q]; [contradiction|];
         cbn [node_at children] in Hn; destruct i; discriminate).
  destruct p as [|i q]; [contradiction|].
  cbn [node_at children] in Hn.
  destruct (nth_error cs i) as [c|] eqn:E; [|discriminate].
  rewrite descendant_paths_elem.
  destruct q as [|j q].
  - cbn [node_at] in Hn. injection Hn as ->.
    apply (paths_from_intro cs 0 i m []); auto.
  - assert (Hc : is_element c = true).
    { destruct c; try reflexivity;
        cbn [node_at children] in Hn; destruct j; discriminate. }
    apply (paths_from_intro cs 0 i c (j :: q) E Hc). right.
    rewrite List.Forall_forall in IH.
    apply (IH c (nth_error_In cs i E) (j :: q) m); [discriminate|exact Hn|exact Hm].
Qed.

(** The children an element has when nothing below it was moved. *)
Fixpoint detach_from (moved : list path) (j : nat) (cs : list node)
  : list node :=
match cs with
| [] => []
| c :: rest =>
    if moved_away j moved then detach_from moved (S j) rest
    else detach (below j moved) c :: detach_from moved (S j) rest
end.

Lemma detach_elem (moved : list path) (nm : string)
    (attrs : list (string * string)) (cs : list node) :
  detach moved (Elem nm attrs cs) = Elem nm attrs (detach_from moved 0 cs).
Proof.
  cbn [detach]. f_equal. generalize 0.
  induction cs as [|c rest IH]; intros j; [reflexivity|].
  cbn [detach_from]. rewrite <- (IH (S j)). reflexivity.
Qed.

(** While only the node itself was moved, if anything, it has the subtree
    it had. *)
Lemma detach_roots (moved : list path) (n : node) :
  Forall (fun q => q = []) moved -> detach moved n = n.
Proof.
  revert moved.
  induction n as [d|nm attrs cs IH|nm|d|t] using node_induction;
    intros moved Hm; try reflexivity.
  rewrite detach_elem. f_equal.
  assert (Haway : forall j, moved_away j moved = false).
  { intros j. unfold moved_away. apply not_true_is_false. intros E.
    apply existsb_exists in E. destruct E as (p & Hp & E).
    rewrite List.Forall_forall in Hm. rewrite (Hm p Hp) in E. discriminate. }
  assert (Hbelow : forall j, below j moved = []).
  { intros j. clear -Hm. induction Hm as [|q moved -> _ IHm];
      [reflexivity|exact IHm]. }
  generalize 0. induction IH as [|c rest Hc _ IHrest]; intros j;
    [reflexivity|].
  cbn [detach_from]. rewrite Haway, Hbelow, IHrest.
  rewrite (Hc [] (@List.Forall_nil _ _)). reflexivity.
Qed.

(** The test in front of [append], on the node as the root had it. *)
Definition kept (root : node) (p : path) : bool :=
match node_at root p with
| Some n => appendable n
| None => false
end.

(** The loop hands the blocks over in document order, so a block is
    tested before anything below it is moved: the test sees the block as
    the root had it. *)
Lemma append_blocks_filter (root : node) (blockNodes appended : list path) :
  ordered blockNodes ->
  Forall (fun b => below_path b appended = []) blockNodes ->
  append_blocks root blockNodes appended
  = appended ++ List.filter (kept root) blockNodes.
Proof.
  revert appended.
  induction blockNodes as [|b rest IH]; intros appended Ho Ha.
  - cbn. rewrite app_nil_r. reflexivity.
  - destruct Ho as [Hb Ho]. inversion Ha as [|? ? Hba Ha']; subst.
    cbn [append_blocks List.filter]. unfold block_now, kept.
    rewrite Hba.
    destruct (node_at root b) as [n|]; [|apply IH; assumption].
    rewrite (detach_roots [] n (@List.Forall_nil _ _)).
    destruct (appendable n); [|apply IH; assumption].
    rewrite IH; [rewrite <- app_assoc; reflexivity|exact Ho|].
    rewrite List.Forall_forall in Ha', Hb. apply List.Forall_forall. intros b' Hb'.
    rewrite below_path_app, (Ha' b' Hb'), (Hb b' Hb'). reflexivity.
Qed.

Lemma getBlockNodes_ordered (root : node) : ordered (getBlockNodes root).
Proof. apply ordered_filter, descendant_paths_ordered. Qed.

Lemma append_blocks_kept (root : node) :
  append_blocks root (getBlockNodes root) []
  = List.filter (kept root) (getBlockNodes root).
Proof.
  apply (append_blocks_filter root (getBlockNodes root) []).
  - apply getBlockNodes_ordered.
  - apply List.Forall_forall. intros b _. apply below_path_nil.
Qed.

Lemma getBlockNodes_collected (root : node) (p : path) :
  In p (getBlockNodes root) ->
  exists n, node_at root p = Some n /\ collected n = true.
Proof.
  intros H. apply filter_In in H. destruct H as [_ H].
  destruct (node_at root p) as [n|]; [|discriminate].
  exists n. split; [reflexivity|exact H].
Qed.

Lemma root_children_each (root : node) (moved l : list path) :
  Forall (fun p => In p (getBlockNodes root) /\ kept root p = true) l ->
  Forall2
    (fun p child =>
       exists n, node_at root p = Some n /\ collected n = true
                 /\ appendable n = true
                 /\ child = detach (below_path p moved) n)
    l (omap (block_now root moved) l).
Proof.
  induction 1 as [|p l [Hp Hk] _ IH]; [constructor|].
  destruct (getBlockNodes_collected root p Hp) as (n & Hn & Hc).
  cbn [omap list_omap]. unfold block_now at 1. unfold kept in Hk.
  rewrite Hn in *. constructor; [|exact IH].
  exists n. repeat split; try assumption.
Qed.


(** ** The blocks that are children of the root *)

Lemma descendants_elem (nm : string) (attrs : list (string * string))
    (cs : list node) :
  descendants (Elem nm attrs cs)
  = flat_map (fun c => if is_element c then c :: descendants c else []) cs.
Proof. reflexivity. Qed.

(** The collected references below the children from [j] on. *)
Fixpoint blocks_from (j : nat) (cs : list node) : list path :=
match cs with
| [] => []
| c :: rest =>
    (if is_element c
     then (if collected c then [[j]] else [])
          ++ map (cons j) (getBlockNodes c)
     else [])
    ++ blocks_from (S j) rest
end.

Definition is_collected (root : node) (p : path) : bool :=
match node_at root p with
| Some n => collected n
| None => false
end.

Lemma nth_error_middle {A : Type} (pre : list A) (c : A) (rest : list A) :
  nth_error (pre ++ c :: rest) (length pre) = Some c.
Proof.
  induction pre as [|a pre IH]; [reflexivity|exact IH].
Qed.

Lemma blocks_from_filter (nm : string) (attrs : list (string * string))
    (cs pre : list node) :
  List.filter (is_collected (Elem nm attrs (pre ++ cs)))
    (paths_from (length pre) cs)
  = blocks_from (length pre) cs.
Proof.
  revert pre. induction cs as [|c rest IH]; intros pre; [reflexivity|].
  cbn [paths_from blocks_from]. rewrite List.filter_app. f_equal.
  - destruct (is_element c); [|reflexivity].
    cbn [List.filter]. unfold is_collected at 1. cbn [node_at children].
    rewrite nth_error_middle, List.filter_map_swap.
    assert (E : List.filter
                  (fun a => is_collected (Elem nm attrs (pre ++ c :: rest))
                              (length pre :: a)) (descendant_paths c)
                = getBlockNodes c).
    { apply List.filter_ext. intros q. unfold is_collected.
      cbn [node_at children]. rewrite nth_error_middle. reflexivity. }
    rewrite E. destruct (collected c); reflexivity.
  - specialize (IH (pre ++ [c])).
    rewrite <- app_assoc, length_app in IH. cbn [app length] in IH.
    rewrite Nat.add_1_r in IH. exact IH.
Qed.

Lemma getBlockNodes_elem (nm : string) (attrs : list (string * string))
    (cs : list node) :
  getBlockNodes (Elem nm attrs cs) = blocks_from 0 cs.
Proof.
  unfold getBlockNodes. rewrite descendant_paths_elem.
  exact (blocks_from_filter nm attrs cs []).
Qed.

(** The collected children from [j] on. *)
Fixpoint tops (j : nat) (cs : list node) : list path :=
match cs with
| [] => []
| c :: rest =>
    (if is_element c && collected c then [[j]] else []) ++ tops (S j) rest
end.

Lemma tops_singletons (cs : list node) (j : nat) :
  Forall (fun p : path => exists i, p = [i]) (tops j cs).
Proof.
  revert j. induction cs as [|c rest IH]; intros j; [constructor|].
  cbn [tops]. apply Forall_app. split; [|apply IH].
  destruct (is_element c && collected c); repeat constructor.
  exists j. reflexivity.
Qed.

Lemma below_singletons (moved : list path) (j : nat) :
  Forall (fun p : path => exists i, p = [i]) moved ->
  Forall (fun q : path => q = []) (below j moved).
Proof.
  induction 1 as [|p moved [i ->] _ IH]; [constructor|].
  cbn [below omap list_omap]. destruct (i =? j); [constructor|];
    [reflexivity|exact IH|exact IH].
Qed.

(** The test in front of [append], for a child of the root. *)
Definition keepable (c : node) : bool :=
is_element c && collected c && appendable c.

(** Where the collected nodes are children of the root, the loop puts
    back the children that pass the test, as they are. *)
Lemma root_children_tops (nm : string) (attrs : list (string * string))
    (moved : list path) (cs pre : list node) :
  Forall (fun p : path => exists i, p = [i]) moved ->
  omap (block_now (Elem nm attrs (pre ++ cs)) moved)
    (List.filter (kept (Elem nm attrs (pre ++ cs))) (tops (length pre) cs))
  = List.filter keepable cs.
Proof.
  intros Hm. revert pre. induction cs as [|c rest IH]; intros pre;
    [reflexivity|].
  cbn [tops]. rewrite List.filter_app, omap_app.
  assert (Hrest :
    omap (block_now (Elem nm attrs (pre ++ c :: rest)) moved)
      (List.filter (kept (Elem nm attrs (pre ++ c :: rest)))
         (tops (S (length pre)) rest))
    = List.filter keepable rest).
  { specialize (IH (pre ++ [c])).
    rewrite <- app_assoc, length_app in IH. cbn [app length] in IH.
    rewrite Nat.add_1_r in IH. exact IH. }
  transitivity ((if keepable c then [c] else []) ++ List.filter keepable rest);
    [|cbn [List.filter]; destruct (keepable c); reflexivity].
  f_equal; [|exact Hrest]. unfold keepable.
  destruct (is_element c && collected c); [|reflexivity].
  cbn [List.filter andb]. unfold kept at 1. cbn [node_at children].
  rewrite nth_error_middle.
  destruct (appendable c); [|reflexivity].
  cbn [omap list_omap]. unfold block_now at 1. cbn [node_at children].
  rewrite nth_error_middle. cbn [below_path].
  rewrite (detach_roots _ c (below_singletons moved (length pre) Hm)).
  reflexivity.
Qed.

Lemma filter_singletons (f : path -> bool) (l : list path) :
  Forall (fun p : path => exists i, p = [i]) l ->
  Forall (fun p : path => exists i, p = [i]) (List.filter f l).
Proof.
  induction 1 as [|p l Hp _ IH]; [constructor|].
  cbn [List.filter]. destruct (f p); [constructor|]; assumption.
Qed.


(** ** What one pass leaves *)

Lemma merge_text_elements (l : list node) :
  Forall (fun c => is_element c = true) l -> merge_text l = l.
Proof.
  induction 1 as [|c l Hc _ IH]; [reflexivity|].
  destruct c; try discriminate. cbn [merge_text]. rewrite IH. reflexivity.
Qed.

Lemma map_same {A : Type} (f : A -> A) (l : list A) :
  Forall (fun a => f a = a) l -> map f l = l.
Proof.
  induction 1 as [|a l Ha _ IH]; [reflexivity|].
  cbn [map]. rewrite Ha, IH. reflexivity.
Qed.

Lemma filter_all {A : Type} (f : A -> bool) (l : list A) :
  Forall (fun a => f a = true) l -> List.filter f l = l.
Proof.
  induction 1 as [|a l Ha _ IH]; [reflexivity|].
  cbn [List.filter]. rewrite Ha, IH. reflexivity.
Qed.

(** A child of the root as [blockifyInlineNodes] leaves it. *)
Definition blockified (c : node) : node :=
let c := match c with
         | Text d => if trim_is_empty d then c else wrap_p c
         | _ => c
         end in
if is_element c && negb (stays_at_root c) then wrap_p c else c.

Lemma blockifyInlineNodes_normalized (nm : string)
    (attrs : list (string * string)) (cs : list node) :
  blockifyInlineNodes (normalize (Elem nm attrs cs))
  = Elem nm attrs (map blockified (normalize_list cs)).
Proof.
  unfold blockifyInlineNodes, wrapTextNodes.
  rewrite (normalize_fixed (Elem nm attrs cs)).
  cbn [normalize with_children children]. rewrite map_map. reflexivity.
Qed.

Lemma trim_is_empty_nonempty (d : string) :
  trim_is_empty d = false -> String.eqb d "" = false.
Proof. destruct d; [discriminate|reflexivity]. Qed.


(** ** The claims *)

Lemma contains_iff_In (l : list string) (s : string) :
  contains l s = true <-> In s l.
Proof.
  unfold contains. rewrite existsb_exists. split.
  - intros (x & Hx & E). apply String.eqb_eq in E. subst. exact Hx.
  - intros H. exists s. split; [exact H|apply String.eqb_refl].
Qed.

(** The first half of the test: the attribute [contenteditable] of the
    node is [false]. *)
Lemma turned_off_attribute (n : node) :
  isContentEditableTurnedOff n = true <->
  exists nm attrs cs,
    n = Elem nm attrs cs /\ get_attr "contenteditable" attrs = Some "false".
Proof.
  destruct n as [d|nm attrs cs|nm|d|t]; cbn [isContentEditableTurnedOff];
    try (split; [discriminate|intros (? & ? & ? & E & _); discriminate E]).
  unfold contenteditable_false. split.
  - intros H. exists nm, attrs, cs. split; [reflexivity|].
    destruct (get_attr "contenteditable" attrs) as [v|]; [|discriminate].
    apply String.eqb_eq in H. subst. reflexivity.
  - intros (nm' & attrs' & cs' & E & H). injection E as <- <- <-.
    rewrite H. reflexivity.
Qed.

(** [isEmptyElement]: no text, and no media element at or below the
    node (the separator is one of the media elements). *)
Lemma empty_element (n : node) :
  isEmptyElement n = true <->
  textContent n = ""
  /\ (forall d, d = n \/ In d (descendants n) ->
        ~ In (name_of d) ["FIGURE"; "IFRAME"; "IMG"; "HR"]).
Proof.
  unfold isEmptyElement, hasMedia, isMedia.
  change mediaElements with ["FIGURE"; "IFRAME"; "IMG"; "HR"].
  change separatorElement with "HR".
  rewrite !andb_true_iff, !negb_true_iff, String.eqb_eq. split.
  - intros (((Ht & Hm) & Hd) & _). split; [exact Ht|].
    intros d [->|Hd'] Hin; apply contains_iff_In in Hin.
    + rewrite Hin in Hm. discriminate.
    + assert (E : existsb
                    (fun element =>
                       contains ["FIGURE"; "IFRAME"; "IMG"; "HR"]
                         (name_of element)) (descendants n) = true)
        by (apply existsb_exists; exists d; split; assumption).
      rewrite E in Hd. discriminate.
  - intros (Ht & H). repeat split.
    + exact Ht.
    + apply not_true_is_false. intros E. apply contains_iff_In in E.
      exact (H n (or_introl eq_refl) E).
    + apply not_true_is_false. intros E. apply existsb_exists in E.
      destruct E as (d & Hd & E). apply contains_iff_In in E.
      exact (H d (or_intror Hd) E).
    + apply String.eqb_neq. intros E.
      apply (H n (or_introl eq_refl)). rewrite E. cbn. auto.
Qed.

Lemma block_children (n : node) :
  hasBlockChildren n = true <->
  exists c, In c (children n) /\ is_element c = true
            /\ In (name_of c)
                 ["P"; "FIGURE"; "H2"; "BLOCKQUOTE"; "UL"; "OL"; "PRE"].
Proof.
  unfold hasBlockChildren, element_children, isBlock.
  change blockElements
    with ["P"; "FIGURE"; "H2"; "BLOCKQUOTE"; "UL"; "OL"; "PRE"].
  rewrite existsb_exists. split.
  - intros (c & Hc & E). apply filter_In in Hc. destruct Hc as [Hc He].
    exists c. repeat split; try assumption. apply contains_iff_In. exact E.
  - intros (c & Hc & He & E). exists c. split.
    + apply filter_In. split; assumption.
    + apply contains_iff_In. exact E.
Qed.

(** C5, as the code has it.  Where [flattenBlocksDown] does not stop
    early, the children the root ends with are, one for one and in
    document order, the collected descendants of the blockified root
    that pass the test of the loop on the subtree they had when the loop
    began; each child is that subtree without the survivors that were
    below it.  A node is collected when its tag is a block tag or its
    attribute [contenteditable] is [false].  The test drops a collected
    node exactly when it is not non-editable and is empty (no text, and
    no media element at or below it) or has a block-tagged element among
    its children; so a non-editable node is always kept.  The survivors
    are all the elements below the blockified root that are collected
    and pass the test. *)
Theorem flattenBlocksDown_keeps_appendable
    (rootNode : node) (preserveInline : bool) :
  preserveInline = false \/ getBlockNodes (normalize rootNode) <> [] ->
  let root := blockifyInlineNodes (normalize rootNode) in
  let survivors := List.filter (kept root) (getBlockNodes root) in
  flattenBlocksDown rootNode preserveInline
  = with_children root (root_children root survivors)
  /\ Forall2
       (fun p child =>
          exists n, node_at root p = Some n /\ collected n = true
                    /\ appendable n = true
                    /\ child = detach (below_path p survivors) n)
       survivors (root_children root survivors)
  /\ (forall n,
        collected n = true <->
        In (name_of n) ["P"; "FIGURE"; "H2"; "BLOCKQUOTE"; "UL"; "OL"; "PRE"]
        \/ exists nm attrs cs,
             n = Elem nm attrs cs
             /\ get_attr "contenteditable" attrs = Some "false")
  /\ (forall n,
        appendable n = false <->
        (forall nm attrs cs,
           n = Elem nm attrs cs ->
           get_attr "contenteditable" attrs <> Some "false")
        /\ ((textContent n = ""
             /\ forall d, d = n \/ In d (descendants n) ->
                  ~ In (name_of d) ["FIGURE"; "IFRAME"; "IMG"; "HR"])
            \/ exists c,
                 In c (children n) /\ is_element c = true
                 /\ In (name_of c)
                      ["P"; "FIGURE"; "H2"; "BLOCKQUOTE"; "UL"; "OL";
                       "PRE"]))
  /\ (forall p,
        In p survivors <->
        p <> []
        /\ exists n, node_at root p = Some n /\ is_element n = true
                     /\ collected n = true /\ appendable n = true).
Proof.
  intros H root survivors. split; [|split; [|split; [|split]]].
  - unfold flattenBlocksDown. destruct preserveInline; cbn [negb]; cbv zeta.
    + destruct (getBlockNodes (normalize rootNode)) eqn:E;
        [destruct H as [H|H]; [discriminate|contradiction]|].
      fold root. rewrite append_blocks_kept. reflexivity.
    + fold root. rewrite append_blocks_kept.
      destruct (getBlockNodes root); reflexivity.
  - apply root_children_each. apply List.Forall_forall. intros p Hp.
    apply filter_In in Hp. exact Hp.
  - intros n. unfold collected. rewrite orb_true_iff.
    rewrite turned_off_attribute. unfold isBlock.
    change blockElements
      with ["P"; "FIGURE"; "H2"; "BLOCKQUOTE"; "UL"; "OL"; "PRE"].
    rewrite contains_iff_In. reflexivity.
  - intros n. unfold appendable.
    rewrite orb_false_iff, andb_false_iff, !negb_false_iff.
    rewrite empty_element, block_children.
    assert (Hoff : isContentEditableTurnedOff n = false <->
                   forall nm attrs cs,
                     n = Elem nm attrs cs ->
                     get_attr "contenteditable" attrs <> Some "false").
    { split.
      - intros E nm attrs cs -> Hget.
        assert (Hon : isContentEditableTurnedOff (Elem nm attrs cs) = true)
          by (apply turned_off_attribute; eauto).
        rewrite Hon in E. discriminate.
      - intros Hno. apply not_true_is_false. intros E.
        apply turned_off_attribute in E.
        destruct E as (nm & attrs & cs & -> & Hget).
        exact (Hno nm attrs cs eq_refl Hget). }
    rewrite Hoff. reflexivity.
  - intros p. unfold survivors, getBlockNodes, kept.
    rewrite !filter_In. split.
    + intros [[Hp Hc] Hk].
      pose proof (descendant_paths_nonempty root) as Hne.
      rewrite List.Forall_forall in Hne.
      split; [exact (Hne p Hp)|].
      destruct (descendant_paths_elements root p Hp) as (m & Hm & He).
      rewrite Hm in Hc, Hk. exists m. auto.
    + intros (Hne & n & Hn & He & Hc & Hk). rewrite Hn.
      split; [split|]; try assumption.
      exact (descendant_paths_complete root p n Hne Hn He).
Qed.

(** The theorem at [<div><blockquote><p>x</p></blockquote></div>]. *)
Lemma flattenBlocksDown_keeps_appendable_witness :
  flattenBlocksDown
    (Elem "DIV" [] [Elem "BLOCKQUOTE" [] [Elem "P" [] [Text "x"]]]) false
  = Elem "DIV" [] [Elem "P" [] [Text "x"]].
Proof.
  destruct (flattenBlocksDown_keeps_appendable
              (Elem "DIV" [] [Elem "BLOCKQUOTE" [] [Elem "P" [] [Text "x"]]])
              false (or_introl eq_refl)) as [H _].
  rewrite H. vm_compute. reflexivity.
Defined.

(** C5 as stated fails.  The block quote is collected, bears no media,
    is not empty and has a block child: in the words of the
    specification it is not dropped, and the code drops it.  The empty
    paragraph is collected, is empty and has no block child: in the
    words of the specification it is not dropped, and the code drops
    it. *)
Lemma nonempty_wrapper_is_dropped :
  let quote := Elem "BLOCKQUOTE" [] [Elem "P" [] [Text "x"]] in
  let empty := Elem "P" [] [] in
  collected quote = true /\ dropped_in_words quote = false
  /\ appendable quote = false
  /\ flattenBlocksDown (Elem "DIV" [] [quote]) false
     = Elem "DIV" [] [Elem "P" [] [Text "x"]]
  /\ collected empty = true /\ dropped_in_words empty = false
  /\ appendable empty = false
  /\ flattenBlocksDown (Elem "DIV" [] [empty; Elem "P" [] [Text "y"]]) false
     = Elem "DIV" [] [Elem "P" [] [Text "y"]].
Proof. repeat split; vm_compute; reflexivity. Qed.

(** C6 as stated fails.  In [<div><ul><li><p>x</p></li></ul></div>] the
    list is not empty and has no block child, so the first pass keeps it
    and moves the paragraph out of it; the second pass finds the list
    empty and drops it.  The flag makes no difference. *)
Lemma flattenBlocksDown_twice_differs :
  let root := Elem "DIV" [] [Elem "UL" [] [Elem "LI" []
                [Elem "P" [] [Text "x"]]]] in
  let once := Elem "DIV" [] [Elem "UL" [] [Elem "LI" [] []];
                             Elem "P" [] [Text "x"]] in
  let twice := Elem "DIV" [] [Elem "P" [] [Text "x"]] in
  flattenBlocksDown root false = once
  /\ flattenBlocksDown once false = twice
  /\ flattenBlocksDown root true = once
  /\ flattenBlocksDown once true = twice
  /\ once <> twice.
Proof.
  repeat split; try (vm_compute; reflexivity). discriminate.
Qed.

End DataFilterFacts.
(* ===================================================================== *)
(** * Facts: the undo manager's checkpoints                              *)
(* ===================================================================== *)

Module UndoManagerFacts.
Import UndoManager.

Section Facts.

Context {Editor Selection : Type}.
Variable getData : Editor -> string.
Variable saveSelection : Editor -> option Selection.
Variable defaultOnChange : Editor -> Editor.

Abbreviation State := (State Selection).
Abbreviation manager := (manager Selection).
Abbreviation createState := (createState getData saveSelection).
Abbreviation saveState := (saveState getData saveSelection).
Abbreviation saverFires := (saverFires getData saveSelection).
Abbreviation onChange := (onChange getData saveSelection defaultOnChange).
Abbreviation step := (step getData saveSelection defaultOnChange).
Abbreviation run := (run getData saveSelection defaultOnChange).

Lemma distinct_neighbours_snoc (l : list State) (a b : State) :
  distinct_neighbours (l ++ [a]) -> data a <> data b ->
  distinct_neighbours ((l ++ [a]) ++ [b]).
Proof.
  induction l as [|x l IH]; simpl.
  - tauto.
  - intros H Hab. destruct l as [|y l]; simpl in *.
    + tauto.
    + destruct H as [Hxy H]. split; [exact Hxy|]. apply IH; assumption.
Qed.

(** What holds of every manager that only ever saw notifications and
    timer expirations. *)
Record reachable (m : manager) : Prop := {
  r_restoring : isRestoring m = false;
  r_torndown : isTorndown m = false;
  r_idle : currState m = None -> undoStates m = [] /\ saverPending m = false;
  r_distinct : distinct_neighbours (history m)
}.

Lemma reachable_new : reachable new.
Proof. constructor; simpl; auto. Qed.

Lemma saveState_reachable (m : manager) (e : Editor) :
  reachable m -> reachable (saveState m e).
Proof.
  intros [Hr Ht Hi Hd]. unfold UndoManager.saveState.
  destruct (currState m) as [c|] eqn:Hc.
  - destruct (String.eqb_spec (data (createState e)) (data c)) as [Heq|Hne].
    + constructor; auto. rewrite Hc. intros; discriminate.
    + constructor; simpl; auto; try (intros; discriminate).
      unfold history in *. simpl. rewrite Hc in Hd.
      apply distinct_neighbours_snoc; [exact Hd|].
      intros Heq. apply Hne. symmetry. exact Heq.
  - destruct (Hi eq_refl) as [Hu Hp].
    constructor; simpl; auto; try (intros; discriminate).
    unfold history. simpl. rewrite Hu. simpl. exact I.
Qed.

Lemma step_reachable (m : manager) (ev : event Editor) :
  reachable m -> reachable (step m ev).
Proof.
  intros Hm. destruct ev as [type e|e]; simpl.
  - unfold UndoManager.onChange. rewrite (r_restoring _ Hm). simpl.
    destruct (is_updateAsyncImage type); simpl; [exact Hm|].
    destruct (currState m) as [c|] eqn:Hc; simpl.
    + destruct Hm as [Hr Ht Hi Hd].
      constructor; simpl; auto.
      rewrite Hc. intros; discriminate.
    + apply saveState_reachable. exact Hm.
  - unfold UndoManager.saverFires.
    destruct (saverPending m) eqn:Hp; [|exact Hm].
    rewrite (r_torndown _ Hm). simpl.
    apply saveState_reachable.
    destruct Hm as [Hr Ht Hi Hd].
    constructor; simpl; auto.
    intros Hc. destruct (Hi Hc) as [_ Hp']. congruence.
Qed.

Lemma run_reachable (evs : list (event Editor)) (m : manager) :
  reachable m -> reachable (run m evs).
Proof.
  revert m. induction evs as [|ev evs IH]; intros m Hm; simpl.
  - exact Hm.
  - apply IH. apply step_reachable. exact Hm.
Qed.

(** C4.  For every sequence of change notifications and timer
    expirations received by a fresh undo manager, and the manager [m] it
    leads to:
    (a) a notification that finds no checkpoint (the very first one that
        is not an async image update) makes the current (document,
        selection) pair the checkpoint at once: the serialized content
        [getData e] together with the selection [saveSelection e] as
        they are at that moment, without arming the debounce timer and
        without touching the undo stack;
    (b) a notification that finds a checkpoint only arms the timer:
        checkpoint and undo stack are what they were;
    (c) when the timer expires the capture leaves checkpoint and undo
        stack alone if the serialized content equals the checkpoint's
        (whatever the selection is), and otherwise pushes the old
        checkpoint and installs the pair of the content and the
        selection of that moment;
    (d) a notification whose content equals the checkpoint's adds no
        undo entry, neither at once nor when its timer expires;
    (e) neighbouring snapshots of the history always differ in
        content. *)
Theorem checkpoint_only_on_changed_content (evs : list (event Editor)) :
  let m := run new evs in
  (forall type e,
      is_updateAsyncImage type = false -> currState m = None ->
      step m (Notification type e) = resetCurrState getData saveSelection m e
      /\ currState (step m (Notification type e))
         = Some {| data := getData e; selection := saveSelection e |}
      /\ saverPending (step m (Notification type e)) = false
      /\ undoStates (step m (Notification type e)) = [])
  /\ (forall type e c,
      is_updateAsyncImage type = false -> currState m = Some c ->
      step m (Notification type e) = saverDebounced m
      /\ currState (step m (Notification type e)) = Some c
      /\ undoStates (step m (Notification type e)) = undoStates m
      /\ saverPending (step m (Notification type e)) = true)
  /\ (forall e c,
      currState m = Some c -> saverPending m = true ->
      let m' := step m (TimerExpires e) in
      if String.eqb (getData e) (data c)
      then currState m' = Some c /\ undoStates m' = undoStates m
      else currState m'
           = Some {| data := getData e; selection := saveSelection e |}
           /\ undoStates m' = undoStates m ++ [c])
  /\ (forall type e c,
      currState m = Some c -> getData e = data c ->
      undoStates (step m (Notification type e)) = undoStates m
      /\ undoStates (step (step m (Notification type e)) (TimerExpires e))
         = undoStates m)
  /\ distinct_neighbours (history m).
Proof.
  intros m.
  assert (Hm : reachable m) by (apply run_reachable, reachable_new).
  destruct Hm as [Hr Ht Hi Hd].
  split; [|split; [|split; [|split]]].
  - intros type e Hty Hc. simpl. unfold UndoManager.onChange.
    rewrite Hr, Hty, Hc. simpl. unfold UndoManager.saveState. rewrite Hc.
    destruct (Hi Hc) as [Hu Hp]. simpl. auto.
  - intros type e c Hty Hc. simpl. unfold UndoManager.onChange.
    rewrite Hr, Hty, Hc. simpl. auto.
  - intros e c Hc Hp. simpl. unfold UndoManager.saverFires.
    rewrite Hp, Ht. simpl. unfold UndoManager.saveState. simpl. rewrite Hc.
    destruct (String.eqb (getData e) (data c)); simpl; auto.
  - intros type e c Hc Heq.
    assert (Hs : forall m0 : manager, currState m0 = Some c ->
               undoStates (saveState m0 e) = undoStates m0).
    { intros m0 H0. unfold UndoManager.saveState. rewrite H0. simpl.
      rewrite Heq, String.eqb_refl. reflexivity. }
    simpl. unfold UndoManager.onChange. rewrite Hr, Hc. simpl.
    destruct (is_updateAsyncImage type); simpl.
    + split; [reflexivity|]. unfold UndoManager.saverFires.
      destruct (saverPending m); [|reflexivity].
      rewrite Ht. simpl. rewrite Hs; auto.
    + split; [reflexivity|]. unfold UndoManager.saverFires. simpl.
      rewrite Ht. simpl. rewrite Hs; auto.
  - exact Hd.
Qed.

End Facts.

  (** A run on which every clause of the theorem applies: an editor is
      its serialized content and the offset of its caret; two
      notifications and an expiration, then an expiration on changed
      content. *)
Lemma checkpoint_only_on_changed_content_witness :
  let getData := fun e : string * nat => fst e in
  let sel := fun e : string * nat => Some (snd e) in
  let dflt := fun e : string * nat => e in
  let m0 := run getData sel dflt new [] in
  let m1 := run getData sel dflt new [Notification None ("<p>a</p>", 1)] in
  let m2 := step getData sel dflt m1 (Notification None ("<p>ab</p>", 2)) in
  currState (step getData sel dflt m0 (Notification None ("<p>a</p>", 1)))
    = Some (mkState "<p>a</p>" (Some 1))
  /\ step getData sel dflt m1 (Notification None ("<p>ab</p>", 2))
     = saverDebounced m1
  /\ undoStates (step getData sel dflt
                   (step getData sel dflt m1
                      (Notification None ("<p>a</p>", 0)))
                   (TimerExpires ("<p>a</p>", 0))) = undoStates m1
  /\ currState (step getData sel dflt m2 (TimerExpires ("<p>ab</p>", 2)))
     = Some (mkState "<p>ab</p>" (Some 2))
  /\ undoStates (step getData sel dflt m2 (TimerExpires ("<p>ab</p>", 2)))
     = [mkState "<p>a</p>" (Some 1)].
Proof.
  intros getData sel dflt m0 m1 m2.
  split; [|split; [|split]].
  - destruct (checkpoint_only_on_changed_content getData sel dflt [])
      as [H _].
    apply (H None ("<p>a</p>", 1)); reflexivity.
  - destruct (checkpoint_only_on_changed_content getData sel dflt
                [Notification None ("<p>a</p>", 1)]) as (_ & H & _).
    apply (H None ("<p>ab</p>", 2) (mkState "<p>a</p>" (Some 1)));
      reflexivity.
  - destruct (checkpoint_only_on_changed_content getData sel dflt
                [Notification None ("<p>a</p>", 1)]) as (_ & _ & _ & H & _).
    apply (H None ("<p>a</p>", 0) (mkState "<p>a</p>" (Some 1)));
      reflexivity.
  - destruct (checkpoint_only_on_changed_content getData sel dflt
                [Notification None ("<p>a</p>", 1);
                 Notification None ("<p>ab</p>", 2)]) as (_ & _ & H & _).
    exact (H ("<p>ab</p>", 2) (mkState "<p>a</p>" (Some 1))
             eq_refl eq_refl).
Defined.

End UndoManagerFacts.

(* ===================================================================== *)
(** * Facts: change notifications and async images of the editor         *)
(* ===================================================================== *)

Module RichTextEditorFacts.
Import Dom RichTextEditor.

Section Editor.

Context {Selection : Type}.
Variable html : node -> string.
Variable getData : node -> string.
Variable saveSelection : node -> option Selection.
Variable insertMedia :
  node -> node -> option path -> option Js.value -> bool -> node.
Variable createObjectURL : option (nat -> string).
Variable imgKeyAttr : string.
Variable updateImageElement :
  node -> string -> Js.value -> list (string * string) -> node.

Abbreviation editor := (@editor Selection).
Abbreviation ownOnChange := (@ownOnChange Selection html).
Abbreviation onChange := (@onChange Selection html getData saveSelection).
Abbreviation insertAsyncImage :=
  (@insertAsyncImage Selection html getData saveSelection insertMedia
     createObjectURL imgKeyAttr).
Abbreviation insertAsyncImage_method :=
  (@insertAsyncImage_method Selection html getData saveSelection insertMedia
     createObjectURL imgKeyAttr).
Abbreviation updateAsyncImage :=
  (@updateAsyncImage Selection updateImageElement).
Abbreviation updateAsyncImage_method :=
  (@updateAsyncImage_method Selection html getData saveSelection
     updateImageElement).
Abbreviation manager_onChange :=
  (UndoManager.onChange (fun e : editor => getData (element e))
     (fun e : editor => saveSelection (element e)) ownOnChange).

Lemma with_undoManager_same (e : editor) :
  with_undoManager e (undoManager e) = e.
Proof. destruct e; reflexivity. Qed.

Lemma count_failed_app (a b : list call) :
  count_failed (a ++ b) = count_failed a + count_failed b.
Proof.
  unfold count_failed. rewrite List.filter_app, length_app. reflexivity.
Qed.

(** The change notification touches neither the document nor the media
    tracker, and it never reports a failed image. *)
Lemma onChange_frame (e : editor) (type : option string) :
  element (onChange e type) = element e
  /\ mediaTracker (onChange e type) = mediaTracker e
  /\ count_failed (calls (onChange e type)) = count_failed (calls e).
Proof.
  assert (Hown : element (ownOnChange e) = element e
                 /\ mediaTracker (ownOnChange e) = mediaTracker e
                 /\ count_failed (calls (ownOnChange e))
                    = count_failed (calls e)).
  { unfold RichTextEditor.ownOnChange.
    destruct (raw_changed html e); simpl; auto.
    rewrite count_failed_app. repeat split; try reflexivity.
    unfold count_failed. simpl. lia. }
  unfold RichTextEditor.onChange, UndoManager.onChange.
  destruct (UndoManager.isTorndown (undoManager e)); [exact Hown|].
  destruct (negb (UndoManager.isRestoring (undoManager e))); simpl.
  - destruct (UndoManager.is_updateAsyncImage type); simpl; auto.
    destruct (UndoManager.currState (undoManager e)); simpl; exact Hown.
  - exact Hown.
Qed.

(** Called with a source that is not a string and without a file,
    [insertAsyncImage] calls the host's [onAsyncImageFailed] exactly
    once and does nothing else: it returns (the function is total), the
    document and the media tracker are what they were, and no other call
    leaves the editor.  The same holds of the document, the tracker and
    the number of failure reports for the public method, which adds the
    change notification. *)
Theorem insertAsyncImage_neither_source_nor_file
    (e : editor) (source : Js.value) (insertNode : option path)
    (insertDirection : option Js.value) (skipSelectionUpdate : bool) :
  Js.is_string source = false ->
  let e1 := insertAsyncImage e source None insertNode insertDirection
              skipSelectionUpdate in
  let e2 := insertAsyncImage_method e source None insertNode
              insertDirection skipSelectionUpdate in
  calls e1 = calls e ++ [ConfigOnAsyncImageFailed]
  /\ element e1 = element e
  /\ mediaTracker e1 = mediaTracker e
  /\ undoManager e1 = undoManager e
  /\ count_failed (calls e1) = S (count_failed (calls e))
  /\ element e2 = element e
  /\ mediaTracker e2 = mediaTracker e
  /\ count_failed (calls e2) = S (count_failed (calls e)).
Proof.
  intros Hs e1 e2.
  assert (H1 : e1 = with_calls e [ConfigOnAsyncImageFailed]).
  { unfold e1, RichTextEditor.insertAsyncImage.
    destruct source; try discriminate;
      destruct (negb _); reflexivity. }
  assert (Hc : count_failed (calls e1) = S (count_failed (calls e))).
  { rewrite H1. simpl. rewrite count_failed_app.
    unfold count_failed. simpl. lia. }
  destruct (onChange_frame e1 None) as (He & Hm & Hf).
  unfold e2, RichTextEditor.insertAsyncImage_method. fold e1.
  rewrite He, Hm, Hf, Hc, H1. simpl. repeat split; reflexivity.
Qed.

(** A string is a source for the code, the empty string too: without a
    file the call goes on to insert the image. *)
Lemma insertAsyncImage_string_source
    (e : editor) (src : string) (insertNode : option path)
    (insertDirection : option Js.value) (skipSelectionUpdate : bool) :
  insertAsyncImage e (Js.Str src) None insertNode insertDirection
    skipSelectionUpdate
  = @addImageBySource Selection html getData saveSelection insertMedia
      imgKeyAttr e None insertNode insertDirection skipSelectionUpdate src.
Proof.
  unfold RichTextEditor.insertAsyncImage.
  destruct (negb (Js.truthy (Js.Str src))); reflexivity.
Qed.

(** C9 fails for the empty string.  The first test of
    [insertAsyncImage], [!source && file], takes the empty string for no
    source; without a file the second test, [typeof source ===
    'string'], takes it for one.  So [insertAsyncImage('', undefined)]
    reports no failure: it inserts a figure with an image whose [src] is
    empty, makes a tracker entry for it under a new key and asks for the
    attributes of the image. *)
Theorem insertAsyncImage_empty_source_is_inserted
    (e : editor) (insertNode : option path)
    (insertDirection : option Js.value) (skipSelectionUpdate : bool) :
  let e1 := insertAsyncImage e (Js.Str "") None insertNode insertDirection
              skipSelectionUpdate in
  let key := uniqueId (S (idCounter e)) in
  Js.truthy (Js.Str "") = false
  /\ count_failed (calls e1) = count_failed (calls e)
  /\ element e1
     = insertMedia (element e)
         (Elem "FIGURE" [] [Elem "IMG" [("src", ""); (imgKeyAttr, key)] []])
         insertNode insertDirection skipSelectionUpdate
  /\ mediaTracker e1
     = <[key := {| originalSource := ""; file := None;
                   updatedSource := Js.Undefined |}]> (mediaTracker e)
  /\ In (GetImageAttributes key "") (calls e1).
Proof.
  intros e1 key. split; [reflexivity|].
  unfold e1. rewrite insertAsyncImage_string_source.
  unfold addImageBySource. fold key.
  match goal with
  | |- context [RichTextEditor.onChange _ _ _ ?x None] => set (e0 := x)
  end.
  destruct (onChange_frame e0 None) as (He & Hm & Hf).
  rewrite He, Hm, Hf. unfold e0. cbn [element mediaTracker calls].
  rewrite count_failed_app. cbn [count_failed List.filter length].
  split; [lia|]. split; [reflexivity|]. split; [reflexivity|].
  assert (Hcalls : exists more,
            calls (onChange e0 None) = calls e0 ++ more).
  { unfold RichTextEditor.onChange, UndoManager.onChange.
    assert (Hown : exists more, calls (ownOnChange e0) = calls e0 ++ more).
    { unfold RichTextEditor.ownOnChange.
      destruct (raw_changed html e0); cbn [calls].
      - eexists. reflexivity.
      - exists []. rewrite app_nil_r. reflexivity. }
    destruct (UndoManager.isTorndown (undoManager e0)); [exact Hown|].
    destruct (negb (UndoManager.isRestoring (undoManager e0)));
      cbn [UndoManager.is_updateAsyncImage]; [|exact Hown].
    destruct (UndoManager.currState (undoManager e0)); exact Hown. }
  destruct Hcalls as (more & Hc). fold e0. rewrite Hc.
  unfold e0. cbn [calls]. apply in_or_app. left. apply in_or_app. right.
  left. reflexivity.
Qed.

(** C10, as the code has it.  While the manager is live (not torn
    down: the override is the editor's [onChange]) and not restoring,
    the notification [onChange('updateAsyncImage')] changes nothing at
    all: the manager (undo stack, redo stack, checkpoint, debounce
    timer) and the editor are what they were, [defaultOnChange] is not
    reached, so the host's [onChange] is not called; the public
    [updateAsyncImage] therefore does exactly what the inner function
    does (for a key of letters and digits that is no member of
    [Object.prototype], as the keys of [_.uniqueId()] are). *)
Theorem updateAsyncImage_notification_is_dropped
    (e : editor) (key : string) (source : Js.value)
    (attributes : list (string * string)) :
  UndoManager.isTorndown (undoManager e) = false ->
  UndoManager.isRestoring (undoManager e) = false ->
  manager_onChange (undoManager e) e (Some "updateAsyncImage")
    = (undoManager e, e, false)
  /\ onChange e (Some "updateAsyncImage") = e
  /\ count_config_onChange (calls (onChange e (Some "updateAsyncImage")))
     = count_config_onChange (calls e)
  /\ (plain_key key = true ->
      forall e1, updateAsyncImage e key source attributes = Some e1 ->
        updateAsyncImage_method e key source attributes = Some e1).
Proof.
  intros Ht Hr.
  assert (H1 : manager_onChange (undoManager e) e (Some "updateAsyncImage")
               = (undoManager e, e, false)).
  { unfold UndoManager.onChange. rewrite Hr. reflexivity. }
  assert (H2 : onChange e (Some "updateAsyncImage") = e).
  { unfold RichTextEditor.onChange. rewrite Ht, H1.
    apply with_undoManager_same. }
  split; [exact H1|]. split; [exact H2|]. split; [rewrite H2; reflexivity|].
  intros _ e1 He1. unfold RichTextEditor.updateAsyncImage_method.
  rewrite He1. f_equal.
  assert (Hm1 : undoManager e1 = undoManager e).
  { unfold RichTextEditor.updateAsyncImage in He1.
    destruct (Js.truthy source).
    - destruct (mediaTracker _ !! key); [|discriminate].
      injection He1 as <-. reflexivity.
    - injection He1 as <-. reflexivity. }
  unfold RichTextEditor.onChange, UndoManager.onChange.
  rewrite Hm1, Ht, Hr. simpl. rewrite <- Hm1.
  apply with_undoManager_same.
Qed.

End Editor.


(** ** The [blockquote] case of [doBlock] *)

(** The indices of the children that are still the original ones. *)
Definition ids (l : list child) : list nat := omap fst l.

Definition original (c : child) : Prop := exists i, fst c = Some i.

Definition tag_from (k : nat) (l : list node) : list child :=
combine (map Some (seq k (length l))) l.

(** All the stacks the loop leaves behind, the last one included, when it
    starts with [currStack]. *)
Fixpoint stacks_of (currStack : list child) (rootNodes : list child)
  : list (list child) :=
match rootNodes with
| [] => match currStack with [] => [] | _ => [currStack] end
| node :: rest =>
    if is_text_block (snd node) then stacks_of (currStack ++ [node]) rest
    else currStack :: stacks_of [] rest
end.

Definition render_child (type : string) (s : segment child) : child :=
match s with
| Media c => c
| Run blocks => (None, Elem (Js.toUpperCase type) [] (map snd blocks))
end.

Lemma collect_stacks_app (l : list child) (stacks : list (list child))
    (cur : list child) :
  collect_stacks l stacks cur
  = (stacks ++ fst (collect_stacks l [] cur), snd (collect_stacks l [] cur)).
Proof.
  revert stacks cur. induction l as [|n l IH]; intros stacks cur; simpl.
  - rewrite app_nil_r. reflexivity.
  - destruct (is_text_block (snd n)).
    + apply IH.
    + rewrite IH. rewrite (IH [cur] []). simpl.
      rewrite <- app_assoc. reflexivity.
Qed.

Lemma textBlockStacks_stacks_of (l : list child) (cur : list child) :
  (let '(stacks, currStack) := collect_stacks l [] cur in
   match currStack with [] => stacks | _ => stacks ++ [currStack] end)
  = stacks_of cur l.
Proof.
  revert cur. induction l as [|n l IH]; intros cur; simpl.
  - destruct cur; reflexivity.
  - destruct (is_text_block (snd n)).
    + apply IH.
    + rewrite collect_stacks_app. simpl.
      specialize (IH []).
      destruct (collect_stacks l [] []) as [st c]. simpl.
      rewrite <- IH. destruct c; reflexivity.
Qed.

Lemma ids_app (a b : list child) : ids (a ++ b) = ids a ++ ids b.
Proof. unfold ids. apply omap_app. Qed.

Lemma member_false (t : option nat) (stack : list child) :
  (forall i, t = Some i -> ~ In i (ids stack)) -> member t stack = false.
Proof.
  intros H. unfold member. apply not_true_is_false. intros Hex.
  apply existsb_exists in Hex. destruct Hex as [c [Hin Hs]].
  destruct t as [i|]; [|discriminate]. destruct c as [[j|] n]; simpl in Hs;
    [|discriminate].
  apply Nat.eqb_eq in Hs. subst j. apply (H i eq_refl).
  unfold ids. apply list_elem_of_In. apply list_elem_of_omap.
  exists (Some i, n). split; [apply list_elem_of_In; exact Hin|reflexivity].
Qed.

Lemma member_true (c : child) (stack : list child) :
  original c -> In c stack -> member (fst c) stack = true.
Proof.
  intros [i Hi] Hin. unfold member. apply existsb_exists.
  exists c. split; [exact Hin|]. rewrite Hi. simpl. apply Nat.eqb_refl.
Qed.

Lemma In_ids (c : child) (i : nat) (l : list child) :
  In c l -> fst c = Some i -> In i (ids l).
Proof.
  intros Hin Hi. unfold ids. apply list_elem_of_In. apply list_elem_of_omap.
  exists c. split; [apply list_elem_of_In; exact Hin|exact Hi].
Qed.

(** Outside the stack nothing moves. *)
Lemma wrapAll_place_outside (first : option nat) (stack : list child)
    (wrapper : child) (l : list child) :
  (forall c i, In c l -> fst c = Some i -> ~ In i (ids stack)) ->
  (forall i, first = Some i -> In i (ids stack)) ->
  wrapAll_place first stack wrapper l = l.
Proof.
  intros Hout Hfirst. induction l as [|c l IH]; simpl; [reflexivity|].
  assert (Hc : forall i, fst c = Some i -> ~ In i (ids stack)).
  { intros i Hi. apply (Hout c i); [left; reflexivity|exact Hi]. }
  assert (Hs : same_child (fst c) first = false).
  { destruct (fst c) as [i|] eqn:Hi; [|reflexivity].
    destruct first as [j|]; [|reflexivity]. simpl.
    apply Nat.eqb_neq. intros ->. apply (Hc j eq_refl). apply Hfirst.
    reflexivity. }
  rewrite Hs, (member_false _ _ Hc). f_equal. apply IH.
  intros c' i Hin. apply Hout. right. exact Hin.
Qed.

(** The members of the stack other than the first one disappear. *)
Lemma wrapAll_place_members (first : nat) (stack : list child)
    (wrapper : child) (l : list child) :
  Forall original l -> incl l stack -> ~ In first (ids l) ->
  wrapAll_place (Some first) stack wrapper l = [].
Proof.
  intros Ho Hincl Hnf. induction l as [|c l IH]; simpl; [reflexivity|].
  inversion Ho as [|? ? Hc Ho']; subst.
  destruct Hc as [i Hi].
  assert (Hs : same_child (fst c) (Some first) = false).
  { rewrite Hi. simpl. apply Nat.eqb_neq. intros ->. apply Hnf.
    apply (In_ids c first); [left; reflexivity|exact Hi]. }
  rewrite Hs. rewrite member_true.
  - apply IH; [exact Ho'| |].
    + intros x Hx. apply Hincl. right. exact Hx.
    + intros Hin. apply Hnf. simpl. unfold ids in *. simpl. rewrite Hi.
      simpl. right. exact Hin.
  - exists i. exact Hi.
  - apply Hincl. left. reflexivity.
Qed.

Lemma NoDup_app_l {A : Type} (a b : list A) : List.NoDup (a ++ b) -> List.NoDup a.
Proof.
  induction a as [|x a IH]; simpl; intros H; [constructor|].
  inversion H as [|? ? Hx Hn]; subst. constructor.
  - intros Hin. apply Hx. apply in_or_app. left. exact Hin.
  - apply IH. exact Hn.
Qed.

Lemma NoDup_app_r {A : Type} (a b : list A) : List.NoDup (a ++ b) -> List.NoDup b.
Proof.
  induction a as [|x a IH]; simpl; intros H; [exact H|].
  inversion H; subst. apply IH. assumption.
Qed.

Lemma NoDup_app_disjoint {A : Type} (a b : list A) (x : A) :
  List.NoDup (a ++ b) -> In x a -> ~ In x b.
Proof.
  induction a as [|y a IH]; simpl; intros H Hin Hb; [contradiction|].
  inversion H as [|? ? Hy Hn]; subst. destruct Hin as [->|Hin].
  - apply Hy. apply in_or_app. right. exact Hb.
  - apply (IH Hn Hin Hb).
Qed.

Lemma wrapAll_place_app (first : option nat) (stack : list child)
    (wrapper : child) (l1 l2 : list child) :
  wrapAll_place first stack wrapper (l1 ++ l2)
  = wrapAll_place first stack wrapper l1
    ++ wrapAll_place first stack wrapper l2.
Proof.
  induction l1 as [|c l1 IH]; simpl; [reflexivity|].
  destruct (same_child (fst c) first); simpl; [rewrite IH; reflexivity|].
  destruct (member (fst c) stack); simpl; rewrite IH; reflexivity.
Qed.

Lemma NoDup_drop_middle {A : Type} (a c d : list A) :
  List.NoDup (a ++ c ++ d) -> List.NoDup (a ++ d).
Proof.
  induction a as [|x a IH]; simpl; intros H.
  - apply (NoDup_app_r c). exact H.
  - inversion H as [|? ? Hx Hn]; subst. constructor.
    + intros Hin. apply Hx. apply in_app_or in Hin.
      apply in_or_app. destruct Hin as [Hin|Hin]; [left; exact Hin|].
      right. apply in_or_app. right. exact Hin.
    + apply IH. exact Hn.
Qed.

(** Wrapping a stack whose members stand next to each other. *)
Lemma wrapAll_contiguous (type : string) (A S B : list child) :
  S <> [] -> Forall original S -> List.NoDup (ids (A ++ S ++ B)) ->
  wrapAll type (A ++ S ++ B) S
  = A ++ render_child type (Run S) :: B.
Proof.
  intros Hne Ho Hnd. destruct S as [|[t n] S]; [congruence|].
  inversion Ho as [|? ? [i Hi] Ho']; subst. simpl in Hi. subst t.
  unfold wrapAll. simpl fst.
  set (stack := (Some i, n) :: S).
  set (wrapper := ((None, Elem (Js.toUpperCase type) [] (map snd stack)) : child)).
  rewrite !ids_app in Hnd.
  assert (HndSB : List.NoDup (ids stack ++ ids B))
    by (apply (NoDup_app_r (ids A)); exact Hnd).
  assert (HndS : List.NoDup (ids stack)) by (apply (NoDup_app_l _ (ids B)); exact HndSB).
  assert (Hfirst : forall j, Some i = Some j -> In j (ids stack)).
  { intros j [= <-]. left. reflexivity. }
  assert (HA : wrapAll_place (Some i) stack wrapper A = A).
  { apply wrapAll_place_outside; [|exact Hfirst].
    intros c j Hin Hj Hs.
    apply (NoDup_app_disjoint (ids A) (ids stack ++ ids B) j Hnd).
    - apply (In_ids c); assumption.
    - apply in_or_app. left. exact Hs. }
  assert (HB : wrapAll_place (Some i) stack wrapper B = B).
  { apply wrapAll_place_outside; [|exact Hfirst].
    intros c j Hin Hj Hs.
    apply (NoDup_app_disjoint (ids stack) (ids B) j HndSB Hs).
    apply (In_ids c); assumption. }
  assert (HS : wrapAll_place (Some i) stack wrapper S = []).
  { apply wrapAll_place_members.
    - exact Ho'.
    - intros x Hx. right. exact Hx.
    - inversion HndS; assumption. }
  change (wrapAll_place (Some i) stack wrapper
            (A ++ [(Some i, n)] ++ S ++ B) = A ++ wrapper :: B).
  rewrite !wrapAll_place_app, HA, HS, HB. simpl. rewrite Nat.eqb_refl.
  reflexivity.
Qed.

Lemma close_run_render (type : string) (A cur B : list child) :
  Forall original cur -> List.NoDup (ids (A ++ cur ++ B)) ->
  wrapAll type (A ++ cur ++ B) cur
  = A ++ map (render_child type) (close_run cur) ++ B.
Proof.
  intros Ho Hnd. destruct cur as [|c cur]; [reflexivity|].
  rewrite wrapAll_contiguous; [reflexivity|discriminate|exact Ho|exact Hnd].
Qed.

Lemma ids_close_run (type : string) (cur : list child) :
  ids (map (render_child type) (close_run cur)) = [].
Proof. destruct cur; reflexivity. Qed.

(** The loop, with everything before the current stack already in place. *)
Lemma wrap_stacks (type : string) (l : list child) :
  forall A cur B,
    Forall original cur -> Forall original l ->
    List.NoDup (ids (A ++ cur ++ l ++ B)) ->
    fold_left (wrapAll type) (stacks_of cur l) (A ++ cur ++ l ++ B)
    = A ++ map (render_child type)
             (segments_from (fun c => is_text_block (snd c)) cur l) ++ B.
Proof.
  induction l as [|n l IH]; intros A cur B Hcur Hl Hnd.
  - destruct cur as [|c cur]; [reflexivity|].
    simpl. apply (wrapAll_contiguous type A (c :: cur) B);
      [discriminate|exact Hcur|exact Hnd].
  - inversion Hl as [|? ? Hn Hl']; subst.
    cbn [stacks_of segments_from].
    destruct (is_text_block (snd n)) eqn:Ht.
    + specialize (IH A (cur ++ [n]) B).
      rewrite <- (app_assoc cur [n]) in IH. apply IH.
      * apply Forall_app. split; [exact Hcur|].
        constructor; [exact Hn|constructor].
      * exact Hl'.
      * exact Hnd.
    + cbn [fold_left].
      change ((n :: l) ++ B) with (n :: l ++ B).
      rewrite close_run_render; [|exact Hcur|exact Hnd].
      replace (A ++ map (render_child type) (close_run cur) ++ n :: l ++ B)
        with ((A ++ map (render_child type) (close_run cur) ++ [n])
              ++ [] ++ l ++ B)
        by (rewrite <- !app_assoc; reflexivity).
      rewrite IH.
      * rewrite map_app. simpl. rewrite <- !app_assoc. reflexivity.
      * constructor.
      * exact Hl'.
      * rewrite <- !app_assoc. rewrite !ids_app, ids_close_run in *.
        change (n :: l) with ([n] ++ l) in Hnd.
        rewrite ids_app, <- app_assoc in Hnd.
        apply NoDup_drop_middle in Hnd. exact Hnd.
Qed.


Lemma tag_from_cons (k : nat) (x : node) (l : list node) :
  tag_from k (x :: l) = (Some k, x) :: tag_from (S k) l.
Proof. reflexivity. Qed.

Lemma tag_from_app (l1 l2 : list node) (k : nat) :
  tag_from k (l1 ++ l2) = tag_from k l1 ++ tag_from (k + length l1) l2.
Proof.
  revert k. induction l1 as [|x l1 IH]; intros k.
  - simpl. rewrite Nat.add_0_r. reflexivity.
  - change ((x :: l1) ++ l2) with (x :: (l1 ++ l2)).
    rewrite !tag_from_cons, IH. simpl. rewrite Nat.add_succ_r. reflexivity.
Qed.

Lemma tag_from_snd (l : list node) (k : nat) : map snd (tag_from k l) = l.
Proof.
  revert k. induction l as [|x l IH]; intros k; [reflexivity|].
  rewrite tag_from_cons. simpl. rewrite IH. reflexivity.
Qed.

Lemma tag_from_ids (l : list node) (k : nat) :
  ids (tag_from k l) = seq k (length l).
Proof.
  revert k. induction l as [|x l IH]; intros k; [reflexivity|].
  rewrite tag_from_cons. unfold ids in *. simpl. rewrite IH. reflexivity.
Qed.

Lemma tag_from_original (l : list node) (k : nat) :
  Forall original (tag_from k l).
Proof.
  revert k. induction l as [|x l IH]; intros k; [constructor|].
  rewrite tag_from_cons. constructor; [exists k; reflexivity|apply IH].
Qed.

Lemma filter_tag_from_out (l : list node) (k s e : nat) :
  k + length l <= s \/ e < k ->
  List.filter (fun c => in_range s e c && is_element (snd c)) (tag_from k l)
  = [].
Proof.
  revert k. induction l as [|x l IH]; intros k H; [reflexivity|].
  rewrite tag_from_cons. simpl in H.
  assert (Hr : in_range s e (Some k, x) = false).
  { unfold in_range. simpl. apply andb_false_iff.
    destruct H as [H|H];
      [left; apply Nat.leb_gt; lia|right; apply Nat.leb_gt; lia]. }
  cbn [List.filter]. rewrite Hr. simpl. apply IH. lia.
Qed.

Lemma filter_tag_from_in (l : list node) (k s e : nat) :
  s <= k -> k + length l <= S e ->
  Forall (fun n => is_element n = true) l ->
  List.filter (fun c => in_range s e c && is_element (snd c)) (tag_from k l)
  = tag_from k l.
Proof.
  revert k. induction l as [|x l IH]; intros k Hs He Hel; [reflexivity|].
  inversion Hel as [|? ? Hx Hel']; subst.
  rewrite tag_from_cons. simpl in He.
  assert (Hr : in_range s e (Some k, x) = true).
  { unfold in_range. simpl. apply andb_true_iff.
    split; apply Nat.leb_le; lia. }
  cbn [List.filter]. rewrite Hr. simpl. rewrite Hx. f_equal.
  apply IH; [lia|lia|exact Hel'].
Qed.

Lemma render_child_snd (type : string) (l cur : list child) :
  map snd (map (render_child type)
             (segments_from (fun c => is_text_block (snd c)) cur l))
  = map (render type)
      (segments_from is_text_block (map snd cur) (map snd l)).
Proof.
  revert cur. induction l as [|n l IH]; intros cur; simpl.
  - destruct cur; reflexivity.
  - destruct (is_text_block (snd n)).
    + rewrite IH, map_app. reflexivity.
    + rewrite !map_app, !map_cons. f_equal.
      * destruct cur; reflexivity.
      * f_equal. apply (IH []).
Qed.

(** ** What the segments of a selection are *)

Lemma segments_members {A : Type} (p : A -> bool) (l run : list A) :
  concat (map members (segments_from p run l)) = run ++ l.
Proof.
  revert run. induction l as [|n l IH]; intros run; simpl.
  - destruct run; simpl; rewrite ?app_nil_r; reflexivity.
  - destruct (p n).
    + rewrite IH, <- app_assoc. reflexivity.
    + rewrite map_app, concat_app. simpl. rewrite (IH []). simpl.
      destruct run; simpl; rewrite ?app_nil_r; reflexivity.
Qed.

Lemma segments_runs {A : Type} (p : A -> bool) (l run blocks : list A) :
  Forall (fun n => p n = true) run ->
  In (Run blocks) (segments_from p run l) ->
  blocks <> [] /\ Forall (fun n => p n = true) blocks.
Proof.
  revert run. induction l as [|n l IH]; intros run Hrun Hin; simpl in Hin.
  - destruct run as [|x run]; simpl in Hin; [contradiction|].
    destruct Hin as [[= <-]|[]]. split; [discriminate|exact Hrun].
  - destruct (p n) eqn:Hp.
    + apply (IH (run ++ [n])); [|exact Hin].
      apply Forall_app. split; [exact Hrun|]. constructor; [exact Hp|constructor].
    + apply in_app_or in Hin. destruct Hin as [Hin|[Hin|Hin]].
      * destruct run as [|x run]; simpl in Hin; [contradiction|].
        destruct Hin as [[= <-]|[]]. split; [discriminate|exact Hrun].
      * discriminate.
      * apply (IH []); [constructor|exact Hin].
Qed.

Lemma segments_media {A : Type} (p : A -> bool) (l run : list A) (n : A) :
  In (Media n) (segments_from p run l) -> p n = false /\ In n l.
Proof.
  revert run. induction l as [|x l IH]; intros run Hin; simpl in Hin.
  - destruct run; simpl in Hin; [contradiction|].
    destruct Hin as [Hin|[]]. discriminate.
  - destruct (p x) eqn:Hp.
    + destruct (IH _ Hin) as [H1 H2]. split; [exact H1|right; exact H2].
    + apply in_app_or in Hin. destruct Hin as [Hin|[Hin|Hin]].
      * destruct run; simpl in Hin; [contradiction|].
        destruct Hin as [Hin|[]]. discriminate.
      * injection Hin as <-. split; [exact Hp|left; reflexivity].
      * destruct (IH _ Hin) as [H1 H2]. split; [exact H1|right; exact H2].
Qed.

Lemma segments_no_adjacent_runs {A : Type} (p : A -> bool) (l run : list A) :
  no_adjacent_runs (segments_from p run l).
Proof.
  revert run. induction l as [|n l IH]; intros run; simpl.
  - destruct run; simpl; exact I.
  - destruct (p n); [apply IH|].
    assert (H : no_adjacent_runs (Media n :: segments_from p [] l)).
    { specialize (IH []). simpl.
      destruct (segments_from p [] l); [exact I|].
      split; [discriminate|exact IH]. }
    destruct run; simpl; [exact H|].
    split; [reflexivity|exact H].
Qed.

(** C7, as the code has it.  The [blockquote] case of the block-format
    command, over a selection whose root blocks [sel] stand between the
    children [pre] and [post] of the editor: the children become [pre],
    the segments of [sel] and [post], where the segments are the root
    blocks of [sel] that are not text-type (the media blocks), untouched
    and still children of the editor, and the maximal runs of
    consecutive text-type blocks, each inside a wrapper of its own.
    Nothing is lost or reordered, the children of a wrapper are the
    text-type blocks of its run as they were (no media root block ends
    up inside one; what a text-type block holds goes with it), and two
    wrappers never stand next to each other: every media root block
    splits the runs. *)
Theorem blockquote_wraps_runs_between_media
    (type : string) (pre sel post : list node) :
  sel <> [] -> Forall (fun n => is_element n = true) sel ->
  let result :=
    doBlock_blockquote type (pre ++ sel ++ post)
      (length pre) (length pre + length sel - 1) in
  let segs := maximal_runs sel in
  result = pre ++ map (render type) segs ++ post
  /\ concat (map members segs) = sel
  /\ (forall blocks, In (Run blocks) segs ->
        blocks <> [] /\ Forall (fun n => is_text_block n = true) blocks)
  /\ (forall n, In (Media n) segs ->
        is_text_block n = false /\ In n sel /\ In n result)
  /\ no_adjacent_runs segs.
Proof.
  intros Hne Hel result segs.
  assert (Hres : result = pre ++ map (render type) segs ++ post).
  { unfold result, doBlock_blockquote, textBlockStacks.
    change (tag_children (pre ++ sel ++ post))
      with (tag_from 0 (pre ++ sel ++ post)).
    rewrite !tag_from_app. simpl Nat.add.
    set (a := length pre). set (b := a + length sel).
    assert (Hlen : 0 < length sel) by (destruct sel; [congruence|simpl; lia]).
    assert (Hroot : getRootElements
                      (tag_from 0 pre ++ tag_from a sel ++ tag_from b post)
                      a (b - 1) = tag_from a sel).
    { unfold getRootElements.
      replace (b - 1 <? a) with false
        by (symmetry; apply Nat.ltb_ge; unfold b; lia).
      rewrite !List.filter_app.
      rewrite (filter_tag_from_out pre 0) by (left; unfold a; lia).
      rewrite (filter_tag_from_out post b) by (right; unfold b; lia).
      rewrite (filter_tag_from_in sel a); [|lia|unfold b; lia|exact Hel].
      rewrite app_nil_r. reflexivity. }
    rewrite Hroot, textBlockStacks_stacks_of.
    change (tag_from 0 pre ++ tag_from a sel ++ tag_from b post)
      with (tag_from 0 pre ++ [] ++ tag_from a sel ++ tag_from b post).
    rewrite wrap_stacks.
    - rewrite !map_app, render_child_snd, !tag_from_snd. reflexivity.
    - constructor.
    - apply tag_from_original.
    - simpl. rewrite !ids_app, !tag_from_ids.
      unfold b, a. rewrite <- !seq_app. apply seq_NoDup. }
  split; [exact Hres|]. split.
  { apply (segments_members is_text_block sel []). }
  split.
  { intros blocks Hin.
    apply (segments_runs is_text_block sel [] blocks); [constructor|exact Hin]. }
  split.
  { intros n Hin.
    destruct (segments_media is_text_block sel [] n Hin) as [H1 H2].
    split; [exact H1|]. split; [exact H2|].
    rewrite Hres. apply in_or_app. right. apply in_or_app. left.
    apply (in_map (render type) _ (Media n)). exact Hin. }
  apply segments_no_adjacent_runs.
Qed.

(** Two paragraphs, a media holder, a paragraph: two wrappers. *)
Lemma blockquote_wraps_runs_between_media_witness :
  let p1 := Elem "P" [] [Text "one"] in
  let p2 := Elem "P" [] [Text "two"] in
  let media := Elem "DIV" [("contenteditable", "false")]
                 [Elem "FIGURE" [] [Elem "IMG" [("src", "a.png")] []]] in
  let p3 := Elem "P" [] [Text "three"] in
  doBlock_blockquote "blockquote" [p1; p2; media; p3] 0 3
  = [Elem "BLOCKQUOTE" [] [p1; p2]; media; Elem "BLOCKQUOTE" [] [p3]].
Proof.
  intros p1 p2 media p3.
  assert (Hne : [p1; p2; media; p3] <> []) by discriminate.
  assert (Hel : Forall (fun n => is_element n = true) [p1; p2; media; p3])
    by (repeat constructor).
  destruct (blockquote_wraps_runs_between_media "blockquote" []
              [p1; p2; media; p3] [] Hne Hel) as [H _].
  exact H.
Defined.

(** C7 as stated fails.  The command looks at the root blocks only: a
    paragraph is a text-type block whatever it holds, so an image inside
    a selected paragraph goes into the wrapper with the paragraph, and a
    media node is a descendant of a blockquote. *)
Lemma media_inside_text_block_is_quoted :
  let img := Elem "IMG" [("src", "a.png")] [] in
  let p := Elem "P" [] [Text "see "; img] in
  is_text_block p = true
  /\ Js.contains MEDIA_ELEMENTS (name_of img) = true
  /\ doBlock_blockquote "blockquote" [p] 0 0 = [Elem "BLOCKQUOTE" [] [p]]
  /\ In img (descendants (Elem "BLOCKQUOTE" [] [p])).
Proof.
  repeat split; try (vm_compute; reflexivity).
  cbn. right. left. reflexivity.
Qed.


(** An empty editor, as the constructor leaves it, in a browser without
    [createObjectURL]. *)
Definition blank : @editor unit :=
{| element := Elem "DIV" [("contenteditable", "true")]
                [Elem "P" [] [Elem "BR" [] []]];
   previousRawData := None;
   mediaTracker := ∅;
   undoManager := UndoManager.new;
   idCounter := 0;
   calls := [] |}.

Lemma insertAsyncImage_neither_source_nor_file_witness :
  calls (insertAsyncImage textContent textContent (fun _ => None)
           (fun el _ _ _ _ => el) None "data-img-key"
           blank Js.Undefined None None None false)
  = [ConfigOnAsyncImageFailed].
Proof.
  destruct (insertAsyncImage_neither_source_nor_file textContent textContent
              (fun _ => None) (fun el _ _ _ _ => el) None "data-img-key"
              blank Js.Undefined None None false eq_refl) as [H _].
  exact H.
Defined.

Lemma updateAsyncImage_notification_is_dropped_witness :
  onChange textContent textContent (fun _ => @None unit) blank
    (Some "updateAsyncImage") = blank.
Proof.
  destruct (updateAsyncImage_notification_is_dropped textContent textContent
              (fun _ => None) (fun el _ _ _ => el) blank "1"
              (Js.Str "https://cdn.example/a.png") [] eq_refl eq_refl)
    as (_ & H & _).
  exact H.
Defined.

(** After [teardown] the editor's [onChange] is its own function again,
    which knows nothing of the notification's type: a torn-down editor
    that is not restoring tells the host of [updateAsyncImage]. *)
Lemma torn_down_editor_reports_updateAsyncImage :
  let e := teardown blank in
  UndoManager.isRestoring (undoManager e) = false
  /\ calls e = []
  /\ calls (onChange textContent textContent (fun _ => @None unit) e
              (Some "updateAsyncImage"))
     = [RunPlaceholder; ConfigOnChange]
  /\ option_map calls
       (updateAsyncImage_method textContent textContent (fun _ => @None unit)
          (fun el _ _ _ => el) e "1" Js.Undefined [])
     = Some [RunPlaceholder; ConfigOnChange].
Proof. repeat split. Qed.

End RichTextEditorFacts.

(* ===================================================================== *)
(** * Facts: undo and redo                                                *)
(* ===================================================================== *)

Module UndoRedoFacts.
Import UndoManager UndoRedo.

Section Facts.

Context {Editor Selection : Type}.
Variable getData : Editor -> string.
Variable saveSelection : Editor -> option Selection.
Variable defaultOnChange : Editor -> Editor.
Variable setData : Editor -> string -> Editor.
Variable restoreSelection : Editor -> option Selection -> Editor.
Variable afterRestore : Editor -> Editor.

Abbreviation State := (State Selection).
Abbreviation manager := (manager Selection).
Abbreviation createState := (createState getData saveSelection).
Abbreviation saveState := (saveState getData saveSelection).
Abbreviation saverFires := (saverFires getData saveSelection).
Abbreviation run := (run getData saveSelection defaultOnChange).
Abbreviation step := (step getData saveSelection defaultOnChange).
Abbreviation editor_onChange :=
  (editor_onChange getData saveSelection defaultOnChange).
Abbreviation restoreState :=
  (restoreState getData saveSelection defaultOnChange setData
     restoreSelection afterRestore).
Abbreviation undo :=
  (undo getData saveSelection defaultOnChange setData restoreSelection
     afterRestore).
Abbreviation redo :=
  (redo getData saveSelection defaultOnChange setData restoreSelection
     afterRestore).
Abbreviation exec :=
  (exec getData saveSelection defaultOnChange setData restoreSelection
     afterRestore).
Abbreviation session :=
  (session getData saveSelection defaultOnChange setData restoreSelection
     afterRestore).

(** The editor as [restoreState] leaves it. *)
Definition put_back (e : Editor) (state : State) : Editor :=
afterRestore
  (restoreSelection (defaultOnChange (setData e (data state)))
     (selection state)).

Lemma pop_snoc {A : Type} (l : list A) (x : A) : pop (l ++ [x]) = Some (l, x).
Proof. unfold pop. rewrite rev_unit, rev_involutive. reflexivity. Qed.

Lemma pop_nil {A : Type} (l : list A) : pop l = None -> l = [].
Proof.
  unfold pop. destruct (rev l) eqn:E; [|discriminate]. intros _.
  rewrite <- (rev_involutive l), E. reflexivity.
Qed.

Lemma pop_some {A : Type} (l rest : list A) (x : A) :
  pop l = Some (rest, x) -> l = rest ++ [x].
Proof.
  unfold pop. destruct (rev l) as [|y r] eqn:E; [discriminate|].
  intros [= <- <-]. rewrite <- (rev_involutive l), E. reflexivity.
Qed.

(** [saveState] leaves a checkpoint, and its content is the content of
    the editor. *)
Lemma saveState_current (m : manager) (e : Editor) :
  exists c, currState (saveState m e) = Some c /\ data c = getData e.
Proof.
  unfold UndoManager.saveState. destruct (currState m) as [c|] eqn:Hc.
  - cbn [data UndoManager.createState].
    destruct (String.eqb_spec (getData e) (data c)) as [Heq|Hne].
    + exists c. split; [exact Hc|]. symmetry. exact Heq.
    + eexists. split; reflexivity.
  - eexists. split; reflexivity.
Qed.

(** While the manager is live, restoring a state leaves the manager as
    it was, with the guard down again. *)
Lemma restoreState_live (m : manager) (e : Editor) (state : State) :
  isTorndown m = false ->
  restoreState m e state
  = ({| currState := currState m; undoStates := undoStates m;
        redoStates := redoStates m; isRestoring := false;
        isTorndown := false; saverPending := saverPending m |},
     put_back e state).
Proof.
  intros Ht. unfold UndoRedo.restoreState, UndoRedo.editor_onChange.
  cbn [restoreState_guard isTorndown]. rewrite Ht.
  unfold UndoManager.onChange. cbn. rewrite Ht. reflexivity.
Qed.


(** Undo right after an edit the manager has not captured yet: the edit
    is what is taken back.  The editor gets the content of the
    checkpoint, the edit goes on top of the redo stack, the undo stack is
    what it was, and the notification that [setData] raises is not
    recorded: the guard is down again and no timer is armed. *)
Theorem undo_takes_back_the_last_edit
    (m : manager) (e : Editor) (c : State) :
  isTorndown m = false -> currState m = Some c -> getData e <> data c ->
  let m' := fst (undo m e) in
  snd (undo m e) = put_back e c
  /\ undoStates m' = undoStates m
  /\ redoStates m' = redoStates m ++ [createState e]
  /\ currState m' = Some (createState (put_back e c))
  /\ isRestoring m' = false
  /\ saverPending m' = saverPending m.
Proof.
  intros Ht Hc Hne. unfold UndoRedo.undo, UndoManager.saveState.
  rewrite Hc. cbn [data UndoManager.createState].
  destruct (String.eqb_spec (getData e) (data c)) as [Heq|_];
    [contradiction|].
  cbn [undoStates]. rewrite pop_snoc.
  rewrite restoreState_live by exact Ht.
  cbn. repeat split.
Qed.

(** Undo and then redo, with an editor that gives back the content it
    was set to: the editor shows what it showed, the redo stack is what
    it was, the undo stack holds the same contents as after the capture
    that [undo] begins with, and the checkpoint has the content of the
    editor. *)
Theorem undo_then_redo (m : manager) (e : Editor) :
  (forall e0 state, getData (put_back e0 state) = data state) ->
  isTorndown m = false -> undoStates (saveState m e) <> [] ->
  let m1 := fst (undo m e) in
  let e1 := snd (undo m e) in
  let m2 := fst (redo m1 e1) in
  let e2 := snd (redo m1 e1) in
  getData e2 = getData e
  /\ map data (undoStates m2) = map data (undoStates (saveState m e))
  /\ redoStates m2 = redoStates m
  /\ (exists c, currState m2 = Some c /\ data c = getData e)
  /\ (exists prev, pop (undoStates (saveState m e))
                   = Some (undoStates m1, prev)
                   /\ getData e1 = data prev).
Proof.
  intros Hfaithful Ht Hne.
  destruct (saveState_current m e) as (c & Hc & Hdata).
  assert (Ht0 : isTorndown (saveState m e) = false).
  { unfold UndoManager.saveState. destruct (currState m); [|exact Ht].
    destruct (String.eqb _ _); exact Ht. }
  assert (Hr0 : redoStates (saveState m e) = redoStates m).
  { unfold UndoManager.saveState. destruct (currState m); [|reflexivity].
    destruct (String.eqb _ _); reflexivity. }
  destruct (pop (undoStates (saveState m e))) as [[u prev]|] eqn:Hpop;
    [|apply pop_nil in Hpop; contradiction].
  pose proof (pop_some _ _ _ Hpop) as Hu.
  cbv zeta. unfold UndoRedo.undo. rewrite Hpop.
  rewrite restoreState_live by exact Ht0.
  unfold UndoRedo.push_current. cbn -[pop UndoRedo.restoreState].
  rewrite Hc, Hr0. unfold UndoRedo.redo. cbn -[pop UndoRedo.restoreState]. rewrite pop_snoc.
  rewrite restoreState_live by reflexivity.
  unfold UndoRedo.push_current. cbn -[pop UndoRedo.restoreState].
  repeat split.
  - rewrite Hfaithful. exact Hdata.
  - rewrite Hu, !map_app. cbn [map data UndoManager.createState].
    rewrite Hfaithful. reflexivity.
  - eexists. split; [reflexivity|]. cbn [data UndoManager.createState].
    rewrite Hfaithful. exact Hdata.
  - exists prev. split; [reflexivity|]. apply Hfaithful.
Qed.

(** Change notifications and timer expirations never touch the redo
    stack: what was undone can still be redone after further edits. *)
Theorem edits_keep_the_redo_stack
    (m : manager) (evs : list (event Editor)) :
  redoStates (run m evs) = redoStates m.
Proof.
  revert m. induction evs as [|ev evs IH]; intros m; [reflexivity|].
  cbn [UndoManager.run fold_left].
  change (fold_left step evs (step m ev)) with (run (step m ev) evs).
  rewrite IH. destruct ev as [type e|e]; cbn [UndoManager.step].
  - unfold UndoManager.onChange, UndoManager.saveState.
    destruct (negb (isRestoring m)); [|reflexivity].
    destruct (is_updateAsyncImage type); [reflexivity|].
    destruct (currState m); reflexivity.
  - unfold UndoManager.saverFires, UndoManager.saveState.
    destruct (saverPending m); [|reflexivity]. cbn.
    destruct (isTorndown m); [reflexivity|]. cbn.
    destruct (currState m); [|reflexivity].
    destruct (String.eqb _ _); reflexivity.
Qed.

(** What holds after every session of a manager that started out new. *)
Record steady (m : manager) : Prop := {
  s_restoring : isRestoring m = false;
  s_torndown : isTorndown m = false;
  s_checkpoint :
    currState m = None -> undoStates m = [] /\ redoStates m = []
}.

Lemma saveState_steady (m : manager) (e : Editor) :
  steady m -> steady (saveState m e).
Proof.
  intros [Hr Ht Hc]. unfold UndoManager.saveState.
  destruct (currState m) as [c|] eqn:E.
  - destruct (String.eqb _ _).
    + constructor; auto. rewrite E. exact Hc.
    + constructor; cbn; auto; intros; discriminate.
  - constructor; cbn; auto; intros; discriminate.
Qed.

Lemma exec_steady (m : manager) (c : command Editor) :
  steady m -> steady (exec m c).
Proof.
  intros Hm. pose proof Hm as [Hr Ht Hc].
  destruct c as [type e|e|e|e]; cbn [UndoRedo.exec].
  - unfold UndoRedo.editor_onChange. rewrite Ht.
    unfold UndoManager.onChange. rewrite Hr. cbn [negb].
    destruct (is_updateAsyncImage type); [exact Hm|].
    destruct (currState m) as [c|] eqn:E; cbn [fst].
    + constructor; cbn; auto; rewrite E; intros; discriminate.
    + apply saveState_steady. exact Hm.
  - unfold UndoManager.saverFires. destruct (saverPending m); [|exact Hm].
    cbn [isTorndown]. rewrite Ht. cbn [negb].
    apply saveState_steady. constructor; cbn; auto.
  - unfold UndoRedo.undo.
    pose proof (saveState_steady m e Hm) as [Hr1 Ht1 Hc1].
    destruct (pop (undoStates (saveState m e))) as [[u prev]|];
      [|cbn [fst]; apply saveState_steady; exact Hm].
    rewrite restoreState_live by exact Ht1.
    constructor; cbn; auto; intros; discriminate.
  - unfold UndoRedo.redo.
    destruct (pop (redoStates m)) as [[r next]|]; [|exact Hm].
    rewrite restoreState_live by exact Ht.
    constructor; cbn; auto; intros; discriminate.
Qed.

(** After every session of edits, timer expirations, undos and redos the
    guard is down, so the next edit is recorded (it sets the first
    checkpoint or arms the timer), and the stacks are empty as long as
    there is no checkpoint, so [undo] and [redo] never push [null]. *)
Theorem session_invariant (cs : list (command Editor)) :
  let m := session new cs in
  isRestoring m = false
  /\ isTorndown m = false
  /\ (currState m = None -> undoStates m = [] /\ redoStates m = [])
  /\ (forall e,
        let m' := exec m (Change None e) in
        (currState m = None /\ currState m' = Some (createState e))
        \/ (currState m <> None /\ saverPending m' = true)).
Proof.
  assert (H : forall (m : manager), steady m -> steady (session m cs)).
  { induction cs as [|c cs IH]; intros m Hm; [exact Hm|].
    cbn [UndoRedo.session fold_left]. apply IH, exec_steady, Hm. }
  destruct (H new) as [Hr Ht Hc]; [constructor; cbn; auto|].
  intros m. fold m in Hr, Ht, Hc. repeat split; try assumption;
    try (apply Hc; assumption).
  intros e m'. unfold m'. cbn [UndoRedo.exec].
  unfold UndoRedo.editor_onChange. rewrite Ht.
  unfold UndoManager.onChange. rewrite Hr. cbn [negb is_updateAsyncImage].
  destruct (currState m) as [c|] eqn:E; cbn [fst].
  - right. split; [discriminate|reflexivity].
  - left. split; [reflexivity|]. unfold UndoManager.saveState.
    rewrite E. reflexivity.
Qed.

Definition is_edit (c : command Editor) : bool :=
match c with Change _ _ | Timer _ => true | _ => false end.

(** [teardown] is final: the manager is empty, later notifications of
    the editor no longer reach it, and the debounce timer that may still
    be pending saves nothing when it expires. *)
Theorem teardown_is_final (m : manager) (cs : list (command Editor)) :
  forallb is_edit cs = true ->
  let m' := session (teardown m) cs in
  currState m' = None /\ undoStates m' = [] /\ redoStates m' = []
  /\ isTorndown m' = true.
Proof.
  assert (H : forall m0 : manager,
            forallb is_edit cs = true ->
            currState m0 = None -> undoStates m0 = [] ->
            redoStates m0 = [] -> isTorndown m0 = true ->
            let m' := session m0 cs in
            currState m' = None /\ undoStates m' = [] /\ redoStates m' = []
            /\ isTorndown m' = true).
  { induction cs as [|c cs IH]; intros m0 Hcs Hc Hu Hr Ht; [cbn; auto|].
    cbn [forallb] in Hcs. apply andb_prop in Hcs. destruct Hcs as [Hed Hcs].
    cbn [UndoRedo.session fold_left].
    destruct c as [type e|e|e|e]; try discriminate; cbn [UndoRedo.exec].
    - unfold UndoRedo.editor_onChange. rewrite Ht. cbn [fst].
      apply IH; assumption.
    - unfold UndoManager.saverFires.
      destruct (saverPending m0); [|apply IH; assumption].
      cbn [isTorndown]. rewrite Ht. cbn [negb]. apply IH; assumption. }
  intros Hcs. apply H; auto.
Qed.

End Facts.

(** ** Instances: an editor that is its serialized content *)

Lemma undo_takes_back_the_last_edit_witness :
  let m := {| currState := Some (mkState "<p>a</p>" (@None unit));
              undoStates := []; redoStates := [];
              isRestoring := false; isTorndown := false;
              saverPending := true |} in
  let undone := undo (fun e : string => e) (fun _ => None) (fun e => e)
                  (fun _ d => d) (fun e _ => e) (fun e => e) m "<p>ab</p>" in
  snd undone = "<p>a</p>"
  /\ redoStates (fst undone) = [mkState "<p>ab</p>" None]
  /\ undoStates (fst undone) = [].
Proof.
  intros m undone.
  destruct (undo_takes_back_the_last_edit (fun e : string => e)
              (fun _ => @None unit) (fun e => e) (fun _ d => d)
              (fun e _ => e) (fun e => e) m "<p>ab</p>"
              (mkState "<p>a</p>" None) eq_refl eq_refl)
    as (H1 & H2 & H3 & _); [discriminate|].
  repeat split; assumption.
Defined.

Lemma undo_then_redo_witness :
  let m := {| currState := Some (mkState "<p>a</p>" (@None unit));
              undoStates := []; redoStates := [];
              isRestoring := false; isTorndown := false;
              saverPending := true |} in
  let undone := undo (fun e : string => e) (fun _ => None) (fun e => e)
                  (fun _ d => d) (fun e _ => e) (fun e => e) m "<p>ab</p>" in
  let redone := redo (fun e : string => e) (fun _ => None) (fun e => e)
                  (fun _ d => d) (fun e _ => e) (fun e => e)
                  (fst undone) (snd undone) in
  snd redone = "<p>ab</p>"
  /\ map data (undoStates (fst redone)) = ["<p>a</p>"]
  /\ redoStates (fst redone) = [].
Proof.
  intros m undone redone.
  destruct (undo_then_redo (fun e : string => e)
              (fun _ => @None unit) (fun e => e) (fun _ d => d)
              (fun e _ => e) (fun e => e) m "<p>ab</p>")
    as (H1 & H2 & H3 & _);
    [reflexivity|reflexivity|discriminate|].
  repeat split; assumption.
Defined.

Lemma teardown_is_final_witness :
  let m := {| currState := Some (mkState "<p>a</p>" (@None unit));
              undoStates := [mkState "" None]; redoStates := [];
              isRestoring := false; isTorndown := false;
              saverPending := true |} in
  currState
    (session (fun e : string => e) (fun _ => None) (fun e => e)
       (fun _ d => d) (fun e _ => e) (fun e => e) (teardown m)
       [Timer "<p>ab</p>"; Change None "<p>abc</p>"]) = None.
Proof.
  intros m.
  destruct (teardown_is_final (fun e : string => e)
              (fun _ => @None unit) (fun e => e) (fun _ d => d)
              (fun e _ => e) (fun e => e) m
              [Timer "<p>ab</p>"; Change None "<p>abc</p>"] eq_refl)
    as [H _].
  exact H.
Defined.

End UndoRedoFacts.

(* ===================================================================== *)
(** * Facts: the filters on strings                                       *)
(* ===================================================================== *)

Module DataFilterTextFacts.
Import DataFilterText DomFacts.

(** ** Characters of a string *)

Fixpoint has (c : ascii) (s : string) : bool :=
match s with
| EmptyString => false
| String x r => Ascii.eqb x c || has c r
end.

Lemma append_nil_l (s : string) : "" +:+ s = s.
Proof. reflexivity. Qed.

Lemma has_app (c : ascii) (a b : string) :
  has c (a +:+ b) = has c a || has c b.
Proof.
  induction a as [|x a IH]; [reflexivity|].
  rewrite append_cons. cbn [has]. rewrite IH, orb_assoc. reflexivity.
Qed.

Lemma has_spaces (c : ascii) (k : nat) :
  Ascii.eqb SP c = false -> has c (spaces k) = false.
Proof.
  intros H. induction k as [|k IH]; [reflexivity|].
  cbn [spaces has]. rewrite H, IH. reflexivity.
Qed.

(** Induction on strings, two characters at a time. *)
Lemma string_pair_ind (P : string -> Prop) :
  P "" -> (forall c, P (String c "")) ->
  (forall c c' r, P r -> P (String c' r) -> P (String c (String c' r))) ->
  forall s, P s.
Proof.
  intros H0 H1 H2 s.
  assert (H : P s /\ forall c, P (String c s)).
  { induction s as [|c' r [IHr IHc]]; [split; [exact H0|exact H1]|].
    split; [apply IHc|]. intros c. apply H2; [exact IHr|apply IHc]. }
  exact (proj1 H).
Qed.

(** ** [filterPlaintext]: no line break is left *)

Lemma replace_cr_clean (s : string) : has CR (replace_cr s) = false.
Proof.
  induction s as [|c r IH]; [reflexivity|].
  cbn [replace_cr has]. rewrite IH, orb_false_r.
  destruct (Ascii.eqb_spec c CR) as [->|Hne]; [reflexivity|].
  apply Ascii.eqb_neq. exact Hne.
Qed.

Lemma flush_clean (p : pending) : has CR (flush p) = false.
Proof.
  destruct p as [[|] k]; unfold flush; cbn [fst snd]; rewrite has_app;
    rewrite has_spaces by reflexivity; reflexivity.
Qed.

Lemma replace_blank_lines_clean (s : string) :
  has CR s = false ->
  forall p, has CR (replace_blank_lines p s) = false.
Proof.
  induction s as [|c r IH]; intros H p.
  - destruct p as [p|]; [apply flush_clean|reflexivity].
  - cbn [has] in H. apply orb_false_elim in H. destruct H as [Hc Hr].
    cbn [replace_blank_lines]. destruct p as [[group k]|].
    + destruct (Ascii.eqb c SP); [apply IH; exact Hr|].
      destruct (Ascii.eqb c LF); [apply IH; exact Hr|].
      rewrite has_app, flush_clean. cbn [orb has].
      rewrite Hc, (IH Hr). reflexivity.
    + destruct (Ascii.eqb c LF); [apply IH; exact Hr|].
      cbn [has]. rewrite Hc, (IH Hr). reflexivity.
Qed.

Lemma replace_lf_keeps (s : string) :
  has CR s = false -> has CR (replace_lf s) = false.
Proof.
  induction s as [|c r IH]; intros H; [reflexivity|].
  cbn [has] in H. apply orb_false_elim in H. destruct H as [Hc Hr].
  cbn [replace_lf]. rewrite has_app, (IH Hr), orb_false_r.
  destruct (Ascii.eqb c LF); [reflexivity|].
  cbn [has]. rewrite Hc. reflexivity.
Qed.

Lemma replace_lf_clean (s : string) : has LF (replace_lf s) = false.
Proof.
  induction s as [|c r IH]; [reflexivity|].
  cbn [replace_lf]. rewrite has_app, IH, orb_false_r.
  destruct (Ascii.eqb c LF) eqn:E; [reflexivity|].
  cbn [has]. rewrite E. reflexivity.
Qed.

(** Whatever the input and the flag, the output of [filterPlaintext]
    holds neither a carriage return nor a line feed. *)
Theorem filterPlaintext_no_line_breaks
    (input : string) (useParagraphs : bool) :
  has CR (filterPlaintext input useParagraphs) = false
  /\ has LF (filterPlaintext input useParagraphs) = false.
Proof.
  unfold filterPlaintext. cbv zeta.
  set (unix := replace_cr (replace_crlf (escape input))).
  assert (Hunix : has CR unix = false) by apply replace_cr_clean.
  destruct useParagraphs.
  - rewrite !has_app, replace_lf_clean.
    rewrite (replace_lf_keeps _ (replace_blank_lines_clean unix Hunix None)).
    split; reflexivity.
  - split; [apply replace_lf_keeps; exact Hunix|apply replace_lf_clean].
Qed.

(** ** [filterPlaintext]: what the output is made of *)

(** A string made of the characters [ok] lets through and of the
    strings [pieces]. *)
Inductive made_of (ok : ascii -> bool) (pieces : list string)
  : string -> Prop :=
| made_end : made_of ok pieces ""
| made_char (c : ascii) (s : string) :
    ok c = true -> made_of ok pieces s -> made_of ok pieces (String c s)
| made_piece (p s : string) :
    In p pieces -> made_of ok pieces s -> made_of ok pieces (p +:+ s).

Lemma made_of_app (ok : ascii -> bool) (pieces : list string)
    (a b : string) :
  made_of ok pieces a -> made_of ok pieces b -> made_of ok pieces (a +:+ b).
Proof.
  intros Ha Hb. induction Ha as [|c s Hc _ IH|p s Hp _ IH].
  - exact Hb.
  - rewrite append_cons. apply made_char; assumption.
  - rewrite append_assoc. apply made_piece; assumption.
Qed.

Lemma made_of_weaken (ok ok' : ascii -> bool) (pieces pieces' : list string)
    (s : string) :
  (forall c, ok c = true -> ok' c = true) -> incl pieces pieces' ->
  made_of ok pieces s -> made_of ok' pieces' s.
Proof.
  intros Hok Hp H. induction H as [|c s Hc _ IH|p s Hin _ IH].
  - constructor.
  - apply made_char; [apply Hok; exact Hc|exact IH].
  - apply made_piece; [apply Hp; exact Hin|exact IH].
Qed.

Definition entities : list string :=
["&amp;"; "&lt;"; "&gt;"; "&quot;"; "&#39;"; "&#96;"].

(** The characters [_.escape] replaces. *)
Definition special (c : ascii) : bool :=
Ascii.eqb c "&" || Ascii.eqb c "<" || Ascii.eqb c ">" || Ascii.eqb c QUOT
|| Ascii.eqb c "'" || Ascii.eqb c "`".

Definition unescaped (c : ascii) : bool := negb (special c).
Definition no_cr (c : ascii) : bool := unescaped c && negb (Ascii.eqb c CR).
(** The characters of the input that reach the output as they are. *)
Definition plain_char (c : ascii) : bool :=
unescaped c && negb (Ascii.eqb c CR) && negb (Ascii.eqb c LF).

Lemma escape_made (s : string) : made_of unescaped entities (escape s).
Proof.
  induction s as [|c r IH]; [constructor|].
  cbn [escape]. unfold escapeHtmlChar.
  destruct (Ascii.eqb c "&") eqn:E1;
    [apply made_piece; [cbn; tauto|exact IH]|].
  destruct (Ascii.eqb c "<") eqn:E2;
    [apply made_piece; [cbn; tauto|exact IH]|].
  destruct (Ascii.eqb c ">") eqn:E3;
    [apply made_piece; [cbn; tauto|exact IH]|].
  destruct (Ascii.eqb c QUOT) eqn:E4;
    [apply made_piece; [cbn; tauto|exact IH]|].
  destruct (Ascii.eqb c "'") eqn:E5;
    [apply made_piece; [cbn; tauto|exact IH]|].
  destruct (Ascii.eqb c "`") eqn:E6;
    [apply made_piece; [cbn; tauto|exact IH]|].
  rewrite append_cons. apply made_char; [|exact IH].
  unfold unescaped, special. rewrite E1, E2, E3, E4, E5, E6. reflexivity.
Qed.

(** A stage of the filter lets a string through when it copies it,
    whatever follows, and goes on behind it. *)
Definition passes (f : string -> string) (p : string) : Prop :=
forall s, f (p +:+ s) = p +:+ f s.

Lemma replace_crlf_skip (c : ascii) (s : string) :
  Ascii.eqb c CR = false ->
  replace_crlf (String c s) = String c (replace_crlf s).
Proof.
  intros H. cbn [replace_crlf]. rewrite H. destruct s; reflexivity.
Qed.

Lemma replace_crlf_cases (c : ascii) (s : string) :
  replace_crlf (String c s) = String c (replace_crlf s)
  \/ (Ascii.eqb c CR = true /\ replace_crlf (String c s) = replace_crlf s).
Proof.
  destruct s as [|c' r]; [left; reflexivity|].
  cbn [replace_crlf].
  destruct (Ascii.eqb c CR) eqn:Ec; [|left; reflexivity].
  destruct (Ascii.eqb_spec c' LF) as [->|Hne]; [|left; reflexivity].
  right. split; [reflexivity|]. cbn [andb].
  destruct r; reflexivity.
Qed.

Lemma replace_crlf_passes : Forall (passes replace_crlf) entities.
Proof.
  unfold entities.
  repeat (apply List.Forall_cons;
          [intros s; rewrite !append_cons, !append_nil_l;
           repeat (rewrite replace_crlf_skip by reflexivity); reflexivity|]).
  apply List.Forall_nil.
Qed.

Lemma replace_crlf_made (s : string) :
  made_of unescaped entities s -> made_of unescaped entities (replace_crlf s).
Proof.
  induction 1 as [|c s Hc _ IH|p s Hp _ IH].
  - constructor.
  - destruct (replace_crlf_cases c s) as [E|[_ E]]; rewrite E;
      [apply made_char; assumption|exact IH].
  - pose proof replace_crlf_passes as Hpass.
    rewrite List.Forall_forall in Hpass. rewrite (Hpass p Hp).
    apply made_piece; assumption.
Qed.

Lemma replace_cr_made (s : string) :
  made_of unescaped entities s -> made_of no_cr entities (replace_cr s).
Proof.
  induction 1 as [|c s Hc _ IH|p s Hp _ IH].
  - constructor.
  - cbn [replace_cr]. apply made_char; [|exact IH].
    destruct (Ascii.eqb_spec c CR) as [->|Hne]; [reflexivity|].
    unfold no_cr. rewrite Hc. cbn [andb].
    apply negb_true_iff, Ascii.eqb_neq. exact Hne.
  - assert (Hpass : Forall (passes replace_cr) entities).
    { unfold entities.
      repeat (apply List.Forall_cons; [intros s0; reflexivity|]).
      apply List.Forall_nil. }
    rewrite List.Forall_forall in Hpass. rewrite (Hpass p Hp).
    apply made_piece; assumption.
Qed.

Definition with_paragraphs : list string := "</p><p>" :: entities.

Lemma spaces_made (k : nat) (pieces : list string) :
  made_of no_cr pieces (spaces k).
Proof.
  induction k as [|k IH]; [constructor|].
  cbn [spaces]. apply made_char; [reflexivity|exact IH].
Qed.

Lemma flush_made (p : pending) : made_of no_cr with_paragraphs (flush p).
Proof.
  destruct p as [[|] k]; unfold flush; cbn [fst snd].
  - apply made_piece; [left; reflexivity|apply spaces_made].
  - rewrite append_cons. apply made_char; [reflexivity|].
    apply spaces_made.
Qed.

Lemma replace_blank_lines_made (s : string) :
  made_of no_cr entities s ->
  forall p, made_of no_cr with_paragraphs (replace_blank_lines p s).
Proof.
  induction 1 as [|c s Hc _ IH|pc s Hp _ IH]; intros p.
  - destruct p as [p|]; [apply flush_made|constructor].
  - cbn [replace_blank_lines]. destruct p as [[group k]|].
    + destruct (Ascii.eqb c SP); [apply IH|].
      destruct (Ascii.eqb c LF); [apply IH|].
      apply made_of_app; [apply flush_made|].
      apply made_char; [exact Hc|apply IH].
    + destruct (Ascii.eqb c LF); [apply IH|].
      apply made_char; [exact Hc|apply IH].
  - assert (Hnone : replace_blank_lines None (pc +:+ s)
                    = pc +:+ replace_blank_lines None s).
    { unfold entities in Hp. cbn [In] in Hp.
      repeat (destruct Hp as [<-|Hp]; [reflexivity|]). contradiction. }
    assert (Hsome : forall q, replace_blank_lines (Some q) (pc +:+ s)
                    = flush q +:+ replace_blank_lines None (pc +:+ s)).
    { intros [group k]. unfold entities in Hp. cbn [In] in Hp.
      repeat (destruct Hp as [<-|Hp]; [reflexivity|]). contradiction. }
    assert (Hrest : made_of no_cr with_paragraphs
                      (replace_blank_lines None (pc +:+ s))).
    { rewrite Hnone. apply made_piece; [right; exact Hp|apply IH]. }
    destruct p as [q|]; [|exact Hrest].
    rewrite Hsome. apply made_of_app; [apply flush_made|exact Hrest].
Qed.

Definition written : list string := "<br>" :: with_paragraphs.

Lemma replace_lf_made (pieces : list string) (s : string) :
  Forall (passes replace_lf) pieces ->
  made_of no_cr pieces s ->
  made_of plain_char ("<br>" :: pieces) (replace_lf s).
Proof.
  intros Hpass. induction 1 as [|c s Hc _ IH|p s Hp _ IH].
  - constructor.
  - cbn [replace_lf]. destruct (Ascii.eqb c LF) eqn:E.
    + apply made_piece; [left; reflexivity|exact IH].
    + rewrite append_cons. apply made_char; [|exact IH].
      unfold plain_char. unfold no_cr in Hc. rewrite Hc, E. reflexivity.
  - rewrite List.Forall_forall in Hpass. rewrite (Hpass p Hp).
    apply made_piece; [right; exact Hp|exact IH].
Qed.

Lemma replace_lf_passes : Forall (passes replace_lf) with_paragraphs.
Proof.
  unfold with_paragraphs, entities.
  repeat (apply List.Forall_cons; [intros s; reflexivity|]).
  apply List.Forall_nil.
Qed.

(** Text cannot bring markup in.  The output of [filterPlaintext] is
    made of the characters of the input other than the six that
    [_.escape] replaces and the line breaks, of the six entities, and
    of the tags the filter writes: [<br>], and with paragraphs [</p><p>]
    between the [<p>] the output begins and the [</p>] it ends with. *)
Theorem filterPlaintext_is_escaped (input : string) :
  made_of plain_char ("<br>" :: entities) (filterPlaintext input false)
  /\ exists body,
       filterPlaintext input true = "<p>" +:+ body +:+ "</p>"
       /\ made_of plain_char written body.
Proof.
  pose proof (replace_cr_made _ (replace_crlf_made _ (escape_made input)))
    as Hunix.
  unfold filterPlaintext. cbv zeta. split.
  - apply replace_lf_made; [|exact Hunix].
    pose proof replace_lf_passes as H. unfold with_paragraphs in H.
    inversion H; assumption.
  - eexists. split; [reflexivity|].
    apply replace_lf_made; [exact replace_lf_passes|].
    apply replace_blank_lines_made. exact Hunix.
Qed.


(** ** [convertToBrowserSpaces] *)

(** Two plain spaces next to each other. *)
Fixpoint has_double_space (s : string) : bool :=
match s with
| EmptyString => false
| String c r =>
    match r with
    | String c' _ => (Ascii.eqb c SP && Ascii.eqb c' SP) || has_double_space r
    | EmptyString => false
    end
end.

Fixpoint ends_with_space (s : string) : bool :=
match s with
| EmptyString => false
| String c r =>
    match r with
    | EmptyString => Ascii.eqb c SP
    | _ => ends_with_space r
    end
end.

Definition starts_with_space (s : string) : bool :=
match s with
| String c _ => Ascii.eqb c SP
| EmptyString => false
end.

(** The string with plain spaces for its no-break spaces. *)
Fixpoint plain_spaces (s : string) : string :=
match s with
| EmptyString => ""
| String c r => String (if Ascii.eqb c NBSP then SP else c) (plain_spaces r)
end.

Lemma has_double_space_cons (c : ascii) (s : string) :
  has_double_space (String c s)
  = (Ascii.eqb c SP && starts_with_space s) || has_double_space s.
Proof.
  destruct s as [|c' r]; [|reflexivity].
  cbn. rewrite andb_false_r. reflexivity.
Qed.

Lemma replace_double_spaces_pair (c c' : ascii) (r : string) :
  replace_double_spaces (String c (String c' r))
  = if Ascii.eqb c SP && Ascii.eqb c' SP
    then String SP (String NBSP (replace_double_spaces r))
    else String c (replace_double_spaces (String c' r)).
Proof. reflexivity. Qed.

Lemma replace_double_spaces_spec (s : string) :
  has_double_space (replace_double_spaces s) = false
  /\ starts_with_space (replace_double_spaces s) = starts_with_space s
  /\ plain_spaces (replace_double_spaces s) = plain_spaces s.
Proof.
  induction s as [|c|c c' r (Hr1 & Hr2 & Hr3) (Hc1 & Hc2 & Hc3)]
    using string_pair_ind.
  - repeat split.
  - repeat split.
  - rewrite replace_double_spaces_pair.
    destruct (Ascii.eqb_spec c SP) as [->|Hc];
      [destruct (Ascii.eqb_spec c' SP) as [->|Hc']|]; cbn [andb].
    + rewrite !has_double_space_cons. cbn [starts_with_space plain_spaces].
      rewrite Hr1, Hr3. repeat split.
    + rewrite has_double_space_cons, Hc1, Hc2.
      cbn [starts_with_space plain_spaces] in *.
      rewrite Hc3. apply Ascii.eqb_neq in Hc'. rewrite Hc'.
      repeat split.
    + rewrite has_double_space_cons, Hc1, Hc2.
      cbn [starts_with_space plain_spaces] in *.
      rewrite Hc3. apply Ascii.eqb_neq in Hc. rewrite Hc.
      repeat split.
Qed.

Lemma replace_last_space_spec (s : string) :
  ends_with_space (replace_last_space s) = false
  /\ plain_spaces (replace_last_space s) = plain_spaces s
  /\ (starts_with_space (replace_last_space s) = true ->
      starts_with_space s = true)
  /\ (has_double_space s = false ->
      has_double_space (replace_last_space s) = false).
Proof.
  induction s as [|c r (H1 & H2 & H3 & H4)]; [repeat split; auto|].
  destruct r as [|c' r'].
  - cbn [replace_last_space ends_with_space plain_spaces starts_with_space
         has_double_space].
    destruct (Ascii.eqb_spec c SP) as [->|Hc].
    + split; [reflexivity|]. split; [reflexivity|].
      split; [intros H; discriminate H|reflexivity].
    + split; [apply Ascii.eqb_neq; exact Hc|]. split; [reflexivity|].
      split; [intros H; apply Ascii.eqb_eq in H; contradiction|reflexivity].
  - change (replace_last_space (String c (String c' r')))
      with (String c (replace_last_space (String c' r'))).
    repeat split.
    + destruct (replace_last_space (String c' r')) eqn:E; [|exact H1].
      destruct r'; discriminate.
    + cbn [plain_spaces] in *. rewrite H2. reflexivity.
    + intros H. exact H.
    + intros H. rewrite has_double_space_cons in H.
      rewrite has_double_space_cons.
      apply orb_false_elim in H. destruct H as [Ha Hb].
      rewrite (H4 Hb), orb_false_r.
      destruct (Ascii.eqb c SP); [|reflexivity]. cbn [andb] in *.
      destruct (starts_with_space (replace_last_space (String c' r')))
        eqn:E; [|reflexivity].
      rewrite (H3 eq_refl) in Ha. discriminate.
Qed.

(** [convertToBrowserSpaces] changes plain spaces into no-break spaces
    and nothing else, and what it returns has no two plain spaces next
    to each other and does not end with a plain space. *)
Theorem convertToBrowserSpaces_spaces (data : string) :
  plain_spaces (convertToBrowserSpaces data) = plain_spaces data
  /\ has_double_space (convertToBrowserSpaces data) = false
  /\ ends_with_space (convertToBrowserSpaces data) = false.
Proof.
  unfold convertToBrowserSpaces.
  destruct (replace_double_spaces_spec data) as (D1 & _ & D3).
  destruct (replace_last_space_spec (replace_double_spaces data))
    as (L1 & L2 & _ & L4).
  split; [rewrite L2; exact D3|]. split; [exact (L4 D1)|exact L1].
Qed.

End DataFilterTextFacts.

(* ===================================================================== *)
(** * Facts: [normalize] keeps the text                                   *)
(* ===================================================================== *)

Module DomTextFacts.
Import Dom DomFacts.

Lemma merge_text_text (l : list node) :
  textContent_list (merge_text l) = textContent_list l.
Proof.
  unfold textContent_list.
  induction l as [|c l IH]; [reflexivity|].
  destruct c as [d|nm attrs cs|nm|d|t]; cbn [merge_text];
    try (cbn [map concat_strings]; rewrite IH; reflexivity).
  destruct (String.eqb_spec d "") as [->|Hne]; [exact IH|].
  cbn [map concat_strings textContent]. rewrite <- IH.
  destruct (merge_text l) as [|[d'|nm' attrs' cs'|nm'|d'|t'] r'];
    try reflexivity.
  cbn [map concat_strings textContent]. apply append_assoc.
Qed.

Lemma normalize_text (n : node) : textContent (normalize n) = textContent n.
Proof.
  induction n as [d|nm attrs cs IH|nm|d|t] using node_induction;
    try reflexivity.
  cbn [normalize textContent].
  change (textContent_list (merge_text (map normalize cs))
          = textContent_list cs).
  rewrite merge_text_text. unfold textContent_list. rewrite map_map.
  f_equal. induction IH as [|c rest Hc _ IHrest]; [reflexivity|].
  cbn [map]. rewrite Hc, IHrest. reflexivity.
Qed.

Lemma normalize_list_text (l : list node) :
  textContent_list (normalize_list l) = textContent_list l.
Proof.
  unfold normalize_list. rewrite merge_text_text.
  unfold textContent_list. rewrite map_map. f_equal.
  apply map_ext. intros c. apply normalize_text.
Qed.

Lemma textContent_list_app (a b : list node) :
  textContent_list (a ++ b) = textContent_list a +:+ textContent_list b.
Proof. unfold textContent_list. rewrite map_app. apply concat_strings_app. Qed.

End DomTextFacts.

(* ===================================================================== *)
(** * Facts: inline frames                                                *)
(* ===================================================================== *)

Module DataFilterFramesFacts.
Import Dom DataFilterFrames DomFacts.

(** ** Attribute lists *)

Lemma get_attr_set_attr (k v : string) (l : list (string * string)) :
  get_attr k (set_attr k v l) = Some v.
Proof.
  induction l as [|[k' v'] l IH]; cbn [set_attr get_attr].
  - rewrite String.eqb_refl. reflexivity.
  - destruct (String.eqb k' k) eqn:E; cbn [get_attr]; rewrite E;
      [reflexivity|exact IH].
Qed.

Lemma get_attr_set_other (k k' v : string) (l : list (string * string)) :
  String.eqb k' k = false ->
  get_attr k (set_attr k' v l) = get_attr k l.
Proof.
  intros Hne. induction l as [|[k0 v0] l IH]; cbn [set_attr get_attr].
  - rewrite Hne. reflexivity.
  - destruct (String.eqb k0 k') eqn:E; cbn [get_attr].
    + apply String.eqb_eq in E. subst k0. rewrite Hne. reflexivity.
    + rewrite IH. reflexivity.
Qed.

Lemma set_attr_same (k v : string) (l : list (string * string)) :
  get_attr k l = Some v -> set_attr k v l = l.
Proof.
  induction l as [|[k' v'] l IH]; cbn [set_attr get_attr]; [discriminate|].
  destruct (String.eqb k' k); [intros [= ->]; reflexivity|].
  intros H. rewrite (IH H). reflexivity.
Qed.

Lemma set_attr_twice (k v w : string) (l : list (string * string)) :
  set_attr k w (set_attr k v l) = set_attr k w l.
Proof.
  induction l as [|[k' v'] l IH]; cbn [set_attr].
  - rewrite String.eqb_refl. reflexivity.
  - destruct (String.eqb k' k) eqn:E; cbn [set_attr]; rewrite E;
      [reflexivity|]. rewrite IH. reflexivity.
Qed.

Lemma set_attr_absent (k v : string) (l : list (string * string)) :
  get_attr k l = None -> set_attr k v l = l ++ [(k, v)].
Proof.
  induction l as [|[k' v'] l IH]; cbn [set_attr get_attr]; [reflexivity|].
  destruct (String.eqb k' k); [discriminate|].
  intros H. rewrite (IH H). reflexivity.
Qed.

Lemma remove_attr_appended (k v : string) (l : list (string * string)) :
  get_attr k l = None -> remove_attr k (l ++ [(k, v)]) = l.
Proof.
  induction l as [|[k' v'] l IH]; cbn [app remove_attr get_attr].
  - rewrite String.eqb_refl. reflexivity.
  - destruct (String.eqb k' k); [discriminate|].
    intros H. rewrite (IH H). reflexivity.
Qed.

(** Taking the source away and putting it back leaves the attributes of
    a frame as they were, when it had a source and no
    [data-original-src]. *)
Lemma unsanitize_sanitize_attributes (attrs : list (string * string))
    (src : string) :
  get_attr "src" attrs = Some src ->
  get_attr "data-original-src" attrs = None ->
  unsanitize_attributes (sanitize_attributes attrs) = attrs.
Proof.
  intros Hsrc Hnone. unfold sanitize_attributes. rewrite Hsrc.
  rewrite (set_attr_absent _ src _ Hnone).
  unfold unsanitize_attributes.
  rewrite get_attr_set_other by reflexivity.
  assert (Hd : get_attr "data-original-src"
                 (attrs ++ [("data-original-src", src)]) = Some src).
  { rewrite <- (set_attr_absent _ src _ Hnone). apply get_attr_set_attr. }
  rewrite Hd, set_attr_twice.
  assert (Hs : get_attr "src" (attrs ++ [("data-original-src", src)])
               = Some src).
  { rewrite <- (set_attr_absent _ src _ Hnone).
    rewrite get_attr_set_other by reflexivity. exact Hsrc. }
  rewrite (set_attr_same _ _ _ Hs). apply remove_attr_appended. exact Hnone.
Qed.

(** ** The elements below a node *)

Lemma descendants_each_iframe
    (f : list (string * string) -> list (string * string)) (n : node) :
  descendants (each_iframe f n) = map (each_iframe f) (descendants n).
Proof.
  induction n as [d|nm attrs cs IH|nm|d|t] using node_induction;
    try reflexivity.
  cbn [each_iframe descendants].
  induction IH as [|c rest Hc _ IHrest]; [reflexivity|].
  cbn [map flat_map]. rewrite map_app, IHrest. f_equal.
  destruct c; try reflexivity.
  cbn [is_element map] in *. f_equal. exact Hc.
Qed.

Lemma descendants_below_body
    (f : list (string * string) -> list (string * string)) (body : node) :
  descendants (below_body f body) = map (each_iframe f) (descendants body).
Proof.
  destruct body as [d|nm attrs cs|nm|d|t]; try reflexivity.
  cbn [below_body descendants].
  induction cs as [|c rest IH]; [reflexivity|].
  cbn [map flat_map]. rewrite map_app, IH. f_equal.
  destruct c; try reflexivity.
  cbn [is_element map]. f_equal. apply descendants_each_iframe.
Qed.

(** After [sanitizeIFrames] every inline frame of the document, at any
    depth, has the blank source [javascript:''] for its [src].  (The
    code writes to [src] and [data-original-src] only.) *)
Theorem sanitizeIFrames_blanks_every_frame (body : node) :
  Forall (fun n => is_iframe n = true ->
                   getAttribute "src" n = Some blank_source)
    (descendants (sanitizeIFrames body)).
Proof.
  unfold sanitizeIFrames. rewrite descendants_below_body.
  apply Forall_map. apply List.Forall_forall. intros n _.
  destruct n as [d|nm attrs cs|nm|d|t]; try (intros H; discriminate H).
  cbn [each_iframe is_iframe is_element name_of andb getAttribute].
  intros H. rewrite H. unfold sanitize_attributes. apply get_attr_set_attr.
Qed.

(** Sanitizing what is sanitized already loses the sources: the second
    pass keeps the blank source as the original one. *)
Theorem sanitizeIFrames_twice_forgets (body : node) :
  Forall (fun n => is_iframe n = true ->
                   getAttribute "src" n = Some blank_source
                   /\ getAttribute "data-original-src" n
                      = Some blank_source)
    (descendants (sanitizeIFrames (sanitizeIFrames body))).
Proof.
  unfold sanitizeIFrames. rewrite !descendants_below_body, map_map.
  apply Forall_map. apply List.Forall_forall. intros n _.
  destruct n as [d|nm attrs cs|nm|d|t]; try (intros H; discriminate H).
  cbn [each_iframe is_iframe is_element name_of andb getAttribute].
  intros H. rewrite H.
  set (once := sanitize_attributes attrs).
  assert (Honce : get_attr "src" once = Some blank_source)
    by apply get_attr_set_attr.
  unfold sanitize_attributes at 1 2. rewrite Honce.
  split; [apply get_attr_set_attr|].
  rewrite get_attr_set_other by reflexivity. apply get_attr_set_attr.
Qed.

(** A frame whose source can be put back. *)
Definition restorable (n : node) : Prop :=
is_iframe n = true ->
(exists src, getAttribute "src" n = Some src)
/\ getAttribute "data-original-src" n = None.

Lemma each_iframe_round_trip (n : node) :
  restorable n -> Forall restorable (descendants n) ->
  each_iframe unsanitize_attributes (each_iframe sanitize_attributes n) = n.
Proof.
  induction n as [d|nm attrs cs IH|nm|d|t] using node_induction;
    intros Hn Hd; try reflexivity.
  cbn [each_iframe]. rewrite map_map. f_equal.
  - unfold restorable in Hn.
    cbn [is_iframe is_element name_of andb getAttribute] in Hn.
    destruct (String.eqb nm "IFRAME"); [|reflexivity].
    destruct (Hn eq_refl) as [[src Hsrc] Hnone].
    apply (unsanitize_sanitize_attributes attrs src); assumption.
  - cbn [descendants] in Hd. clear Hn.
    induction IH as [|c rest Hc _ IHrest]; [reflexivity|].
    cbn [flat_map] in Hd. apply Forall_app in Hd. destruct Hd as [Hhere Hd].
    cbn [map]. rewrite (IHrest Hd). f_equal.
    destruct c as [d|nm' attrs' cs'|nm'|d|t]; try reflexivity.
    cbn [is_element] in Hhere. inversion Hhere as [|? ? H1 H2]; subst.
    apply Hc; assumption.
Qed.

(** The round trip of a document in which every inline frame has a
    source and none has a [data-original-src] of its own:
    [unSanitizeIFrames] gives back what [sanitizeIFrames] was given. *)
Theorem unSanitizeIFrames_sanitizeIFrames (body : node) :
  Forall restorable (descendants body) ->
  unSanitizeIFrames (sanitizeIFrames body) = body.
Proof.
  intros H. destruct body as [d|nm attrs cs|nm|d|t]; try reflexivity.
  unfold unSanitizeIFrames, sanitizeIFrames. cbn [below_body].
  rewrite map_map. f_equal. cbn [descendants] in H.
  induction cs as [|c rest IH]; [reflexivity|].
  cbn [flat_map] in H. apply Forall_app in H. destruct H as [Hhere H].
  cbn [map]. rewrite (IH H). f_equal.
  destruct c as [d|nm' attrs' cs'|nm'|d|t]; try reflexivity.
  cbn [is_element] in Hhere. inversion Hhere as [|? ? H1 H2]; subst.
  apply each_iframe_round_trip; assumption.
Qed.

(** The round trip at
    [<p>a</p><iframe src="https://example.org/v" width="300">]. *)
Lemma unSanitizeIFrames_sanitizeIFrames_witness :
  let body :=
    Elem "BODY" []
      [Elem "P" [] [Text "a"];
       Elem "IFRAME" [("src", "https://example.org/v"); ("width", "300")]
         []] in
  sanitizeIFrames body
  = Elem "BODY" []
      [Elem "P" [] [Text "a"];
       Elem "IFRAME"
         [("src", blank_source); ("width", "300");
          ("data-original-src", "https://example.org/v")] []]
  /\ unSanitizeIFrames (sanitizeIFrames body) = body.
Proof.
  intros body. split; [reflexivity|].
  apply unSanitizeIFrames_sanitizeIFrames. cbv [body].
  cbn [descendants flat_map is_element app].
  repeat apply List.Forall_cons; try apply List.Forall_nil;
    intros H; try discriminate H.
  split; [eexists|]; reflexivity.
Defined.

End DataFilterFramesFacts.

(* ===================================================================== *)
(** * Facts: the children of the root after [blockifyInlineNodes] and
      [flattenBlocksDown]                                                *)
(* ===================================================================== *)

Module DataFilterRootFacts.
Import Dom Js DataFilter DomFacts DomTextFacts DataFilterFacts.

(** ** [blockifyInlineNodes] *)

Lemma blockifyInlineNodes_elem (nm : string)
    (attrs : list (string * string)) (cs : list node) :
  blockifyInlineNodes (Elem nm attrs cs)
  = Elem nm attrs (map blockified (normalize_list cs)).
Proof.
  unfold blockifyInlineNodes, wrapTextNodes.
  cbn [normalize with_children children]. rewrite map_map. reflexivity.
Qed.

(** What may stand at the root once inline content is wrapped. *)
Definition at_root (c : node) : Prop :=
match c with
| Text d => trim_is_empty d = true
| Elem _ _ _ => stays_at_root c = true
| _ => True
end.

Lemma blockified_at_root (c : node) : at_root (blockified c).
Proof.
  unfold blockified. destruct c as [d|nm attrs cs|nm|d|t];
    try exact I.
  - destruct (trim_is_empty d) eqn:E; [exact E|reflexivity].
  - cbn [is_element andb].
    destruct (stays_at_root (Elem nm attrs cs)) eqn:E; [exact E|reflexivity].
Qed.

Lemma blockified_text (c : node) : textContent (blockified c) = textContent c.
Proof.
  unfold blockified. destruct c as [d|nm attrs cs|nm|d|t];
    try reflexivity.
  - destruct (trim_is_empty d); [reflexivity|].
    cbn. apply append_nil_r.
  - cbn [is_element andb].
    destruct (stays_at_root (Elem nm attrs cs)); [reflexivity|].
    cbn [negb wrap_p textContent map concat_strings]. apply append_nil_r.
Qed.

(** After [blockifyInlineNodes] every element among the children of the
    root is a block, a media element, the media holder or the separator,
    and every text node among them holds white space only; the text of
    the root is what it was. *)
Theorem blockifyInlineNodes_leaves_blocks (rootNode : node) :
  Forall at_root (children (blockifyInlineNodes rootNode))
  /\ textContent (blockifyInlineNodes rootNode) = textContent rootNode.
Proof.
  destruct rootNode as [d|nm attrs cs|nm|d|t];
    try (split; [constructor|reflexivity]).
  rewrite blockifyInlineNodes_elem. cbn [children textContent]. split.
  - apply Forall_map. apply List.Forall_forall. intros c _.
    apply blockified_at_root.
  - rewrite map_map.
    transitivity (textContent_list (normalize_list cs)).
    + unfold textContent_list. f_equal. apply map_ext. intros c.
      apply blockified_text.
    + change (textContent (normalize (Elem nm attrs cs))
              = textContent (Elem nm attrs cs)).
      apply normalize_text.
Qed.

(** A list [normalize] has nothing to do in: no empty text node, no two
    text nodes side by side. *)
Fixpoint merged (l : list node) : bool :=
match l with
| [] => true
| Text d :: r =>
    negb (String.eqb d "")
    && negb (match r with Text _ :: _ => true | _ => false end)
    && merged r
| _ :: r => merged r
end.

Lemma append_nonempty (a b : string) : a <> "" -> String.eqb (a +:+ b) "" = false.
Proof. destruct a; [contradiction|reflexivity]. Qed.

Lemma merged_merge_text (l : list node) : merged (merge_text l) = true.
Proof.
  induction l as [|c l IH]; [reflexivity|].
  destruct c as [d|nm attrs cs|nm|d|t]; cbn [merge_text merged];
    try exact IH.
  destruct (String.eqb_spec d "") as [->|Hne]; [exact IH|].
  apply String.eqb_neq in Hne.
  destruct (merge_text l) as [|[d'|nm' attrs' cs'|nm'|d'|t'] r'];
    cbn [merged] in *; rewrite ?Hne; try exact IH; try reflexivity.
  apply String.eqb_neq in Hne. rewrite (append_nonempty d d' Hne).
  apply andb_true_iff in IH. destruct IH as [IH1 IH2].
  apply andb_true_iff in IH1. destruct IH1 as [_ IH1].
  rewrite IH1, IH2. reflexivity.
Qed.

Lemma merged_same (l : list node) : merged l = true -> merge_text l = l.
Proof.
  induction l as [|c l IH]; [reflexivity|].
  destruct c as [d|nm attrs cs|nm|d|t]; cbn [merge_text merged]; intros H;
    try (rewrite (IH H); reflexivity).
  apply andb_true_iff in H. destruct H as [H H3].
  apply andb_true_iff in H. destruct H as [H1 H2].
  apply negb_true_iff in H1. rewrite H1, (IH H3).
  destruct l as [|[d'|nm' attrs' cs'|nm'|d'|t'] r']; try reflexivity.
  discriminate H2.
Qed.

Lemma merged_blockified (l : list node) :
  merged l = true -> merged (map blockified l) = true.
Proof.
  induction l as [|c l IH]; [reflexivity|].
  destruct c as [d|nm attrs cs|nm|d|t]; cbn [map merged]; intros H;
    try (exact (IH H)).
  - apply andb_true_iff in H. destruct H as [H H3].
    apply andb_true_iff in H. destruct H as [H1 H2].
    unfold blockified at 1. destruct (trim_is_empty d).
    + cbn [is_element andb merged]. rewrite H1, (IH H3).
      destruct l as [|[d'|nm' attrs' cs'|nm'|d'|t'] r']; try reflexivity.
      * discriminate H2.
      * cbn [map]. unfold blockified at 1. cbn [is_element andb].
        destruct (negb (stays_at_root (Elem nm' attrs' cs'))); reflexivity.
    + exact (IH H3).
  - unfold blockified at 1. cbn [is_element andb].
    destruct (negb (stays_at_root (Elem nm attrs cs))); exact (IH H).
Qed.

Lemma blockified_fixed (c : node) : fixed c -> fixed (blockified c).
Proof.
  intros Hf. unfold blockified.
  destruct c as [d|nm attrs cs|nm|d|t]; try exact Hf.
  - destruct (trim_is_empty d) eqn:Ed; [exact Hf|].
    unfold fixed, wrap_p. cbn [is_element andb negb normalize map merge_text].
    change (stays_at_root (Elem "P" [] [Text d])) with true.
    cbn [negb normalize map merge_text].
    rewrite (trim_is_empty_nonempty d Ed). reflexivity.
  - cbn [is_element andb].
    destruct (stays_at_root (Elem nm attrs cs)); [exact Hf|].
    unfold fixed, wrap_p. unfold fixed in Hf.
    cbn [negb normalize map] in *. rewrite Hf. reflexivity.
Qed.

Lemma blockified_blank (d : string) :
  trim_is_empty d = true -> blockified (Text d) = Text d.
Proof. intros H. unfold blockified. rewrite H. reflexivity. Qed.

Lemma blockified_word (d : string) :
  trim_is_empty d = false -> blockified (Text d) = wrap_p (Text d).
Proof. intros H. unfold blockified. rewrite H. reflexivity. Qed.

Lemma blockified_stays (nm : string) (attrs : list (string * string))
    (cs : list node) :
  stays_at_root (Elem nm attrs cs) = true ->
  blockified (Elem nm attrs cs) = Elem nm attrs cs.
Proof.
  intros H. unfold blockified. cbn [is_element andb]. rewrite H. reflexivity.
Qed.

Lemma blockified_inline (nm : string) (attrs : list (string * string))
    (cs : list node) :
  stays_at_root (Elem nm attrs cs) = false ->
  blockified (Elem nm attrs cs) = wrap_p (Elem nm attrs cs).
Proof.
  intros H. unfold blockified. cbn [is_element andb]. rewrite H. reflexivity.
Qed.

Lemma blockified_again (c : node) : blockified (blockified c) = blockified c.
Proof.
  destruct c as [d|nm attrs cs|nm|d|t]; try reflexivity.
  - destruct (trim_is_empty d) eqn:Ed.
    + rewrite !(blockified_blank d Ed). reflexivity.
    + rewrite (blockified_word d Ed). reflexivity.
  - destruct (stays_at_root (Elem nm attrs cs)) eqn:Es.
    + rewrite !(blockified_stays _ _ _ Es). reflexivity.
    + rewrite (blockified_inline _ _ _ Es). reflexivity.
Qed.

(** [blockifyInlineNodes] has nothing left to do on what it returns: a
    second pass wraps nothing more. *)
Theorem blockifyInlineNodes_twice (rootNode : node) :
  blockifyInlineNodes (blockifyInlineNodes rootNode)
  = blockifyInlineNodes rootNode.
Proof.
  destruct rootNode as [d|nm attrs cs|nm|d|t]; try reflexivity.
  rewrite !blockifyInlineNodes_elem. f_equal.
  assert (Hm : merged (map blockified (normalize_list cs)) = true)
    by apply merged_blockified, merged_merge_text.
  assert (Hf : Forall fixed (map blockified (normalize_list cs))).
  { apply Forall_map. eapply List.Forall_impl; [|apply normalize_list_fixed].
    intros c. apply blockified_fixed. }
  unfold normalize_list at 1. rewrite (map_fixed _ Hf), (merged_same _ Hm).
  rewrite map_map. apply map_ext. intros c. apply blockified_again.
Qed.

(** ** [flattenBlocksDown] *)

Lemma detach_is_element (moved : list path) (n : node) :
  is_element (detach moved n) = is_element n.
Proof. destruct n; reflexivity. Qed.

Lemma detach_collected (moved : list path) (n : node) :
  collected (detach moved n) = collected n.
Proof. destruct n; reflexivity. Qed.

Lemma detach_off (moved : list path) (n : node) :
  isContentEditableTurnedOff (detach moved n) = isContentEditableTurnedOff n.
Proof. destruct n; reflexivity. Qed.

Lemma detach_isBlock (moved : list path) (n : node) :
  isBlock (detach moved n) = isBlock n.
Proof. destruct n; reflexivity. Qed.

Lemma detach_from_blocks (moved : list path) (cs : list node) (j : nat) :
  existsb isBlock (List.filter is_element cs) = false ->
  existsb isBlock (List.filter is_element (detach_from moved j cs)) = false.
Proof.
  revert j. induction cs as [|c rest IH]; intros j H; [reflexivity|].
  cbn [detach_from List.filter] in *.
  assert (Hrest : existsb isBlock (List.filter is_element rest) = false).
  { destruct (is_element c); [|exact H].
    cbn [existsb] in H. apply orb_false_iff in H. apply H. }
  destruct (moved_away j moved); [apply IH; exact Hrest|].
  cbn [List.filter]. rewrite detach_is_element.
  destruct (is_element c); [|apply IH; exact Hrest].
  cbn [existsb] in *. apply orb_false_iff in H. destruct H as [H _].
  rewrite detach_isBlock, H. apply IH. exact Hrest.
Qed.

Lemma detach_hasBlockChildren (moved : list path) (n : node) :
  hasBlockChildren n = false -> hasBlockChildren (detach moved n) = false.
Proof.
  destruct n as [d|nm attrs cs|nm|d|t]; try (intros _; reflexivity).
  rewrite detach_elem. unfold hasBlockChildren, element_children.
  cbn [children]. apply detach_from_blocks.
Qed.

Lemma flattenBlocksDown_loop (rootNode : node) (preserveInline : bool) :
  preserveInline = false \/ getBlockNodes (normalize rootNode) <> [] ->
  let root := blockifyInlineNodes (normalize rootNode) in
  flattenBlocksDown rootNode preserveInline
  = with_children root
      (root_children root (List.filter (kept root) (getBlockNodes root))).
Proof.
  intros H root.
  unfold flattenBlocksDown. destruct preserveInline; cbn [negb]; cbv zeta.
  - destruct (getBlockNodes (normalize rootNode)) eqn:E;
      [destruct H as [H|H]; [discriminate|contradiction]|].
    fold root. rewrite append_blocks_kept. reflexivity.
  - fold root. rewrite append_blocks_kept.
    destruct (getBlockNodes root); reflexivity.
Qed.

(** A child the flattened root may have. *)
Definition flat_child (c : node) : Prop :=
is_element c = true /\ collected c = true
/\ (isContentEditableTurnedOff c = true \/ hasBlockChildren c = false).

Lemma root_children_flat (root : node) (moved l : list path) :
  Forall (fun p => In p (getBlockNodes root) /\ kept root p = true) l ->
  Forall flat_child (omap (block_now root moved) l).
Proof.
  induction 1 as [|p l [Hp Hk] _ IH]; [constructor|].
  destruct (getBlockNodes_collected root p Hp) as (n & Hn & Hc).
  apply filter_In in Hp. destruct Hp as [Hp _].
  destruct (descendant_paths_elements root p Hp) as (m & Hm & He).
  cbn [omap list_omap]. unfold block_now at 1. unfold kept in Hk.
  rewrite Hn in *. injection Hm as <-. constructor; [|exact IH].
  unfold flat_child.
  rewrite detach_is_element, detach_collected, detach_off.
  split; [exact He|]. split; [exact Hc|].
  unfold appendable in Hk.
  destruct (isContentEditableTurnedOff n); [left; reflexivity|right].
  cbn [orb] in Hk. apply andb_true_iff in Hk. destruct Hk as [_ Hk].
  apply negb_true_iff in Hk. apply detach_hasBlockChildren. exact Hk.
Qed.

(** Where [flattenBlocksDown] does not stop early, the root ends with
    elements only, each a block or a non-editable element, and no
    editable one of them has a block among its own children.  (Deeper
    in a child, below an element that is no block, a block may
    remain.) *)
Theorem flattenBlocksDown_unnests_blocks
    (rootNode : node) (preserveInline : bool) :
  preserveInline = false \/ getBlockNodes (normalize rootNode) <> [] ->
  Forall flat_child (children (flattenBlocksDown rootNode preserveInline)).
Proof.
  intros H. rewrite (flattenBlocksDown_loop rootNode preserveInline H).
  set (root := blockifyInlineNodes (normalize rootNode)).
  assert (Hflat : Forall flat_child
            (root_children root
               (List.filter (kept root) (getBlockNodes root)))).
  { apply root_children_flat. apply List.Forall_forall. intros p Hp.
    apply filter_In in Hp. exact Hp. }
  destruct root as [d|nm attrs cs|nm|d|t]; try constructor.
  exact Hflat.
Qed.

(** The theorem at
    [<div>a<blockquote><p>x</p><ul><li>y</li></ul></blockquote></div>]:
    the text, the paragraph and the list come out side by side. *)
Lemma flattenBlocksDown_unnests_blocks_witness :
  let rootNode :=
    Elem "DIV" []
      [Text "a";
       Elem "BLOCKQUOTE" []
         [Elem "P" [] [Text "x"];
          Elem "UL" [] [Elem "LI" [] [Text "y"]]]] in
  flattenBlocksDown rootNode false
  = Elem "DIV" []
      [Elem "P" [] [Text "a"]; Elem "P" [] [Text "x"];
       Elem "UL" [] [Elem "LI" [] [Text "y"]]]
  /\ Forall flat_child (children (flattenBlocksDown rootNode false)).
Proof.
  intros rootNode. split; [reflexivity|].
  apply flattenBlocksDown_unnests_blocks. left. reflexivity.
Defined.

End DataFilterRootFacts.

(* ===================================================================== *)
(** * Facts: a second pass of [flattenBlocksDown]                        *)
(* ===================================================================== *)

Module DataFilterTwiceFacts.
Import Dom Js DataFilter DomFacts DomTextFacts DataFilterFacts
  DataFilterRootFacts.

(** ** References and the elements they stand for *)

Lemma descendant_paths_descendants (n : node) (q : path) (d : node) :
  In q (descendant_paths n) -> node_at n q = Some d ->
  In d (descendants n).
Proof.
  revert q d. induction n as [t|nm attrs cs IH|nm|t|t] using node_induction;
    intros q d H Hn; try destruct H.
  rewrite descendant_paths_elem in H.
  destruct (paths_from_In cs 0 q H) as (i & c & q' & -> & Hnth & He & Hq).
  cbn [Nat.add node_at children] in Hn. rewrite Hnth in Hn.
  rewrite descendants_elem. apply in_flat_map. exists c.
  pose proof (nth_error_In cs i Hnth) as Hc.
  split; [exact Hc|]. rewrite He. destruct Hq as [->|Hq].
  - cbn [node_at] in Hn. injection Hn as <-. left. reflexivity.
  - right. rewrite List.Forall_forall in IH. exact (IH c Hc q' d Hq Hn).
Qed.

Lemma descendants_paths (n d : node) :
  In d (descendants n) ->
  exists q, In q (descendant_paths n) /\ node_at n q = Some d.
Proof.
  revert d. induction n as [t|nm attrs cs IH|nm|t|t] using node_induction;
    intros d H; try destruct H.
  rewrite descendants_elem in H. apply in_flat_map in H.
  destruct H as (c & Hc & H).
  destruct (is_element c) eqn:He; [|destruct H].
  destruct (In_nth_error cs c Hc) as (i & Hnth).
  destruct H as [<-|H].
  - exists [i]. split.
    + rewrite descendant_paths_elem.
      apply (paths_from_intro cs 0 i c []); auto.
    + cbn [node_at children]. rewrite Hnth. reflexivity.
  - rewrite List.Forall_forall in IH.
    destruct (IH c Hc d H) as (q & Hq & Hn).
    exists (i :: q). split.
    + rewrite descendant_paths_elem.
      apply (paths_from_intro cs 0 i c q); auto.
    + cbn [node_at children]. rewrite Hnth. exact Hn.
Qed.

Lemma node_at_app (n : node) (p q : path) (k : node) :
  node_at n p = Some k -> node_at n (p ++ q) = node_at k q.
Proof.
  revert n. induction p as [|i p IH]; intros n H.
  - injection H as ->. reflexivity.
  - cbn [app node_at] in *.
    destruct (nth_error (children n) i) as [c|]; [|discriminate].
    exact (IH c H).
Qed.

Lemma descendant_paths_app (n : node) (p q : path) (k : node) :
  In p (descendant_paths n) -> node_at n p = Some k ->
  In q (descendant_paths k) -> In (p ++ q) (descendant_paths n).
Proof.
  revert p. induction n as [t|nm attrs cs IH|nm|t|t] using node_induction;
    intros p H Hn Hq; try destruct H.
  rewrite descendant_paths_elem in *.
  destruct (paths_from_In cs 0 p H) as (i & c & p' & -> & Hnth & He & Hp).
  cbn [Nat.add node_at children] in Hn. rewrite Hnth in Hn.
  cbn [Nat.add app].
  apply (paths_from_intro cs 0 i c (p' ++ q) Hnth He). right.
  destruct Hp as [->|Hp].
  - cbn [node_at] in Hn. injection Hn as ->. exact Hq.
  - rewrite List.Forall_forall in IH.
    exact (IH c (nth_error_In cs i Hnth) p' Hp Hn Hq).
Qed.

(** The references to what was moved from below [p]. *)
Lemma below_In (j : nat) (moved : list path) (q : path) :
  In q (below j moved) <-> In (j :: q) moved.
Proof.
  unfold below. induction moved as [|m moved IH].
  - split; intros H; destruct H.
  - cbn [omap list_omap].
    destruct m as [|i m'].
    + rewrite IH. split; [intros H; right; exact H|].
      intros [H|H]; [discriminate|exact H].
    + destruct (Nat.eqb_spec i j) as [->|Hne].
      * cbn [In]. rewrite IH. split.
        -- intros [->|H]; [left; reflexivity|right; exact H].
        -- intros [H|H]; [injection H as ->; left; reflexivity
                         |right; exact H].
      * rewrite IH. split; [intros H; right; exact H|].
        intros [H|H]; [injection H as -> _; contradiction|exact H].
Qed.

Lemma below_path_In (p : path) (moved : list path) (q : path) :
  In q (below_path p moved) <-> In (p ++ q) moved.
Proof.
  revert moved. induction p as [|j p IH]; intros moved; [reflexivity|].
  cbn [below_path app]. rewrite IH. apply below_In.
Qed.

(** ** The subtrees of a normalized tree *)

Lemma fixed_children (nm : string) (attrs : list (string * string))
    (cs : list node) :
  fixed (Elem nm attrs cs) -> Forall fixed cs.
Proof.
  unfold fixed. cbn [normalize]. intros H. injection H as H.
  rewrite <- H. apply normalize_list_fixed.
Qed.

Lemma fixed_node_at (p : path) (n k : node) :
  fixed n -> node_at n p = Some k -> fixed k.
Proof.
  revert n. induction p as [|i p IH]; intros n Hf H.
  - injection H as <-. exact Hf.
  - cbn [node_at] in H.
    destruct (nth_error (children n) i) as [c|] eqn:E; [|discriminate].
    apply (IH c); [|exact H].
    destruct n as [t|nm attrs cs|nm|t|t];
      try (destruct i; discriminate).
    pose proof (fixed_children nm attrs cs Hf) as Hcs.
    rewrite List.Forall_forall in Hcs. apply Hcs.
    exact (nth_error_In cs i E).
Qed.

Lemma blockified_root_fixed (rootNode : node) :
  fixed (blockifyInlineNodes (normalize rootNode)).
Proof.
  destruct rootNode as [t|nm attrs cs|nm|t|t]; try reflexivity.
  rewrite blockifyInlineNodes_normalized. unfold fixed. cbn [normalize].
  f_equal.
  assert (Hm : merged (map blockified (normalize_list cs)) = true)
    by apply merged_blockified, merged_merge_text.
  assert (Hf : Forall fixed (map blockified (normalize_list cs))).
  { apply Forall_map. eapply List.Forall_impl; [|apply normalize_list_fixed].
    intros c. apply blockified_fixed. }
  rewrite (map_fixed _ Hf). apply merged_same. exact Hm.
Qed.

(** ** Roots a pass leaves as they are *)

(** A child of the root that a pass puts back as it is: the test of the
    loop keeps it, [blockifyInlineNodes] leaves it at the root,
    [normalize] has nothing to do in it, and the test keeps no block and
    no non-editable element below it. *)
Definition stable (c : node) : Prop :=
appendable c = true
/\ stays_at_root c = true
/\ normalize c = c
/\ (forall d, In d (descendants c) ->
      collected d = true -> appendable d = false).

Lemma filter_none {A : Type} (f : A -> bool) (l : list A) :
  (forall a, In a l -> f a = false) -> List.filter f l = [].
Proof.
  induction l as [|a l IH]; intros H; [reflexivity|].
  cbn [List.filter]. rewrite (H a (or_introl eq_refl)).
  apply IH. intros b Hb. apply H. right. exact Hb.
Qed.

Lemma stable_blocks_from (nm : string) (attrs : list (string * string))
    (cs pre : list node) :
  Forall (fun c => forall d, In d (descendants c) ->
                     collected d = true -> appendable d = false) cs ->
  List.filter (kept (Elem nm attrs (pre ++ cs)))
    (blocks_from (length pre) cs)
  = List.filter (kept (Elem nm attrs (pre ++ cs))) (tops (length pre) cs).
Proof.
  intros H. revert pre. induction H as [|c rest Hc _ IH]; intros pre;
    [reflexivity|].
  cbn [blocks_from tops]. rewrite !List.filter_app. f_equal.
  - destruct (is_element c); [|reflexivity]. cbn [andb].
    rewrite List.filter_app.
    match goal with
    | |- _ ++ ?b = _ => assert (E : b = [])
    end.
    { apply filter_none. intros p Hp. apply in_map_iff in Hp.
      destruct Hp as (q & <- & Hq). unfold kept.
      cbn [node_at children]. rewrite nth_error_middle.
      pose proof Hq as Hq'. apply filter_In in Hq'.
      destruct Hq' as [Hq' Hcol].
      destruct (node_at c q) as [d|] eqn:Ed; [|reflexivity].
      apply Hc; [|exact Hcol].
      exact (descendant_paths_descendants c q d Hq' Ed). }
    rewrite E, app_nil_r. reflexivity.
  - specialize (IH (pre ++ [c])).
    rewrite <- app_assoc, length_app in IH. cbn [app length] in IH.
    rewrite Nat.add_1_r in IH. exact IH.
Qed.

Lemma stable_root_children (nm : string) (attrs : list (string * string))
    (cs : list node) :
  Forall (fun c => is_element c = true /\ collected c = true /\ stable c)
    cs ->
  root_children (Elem nm attrs cs)
    (append_blocks (Elem nm attrs cs) (getBlockNodes (Elem nm attrs cs)) [])
  = cs.
Proof.
  intros H. rewrite append_blocks_kept, getBlockNodes_elem.
  assert (Hd : Forall (fun c => forall d, In d (descendants c) ->
                         collected d = true -> appendable d = false) cs).
  { eapply List.Forall_impl; [|exact H].
    intros c (_ & _ & _ & _ & _ & Hd). exact Hd. }
  pose proof (stable_blocks_from nm attrs cs [] Hd) as E.
  cbn [app length] in E. rewrite E. unfold root_children.
  rewrite (root_children_tops nm attrs _ cs []).
  - apply filter_all. eapply List.Forall_impl; [|exact H].
    intros c (He & Hc & Ha & _). unfold keepable.
    rewrite He, Hc, Ha. reflexivity.
  - apply filter_singletons, tops_singletons.
Qed.

Lemma elements_normalize (nm : string) (attrs : list (string * string))
    (cs : list node) :
  Forall (fun c => is_element c = true /\ collected c = true /\ stable c)
    cs ->
  normalize (Elem nm attrs cs) = Elem nm attrs cs.
Proof.
  intros H. cbn [normalize]. rewrite map_fixed.
  - rewrite merge_text_elements; [reflexivity|].
    eapply List.Forall_impl; [|exact H]. intros c (He & _). exact He.
  - eapply List.Forall_impl; [|exact H].
    intros c (_ & _ & _ & _ & Hf & _). exact Hf.
Qed.

Lemma elements_blockify (nm : string) (attrs : list (string * string))
    (cs : list node) :
  Forall (fun c => is_element c = true /\ collected c = true /\ stable c)
    cs ->
  blockifyInlineNodes (Elem nm attrs cs) = Elem nm attrs cs.
Proof.
  intros H. rewrite <- (elements_normalize nm attrs cs H) at 1.
  rewrite blockifyInlineNodes_normalized. f_equal.
  change (normalize_list cs) with (children (normalize (Elem nm attrs cs))).
  rewrite (elements_normalize nm attrs cs H). cbn [children].
  apply map_same. eapply List.Forall_impl; [|exact H].
  intros c (He & _ & _ & Hs & _). unfold blockified.
  destruct c; try discriminate.
  cbn [is_element andb]. rewrite Hs. reflexivity.
Qed.

(** A pass over a root whose children are stable changes nothing. *)
Lemma stable_flatten (nm : string) (attrs : list (string * string))
    (cs : list node) (preserveInline : bool) :
  Forall (fun c => is_element c = true /\ collected c = true /\ stable c)
    cs ->
  flattenBlocksDown (Elem nm attrs cs) preserveInline = Elem nm attrs cs.
Proof.
  intros H. unfold flattenBlocksDown.
  rewrite (elements_normalize nm attrs cs H).
  assert (Hflat :
    with_children (Elem nm attrs cs)
      (root_children (Elem nm attrs cs)
         (append_blocks (Elem nm attrs cs)
            (getBlockNodes (Elem nm attrs cs)) []))
    = Elem nm attrs cs).
  { rewrite (stable_root_children nm attrs cs H). reflexivity. }
  destruct preserveInline; cbn [negb]; cbv zeta;
    rewrite ?(elements_blockify nm attrs cs H);
    destruct (getBlockNodes (Elem nm attrs cs)) eqn:E;
    try reflexivity; exact Hflat.
Qed.

(** Where the pass stops early it returns the normalized root, and a
    second pass stops early as well. *)
Lemma early_flatten (rootNode : node) :
  getBlockNodes (normalize rootNode) = [] ->
  flattenBlocksDown rootNode true = normalize rootNode
  /\ flattenBlocksDown (normalize rootNode) true = normalize rootNode.
Proof.
  intros Hnone. unfold flattenBlocksDown. cbn [negb]. cbv zeta.
  pose proof (normalize_fixed rootNode) as Hfix. unfold fixed in Hfix.
  rewrite !Hfix, Hnone. split; reflexivity.
Qed.

Lemma with_children_children (n : node) (cs : list node) :
  is_element n = true -> children (with_children n cs) = cs.
Proof. destruct n; try discriminate. reflexivity. Qed.

Lemma Forall_with_children (P : node -> Prop) (n : node) (cs : list node) :
  Forall P cs -> Forall P (children (with_children n cs)).
Proof. intros H. destruct n; try constructor. exact H. Qed.

(** The pass over a root, when it does not stop early and its result
    has stable children. *)
Lemma stable_result (rootNode : node) (preserveInline : bool) :
  preserveInline = false \/ getBlockNodes (normalize rootNode) <> [] ->
  Forall stable (children (flattenBlocksDown rootNode preserveInline)) ->
  flattenBlocksDown (flattenBlocksDown rootNode preserveInline)
    preserveInline
  = flattenBlocksDown rootNode preserveInline.
Proof.
  intros Hloop Hs.
  destruct rootNode as [t|nm attrs cs|nm|t|t];
    try (destruct preserveInline; reflexivity).
  pose proof (flattenBlocksDown_loop _ preserveInline Hloop) as E.
  cbv zeta in E.
  assert (Hflat : Forall flat_child
            (children (flattenBlocksDown (Elem nm attrs cs)
                         preserveInline))).
  { rewrite E. rewrite blockifyInlineNodes_normalized.
    cbn [with_children children]. apply root_children_flat.
    apply List.Forall_forall. intros p Hp.
    apply filter_In in Hp. exact Hp. }
  rewrite E in *. rewrite blockifyInlineNodes_normalized in *.
  cbn [with_children children] in *.
  apply stable_flatten.
  apply List.Forall_forall. intros c Hc.
  rewrite List.Forall_forall in Hflat, Hs.
  destruct (Hflat c Hc) as (He & Hcol & _).
  split; [exact He|]. split; [exact Hcol|]. exact (Hs c Hc).
Qed.

(** ** Roots in which no kept node lies below another *)

Lemma collected_stays_at_root (n : node) :
  collected n = true ->
  (isContentEditableTurnedOff n = true -> stays_at_root n = true) ->
  stays_at_root n = true.
Proof.
  unfold collected, stays_at_root. intros Hc H.
  destruct (isBlock n); [reflexivity|]. cbn [orb] in Hc. exact (H Hc).
Qed.

Lemma apart_stable (root : node) (l : list path) :
  fixed root ->
  let survivors := List.filter (kept root) (getBlockNodes root) in
  (forall p q, In p survivors -> In (p ++ q) survivors -> q = []) ->
  (forall p n, In p survivors -> node_at root p = Some n ->
     isContentEditableTurnedOff n = true -> stays_at_root n = true) ->
  Forall (fun p => In p survivors) l ->
  Forall stable (omap (block_now root survivors) l).
Proof.
  intros Hfix survivors Hapart Hoff Hl.
  induction Hl as [|p l Hp _ IH]; [constructor|].
  cbn [omap list_omap]. unfold block_now at 1.
  pose proof Hp as Hp'. apply filter_In in Hp'.
  destruct Hp' as [Hblock Hkept].
  pose proof Hblock as Hpath. apply filter_In in Hpath.
  destruct Hpath as [Hpath Hcol].
  unfold kept in Hkept.
  destruct (node_at root p) as [n|] eqn:En; [|discriminate].
  constructor; [|exact IH].
  assert (Hnone : Forall (fun q => q = []) (below_path p survivors)).
  { apply List.Forall_forall. intros q Hq. apply below_path_In in Hq.
    exact (Hapart p q Hp Hq). }
  rewrite (detach_roots _ n Hnone).
  split; [exact Hkept|]. split; [|split].
  - apply collected_stays_at_root; [exact Hcol|].
    exact (Hoff p n Hp En).
  - exact (fixed_node_at p root n Hfix En).
  - intros d Hd Hdc. apply not_true_is_false. intros Hda.
    destruct (descendants_paths n d Hd) as (q & Hq & Hnq).
    assert (Hin : In (p ++ q) survivors).
    { apply filter_In. split.
      - apply filter_In. split.
        + exact (descendant_paths_app root p q n Hpath En Hq).
        + rewrite (node_at_app root p q n En), Hnq. exact Hdc.
      - unfold kept. rewrite (node_at_app root p q n En), Hnq. exact Hda. }
    pose proof (Hapart p q Hp Hin) as ->.
    pose proof (descendant_paths_nonempty n) as Hne.
    rewrite List.Forall_forall in Hne. exact (Hne [] Hq eq_refl).
Qed.

(** C6, as the code has it.  A second pass of [flattenBlocksDown] with
    the same flag returns the tree the first pass returned
    - when the first pass stops early (the flag is set and the
      normalized root has no block and no non-editable element below
      it);
    - when every child of the root the first pass returns is stable:
      the test of the loop still keeps it, its tag is one
      [blockifyInlineNodes] leaves at the root, no two text nodes stand
      side by side in it, and the test keeps no block and no
      non-editable element that is left below it;
    - in particular when, in the root as [blockifyInlineNodes] leaves
      it, no node the loop keeps lies below another node it keeps, and
      every non-editable node it keeps has a tag that stays at the
      root. *)
Theorem flattenBlocksDown_twice_on_stable
    (rootNode : node) (preserveInline : bool) :
  let once := flattenBlocksDown rootNode preserveInline in
  let root := blockifyInlineNodes (normalize rootNode) in
  let survivors := List.filter (kept root) (getBlockNodes root) in
  (preserveInline = true /\ getBlockNodes (normalize rootNode) = [] ->
   once = normalize rootNode
   /\ flattenBlocksDown once preserveInline = once)
  /\ (Forall stable (children once) ->
      flattenBlocksDown once preserveInline = once)
  /\ ((forall p q, In p survivors -> In (p ++ q) survivors -> q = []) ->
      (forall p n, In p survivors -> node_at root p = Some n ->
         isContentEditableTurnedOff n = true -> stays_at_root n = true) ->
      flattenBlocksDown once preserveInline = once).
Proof.
  intros once root survivors.
  assert (Hcases : (preserveInline = true
                    /\ getBlockNodes (normalize rootNode) = [])
                   \/ (preserveInline = false
                       \/ getBlockNodes (normalize rootNode) <> [])).
  { destruct preserveInline; [|right; left; reflexivity].
    destruct (getBlockNodes (normalize rootNode));
      [left; split; reflexivity|right; right; discriminate]. }
  assert (Hearly : preserveInline = true
                   /\ getBlockNodes (normalize rootNode) = [] ->
                   once = normalize rootNode
                   /\ flattenBlocksDown once preserveInline = once).
  { intros [-> Hnone]. unfold once.
    destruct (early_flatten rootNode Hnone) as [E1 E2].
    rewrite E1. split; [reflexivity|exact E2]. }
  split; [exact Hearly|]. split.
  - intros Hs. destruct Hcases as [He|Hloop].
    + apply Hearly. exact He.
    + exact (stable_result rootNode preserveInline Hloop Hs).
  - intros Hapart Hoff. destruct Hcases as [He|Hloop].
    + apply Hearly. exact He.
    + apply (stable_result rootNode preserveInline Hloop).
      unfold once.
      rewrite (flattenBlocksDown_loop _ preserveInline Hloop).
      apply Forall_with_children. unfold root_children.
      apply (apart_stable root survivors).
      * apply blockified_root_fixed.
      * exact Hapart.
      * exact Hoff.
      * apply List.Forall_forall. intros p Hp. exact Hp.
Qed.

(** The theorem at a block quote that holds a paragraph and a
    non-editable media holder that holds a figure: the paragraph and the
    figure are moved out, the quote is dropped, the emptied holder is
    kept; and at [<div><blockquote><p>x</p></blockquote></div>], where
    no kept node lies below another. *)
Lemma flattenBlocksDown_twice_on_stable_witness :
  let holder :=
    Elem "DIV" [("contenteditable", "false")]
      [Elem "FIGURE" [] [Elem "IMG" [] []]] in
  let rootNode :=
    Elem "DIV" [] [Elem "BLOCKQUOTE" [] [Elem "P" [] [Text "x"]]; holder] in
  let quoted :=
    Elem "DIV" [] [Elem "BLOCKQUOTE" [] [Elem "P" [] [Text "x"]]] in
  flattenBlocksDown rootNode false
  = Elem "DIV" []
      [Elem "P" [] [Text "x"];
       Elem "DIV" [("contenteditable", "false")] [];
       Elem "FIGURE" [] [Elem "IMG" [] []]]
  /\ flattenBlocksDown (flattenBlocksDown rootNode false) false
     = flattenBlocksDown rootNode false
  /\ flattenBlocksDown quoted true = Elem "DIV" [] [Elem "P" [] [Text "x"]]
  /\ flattenBlocksDown (flattenBlocksDown quoted true) true
     = flattenBlocksDown quoted true.
Proof.
  intros holder rootNode quoted.
  split; [reflexivity|]. split; [|split; [reflexivity|]].
  - destruct (flattenBlocksDown_twice_on_stable rootNode false)
      as (_ & H & _).
    apply H.
    change (children (flattenBlocksDown rootNode false))
      with [Elem "P" [] [Text "x"];
            Elem "DIV" [("contenteditable", "false")] [];
            Elem "FIGURE" [] [Elem "IMG" [] []]].
    repeat apply List.Forall_cons; try apply List.Forall_nil;
      (split; [reflexivity|split; [reflexivity|split; [reflexivity|]]]);
      intros d Hd; cbn in Hd;
      repeat (destruct Hd as [<-|Hd]; [intros Hc; vm_compute in Hc;
                                       discriminate Hc|]);
      destruct Hd.
  - destruct (flattenBlocksDown_twice_on_stable quoted true)
      as (_ & _ & H).
    apply H.
    + intros p q Hp Hq.
      change (In p [[0; 0]]) in Hp. change (In (p ++ q) [[0; 0]]) in Hq.
      destruct Hp as [<-|[]]. destruct Hq as [Hq|[]].
      destruct q; [reflexivity|discriminate Hq].
    + intros p n Hp. change (In p [[0; 0]]) in Hp.
      destruct Hp as [<-|[]]. intros Hn. cbn in Hn. injection Hn as <-.
      reflexivity.
Defined.

End DataFilterTwiceFacts.

(* ===================================================================== *)
(** * Facts: what the sanitizer builds                                    *)
(* ===================================================================== *)

Module SanitizeOutputFacts.
Import Dom Js Sanitize DomFacts DomTextFacts SanitizeFacts.

(** ** The lists of the rules stay as they are *)

(** [r] has the lists of [s]: the run has written to the protocols, if
    to anything. *)
Definition same_lists (s r : sanitizer) : Prop :=
allowed_elements r = allowed_elements s
/\ attributes (cfg r) = attributes (cfg s)
/\ classnames (cfg r) = classnames (cfg s)
/\ add_attributes (cfg r) = add_attributes (cfg s)
/\ allow_comments (cfg r) = allow_comments (cfg s)
/\ remove_element_contents (cfg r) = remove_element_contents (cfg s)
/\ remove_all_contents (cfg r) = remove_all_contents (cfg s).

Lemma same_lists_refl (s : sanitizer) : same_lists s s.
Proof. repeat split. Qed.

Lemma same_lists_trans (s r t : sanitizer) :
  same_lists s r -> same_lists r t -> same_lists s t.
Proof.
  intros (A1 & A2 & A3 & A4 & A5 & A6 & A7) (B1 & B2 & B3 & B4 & B5 & B6 & B7).
  repeat split; congruence.
Qed.

Definition same_config (c c' : config) : Prop :=
attributes c' = attributes c /\ classnames c' = classnames c
/\ add_attributes c' = add_attributes c
/\ allow_comments c' = allow_comments c
/\ remove_element_contents c' = remove_element_contents c
/\ remove_all_contents c' = remove_all_contents c.

(** One pass of the attribute loop: the lists of the rules are kept, and
    the new element gains the attribute of the entry, if any. *)
Lemma clean_attribute_step (name : string) (ea : list (string * string))
    (al : list attr_entry) (i : nat) (entry : attr_entry) (c : config)
    (na : list (string * string)) (r : nat * attr_state) :
  clean_attribute name ea al i entry (c, na) = Ok r ->
  same_config c (fst (snd r))
  /\ incl (map fst (snd (snd r))) (entry_name entry :: map fst na).
Proof.
  assert (Hset : forall v, incl (map fst (set_attr (entry_name entry) v na))
                             (entry_name entry :: map fst na)).
  { intros v. generalize (entry_name entry). intros k.
    induction na as [|[k' v'] na IH]; cbn [set_attr map fst].
    - intros x [<-|[]]. left. reflexivity.
    - destruct (String.eqb_spec k' k) as [->|Hne]; cbn [map fst].
      + intros x Hx. right. exact Hx.
      + intros x [<-|Hx]; [right; left; reflexivity|].
        destruct (IH x Hx) as [<-|Hin]; [left; reflexivity|].
        right. right. exact Hin. }
  assert (Hsame : incl (map fst na) (entry_name entry :: map fst na))
    by (intros x Hx; right; exact Hx).
  unfold clean_attribute.
  destruct (get_attr (entry_name entry) ea) as [v|].
  - destruct (protocols c !! name ≫= (fun m => m !! entry_name entry))
      as [protos|];
      [destruct (first_match _ _ _)|];
      destruct (String.eqb (entry_name entry) "class");
      try destruct (classnames _ !! name);
      intros H; apply bind_ok in H; destruct H as (ok & _ & H);
      injection H as <-; cbn [fst snd]; (split; [repeat split|]);
      destruct ok; auto.
  - intros [= <-]. cbn [fst snd]. split; [repeat split|exact Hsame].
Qed.

Lemma clean_attributes_steps (fuel : nat) (name : string)
    (ea : list (string * string)) (al : list attr_entry) :
  forall (i : nat) (c : config) (na : list (string * string))
         (r : attr_state),
    clean_attributes fuel name ea al i (c, na) = Ok r ->
    same_config c (fst r)
    /\ incl (map fst (snd r)) (map entry_name al ++ map fst na).
Proof.
  induction fuel as [|fuel IH]; intros i c na r H; cbn [clean_attributes] in H.
  - destruct (nth_error al i); [discriminate|].
    injection H as <-. split; [repeat split|].
    intros x Hx. apply in_or_app. right. exact Hx.
  - destruct (nth_error al i) as [entry|] eqn:E.
    + apply bind_ok in H. destruct H as ([i1 [c1 na1]] & H1 & H2).
      apply clean_attribute_step in H1. cbn [fst snd] in *.
      apply IH in H2. destruct H1 as [A1 A2], H2 as [B1 B2].
      split.
      * destruct A1 as (A11 & A12 & A13 & A14 & A15 & A16),
                 B1 as (B11 & B12 & B13 & B14 & B15 & B16).
        repeat split; congruence.
      * intros x Hx. apply B2 in Hx. apply in_app_or in Hx.
        apply in_or_app. destruct Hx as [Hx|Hx]; [left; exact Hx|].
        destruct (A2 x Hx) as [<-|Hin]; [left|right; exact Hin].
        apply in_map. apply nth_error_In with i. exact E.
    + injection H as <-. split; [repeat split|].
      intros x Hx. apply in_or_app. right. exact Hx.
Qed.

Lemma same_lists_clean (f : nat) :
  forall (s r : sanitizer) (ref : path) (e : node),
    plain s -> _clean f s ref e = Ok r -> same_lists s r.
Proof.
  induction f as [|f IH]; intros s r ref e Hp H; [discriminate|].
  assert (Hloop : forall (cs : list node) (s r : sanitizer) (ref : path)
                         (j : nat),
             plain s -> clean_children (_clean f) ref j cs s = Ok r ->
             same_lists s r).
  { clear s r ref e Hp H.
    induction cs as [|c cs IHcs]; intros s r ref j Hp H.
    - injection H as <-. apply same_lists_refl.
    - cbn [clean_children] in H. apply bind_ok in H.
      destruct H as (rm & Hm & H).
      apply (same_lists_trans _ rm); [apply (IH _ _ _ _ Hp Hm)|].
      apply (IHcs rm r ref (S j)); [|exact H].
      apply (keeps_plain s); [|exact Hp].
      apply (keeps_clean _ _ _ _ _ Hp Hm). }
  assert (Hiter : forall (name : string) (kids : list node) (s r : sanitizer)
                         (ref : path),
             plain s -> iterate_plain (_clean f) ref name kids s = Ok r ->
             same_lists s r).
  { intros name kids s1 r1 ref1 Hp1 H1. unfold iterate_plain in H1.
    destruct (negb _ && negb _).
    - apply (Hloop kids s1 r1 ref1 0); assumption.
    - injection H1 as <-. apply same_lists_refl. }
  destruct e as [d|nm attrs kids|nm|d|t]; cbn [_clean] in H.
  - injection H as <-. repeat split.
  - rewrite clean_element_plain in H by exact Hp.
    unfold element_plain in H.
    destruct (bool_decide (toLowerCase nm ∈ allowed_elements s)).
    + apply bind_ok in H. destruct H as ([c' na] & Hattr & H).
      cbn [fst snd] in H.
      apply bind_ok in H. destruct H as (rin & Hin & H). injection H as <-.
      apply clean_attributes_steps in Hattr.
      destruct Hattr as [(A1 & A2 & A3 & A4 & A5 & A6) _]. cbn [fst] in *.
      assert (Hp1 : plain (with_current (with_cfg s c') [])) by exact Hp.
      apply (Hiter _ _ _ _ _ Hp1) in Hin.
      destruct Hin as (B1 & B2 & B3 & B4 & B5 & B6 & B7).
      cbn [with_current with_cfg cfg allowed_elements] in *.
      repeat split; cbn [with_current cfg allowed_elements]; congruence.
    + apply bind_ok in H. destruct H as (rin & Hin & H). injection H as <-.
      apply (Hiter _ _ _ _ _ Hp) in Hin. exact Hin.
  - injection H as <-. repeat split.
  - destruct (allow_comments (cfg s)); injection H as <-; repeat split.
  - injection H as <-. repeat split.
Qed.

(** ** A property of every node that is built *)

Section Built.

Variable s0 : sanitizer.
(** What is asked of an element, by its name and attributes, and of
    another node. *)
Variable okE : string -> list (string * string) -> bool.
Variable okL : node -> bool.

Fixpoint built (n : node) : bool :=
match n with
| Elem nm attrs cs => okE nm attrs && forallb built cs
| _ => okL n
end.

Hypothesis okL_text : forall d, okL (Text d) = true.
Hypothesis okL_entity : forall nm, okL (EntityRef nm) = true.
Hypothesis okL_comment :
  forall d, allow_comments (cfg s0) = true -> okL (Comment d) = true.
Hypothesis okE_built :
  forall (s : sanitizer) (fuel : nat) (nm : string)
         (attrs : list (string * string)) (c' : config)
         (na : list (string * string)),
    same_lists s0 s ->
    bool_decide (toLowerCase nm ∈ allowed_elements s) = true ->
    clean_attributes fuel (toLowerCase nm) attrs
      (allowed_plain (cfg s) (toLowerCase nm)) 0 (cfg s, []) = Ok (c', na) ->
    okE nm (add_config_attributes c' (toLowerCase nm) na) = true.

Lemma built_merge_text (l : list node) :
  forallb built l = true -> forallb built (merge_text l) = true.
Proof.
  induction l as [|x l IH]; [reflexivity|].
  cbn [forallb]. intros H. apply andb_true_iff in H. destruct H as [Hx Hl].
  specialize (IH Hl).
  destruct x as [d| | | |]; try (cbn [merge_text forallb]; rewrite Hx, IH;
    reflexivity).
  cbn [merge_text]. destruct (String.eqb d ""); [exact IH|].
  destruct (merge_text l) as [|[d'| | | |] r']; cbn [forallb built] in *;
    rewrite ?okL_text in *; cbn [andb] in *; exact IH.
Qed.

Lemma built_normalize (n : node) : built n = true -> built (normalize n) = true.
Proof.
  induction n as [d|nm attrs cs IH|nm|d|t] using node_induction;
    try (intros H; exact H).
  cbn [normalize built]. intros H.
  apply andb_true_iff in H. destruct H as [Hn Hcs]. rewrite Hn.
  cbn [andb]. apply built_merge_text.
  revert Hcs. induction IH as [|c cs Hc _ IHcs]; [reflexivity|].
  cbn [forallb map]. intros H. apply andb_true_iff in H.
  destruct H as [H1 H2]. rewrite (Hc H1), (IHcs H2). reflexivity.
Qed.

Lemma built_N (l : list node) :
  forallb built l = true -> forallb built (normalize_list l) = true.
Proof.
  intros H. unfold normalize_list. apply built_merge_text.
  induction l as [|c l IH]; [reflexivity|].
  cbn [forallb map] in *. apply andb_true_iff in H. destruct H as [H1 H2].
  rewrite (built_normalize _ H1), (IH H2). reflexivity.
Qed.

Lemma built_clean (f : nat) :
  forall (s r : sanitizer) (ref : path) (e : node),
    plain s -> same_lists s0 s ->
    forallb built (current_element s) = true ->
    _clean f s ref e = Ok r ->
    forallb built (current_element r) = true.
Proof.
  induction f as [|f IH]; intros s r ref e Hp Hs Ht H; [discriminate|].
  assert (Hloop : forall (cs : list node) (s r : sanitizer) (ref : path)
                         (j : nat),
             plain s -> same_lists s0 s ->
             forallb built (current_element s) = true ->
             clean_children (_clean f) ref j cs s = Ok r ->
             forallb built (current_element r) = true).
  { clear s r ref e Hp Hs Ht H.
    induction cs as [|c cs IHcs]; intros s r ref j Hp Hs Ht H.
    - injection H as <-. exact Ht.
    - cbn [clean_children] in H. apply bind_ok in H.
      destruct H as (rm & Hm & H).
      apply (IHcs rm r ref (S j)); [| | |exact H].
      + apply (keeps_plain s); [|exact Hp].
        apply (keeps_clean _ _ _ _ _ Hp Hm).
      + apply (same_lists_trans _ s); [exact Hs|].
        apply (same_lists_clean _ _ _ _ _ Hp Hm).
      + apply (IH _ _ _ _ Hp Hs Ht Hm). }
  assert (Hiter : forall (name : string) (kids : list node) (s r : sanitizer)
                         (ref : path),
             plain s -> same_lists s0 s ->
             forallb built (current_element s) = true ->
             iterate_plain (_clean f) ref name kids s = Ok r ->
             forallb built (current_element r) = true).
  { intros name kids s1 r1 ref1 Hp1 Hs1 Ht1 H1. unfold iterate_plain in H1.
    destruct (negb _ && negb _).
    - apply (Hloop kids s1 r1 ref1 0); assumption.
    - injection H1 as <-. exact Ht1. }
  destruct e as [d|nm attrs kids|nm|d|t]; cbn [_clean] in H.
  - injection H as <-. cbn [with_current current_element].
    rewrite forallb_app, Ht. cbn. rewrite okL_text. reflexivity.
  - rewrite clean_element_plain in H by exact Hp.
    unfold element_plain in H.
    destruct (bool_decide (toLowerCase nm ∈ allowed_elements s)) eqn:Hal.
    + apply bind_ok in H. destruct H as ([c' na] & Hattr & H).
      cbn [fst snd] in H.
      apply bind_ok in H. destruct H as (rin & Hin & H). injection H as <-.
      cbn [with_current current_element].
      rewrite forallb_app, Ht. cbn [forallb built andb].
      rewrite (okE_built s f nm attrs c' na Hs Hal Hattr).
      cbn [andb]. rewrite andb_true_r.
      apply built_N.
      apply (Hiter (toLowerCase nm) kids (with_current (with_cfg s c') [])
               rin ref); [exact Hp| |reflexivity|exact Hin].
      apply clean_attributes_steps in Hattr.
      destruct Hattr as [(A1 & A2 & A3 & A4 & A5 & A6) _]. cbn [fst] in *.
      destruct Hs as (B1 & B2 & B3 & B4 & B5 & B6 & B7).
      repeat split; cbn [with_current with_cfg cfg allowed_elements];
        congruence.
    + apply bind_ok in H. destruct H as (rin & Hin & H). injection H as <-.
      cbn [with_current current_element]. apply built_N.
      apply (Hiter (toLowerCase nm) kids s rin ref); assumption.
  - injection H as <-. cbn [with_current current_element].
    rewrite forallb_app, Ht. cbn. rewrite okL_entity. reflexivity.
  - destruct (allow_comments (cfg s)) eqn:Ec; injection H as <-;
      [|exact Ht].
    cbn [with_current current_element]. rewrite forallb_app, Ht.
    cbn. rewrite okL_comment; [reflexivity|].
    destruct Hs as (_ & _ & _ & _ & B5 & _). congruence.
  - injection H as <-. exact Ht.
Qed.

Lemma built_children (f : nat) (cs : list node) :
  forall (s r : sanitizer) (ref : path) (j : nat),
    plain s -> same_lists s0 s ->
    forallb built (current_element s) = true ->
    clean_children (_clean f) ref j cs s = Ok r ->
    forallb built (current_element r) = true.
Proof.
  induction cs as [|c cs IHcs]; intros s r ref j Hp Hs Ht H.
  - injection H as <-. exact Ht.
  - cbn [clean_children] in H. apply bind_ok in H.
    destruct H as (rm & Hm & H).
    apply (IHcs rm r ref (S j)); [| | |exact H].
    + apply (keeps_plain s); [|exact Hp].
      apply (keeps_clean _ _ _ _ _ Hp Hm).
    + apply (same_lists_trans _ s); [exact Hs|].
      apply (same_lists_clean _ _ _ _ _ Hp Hm).
    + apply (built_clean _ _ _ _ _ Hp Hs Ht Hm).
Qed.

Lemma built_fragment (f : nat) (s : sanitizer) (container : node)
    (fragment : list node) (s' : sanitizer) :
  transformers s = [] ->
  same_lists s0 s ->
  clean_node f s container = Ok (fragment, s') ->
  forallb built fragment = true.
Proof.
  intros Ht Hs H. unfold clean_node in H.
  apply bind_ok in H. destruct H as (r & Hr & H). injection H as <- <-.
  cbn [with_current current_element]. apply built_N.
  set (s1 := with_whitelist_nodes (with_current s []) []) in *.
  assert (Hp : plain s1) by (split; [exact Ht|reflexivity]).
  assert (Hs1 : same_lists s0 s1) by exact Hs.
  apply (built_children f (children container) s1 r [] 0 Hp Hs1 eq_refl Hr).
Qed.

End Built.

(** ** Tags, attributes and node types of the fragment *)

(** Rules that allow [a] with [href] and [title], give every [a] a
    [rel], and allow [b] and the attribute [id] everywhere. *)
Definition links_only : options :=
{| o_elements := Some ["a"; "b"];
   o_attributes :=
     Some (list_to_map [("a", [Name "href"; Name "title"]);
                        (ALL, [Name "id"])]);
   o_allow_comments := false;
   o_protocols := None; o_classnames := None;
   o_add_attributes := Some (list_to_map [("a", [("rel", "nofollow")])]);
   o_remove_contents := None; o_transformers := None |}.

Definition link_input : node :=
Elem "BODY" []
  [Elem "DIV" [("onclick", "f()")]
     [Comment "c";
      Elem "A" [("href", "/x"); ("onclick", "g()"); ("id", "l")]
        [Text "x"; Elem "SCRIPT" [] [Text "y"]]]].

Definition link_output : list node :=
[Elem "A" [("href", "/x"); ("id", "l"); ("rel", "nofollow")] [Text "xy"]].

Lemma link_run :
  exists s', clean_node 9 (new links_only) link_input = Ok (link_output, s').
Proof.
  destruct (clean_node 9 (new links_only) link_input) as [[fragment s']| |]
    eqn:E; [|vm_compute in E; discriminate|vm_compute in E; discriminate].
  exists s'. vm_compute in E. injection E as <- _. reflexivity.
Qed.

Lemma forallb_same {A : Type} (f g : A -> bool) (l : list A) :
  (forall a, f a = g a) -> forallb f l = forallb g l.
Proof.
  intros H. induction l as [|a l IH]; [reflexivity|].
  cbn [forallb]. rewrite H, IH. reflexivity.
Qed.

(** Without transformers, and for a document in which no tag is a
    member of [Object.prototype] and no [id] or [name] hides a property
    of a form, every element of the fragment, at any depth, has a tag of
    the list of allowed elements. *)
Theorem fragment_tags_are_allowed (f : nat) (s : sanitizer)
    (container : node) (fragment : list node) (s' : sanitizer) :
  transformers s = [] ->
  ordinary_document container = true ->
  clean_node f s container = Ok (fragment, s') ->
  forallb (tags_within (allowed_elements s)) fragment = true.
Proof.
  intros Ht _ H. unfold clean_node in H.
  apply bind_ok in H. destruct H as (r & Hr & H). injection H as <- <-.
  cbn [with_current current_element]. apply tags_N.
  set (s1 := with_whitelist_nodes (with_current s []) []) in *.
  assert (Hp : plain s1) by (split; [exact Ht|reflexivity]).
  apply (tags_children f (children container) s1 r [] 0 Hp eq_refl Hr).
Qed.

Lemma fragment_tags_are_allowed_witness :
  forallb (tags_within (allowed_elements (new links_only))) link_output
  = true.
Proof.
  destruct link_run as [s' Hrun].
  exact (fragment_tags_are_allowed 9 (new links_only) link_input link_output
           s' eq_refl eq_refl Hrun).
Defined.

(** The attribute names the rules permit on an element: those listed
    for its tag, those listed for every tag, [class] where class names
    are listed for the tag, and the attributes the rules add. *)
Definition permitted_names (c : config) (name : string) : list string :=
map entry_name (default [] (attributes c !! name))
++ map entry_name (default [] (attributes c !! ALL))
++ match classnames c !! name with
   | Some (_ :: _) => ["class"]
   | _ => []
   end
++ map fst (default [] (add_attributes c !! name)).

Definition permitted (c : config) (nm : string)
    (attrs : list (string * string)) : bool :=
forallb (fun kv => contains (permitted_names c (toLowerCase nm)) (fst kv))
  attrs.

Fixpoint attributes_within (c : config) (n : node) : bool :=
match n with
| Elem nm attrs cs => permitted c nm attrs && forallb (attributes_within c) cs
| _ => true
end.

Lemma attributes_within_built (c : config) (n : node) :
  attributes_within c n = built (permitted c) (fun _ => true) n.
Proof.
  induction n as [d|nm attrs cs IH|nm|d|t] using node_induction;
    try reflexivity.
  cbn [attributes_within built]. f_equal.
  induction IH as [|k cs Hk _ IHcs]; [reflexivity|].
  cbn [forallb]. rewrite Hk, IHcs. reflexivity.
Qed.

Lemma merge_go_In (l : list attr_entry) :
  forall (h : list string) (r : list attr_entry) (e : attr_entry),
    In e (snd (_merge_arrays_uniq_go h r l)) -> In e r \/ In e l.
Proof.
  induction l as [|a l IH]; intros h r e H; cbn [_merge_arrays_uniq_go] in H.
  - left. exact H.
  - destruct (contains h (entry_key a)).
    + destruct (IH _ _ _ H) as [H1|H1]; [left; exact H1|right; right; exact H1].
    + destruct (IH _ _ _ H) as [H1|H1]; [|right; right; exact H1].
      apply in_app_or in H1. destruct H1 as [H1|[<-|[]]];
        [left; exact H1|right; left; reflexivity].
Qed.

Lemma allowed_plain_In (c : config) (name : string) (e : attr_entry) :
  In e (allowed_plain c name) ->
  In (entry_name e) (permitted_names c name).
Proof.
  unfold allowed_plain, allowed_attributes_of, permitted_names.
  cbn [attr_whitelist].
  set (l1 := default [] (attributes c !! name)).
  set (l2 := default [] (attributes c !! ALL)).
  assert (Hm : In e (_merge_arrays_uniq [l1; l2; []]) ->
               In e l1 \/ In e l2).
  { unfold _merge_arrays_uniq. cbn [fold_left fst snd]. intros H.
    apply merge_go_In in H. destruct H as [H|[]].
    apply merge_go_In in H. destruct H as [H|H]; [|right; exact H].
    apply merge_go_In in H. destruct H as [[]|H]. left. exact H. }
  intros H. rewrite !in_app_iff.
  destruct (classnames c !! name) as [[|x xs]|].
  - destruct (Hm H) as [H1|H1]; [left|right; left]; apply in_map; exact H1.
  - apply in_app_or in H. destruct H as [H|[<-|[]]].
    + destruct (Hm H) as [H1|H1]; [left|right; left]; apply in_map; exact H1.
    + right. right. left. left. reflexivity.
  - destruct (Hm H) as [H1|H1]; [left|right; left]; apply in_map; exact H1.
Qed.

Lemma add_config_attributes_names (c : config) (name : string)
    (na : list (string * string)) :
  incl (map fst (add_config_attributes c name na))
    (map fst (default [] (add_attributes c !! name)) ++ map fst na).
Proof.
  unfold add_config_attributes.
  generalize (default [] (add_attributes c !! name)). intros l. revert na.
  induction l as [|[k v] l IH]; intros na; cbn [fold_left map fst app].
  - intros x Hx. exact Hx.
  - intros x Hx. apply IH in Hx. apply in_app_or in Hx.
    destruct Hx as [Hx|Hx]; [right; apply in_or_app; left; exact Hx|].
    assert (Hset : incl (map fst (set_attr k v na)) (k :: map fst na)).
    { clear. induction na as [|[k' v'] na IH]; cbn [set_attr map fst].
      - intros x [<-|[]]. left. reflexivity.
      - destruct (String.eqb_spec k' k) as [->|Hne]; cbn [map fst].
        + intros x Hx. right. exact Hx.
        + intros x [<-|Hx]; [right; left; reflexivity|].
          destruct (IH x Hx) as [<-|Hin]; [left; reflexivity|].
          right. right. exact Hin. }
    destruct (Hset x Hx) as [<-|Hin]; [left; reflexivity|].
    right. apply in_or_app. right. exact Hin.
Qed.

(** Without transformers, for rules whose names are lower-case names of
    tags and attributes (no member of [Object.prototype], no property of
    the attribute map) and a document in which no tag is a member of
    [Object.prototype] and no [id] or [name] hides a property of a form,
    an element of the fragment bears no attribute but those the rules
    permit for its tag: the listed ones and the added ones. *)
Theorem fragment_attributes_are_permitted (f : nat) (s : sanitizer)
    (container : node) (fragment : list node) (s' : sanitizer) :
  transformers s = [] ->
  ordinary_rules (cfg s) = true ->
  ordinary_document container = true ->
  clean_node f s container = Ok (fragment, s') ->
  forallb (attributes_within (cfg s)) fragment = true.
Proof.
  intros Ht _ _ H.
  rewrite (forallb_same _ _ fragment (attributes_within_built (cfg s))).
  apply (built_fragment s (permitted (cfg s)) (fun _ => true)) with
    f s container s'; try reflexivity; try assumption.
  - intros s1 fuel nm attrs c' na (_ & B2 & B3 & B4 & _) _ Hrun.
    apply clean_attributes_steps in Hrun. cbn [fst snd] in Hrun.
    destruct Hrun as [(A1 & A2 & A3 & _) Hnames].
    unfold permitted. apply forallb_forall. intros [k v] Hkv.
    cbn [fst]. unfold contains. apply existsb_exists. exists k.
    split; [|apply String.eqb_refl].
    apply (in_map fst) in Hkv. cbn [fst] in Hkv.
    apply add_config_attributes_names in Hkv.
    unfold permitted_names. rewrite !in_app_iff.
    apply in_app_or in Hkv. destruct Hkv as [Hk|Hk].
    + right. right. right. rewrite <- B4, <- A3. exact Hk.
    + apply Hnames in Hk. rewrite app_nil_r in Hk.
      apply in_map_iff in Hk. destruct Hk as (e & <- & He).
      apply allowed_plain_In in He. unfold permitted_names in He.
      rewrite !in_app_iff in He. rewrite <- B2, <- B3, <- B4. exact He.
  - apply same_lists_refl.
Qed.

Lemma fragment_attributes_are_permitted_witness :
  forallb (attributes_within (cfg (new links_only))) link_output = true.
Proof.
  destruct link_run as [s' Hrun].
  exact (fragment_attributes_are_permitted 9 (new links_only) link_input
           link_output s' eq_refl eq_refl eq_refl Hrun).
Defined.

(** The nodes a fragment may hold: elements, text and entity
    references, and comments where the rules allow them. *)
Fixpoint nodes_within (comments : bool) (n : node) : bool :=
match n with
| Elem _ _ cs => forallb (nodes_within comments) cs
| Text _ | EntityRef _ => true
| Comment _ => comments
| OtherNode _ => false
end.

Definition leaf_within (comments : bool) (n : node) : bool :=
match n with
| Comment _ => comments
| OtherNode _ => false
| _ => true
end.

Lemma nodes_within_built (comments : bool) (n : node) :
  nodes_within comments n
  = built (fun _ _ => true) (leaf_within comments) n.
Proof.
  induction n as [d|nm attrs cs IH|nm|d|t] using node_induction;
    try reflexivity.
  cbn [nodes_within built andb].
  induction IH as [|k cs Hk _ IHcs]; [reflexivity|].
  cbn [forallb]. rewrite Hk, IHcs. reflexivity.
Qed.

(** Without transformers the fragment holds no comment unless the rules
    allow comments, and no node of another kind than element, text,
    entity reference and comment. *)
Theorem fragment_drops_comments (f : nat) (s : sanitizer)
    (container : node) (fragment : list node) (s' : sanitizer) :
  transformers s = [] ->
  clean_node f s container = Ok (fragment, s') ->
  forallb (nodes_within (allow_comments (cfg s))) fragment = true.
Proof.
  intros Ht H.
  rewrite (forallb_same _ _ fragment
             (nodes_within_built (allow_comments (cfg s)))).
  apply (built_fragment s (fun _ _ => true)
           (leaf_within (allow_comments (cfg s)))) with f s container s';
    try reflexivity; try assumption.
  - intros d Hc. exact Hc.
  - apply same_lists_refl.
Qed.

Lemma fragment_drops_comments_witness :
  forallb (nodes_within false) link_output = true.
Proof.
  destruct link_run as [s' Hrun].
  exact (fragment_drops_comments 9 (new links_only) link_input link_output
           s' eq_refl Hrun).
Defined.

(** ** The text of the fragment *)

(** The text below a node that is not below an element whose contents
    the rules strip. *)
Fixpoint kept_text (c : config) (n : node) : string :=
match n with
| Text d => d
| Elem nm _ cs =>
    if negb (remove_all_contents c)
       && negb (bool_decide (toLowerCase nm ∈ remove_element_contents c))
    then concat_strings (map (kept_text c) cs)
    else ""
| _ => ""
end.

Definition kept_text_list (c : config) (l : list node) : string :=
concat_strings (map (kept_text c) l).

Section Text.

Variable s0 : sanitizer.

Definition strips_alike (s : sanitizer) : Prop :=
remove_all_contents (cfg s) = remove_all_contents (cfg s0)
/\ remove_element_contents (cfg s) = remove_element_contents (cfg s0).

Lemma strips_alike_kept (s r : sanitizer) :
  strips_alike s -> same_lists s r -> strips_alike r.
Proof.
  intros [K1 K2] (_ & _ & _ & _ & _ & B6 & B7). split; congruence.
Qed.

Lemma text_clean (f : nat) :
  forall (s r : sanitizer) (ref : path) (e : node),
    plain s -> strips_alike s ->
    _clean f s ref e = Ok r ->
    textContent_list (current_element r)
    = textContent_list (current_element s) +:+ kept_text (cfg s0) e.
Proof.
  induction f as [|f IH]; intros s r ref e Hp Hk H; [discriminate|].
  assert (Hloop : forall (cs : list node) (s r : sanitizer) (ref : path)
                         (j : nat),
             plain s -> strips_alike s ->
             clean_children (_clean f) ref j cs s = Ok r ->
             textContent_list (current_element r)
             = textContent_list (current_element s)
               +:+ kept_text_list (cfg s0) cs).
  { clear s r ref e Hp Hk H.
    induction cs as [|c cs IHcs]; intros s r ref j Hp Hk H.
    - injection H as <-. symmetry. apply append_nil_r.
    - cbn [clean_children] in H. apply bind_ok in H.
      destruct H as (rm & Hm & H).
      rewrite (IHcs rm r ref (S j)); [| | |exact H].
      + rewrite (IH _ _ _ _ Hp Hk Hm).
        change (kept_text_list (cfg s0) (c :: cs))
          with (kept_text (cfg s0) c +:+ kept_text_list (cfg s0) cs).
        apply append_assoc.
      + apply (keeps_plain s); [|exact Hp].
        apply (keeps_clean _ _ _ _ _ Hp Hm).
      + apply (strips_alike_kept s); [exact Hk|].
        apply (same_lists_clean _ _ _ _ _ Hp Hm). }
  destruct e as [d|nm attrs kids|nm|d|t]; cbn [_clean] in H.
  - injection H as <-. cbn [with_current current_element].
    rewrite textContent_list_app. f_equal. apply append_nil_r.
  - assert (Hiter : forall (s1 r1 : sanitizer),
               plain s1 -> strips_alike s1 ->
               iterate_plain (_clean f) ref (toLowerCase nm) kids s1 = Ok r1 ->
               textContent_list (current_element r1)
               = textContent_list (current_element s1)
                 +:+ kept_text (cfg s0) (Elem nm attrs kids)).
    { intros s1 r1 Hp1 Hk1 H1. unfold iterate_plain in H1.
      cbn [kept_text]. destruct Hk1 as [K1 K2]. rewrite <- K1, <- K2.
      destruct (negb _ && negb _).
      - apply (Hloop kids s1 r1 ref 0); [exact Hp1|split; assumption|exact H1].
      - injection H1 as <-. symmetry. apply append_nil_r. }
    rewrite clean_element_plain in H by exact Hp.
    unfold element_plain in H.
    destruct (bool_decide (toLowerCase nm ∈ allowed_elements s)).
    + apply bind_ok in H. destruct H as ([c' na] & Hattr & H).
      cbn [fst snd] in H.
      apply bind_ok in H. destruct H as (rin & Hin & H). injection H as <-.
      cbn [with_current current_element].
      rewrite textContent_list_app. f_equal.
      apply clean_attributes_steps in Hattr.
      destruct Hattr as [(_ & _ & _ & _ & A5 & A6) _]. cbn [fst] in *.
      assert (Hk1 : strips_alike (with_current (with_cfg s c') [])).
      { destruct Hk as [K1 K2].
        split; cbn [with_current with_cfg cfg]; congruence. }
      assert (Hp1 : plain (with_current (with_cfg s c') [])) by exact Hp.
      rewrite (DomFacts.append_nil_r _ : textContent_list
                 [Elem nm (add_config_attributes c' (toLowerCase nm) na)
                    (normalize_list (current_element rin))]
               = textContent_list (normalize_list (current_element rin))).
      rewrite normalize_list_text.
      rewrite (Hiter _ _ Hp1 Hk1 Hin). reflexivity.
    + apply bind_ok in H. destruct H as (rin & Hin & H). injection H as <-.
      cbn [with_current current_element]. rewrite normalize_list_text.
      apply (Hiter _ _ Hp Hk Hin).
  - injection H as <-. cbn [with_current current_element].
    rewrite textContent_list_app. reflexivity.
  - destruct (allow_comments (cfg s)); injection H as <-.
    + cbn [with_current current_element].
      rewrite textContent_list_app. reflexivity.
    + symmetry. apply append_nil_r.
  - injection H as <-. symmetry. apply append_nil_r.
Qed.

Lemma text_children (f : nat) (cs : list node) :
  forall (s r : sanitizer) (ref : path) (j : nat),
    plain s -> strips_alike s ->
    clean_children (_clean f) ref j cs s = Ok r ->
    textContent_list (current_element r)
    = textContent_list (current_element s) +:+ kept_text_list (cfg s0) cs.
Proof.
  induction cs as [|c cs IHcs]; intros s r ref j Hp Hk H.
  - injection H as <-. symmetry. apply append_nil_r.
  - cbn [clean_children] in H. apply bind_ok in H.
    destruct H as (rm & Hm & H).
    rewrite (IHcs rm r ref (S j)); [| | |exact H].
    + rewrite (text_clean _ _ _ _ _ Hp Hk Hm).
      change (kept_text_list (cfg s0) (c :: cs))
        with (kept_text (cfg s0) c +:+ kept_text_list (cfg s0) cs).
      apply append_assoc.
    + apply (keeps_plain s); [|exact Hp].
      apply (keeps_clean _ _ _ _ _ Hp Hm).
    + apply (strips_alike_kept s); [exact Hk|].
      apply (same_lists_clean _ _ _ _ _ Hp Hm).
Qed.

End Text.

(** Without transformers, and for a document in which no tag is a
    member of [Object.prototype] and no [id] or [name] hides a property
    of a form, no text is made and none is lost but the text the rules
    strip: the text of the fragment is the text below the container that
    is not below an element whose contents are stripped.  The text below
    an element that is merely not allowed is kept. *)
Theorem fragment_text_is_the_kept_text (f : nat) (s : sanitizer)
    (container : node) (fragment : list node) (s' : sanitizer) :
  transformers s = [] ->
  ordinary_document container = true ->
  clean_node f s container = Ok (fragment, s') ->
  textContent_list fragment = kept_text_list (cfg s) (children container).
Proof.
  intros Ht _ H. unfold clean_node in H.
  apply bind_ok in H. destruct H as (r & Hr & H). injection H as <- <-.
  cbn [with_current current_element]. rewrite normalize_list_text.
  set (s1 := with_whitelist_nodes (with_current s []) []) in *.
  assert (Hp : plain s1) by (split; [exact Ht|reflexivity]).
  assert (Hk : strips_alike s s1) by (split; reflexivity).
  rewrite (text_children s f _ _ _ _ _ Hp Hk Hr). reflexivity.
Qed.

(** With the editor's own rules the text of a script element is
    stripped, the text of a [span], which is not allowed either, is
    kept. *)
Lemma fragment_text_is_the_kept_text_witness :
  let container :=
    Elem "BODY" []
      [Elem "P" [] [Text "a"; Elem "SPAN" [] [Text "b"]];
       Elem "SCRIPT" [] [Text "c()"]] in
  exists fragment,
    cleaned 9 RichTextEditor.filterRules (children container)
    = Some fragment
    /\ textContent_list fragment = "ab".
Proof.
  intros container. unfold cleaned.
  change (Elem "BODY" [] (children container)) with container.
  destruct (clean_node 9 (new RichTextEditor.filterRules) container)
    as [[fragment s']| |] eqn:E;
    [|vm_compute in E; discriminate|vm_compute in E; discriminate].
  exists fragment. split; [reflexivity|].
  rewrite (fragment_text_is_the_kept_text 9
             (new RichTextEditor.filterRules) container fragment s'
             eq_refl eq_refl E).
  vm_compute. reflexivity.
Defined.

(** ** The loop over the allowed attributes *)

Lemma first_match_app (v : string) (protos more : list string) :
  forall n k, first_match v protos n = Some k ->
              first_match v (protos ++ more) n = Some k.
Proof.
  induction protos as [|p protos IH]; intros n k H; [discriminate|].
  cbn [first_match app] in *.
  destruct (startsWith (toLowerCase p) v); [exact H|].
  apply IH. exact H.
Qed.

Lemma protocols_with (c : config) (name a : string) (protos : list string) :
  protocols (with_protocols c name a protos) !! name
    ≫= (fun m => m !! a) = Some protos.
Proof.
  unfold with_protocols. cbn [protocols].
  rewrite lookup_insert_eq. cbn. apply lookup_insert_eq.
Qed.

(** The pass for an attribute whose value begins with protocol [k] of
    its list: the index of the loop is [k] when the pass is over. *)
Lemma clean_attribute_match (name : string) (ea : list (string * string))
    (al : list attr_entry) (i k : nat) (entry : attr_entry) (c : config)
    (na : list (string * string)) (v : string) (protos : list string) :
  get_attr (entry_name entry) ea = Some v ->
  protocols c !! name ≫= (fun m => m !! entry_name entry) = Some protos ->
  first_match (toLowerCase v) (protos ++ [RELATIVE]) 0 = Some k ->
  k < length al ->
  exists na',
    clean_attribute name ea al i entry (c, na)
    = Ok (k, (with_protocols c name (entry_name entry)
                (protos ++ [RELATIVE]), na')).
Proof.
  intros Hv Hp Hk Hlen. unfold clean_attribute. rewrite Hv, Hp, Hk.
  destruct (nth_error al k) as [ek|] eqn:Ek;
    [|apply nth_error_None in Ek; lia].
  destruct (String.eqb (entry_name entry) "class");
    try destruct (classnames _ !! name);
    destruct entry; cbn [isObject bind]; try rewrite Ek;
    try destruct ek; cbn [bind]; eexists; reflexivity.
Qed.

(** The loop over the allowed attributes does not end when the element
    has a protocol-limited attribute whose value begins with one of the
    protocols, the protocol comes earlier in its list than the attribute
    in the list of allowed attributes, and the element has none of the
    allowed attributes in between: the key of the protocol becomes the
    index of the loop, which comes back to the attribute again and
    again. *)
Theorem attribute_loop_never_ends (name : string)
    (ea : list (string * string)) (al : list attr_entry) (i k : nat)
    (entry : attr_entry) (v : string) :
  nth_error al i = Some entry ->
  get_attr (entry_name entry) ea = Some v ->
  k < i ->
  (forall j, k < j < i ->
     exists e, nth_error al j = Some e
               /\ get_attr (entry_name e) ea = None) ->
  forall (fuel : nat) (c : config) (na : list (string * string))
         (protos : list string),
    protocols c !! name ≫= (fun m => m !! entry_name entry) = Some protos ->
    first_match (toLowerCase v) (protos ++ [RELATIVE]) 0 = Some k ->
    clean_attributes fuel name ea al i (c, na) = Diverged.
Proof.
  intros Hi Hv Hki Hgap.
  assert (Hlen : k < length al).
  { assert (i < length al) by (apply nth_error_Some; congruence). lia. }
  assert (Hcycle : forall fuel j c na protos,
             k < j <= i ->
             protocols c !! name ≫= (fun m => m !! entry_name entry)
             = Some protos ->
             first_match (toLowerCase v) (protos ++ [RELATIVE]) 0 = Some k ->
             clean_attributes fuel name ea al j (c, na) = Diverged).
  { induction fuel as [|fuel IH]; intros j c na protos Hj Hp Hk.
    - cbn [clean_attributes].
      destruct (Nat.eq_dec j i) as [->|Hne]; [rewrite Hi; reflexivity|].
      destruct (Hgap j ltac:(lia)) as (e & He & _). rewrite He. reflexivity.
    - cbn [clean_attributes].
      destruct (Nat.eq_dec j i) as [->|Hne].
      + rewrite Hi.
        destruct (clean_attribute_match name ea al i k entry c na v protos
                    Hv Hp Hk Hlen) as (na' & ->).
        cbn [bind fst snd].
        apply (IH (S k) _ na' (protos ++ [RELATIVE])); [lia| |].
        * apply protocols_with.
        * apply first_match_app. exact Hk.
      + destruct (Hgap j ltac:(lia)) as (e & He & Hnone). rewrite He.
        unfold clean_attribute. rewrite Hnone. cbn [bind fst snd].
        apply (IH (S j) c na protos); [lia|exact Hp|exact Hk]. }
  intros fuel c na protos Hp Hk.
  apply (Hcycle fuel i c na protos); [lia|exact Hp|exact Hk].
Qed.

(** The loop over [alt] and [src] for
    [<img src="http://example.org/i.png">], with [src] limited to
    http, cut off after a thousand passes. *)
Lemma attribute_loop_never_ends_witness :
  clean_attributes 1000 "img" [("src", "http://example.org/i.png")]
    [Name "alt"; Name "src"] 1 (cfg (new img_http), []) = Diverged.
Proof.
  apply (attribute_loop_never_ends "img" [("src", "http://example.org/i.png")]
           [Name "alt"; Name "src"] 1 0 (Name "src")
           "http://example.org/i.png" eq_refl eq_refl)
    with (protos := ["http"]).
  - lia.
  - intros j Hj. lia.
  - vm_compute. reflexivity.
  - reflexivity.
Defined.

End SanitizeOutputFacts.

(* ===================================================================== *)
(** * Facts: the host's notifications and the media tracker              *)
(* ===================================================================== *)

Module EditorStateFacts.
Import Dom RichTextEditor RichTextEditorFacts.

Section Editor.

Context {Selection : Type}.
Variable html : node -> string.
Variable getData : node -> string.
Variable saveSelection : node -> option Selection.
Variable insertMedia :
  node -> node -> option path -> option Js.value -> bool -> node.
Variable createObjectURL : option (nat -> string).
Variable imgKeyAttr : string.
Variable updateImageElement :
  node -> string -> Js.value -> list (string * string) -> node.

Abbreviation editor := (@editor Selection).
Abbreviation ownOnChange := (@ownOnChange Selection html).
Abbreviation raw_changed := (@raw_changed Selection html).
Abbreviation onChange := (@onChange Selection html getData saveSelection).
Abbreviation insertAsyncImage_method :=
  (@insertAsyncImage_method Selection html getData saveSelection insertMedia
     createObjectURL imgKeyAttr).
Abbreviation updateAsyncImage_method :=
  (@updateAsyncImage_method Selection html getData saveSelection
     updateImageElement).

(** ** The host's [onChange] *)

(** What matters of an editor for its own [onChange]. *)
Definition heard (e e' : editor) : Prop :=
element e' = element e /\ mediaTracker e' = mediaTracker e
/\ idCounter e' = idCounter e
/\ ((previousRawData e' = previousRawData e /\ calls e' = calls e)
    \/ (raw_changed e = true
        /\ previousRawData e' = Some (html (element e))
        /\ calls e' = calls e ++ [RunPlaceholder; ConfigOnChange])).

Lemma ownOnChange_heard (e : editor) : heard e (ownOnChange e).
Proof.
  unfold heard, RichTextEditor.ownOnChange.
  destruct (raw_changed e) eqn:E; cbn; repeat split; auto.
Qed.

Lemma onChange_heard (e : editor) (type : option string) :
  heard e (onChange e type).
Proof.
  pose proof (ownOnChange_heard e) as Hown.
  assert (Hsame : heard e e) by (repeat split; auto).
  unfold RichTextEditor.onChange, UndoManager.onChange.
  destruct (UndoManager.isTorndown (undoManager e)); [exact Hown|].
  destruct (negb (UndoManager.isRestoring (undoManager e))); cbn.
  - destruct (UndoManager.is_updateAsyncImage type); cbn; [exact Hsame|].
    destruct (UndoManager.currState (undoManager e)); cbn; exact Hown.
  - exact Hown.
Qed.

Lemma count_config_onChange_app (a b : list call) :
  count_config_onChange (a ++ b)
  = count_config_onChange a + count_config_onChange b.
Proof.
  unfold count_config_onChange. rewrite List.filter_app, length_app.
  reflexivity.
Qed.

Lemma quiet_stays_quiet (types : list (option string)) :
  forall e : editor,
    raw_changed e = false ->
    element (fold_left onChange types e) = element e
    /\ calls (fold_left onChange types e) = calls e.
Proof.
  induction types as [|t types IH]; intros e Hq; [split; reflexivity|].
  cbn [fold_left].
  destruct (onChange_heard e t) as (He & _ & _ & [[Hp Hc]|[Hr _]]);
    [|congruence].
  assert (Hq' : raw_changed (onChange e t) = false).
  { unfold RichTextEditor.raw_changed, getRawData in *.
    rewrite Hp, He. exact Hq. }
  destruct (IH _ Hq') as [H1 H2]. split; congruence.
Qed.

(** However many change notifications reach the editor while its
    markup stays the same, the host's [onChange] is called at most once,
    and not at all when the markup is the one it has heard of. *)
Theorem host_hears_a_change_once (e : editor)
    (types : list (option string)) :
  let e' := fold_left onChange types e in
  element e' = element e
  /\ count_config_onChange (calls e')
     <= S (count_config_onChange (calls e))
  /\ (raw_changed e = false -> calls e' = calls e).
Proof.
  cbv zeta. revert e.
  induction types as [|t types IH]; intros e.
  - cbn [fold_left]. split; [reflexivity|]. split; [lia|reflexivity].
  - cbn [fold_left].
    destruct (onChange_heard e t) as (He & _ & _ & [[Hp Hc]|(Hr & Hp & Hc)]).
    + destruct (IH (onChange e t)) as (H1 & H2 & H3).
      split; [congruence|]. split; [rewrite <- Hc; exact H2|].
      intros Hq. rewrite <- Hc. apply H3.
      unfold RichTextEditor.raw_changed, getRawData in *.
      rewrite Hp, He. exact Hq.
    + assert (Hq' : raw_changed (onChange e t) = false).
      { unfold RichTextEditor.raw_changed, getRawData.
        rewrite Hp, He, String.eqb_refl. reflexivity. }
      destruct (quiet_stays_quiet types _ Hq') as [H1 H2].
      split; [congruence|]. split; [|congruence].
      rewrite H2, Hc, count_config_onChange_app.
      unfold count_config_onChange at 2. cbn. lia.
Qed.

(** ** The media tracker *)

Lemma uniqueId_injective (n m : nat) : uniqueId n = uniqueId m -> n = m.
Proof.
  unfold uniqueId. intros H.
  assert (Hu : Nat.to_uint n = Nat.to_uint m).
  { apply (f_equal NilEmpty.uint_of_string) in H.
    rewrite !NilEmpty.usu in H. congruence. }
  apply (f_equal Nat.of_uint) in Hu.
  rewrite !DecimalNat.Unsigned.of_to in Hu. exact Hu.
Qed.

(** The entry [addImageBySource] makes. *)
Definition tracked (src : string) (file : option nat) : tracker_entry :=
{| originalSource := if Js.startsWith "data:" src then "file" else src;
   file := file; updatedSource := Js.Undefined |}.

Lemma insertAsyncImage_method_tracks (e : editor) (src : string)
    (file : option nat) (insertNode : option path)
    (insertDirection : option Js.value) (skipSelectionUpdate : bool) :
  src <> "" ->
  let e1 := insertAsyncImage_method e (Js.Str src) file insertNode
              insertDirection skipSelectionUpdate in
  mediaTracker e1
  = <[uniqueId (S (idCounter e)) := tracked src file]> (mediaTracker e)
  /\ idCounter e1 = S (idCounter e).
Proof.
  intros Hsrc e1. unfold e1, RichTextEditor.insertAsyncImage_method,
    RichTextEditor.insertAsyncImage.
  assert (Ht : Js.truthy (Js.Str src) = true).
  { cbn. apply negb_true_iff. apply String.eqb_neq. exact Hsrc. }
  rewrite Ht. cbn [negb]. unfold addImageBySource.
  match goal with
  | |- context [onChange (onChange ?x None) None] => set (e0 := x)
  end.
  destruct (onChange_heard e0 None) as (_ & Hm1 & Hi1 & _).
  destruct (onChange_heard (onChange e0 None) None) as (_ & Hm2 & Hi2 & _).
  rewrite Hm2, Hm1, Hi2, Hi1. split; reflexivity.
Qed.

(** An image inserted from a source is tracked under a key of its own:
    the entry holds the source and the file, and a later insertion
    leaves it as it is. *)
Theorem inserted_images_are_tracked (e : editor) (src src' : string)
    (file file' : option nat) (insertNode insertNode' : option path)
    (insertDirection insertDirection' : option Js.value)
    (skipSelectionUpdate skipSelectionUpdate' : bool) :
  src <> "" -> src' <> "" ->
  let e1 := insertAsyncImage_method e (Js.Str src) file insertNode
              insertDirection skipSelectionUpdate in
  let e2 := insertAsyncImage_method e1 (Js.Str src') file' insertNode'
              insertDirection' skipSelectionUpdate' in
  let key := uniqueId (S (idCounter e)) in
  let key' := uniqueId (S (S (idCounter e))) in
  key <> key'
  /\ mediaTracker e1 !! key = Some (tracked src file)
  /\ mediaTracker e2 !! key = Some (tracked src file)
  /\ mediaTracker e2 !! key' = Some (tracked src' file')
  /\ (forall k, k <> key -> k <> key' ->
                mediaTracker e2 !! k = mediaTracker e !! k).
Proof.
  intros Hsrc Hsrc' e1 e2 key key'.
  destruct (insertAsyncImage_method_tracks e src file insertNode
              insertDirection skipSelectionUpdate Hsrc) as [Hm1 Hi1].
  destruct (insertAsyncImage_method_tracks e1 src' file' insertNode'
              insertDirection' skipSelectionUpdate' Hsrc') as [Hm2 Hi2].
  fold e1 in Hm1, Hi1. fold e1 e2 in Hm2, Hi2.
  rewrite Hi1 in Hm2. fold key in Hm1. fold key' in Hm2.
  assert (Hne : key <> key').
  { intros H. apply uniqueId_injective in H. lia. }
  split; [exact Hne|]. rewrite Hm2, Hm1.
  split; [apply lookup_insert_eq|].
  split; [rewrite lookup_insert_ne by congruence; apply lookup_insert_eq|].
  split; [apply lookup_insert_eq|].
  intros k Hk Hk'. rewrite !lookup_insert_ne by congruence. reflexivity.
Qed.

(** For a key of letters and digits that is no member of
    [Object.prototype] (the keys [_.uniqueId()] gives are such keys; the
    selector [getAsyncImage] builds takes them, and the tracker, a plain
    object, answers them only if it holds them): [updateAsyncImage] with
    a new source throws exactly when the key is not in the tracker;
    where it returns it records the new source in the entry of the key
    and leaves the other entries alone.  Without a new source it always
    returns and the tracker is what it was. *)
Theorem updateAsyncImage_records_the_source (e : editor) (key : string)
    (source : Js.value) (attributes : list (string * string)) :
  plain_key key = true ->
  (updateAsyncImage_method e key source attributes = None <->
   Js.truthy source = true /\ mediaTracker e !! key = None)
  /\ (forall e',
        updateAsyncImage_method e key source attributes = Some e' ->
        if Js.truthy source
        then exists entry,
               mediaTracker e !! key = Some entry
               /\ mediaTracker e'
                  = <[key := {| originalSource := originalSource entry;
                                file := file entry;
                                updatedSource := source |}]>
                      (mediaTracker e)
        else mediaTracker e' = mediaTracker e).
Proof.
  intros _.
  unfold RichTextEditor.updateAsyncImage_method,
    RichTextEditor.updateAsyncImage.
  destruct (Js.truthy source) eqn:Et.
  - cbn [with_element mediaTracker element previousRawData undoManager
         idCounter calls].
    destruct (mediaTracker e !! key) as [entry|] eqn:Ek.
    + split; [split; [discriminate|intros [_ H]; discriminate]|].
      intros e' [= <-]. exists entry. split; [reflexivity|].
      match goal with
      | |- mediaTracker (onChange ?x ?t) = _ =>
          destruct (onChange_heard x t) as (_ & Hm & _)
      end.
      rewrite Hm. reflexivity.
    + split; [split; [auto|reflexivity]|]. discriminate.
  - split; [split; [discriminate|intros [H _]; discriminate]|].
    intros e' [= <-].
    match goal with
    | |- mediaTracker (onChange ?x ?t) = _ =>
        destruct (onChange_heard x t) as (_ & Hm & _)
    end.
    rewrite Hm. reflexivity.
Qed.

End Editor.

(** Two images inserted into the empty editor have the keys 1 and 2. *)
Lemma inserted_images_are_tracked_witness :
  let e2 :=
    insertAsyncImage_method textContent textContent (fun _ => @None unit)
      (fun el _ _ _ _ => el) None "data-img-key"
      (insertAsyncImage_method textContent textContent (fun _ => None)
         (fun el _ _ _ _ => el) None "data-img-key"
         blank (Js.Str "https://cdn.example/a.png") None None None false)
      (Js.Str "data:image/png;base64,AAAA") (Some 7) None None false in
  mediaTracker e2 !! "1"
  = Some {| originalSource := "https://cdn.example/a.png"; file := None;
            updatedSource := Js.Undefined |}
  /\ mediaTracker e2 !! "2"
     = Some {| originalSource := "file"; file := Some 7;
               updatedSource := Js.Undefined |}.
Proof.
  destruct (inserted_images_are_tracked textContent textContent
              (fun _ => @None unit) (fun el _ _ _ _ => el) None
              "data-img-key" blank
              "https://cdn.example/a.png" "data:image/png;base64,AAAA"
              None (Some 7) None None None None false false
              ltac:(discriminate) ltac:(discriminate))
    as (_ & _ & H1 & H2 & _).
  split; [exact H1|exact H2].
Defined.

(** The key 1, a key of [_.uniqueId()], is not in the tracker of the
    empty editor: a new source for it throws. *)
Lemma updateAsyncImage_records_the_source_witness :
  plain_key "1" = true
  /\ updateAsyncImage_method textContent textContent (fun _ => @None unit)
       (fun el _ _ _ => el) blank "1" (Js.Str "https://cdn.example/b.png")
       []
     = None.
Proof.
  split; [reflexivity|].
  destruct (updateAsyncImage_records_the_source textContent textContent
              (fun _ => @None unit) (fun el _ _ _ => el) blank "1"
              (Js.Str "https://cdn.example/b.png") [] eq_refl) as [H _].
  apply H. split; reflexivity.
Defined.

End EditorStateFacts.

(* ===================================================================== *)
(** * Facts: a selection that does not start in a text node              *)
(* ===================================================================== *)

Module SelectionEdgeFacts.
Import Dom Js SelectionPersistence DomFacts SelectionPersistenceFacts.

(** The loop of [saveSelection] when it does not meet the start
    container: it counts all the text it visits. *)
Lemma save_visits_all (range : Range) (l : list (path * string)) (c : nat) :
  ~ In (startContainer range) (map fst l) ->
  visit_all (fun st : nat * bool => snd st)
    (fun p d st =>
       if path_eqb p (startContainer range)
       then Ok (fst st + startOffset range, true)
       else Ok (fst st + String.length d, false))
    l (c, false)
  = Ok (c + String.length (content l), false).
Proof.
  revert c. induction l as [|[p d] l IH]; intros c Hl.
  - cbn. rewrite Nat.add_0_r. reflexivity.
  - cbn [visit_all snd fst]. unfold path_eqb at 1.
    rewrite bool_decide_eq_false_2 by (intros E; apply Hl; left; exact E).
    cbn [bind]. rewrite IH by (intros E; apply Hl; right; exact E).
    change (content ((p, d) :: l)) with (d +:+ content l).
    rewrite append_length. f_equal. f_equal. lia.
Qed.

(** A selection that starts anywhere but in an editable text node, a
    caret in an empty paragraph for one, is saved as starting at the end
    of the editable text: where it was is not recorded. *)
Theorem selection_outside_text_is_saved_at_the_end
    (containerEl : node) (sel : Range) :
  walkable containerEl = true ->
  ~ In (startContainer sel) (map fst (texts containerEl)) ->
  saveSelection containerEl (Some sel)
  = Ok (Some {| saved_endContainer := endContainer sel;
                saved_start := String.length (editable_text containerEl);
                saved_end :=
                  String.length (editable_text containerEl)
                  + String.length (range_toString containerEl sel) |}).
Proof.
  intros Hw Hout. unfold saveSelection.
  rewrite (walk_container _ _ _ _ Hw), (save_visits_all sel _ 0 Hout).
  cbn [bind fst Nat.add].
  rewrite (walkable_content _ Hw), <- (walkable_editable _ Hw).
  reflexivity.
Qed.

(** The caret in the empty second paragraph of
    [<div><p>abc</p><p><br></p></div>] is saved as the offset 3. *)
Lemma selection_outside_text_is_saved_at_the_end_witness :
  saveSelection
    (Elem "DIV" [] [Elem "P" [] [Text "abc"]; Elem "P" [] [Elem "BR" [] []]])
    (Some {| range_start := ([1], 0); range_end := ([1], 0) |})
  = Ok (Some {| saved_endContainer := [1]; saved_start := 3;
                saved_end := 3 |}).
Proof.
  apply (selection_outside_text_is_saved_at_the_end
           (Elem "DIV" [] [Elem "P" [] [Text "abc"];
                           Elem "P" [] [Elem "BR" [] []]])
           {| range_start := ([1], 0); range_end := ([1], 0) |}).
  - reflexivity.
  - cbn. intros [H|[]]. discriminate H.
Defined.

End SelectionEdgeFacts.

(* ===================================================================== *)
(** * Facts: rules with which the sanitizer always returns               *)
(* ===================================================================== *)

Module SanitizeReturnFacts.
Import Dom Js Sanitize DomFacts SanitizeFacts SanitizeOutputFacts.

(** The attribute [a] of the tag [name] is limited to protocols. *)
Definition restricted (c : config) (name a : string) : bool :=
match protocols c !! name ≫= (fun m => m !! a) with
| Some _ => true
| None => false
end.

Definition same_restrictions (c c' : config) : Prop :=
forall name a, restricted c' name a = restricted c name a.

(** Pushing to a list of protocols limits no other attribute. *)
Lemma with_protocols_restricted (c : config) (name a : string)
    (protos : list string) :
  restricted c name a = true ->
  same_restrictions c (with_protocols c name a protos).
Proof.
  intros Hr name' a'. unfold restricted, with_protocols in *.
  cbn [protocols].
  destruct (decide (name' = name)) as [->|Hn].
  - rewrite lookup_insert_eq. cbn [mbind option_bind].
    destruct (decide (a' = a)) as [->|Ha].
    + rewrite lookup_insert_eq.
      destruct (protocols c !! name ≫= (fun m => m !! a));
        [reflexivity|discriminate].
    + rewrite lookup_insert_ne by congruence.
      destruct (protocols c !! name); reflexivity.
  - rewrite lookup_insert_ne by congruence. reflexivity.
Qed.

(** In a list of allowed attributes, the attributes that are limited to
    protocols come first and are given by name. *)
Definition heads (c : config) (name : string) (al : list attr_entry)
  : Prop :=
forall i e, nth_error al i = Some e ->
            restricted c name (entry_name e) = true ->
            i = 0 /\ isObject e = false.

(** The rules in which this is so for every tag. *)
Definition heads_only (c : config) : Prop :=
forall name, heads c name (allowed_plain c name).

(** One pass of the loop then returns, and the index of the loop is not
    smaller after it than before. *)
Lemma clean_attribute_advances (name : string) (ea : list (string * string))
    (al : list attr_entry) (i : nat) (entry : attr_entry) (c : config)
    (na : list (string * string)) :
  heads c name al -> nth_error al i = Some entry ->
  exists i' c' na',
    clean_attribute name ea al i entry (c, na) = Ok (i', (c', na'))
    /\ i <= i' /\ same_config c c' /\ same_restrictions c c'.
Proof.
  intros Hh Hi. unfold clean_attribute.
  destruct (get_attr (entry_name entry) ea) as [v|].
  2:{ exists i, c, na. repeat split. lia. }
  destruct (protocols c !! name ≫= (fun m => m !! entry_name entry))
    as [protos|] eqn:Ep.
  - assert (Hr : restricted c name (entry_name entry) = true)
      by (unfold restricted; rewrite Ep; reflexivity).
    destruct (Hh i entry Hi Hr) as [-> Hobj].
    pose proof (with_protocols_restricted c name (entry_name entry)
                  (protos ++ [RELATIVE]) Hr) as Hsame.
    rewrite Hobj.
    destruct (first_match _ _ _);
      destruct (String.eqb (entry_name entry) "class");
      try destruct (classnames _ !! name);
      cbn [bind]; eexists _, _, _;
      (split; [reflexivity|]); (split; [lia|]);
      (split; [repeat split|exact Hsame]).
  - rewrite Hi.
    destruct (String.eqb (entry_name entry) "class");
      try destruct (classnames _ !! name);
      destruct entry; cbn [isObject bind]; eexists _, _, _;
      (split; [reflexivity|]); (split; [lia|]);
      (split; [repeat split|intros ? ?; reflexivity]).
Qed.

Lemma heads_same (c c' : config) (name : string) (al : list attr_entry) :
  same_restrictions c c' -> heads c name al -> heads c' name al.
Proof.
  intros Hs Hh i e Hi Hr. rewrite Hs in Hr. exact (Hh i e Hi Hr).
Qed.

Lemma clean_attributes_return (name : string) (ea : list (string * string))
    (al : list attr_entry) :
  forall (fuel i : nat) (c : config) (na : list (string * string)),
    heads c name al -> length al - i <= fuel ->
    exists c' na',
      clean_attributes fuel name ea al i (c, na) = Ok (c', na')
      /\ same_config c c' /\ same_restrictions c c'.
Proof.
  induction fuel as [|fuel IH]; intros i c na Hh Hfuel.
  - cbn [clean_attributes].
    destruct (nth_error al i) eqn:E.
    + assert (Hi : i < length al) by (apply nth_error_Some; congruence). lia.
    + exists c, na. repeat split.
  - cbn [clean_attributes].
    destruct (nth_error al i) as [entry|] eqn:E;
      [|exists c, na; repeat split].
    assert (Hi : i < length al) by (apply nth_error_Some; congruence).
    destruct (clean_attribute_advances name ea al i entry c na Hh E)
      as (i1 & c1 & na1 & H1 & Hle & A & B).
    rewrite H1. cbn [bind fst snd].
    destruct (IH (S i1) c1 na1 (heads_same _ _ _ _ B Hh) ltac:(lia))
      as (c2 & na2 & H2 & A2 & B2).
    exists c2, na2. split; [exact H2|]. split.
    + destruct A as (A11 & A12 & A13 & A14 & A15 & A16),
               A2 as (B11 & B12 & B13 & B14 & B15 & B16).
      repeat split; congruence.
    + intros n a. rewrite B2. apply B.
Qed.

Section Returns.

Variable s0 : sanitizer.
Hypothesis s0_heads : heads_only (cfg s0).

(** The sanitizers a run from [s0] goes through. *)
Definition reached (s : sanitizer) : Prop :=
plain s /\ same_lists s0 s /\ same_restrictions (cfg s0) (cfg s).

Lemma reached_with_current (s : sanitizer) (c : list node) :
  reached s -> reached (with_current s c).
Proof. intros H. exact H. Qed.

Lemma reached_allowed (s : sanitizer) (name : string) :
  reached s -> allowed_plain (cfg s) name = allowed_plain (cfg s0) name.
Proof.
  intros (_ & (_ & A2 & A3 & _) & _).
  unfold allowed_plain, allowed_attributes_of. rewrite A2, A3. reflexivity.
Qed.

Definition total_on (e : node) (f0 : nat) : Prop :=
forall f, f0 <= f -> forall s ref,
  reached s -> exists r, _clean f s ref e = Ok r /\ reached r.

Lemma children_total (kids : list node) :
  Forall (fun k => exists f0, total_on k f0) kids ->
  exists f0, forall f, f0 <= f -> forall s ref j,
    reached s ->
    exists r, clean_children (_clean f) ref j kids s = Ok r /\ reached r.
Proof.
  induction 1 as [|k kids [fk Hk] _ [fr IH]].
  - exists 0. intros f _ s ref j Hs. exists s. split; [reflexivity|exact Hs].
  - exists (Nat.max fk fr). intros f Hf s ref j Hs.
    cbn [clean_children].
    destruct (Hk f ltac:(lia) s (ref ++ [j]) Hs) as (rm & Hm & Hrm).
    rewrite Hm. cbn [bind]. apply IH; [lia|exact Hrm].
Qed.

Lemma clean_total (e : node) : exists f0, total_on e f0.
Proof.
  induction e as [d|nm attrs kids IH|nm|d|t] using node_induction.
  - exists 1. intros f Hf s ref Hs. destruct f as [|f]; [lia|].
    eexists. split; [reflexivity|exact Hs].
  - destruct (children_total kids IH) as (fk & Hk).
    set (name := toLowerCase nm).
    exists (S (Nat.max fk (length (allowed_plain (cfg s0) name)))).
    intros f Hf s ref Hs. destruct f as [|f]; [lia|].
    cbn [_clean]. pose proof Hs as (Hp & Hl & Hr).
    rewrite clean_element_plain by exact Hp.
    unfold element_plain. fold name.
    assert (Hiter : forall s1, reached s1 ->
              exists r, iterate_plain (_clean f) ref name kids s1 = Ok r
                        /\ reached r).
    { intros s1 Hs1. unfold iterate_plain.
      destruct (negb _ && negb _).
      - apply Hk; [lia|exact Hs1].
      - exists s1. split; [reflexivity|exact Hs1]. }
    destruct (bool_decide (name ∈ allowed_elements s)).
    + rewrite (reached_allowed s name Hs).
      destruct (clean_attributes_return name attrs
                  (allowed_plain (cfg s0) name) f 0 (cfg s) []
                  (heads_same _ _ _ _ (fun n a => Hr n a) (s0_heads name))
                  ltac:(lia))
        as (c' & na' & Hattr & A & B).
      rewrite Hattr. cbn [bind fst snd].
      assert (Hs1 : reached (with_current (with_cfg s c') [])).
      { split; [exact Hp|]. split.
        - destruct Hl as (L1 & L2 & L3 & L4 & L5 & L6 & L7),
                   A as (A1 & A2 & A3 & A4 & A5 & A6).
          repeat split; cbn [with_current with_cfg cfg allowed_elements];
            congruence.
        - intros n a. cbn [with_current with_cfg cfg].
          rewrite B. apply Hr. }
      destruct (Hiter _ Hs1) as (rin & Hin & Hrin).
      rewrite Hin. cbn [bind]. eexists. split; [reflexivity|exact Hrin].
    + destruct (Hiter _ Hs) as (rin & Hin & Hrin).
      rewrite Hin. cbn [bind]. eexists. split; [reflexivity|exact Hrin].
  - exists 1. intros f Hf s ref Hs. destruct f as [|f]; [lia|].
    eexists. split; [reflexivity|exact Hs].
  - exists 1. intros f Hf s ref Hs. destruct f as [|f]; [lia|].
    cbn [_clean]. destruct (allow_comments (cfg s));
      eexists; (split; [reflexivity|exact Hs]).
  - exists 1. intros f Hf s ref Hs. destruct f as [|f]; [lia|].
    eexists. split; [reflexivity|exact Hs].
Qed.

End Returns.

(** With rules in which the attributes limited to protocols come first
    among the attributes allowed for their tag and whose names are
    lower-case names of tags and attributes (no member of
    [Object.prototype], no property of the attribute map), and without
    transformers, [clean_node] returns a fragment for every document in
    which no tag is a member of [Object.prototype] and no [id] or [name]
    hides a property of a form: it neither throws nor goes on for ever.
    In the rules it leaves the attributes limited to protocols still
    come first. *)
Theorem protocols_at_the_head_always_return (s : sanitizer)
    (container : node) :
  transformers s = [] -> heads_only (cfg s) ->
  ordinary_rules (cfg s) = true -> ordinary_document container = true ->
  exists f0, forall f, f0 <= f ->
    exists fragment s',
      clean_node f s container = Ok (fragment, s')
      /\ transformers s' = [] /\ heads_only (cfg s').
Proof.
  intros Ht Hh _ _. unfold clean_node.
  set (s1 := with_whitelist_nodes (with_current s []) []).
  assert (Hs1 : reached s s1).
  { split; [split; [exact Ht|reflexivity]|].
    split; [repeat split|intros n a; reflexivity]. }
  destruct (children_total s (children container)) as (f0 & H0).
  { apply List.Forall_forall. intros k _. apply clean_total. exact Hh. }
  exists f0. intros f Hf.
  destruct (H0 f Hf s1 [] 0 Hs1) as (r & Hr & Hreached).
  rewrite Hr. cbn [bind]. eexists _, _. split; [reflexivity|].
  cbn [with_current cfg transformers].
  pose proof Hreached as ([Hpt _] & _ & Hsame).
  split; [exact Hpt|].
  intros name. rewrite (reached_allowed s r name Hreached).
  apply (heads_same (cfg s)); [exact Hsame|apply Hh].
Qed.

(** The editor's own rules are of this kind: [href] is the one
    attribute they limit, and it is the first that [a] may have. *)
Lemma filterRules_heads_only :
  heads_only (cfg (new RichTextEditor.filterRules)).
Proof.
  intros name i e Hi Hr.
  assert (Hname : name = "a" /\ entry_name e = "href").
  { unfold restricted in Hr.
    assert (Hp : protocols (cfg (new RichTextEditor.filterRules))
                 = <["a" := <["href" := ["http"; "https"; "mailto"]]> ∅]> ∅)
      by reflexivity.
    rewrite Hp in Hr.
    destruct (decide (name = "a")) as [->|Hn].
    - split; [reflexivity|].
      rewrite lookup_insert_eq in Hr. cbn [mbind option_bind] in Hr.
      destruct (decide (entry_name e = "href")) as [He|He]; [exact He|].
      rewrite lookup_insert_ne, lookup_empty in Hr by congruence.
      discriminate.
    - rewrite lookup_insert_ne, lookup_empty in Hr by congruence.
      discriminate. }
  destruct Hname as [-> Hhref].
  assert (Hal : allowed_plain (cfg (new RichTextEditor.filterRules)) "a"
                = [Name "href"; Name "title"])
    by (vm_compute; reflexivity).
  rewrite Hal in Hi.
  destruct i as [|[|[|i]]]; cbn [nth_error] in Hi; try discriminate.
  - injection Hi as <-. split; reflexivity.
  - injection Hi as <-. discriminate Hhref.
Qed.

(** The theorem for the editor's own rules and a link with a title. *)
Lemma protocols_at_the_head_always_return_witness :
  exists f0, forall f, f0 <= f ->
    exists fragment s',
      clean_node f (new RichTextEditor.filterRules)
        (Elem "BODY" []
           [Elem "A" [("href", "mailto:a@example.org"); ("title", "t")]
              [Text "x"]])
      = Ok (fragment, s')
      /\ transformers s' = [] /\ heads_only (cfg s').
Proof.
  apply protocols_at_the_head_always_return.
  - reflexivity.
  - exact filterRules_heads_only.
  - vm_compute. reflexivity.
  - reflexivity.
Defined.

End SanitizeReturnFacts.

(* ===================================================================== *)
(** * Facts: [_merge_arrays_uniq]                                         *)
(* ===================================================================== *)

Module SanitizeMergeFacts.
Import Js Sanitize.

(** The hash holds the keys of the result, each once. *)
Definition hashed (h : list string) (r : list attr_entry) : Prop :=
(forall k, In k h <-> In k (map entry_key r))
/\ NoDup (map entry_key r).

Lemma contains_In (l : list string) (k : string) :
  contains l k = true <-> In k l.
Proof.
  unfold contains. rewrite existsb_exists. split.
  - intros (x & Hx & E). apply String.eqb_eq in E. subst x. exact Hx.
  - intros H. exists k. split; [exact H|apply String.eqb_refl].
Qed.

Lemma NoDup_snoc {A : Type} (l : list A) (x : A) :
  NoDup l -> ~ In x l -> NoDup (l ++ [x]).
Proof.
  intros Hl Hx. apply NoDup_app. split; [exact Hl|].
  split; [|apply NoDup_singleton].
  intros y Hy Hy'. apply list_elem_of_singleton in Hy'. subst y.
  apply Hx. apply list_elem_of_In. exact Hy.
Qed.

Lemma merge_go_hashed (l : list attr_entry) :
  forall (h : list string) (r : list attr_entry),
    hashed h r ->
    hashed (fst (_merge_arrays_uniq_go h r l))
      (snd (_merge_arrays_uniq_go h r l))
    /\ (forall e, In e (snd (_merge_arrays_uniq_go h r l)) ->
                  In e r \/ In e l)
    /\ (forall e, In e r \/ In e l ->
                  In (entry_key e)
                    (map entry_key (snd (_merge_arrays_uniq_go h r l)))).
Proof.
  induction l as [|a l IH]; intros h r Hh; cbn [_merge_arrays_uniq_go].
  - split; [exact Hh|]. split; [intros e He; left; exact He|].
    intros e [He|[]]. apply in_map. exact He.
  - destruct (contains h (entry_key a)) eqn:Ec.
    + destruct (IH h r Hh) as (H1 & H2 & H3).
      split; [exact H1|]. split.
      * intros e He. destruct (H2 e He) as [H|H]; [left|right; right]; exact H.
      * intros e [He|[<-|He]]; [apply H3; left; exact He| |
                                 apply H3; right; exact He].
        apply contains_In in Ec. apply (proj1 Hh) in Ec.
        apply in_map_iff in Ec. destruct Ec as (e' & Hk & He').
        rewrite <- Hk. apply H3. left. exact He'.
    + assert (Hnew : hashed (entry_key a :: h) (r ++ [a])).
      { destruct Hh as [Hk Hn]. split.
        - intros k. rewrite map_app. cbn [map]. split.
          + intros [<-|H]; apply in_or_app;
              [right; left; reflexivity|left; apply Hk; exact H].
          + intros H. apply in_app_or in H.
            destruct H as [H|[<-|[]]];
              [right; apply Hk; exact H|left; reflexivity].
        - rewrite map_app. cbn [map]. apply NoDup_snoc; [exact Hn|].
          intros Hin. apply Hk in Hin. apply contains_In in Hin.
          congruence. }
      destruct (IH _ _ Hnew) as (H1 & H2 & H3).
      split; [exact H1|]. split.
      * intros e He. destruct (H2 e He) as [H|H]; [|right; right; exact H].
        apply in_app_or in H. destruct H as [H|[<-|[]]];
          [left; exact H|right; left; reflexivity].
      * intros e [He|[<-|He]]; apply H3;
          [left; apply in_or_app; left; exact He
          |left; apply in_or_app; right; left; reflexivity
          |right; exact He].
Qed.

Lemma merge_fold_hashed (arrays : list (list attr_entry)) :
  forall (h : list string) (r : list attr_entry),
    hashed h r ->
    let out :=
      snd (fold_left
             (fun acc l => _merge_arrays_uniq_go (fst acc) (snd acc) l)
             arrays (h, r)) in
    NoDup (map entry_key out)
    /\ (forall e, In e out -> In e r \/ exists l, In l arrays /\ In e l)
    /\ (forall e, (In e r \/ exists l, In l arrays /\ In e l) ->
                  In (entry_key e) (map entry_key out)).
Proof.
  induction arrays as [|l arrays IH]; intros h r Hh; cbn [fold_left fst snd].
  - split; [exact (proj2 Hh)|]. split; [intros e He; left; exact He|].
    intros e [He|(l & [] & _)]. apply in_map. exact He.
  - destruct (merge_go_hashed l h r Hh) as (H1 & H2 & H3).
    destruct (_merge_arrays_uniq_go h r l) as [h1 r1]. cbn [fst snd] in *.
    destruct (IH h1 r1 H1) as (N & I1 & I2).
    split; [exact N|]. split.
    + intros e He. destruct (I1 e He) as [H|(l' & Hl' & H)].
      * destruct (H2 e H) as [H'|H']; [left; exact H'|].
        right. exists l. split; [left; reflexivity|exact H'].
      * right. exists l'. split; [right; exact Hl'|exact H].
    + intros e He.
      assert (Hcase : In (entry_key e) (map entry_key r1)
                      \/ exists l', In l' arrays /\ In e l').
      { destruct He as [He|(l' & [<-|Hl'] & He)].
        - left. apply H3. left. exact He.
        - left. apply H3. right. exact He.
        - right. exists l'. split; assumption. }
      destruct Hcase as [Hk|Hl']; [|apply I2; right; exact Hl'].
      apply in_map_iff in Hk. destruct Hk as (e' & Hk & He').
      rewrite <- Hk. apply I2. left. exact He'.
Qed.

Lemma one_object (r : list attr_entry) :
  NoDup (map entry_key r) -> length (List.filter isObject r) <= 1.
Proof.
  induction r as [|e r IH]; intros Hn; [cbn; lia|].
  cbn [map] in Hn. apply NoDup_cons in Hn. destruct Hn as [Hfresh Hn].
  rewrite list_elem_of_In in Hfresh.
  cbn [List.filter]. destruct e as [n|n v]; cbn [isObject];
    [exact (IH Hn)|].
  assert (Hnone : List.filter isObject r = []).
  { clear IH Hn. induction r as [|e' r IHr]; [reflexivity|].
    cbn [List.filter]. destruct e' as [n'|n' v']; cbn [isObject].
    - apply IHr. intros H. apply Hfresh. right. exact H.
    - exfalso. apply Hfresh. left. reflexivity. }
  rewrite Hnone. cbn. lia.
Qed.

(** For arrays none of whose entries has a member of [Object.prototype]
    for its key (the hash is a plain object), [_merge_arrays_uniq]
    returns each key once: every entry of the result comes from one of
    the arrays, every entry of the arrays has its key in the result, and
    no two entries of the result have the same key.  All the entries
    that are objects have one key, the string every object becomes as a
    property name, so at most one of them is in the result. *)
Theorem merge_arrays_uniq_keeps_one_object
    (arrays : list (list attr_entry)) :
  Forall (Forall (fun e => inherited (entry_key e) = false)) arrays ->
  let out := _merge_arrays_uniq arrays in
  NoDup (map entry_key out)
  /\ (forall e, In e out -> exists l, In l arrays /\ In e l)
  /\ (forall l e, In l arrays -> In e l ->
                  In (entry_key e) (map entry_key out))
  /\ length (List.filter isObject out) <= 1.
Proof.
  intros _.
  assert (H0 : hashed [] []).
  { split; [intros k; cbn; tauto|constructor]. }
  destruct (merge_fold_hashed arrays [] [] H0) as (N & I1 & I2).
  cbv zeta. fold (_merge_arrays_uniq arrays) in N, I1, I2.
  split; [exact N|]. split; [|split].
  - intros e He. destruct (I1 e He) as [[]|H]. exact H.
  - intros l e Hl He. apply I2. right. exists l. split; assumption.
  - apply one_object. exact N.
Qed.

(** The attributes allowed for [a] and those allowed for every tag, with
    [href] in both lists. *)
Lemma merge_arrays_uniq_keeps_one_object_witness :
  map entry_key
    (_merge_arrays_uniq
       [[Name "href"; Name "title"]; [Name "href"; Name "id"]])
  = ["href"; "title"; "id"]
  /\ NoDup
       (map entry_key
          (_merge_arrays_uniq
             [[Name "href"; Name "title"]; [Name "href"; Name "id"]])).
Proof.
  split; [reflexivity|].
  apply (merge_arrays_uniq_keeps_one_object
           [[Name "href"; Name "title"]; [Name "href"; Name "id"]]).
  repeat (apply List.Forall_cons || apply List.Forall_nil); reflexivity.
Defined.

End SanitizeMergeFacts.
